(** * uDSV: a shallow embedding of the delimited-text parser

    The development follows the two source files of the repository:
    - [src/uDSV.js]      (module [Src]):  [schema], [parse] with a row limit;
    - [dist/uDSV.cjs.js] (module [Dist]): [genToTypedFn], [schema],
      [parse] with a chunk size and a chunk limit.

    JavaScript strings are sequences of code units; they are modelled as
    lists of 8-bit characters.  Positions are JavaScript numbers and can
    become negative ([indexOf] answers -1), so they are integers of [Z].
    Loops that the source writes as [while] are fuelled; running out of
    fuel is a result of its own, distinct from every result of the code. *)

From Stdlib Require Import Ascii String DecimalString.
From Stdlib Require Import ZArith Lia Bool Arith List.
Import ListNotations.

Set Implicit Arguments.

(** ** JavaScript strings and arrays *)

Module JS.

Definition jsstring := list ascii.

Definition str (s : string) : jsstring := list_ascii_of_string s.

(** Outcome of running fuelled code that may throw. *)
Inductive result (A : Type) : Type :=
| Ok (a : A)
| TypeError
| SyntaxError
| OutOfFuel.
Arguments Ok {A} a.
Arguments TypeError {A}.
Arguments SyntaxError {A}.
Arguments OutOfFuel {A}.

Fixpoint startsWith (p s : jsstring) : bool :=
  match p, s with
  | [], _ => true
  | _ :: _, [] => false
  | a :: p', b :: s' => Ascii.eqb a b && startsWith p' s'
  end.

(** Index of the first occurrence of [pat] in [s]. *)
Fixpoint find (pat s : jsstring) : option nat :=
  if startsWith pat s then Some 0
  else match s with
       | [] => None
       | _ :: s' => option_map S (find pat s')
       end.

Definition clamp (len : nat) (i : Z) : nat :=
  Z.to_nat (Z.min (Z.max i 0) (Z.of_nat len)).

(** [s.indexOf(pat, from)]: the start position is clamped to [0, length];
    the answer is -1 when there is no occurrence at or after it. *)
Definition indexOf (s pat : jsstring) (from : Z) : Z :=
  let start := clamp (length s) from in
  match find pat (skipn start s) with
  | Some k => Z.of_nat (start + k)
  | None => (-1)%Z
  end.

(** Relative index of [slice]: a negative index counts from the end. *)
Definition rel_index (len : nat) (i : Z) : nat :=
  if (i <? 0)%Z then Z.to_nat (Z.max (Z.of_nat len + i) 0)
  else Z.to_nat (Z.min i (Z.of_nat len)).

(** [s.slice(b, e)] *)
Definition slice (s : jsstring) (b e : Z) : jsstring :=
  let from := rel_index (length s) b in
  let to := rel_index (length s) e in
  firstn (to - from) (skipn from s).

(** [s.charCodeAt(i)]; [None] stands for NaN. *)
Definition charCodeAt (s : jsstring) (i : Z) : option ascii :=
  if (i <? 0)%Z then None else nth_error s (Z.to_nat i).

(** [a === b] on char codes: NaN is equal to nothing, itself included. *)
Definition code_eq (a b : option ascii) : bool :=
  match a, b with
  | Some x, Some y => Ascii.eqb x y
  | _, _ => false
  end.

Fixpoint split_from (fuel : nat) (sep s : jsstring) : list jsstring :=
  match fuel with
  | O => [s]
  | S fuel' =>
      match find sep s with
      | None => [s]
      | Some k => firstn k s :: split_from fuel' sep (skipn (k + length sep) s)
      end
  end.

(** [s.split(sep)]; [sep = None] is [undefined]. *)
Definition split (s : jsstring) (sep : option jsstring) : list jsstring :=
  match sep with
  | None => [s]
  | Some [] => map (fun c => [c]) s
  | Some d =>
      match s with
      | [] => [[]]
      | _ => split_from (length s) d s
      end
  end.

(** [l.join(sep)] on an array of strings. *)
Fixpoint join (sep : jsstring) (l : list jsstring) : jsstring :=
  match l with
  | [] => []
  | [x] => x
  | x :: l' => x ++ sep ++ join sep l'
  end.

(** Arrays with holes: [None] is an empty slot. *)
Definition Array (A : Type) (n : nat) : list (option A) := repeat None n.
Arguments Array {A} n.

(** [a[i] = x]: the array is extended with holes when [i] is past its end. *)
Fixpoint array_set (A : Type) (a : list (option A)) (i : nat) (x : A)
  : list (option A) :=
  match i, a with
  | O, [] => [Some x]
  | O, _ :: a' => Some x :: a'
  | S i', [] => None :: array_set [] i' x
  | S i', y :: a' => y :: array_set a' i' x
  end.

(** [a[i]]: a hole or an index past the end reads as [undefined]. *)
Definition array_get (A : Type) (a : list (option A)) (i : nat) : option A :=
  match nth_error a i with
  | Some (Some x) => Some x
  | _ => None
  end.

Definition dq : ascii := "034"%char.
Definition lf : ascii := "010"%char.
Definition cr : ascii := "013"%char.

Definition comma : jsstring := str ",".
Definition quote : jsstring := [dq].
Definition tab : jsstring := ["009"%char].
Definition pipe : jsstring := str "|".
Definition semi : jsstring := str ";".

Definition COL_DELIMS : list jsstring := [tab; pipe; semi; comma].
Definition CHUNK_SIZE : nat := 5000.

End JS.

Import JS.

(** ** Numeric strings

    [+val] on a string is NaN exactly when the string, with white space
    trimmed, is not a StringNumericLiteral (the empty string is 0). *)

Module Numeric.

Definition is_digit (c : ascii) : bool :=
  let n := nat_of_ascii c in (48 <=? n) && (n <=? 57).

Definition is_hex_digit (c : ascii) : bool :=
  let n := nat_of_ascii c in
  is_digit c || ((65 <=? n) && (n <=? 70)) || ((97 <=? n) && (n <=? 102)).

Definition is_octal_digit (c : ascii) : bool :=
  let n := nat_of_ascii c in (48 <=? n) && (n <=? 55).

Definition is_binary_digit (c : ascii) : bool :=
  let n := nat_of_ascii c in (48 <=? n) && (n <=? 49).

(** White space and line terminators among the 8-bit code units. *)
Definition is_space (c : ascii) : bool :=
  let n := nat_of_ascii c in
  ((9 <=? n) && (n <=? 13)) || (n =? 32) || (n =? 160).

Fixpoint span (p : ascii -> bool) (s : jsstring) : jsstring * jsstring :=
  match s with
  | [] => ([], [])
  | c :: s' =>
      if p c then let (a, b) := span p s' in (c :: a, b) else ([], s)
  end.

Definition trim_start (s : jsstring) : jsstring := snd (span is_space s).
Definition trim (s : jsstring) : jsstring :=
  rev (trim_start (rev (trim_start s))).

Definition eq_str (a b : jsstring) : bool :=
  if list_eq_dec ascii_dec a b then true else false.

Definition skip_sign (s : jsstring) : jsstring :=
  match s with
  | c :: s' => if eq_str [c] (str "+") || eq_str [c] (str "-") then s' else s
  | [] => s
  end.

(** ExponentPart, optional: what follows must be the end of the literal. *)
Definition exponent_opt (s : jsstring) : bool :=
  match s with
  | [] => true
  | c :: s' =>
      if eq_str [c] (str "e") || eq_str [c] (str "E") then
        let (ds, r) := span is_digit (skip_sign s') in
        negb (eq_str ds []) && eq_str r []
      else false
  end.

(** StrUnsignedDecimalLiteral *)
Definition unsigned_decimal (s : jsstring) : bool :=
  if eq_str s (str "Infinity") then true
  else
    let (ip, r) := span is_digit s in
    match r with
    | c :: r' =>
        if eq_str [c] (str ".") then
          let (fp, r2) := span is_digit r' in
          negb (eq_str ip [] && eq_str fp []) && exponent_opt r2
        else negb (eq_str ip []) && exponent_opt r
    | [] => negb (eq_str ip [])
    end.

Definition all_digits (p : ascii -> bool) (s : jsstring) : bool :=
  negb (eq_str s []) && forallb p s.

(** NonDecimalIntegerLiteral: 0x, 0o, 0b prefixes; no sign is allowed. *)
Definition non_decimal (s : jsstring) : bool :=
  match s with
  | z :: k :: ds =>
      eq_str [z] (str "0") &&
      (((eq_str [k] (str "x") || eq_str [k] (str "X")) && all_digits is_hex_digit ds)
       || ((eq_str [k] (str "o") || eq_str [k] (str "O")) && all_digits is_octal_digit ds)
       || ((eq_str [k] (str "b") || eq_str [k] (str "B")) && all_digits is_binary_digit ds))
  | _ => false
  end.

(** [!Number.isNaN(+val)] for a string [val]. *)
Definition to_number_ok (val : jsstring) : bool :=
  let t := trim val in
  eq_str t [] || unsigned_decimal (skip_sign t) || non_decimal t.

End Numeric.

(** ** src/uDSV.js *)

Module Src.

(** Column types: the strings ['s'] and ['n'] of the source. *)
Inductive ColType := s_type | n_type.

(** The schema object, flattened:
    [quote], [cols.delim], [cols.names], [cols.types], [rows.delim].
    [cols.delim] is [undefined] when [COL_DELIMS.find] finds nothing. *)
Record Schema := mkSchema {
  s_quote : jsstring;
  cols_delim : option jsstring;
  cols_names : list jsstring;
  cols_types : list (option ColType);
  rows_delim : jsstring
}.

Definition Row := list (option jsstring).

(** The calls of the callback [cb], in order: one chunk of rows each. *)
Definition Calls := list (list Row).

(** [_limit && rows.length === limit] *)
Definition limit_hit (limit : option nat) (rows : list Row) : bool :=
  match limit with
  | Some k => length rows =? k
  | None => false
  end.

(** The quote-free path: [while ((idx = csvStr.indexOf(rowDelim, pos)) > -1)]
    and the [if (rows.length > 0) cb(rows)] after it. *)
Fixpoint fast_loop (fuel : nat) (csvStr rowDelim : jsstring)
  (colDelim : option jsstring) (limit : option nat)
  (pos : Z) (rows : list Row) (out : Calls) : result Calls :=
  match fuel with
  | O => OutOfFuel
  | S fuel' =>
      let idx := indexOf csvStr rowDelim pos in
      if (idx >? -1)%Z then
        let rows := rows ++ [map Some (split (slice csvStr pos idx) colDelim)] in
        let pos := (idx + Z.of_nat (length rowDelim))%Z in
        if limit_hit limit rows then
          Ok (if 0 <? length rows then out ++ [rows] else out)
        else if length rows =? CHUNK_SIZE then
          fast_loop fuel' csvStr rowDelim colDelim limit pos [] (out ++ [rows])
        else
          fast_loop fuel' csvStr rowDelim colDelim limit pos rows out
      else Ok (if 0 <? length rows then out ++ [rows] else out)
  end.

(** [inCol]: 0 = no, 1 = unquoted, 2 = quoted. *)
Inductive InCol := NoCol | Unquoted | Quoted.

Record State := mkState {
  inCol : InCol;
  pos : Z;
  rows : list Row;
  v : jsstring;
  row : Row;
  colIdx : nat;
  out : Calls
}.

Definition set_inCol (x : InCol) (st : State) : State :=
  mkState x (pos st) (rows st) (v st) (row st) (colIdx st) (out st).
Definition set_pos (x : Z) (st : State) : State :=
  mkState (inCol st) x (rows st) (v st) (row st) (colIdx st) (out st).
Definition set_v (x : jsstring) (st : State) : State :=
  mkState (inCol st) (pos st) (rows st) x (row st) (colIdx st) (out st).

(** One turn of the main loop either goes on, returns from [parse], or
    throws. *)
Inductive Step :=
| Continue (st : State)
| Return (o : Calls)
| Throw.

Section StateMachine.

Variables (csvStr colDelim rowDelim : jsstring).
Variables (numCols : nat) (limit : option nat) (_probe : bool).

Definition quoteChar : option ascii := charCodeAt quote 0.
Definition rowDelimChar : option ascii := charCodeAt rowDelim 0.
Definition colDelimChar : option ascii := charCodeAt colDelim 0.
Definition rowDelimLen : Z := Z.of_nat (length rowDelim).
Definition endPos : Z := (Z.of_nat (length csvStr) - 1)%Z.
Definition lastColIdx : Z := (Z.of_nat numCols - 1)%Z.

(** The block between PUSH MACRO START and PUSH MACRO END; [c] is the
    delimiter character under [pos]. *)
Definition PUSH (c : option ascii) (st : State) : Step :=
  let row1 := array_set (row st) (colIdx st) (v st) in
  let colIdx1 := S (colIdx st) in
  let pos1 := (pos st + 1)%Z in
  if code_eq c rowDelimChar then
    let rows1 := rows st ++ [row1] in
    if limit_hit limit rows1 then Return (out st ++ [rows1])
    else
      let pos2 := (pos1 + (rowDelimLen - 1))%Z in
      if length rows1 =? CHUNK_SIZE then
        Continue (mkState (inCol st) pos2 [] [] (Array numCols) 0 (out st ++ [rows1]))
      else
        Continue (mkState (inCol st) pos2 rows1 [] (Array numCols) 0 (out st))
  else
    Continue (mkState (inCol st) pos1 (rows st) [] row1 colIdx1 (out st)).

(** [takeToCommaOrEOL.exec(csvStr)[0]] with [lastIndex = pos]: the longest
    run, from [pos], of characters that are in neither delimiter.  The
    pattern is built by pasting the delimiters into a character class, so
    this is its meaning as long as they hold none of the characters that
    are special inside a class (backslash, closing bracket, hyphen); with
    such a character the pattern means something else or cannot be
    built, which is not modelled.  The delimiters that [schema] sniffs
    hold none.  No match makes [exec] answer [null]. *)
Definition takeToCommaOrEOL (p : Z) : option jsstring :=
  let excluded := colDelim ++ rowDelim in
  let from := Z.to_nat (Z.max p 0) in
  match fst (Numeric.span (fun c => negb (existsb (Ascii.eqb c) excluded))
                          (skipn from csvStr)) with
  | [] => None
  | m => Some m
  end.

(** [if (inCol === 0) { ... }]: the first half of a turn; the character
    [c] may be read again. *)
Definition unstarted (st : State) (c : option ascii) : Step * option ascii :=
  match inCol st with
  | NoCol =>
      if code_eq c quoteChar then
        let st1 := set_pos (pos st + 1)%Z (set_inCol Quoted st) in
        (Continue st1, charCodeAt csvStr (pos st1))
      else if code_eq c colDelimChar || code_eq c rowDelimChar then
        match PUSH c st with
        | Continue st1 => (Continue st1, charCodeAt csvStr (pos st1))
        | r => (r, None)
        end
      else (Continue (set_inCol Unquoted st), c)
  | _ => (Continue st, c)
  end.

(** [if (inCol === 2) { ... } else if (inCol === 1) { ... }] *)
Definition in_column (st : State) (c : option ascii) : Step :=
  match inCol st with
  | Quoted =>
      if code_eq c quoteChar then
        if code_eq (charCodeAt csvStr (pos st + 1)) quoteChar then
          Continue (set_pos (pos st + 2)%Z (set_v (v st ++ quote) st))
        else
          Continue (set_pos (pos st + 1)%Z (set_inCol NoCol st))
      else
        let pos2 := indexOf csvStr quote (pos st) in
        Continue (set_pos pos2 (set_v (v st ++ slice csvStr (pos st) pos2) st))
  | Unquoted =>
      if code_eq c colDelimChar || code_eq c rowDelimChar then
        match PUSH c st with
        | Continue st1 => Continue (set_inCol NoCol st1)
        | r => r
        end
      else if _probe then
        match takeToCommaOrEOL (pos st) with
        | Some m =>
            Continue (set_pos (pos st + Z.of_nat (length m))%Z
                              (set_v (v st ++ m) st))
        | None => Throw
        end
      else
        let pos2 :=
          if (Z.of_nat (colIdx st) =? lastColIdx)%Z then
            let p := indexOf csvStr rowDelim (pos st) in
            if (p =? -1)%Z then Z.of_nat (length csvStr) else p
          else indexOf csvStr colDelim (pos st) in
        Continue (set_pos pos2 (set_v (v st ++ slice csvStr (pos st) pos2) st))
  | NoCol => Continue st
  end.

(** The body of [while (pos <= endPos)]. *)
Definition turn (st : State) : Step :=
  match unstarted st (charCodeAt csvStr (pos st)) with
  | (Continue st1, c) => in_column st1 c
  | (r, _) => r
  end.

(** [row[colIdx] = v; rows.push(row); cb(rows);] after the loop. *)
Definition flush (st : State) : Calls :=
  out st ++ [rows st ++ [array_set (row st) (colIdx st) (v st)]].

Fixpoint loop (fuel : nat) (st : State) : result Calls :=
  match fuel with
  | O => OutOfFuel
  | S fuel' =>
      if (pos st <=? endPos)%Z then
        match turn st with
        | Continue st1 => loop fuel' st1
        | Return o => Ok o
        | Throw => TypeError
        end
      else Ok (flush st)
  end.

Definition init : State := mkState NoCol 0 [] [] (Array numCols) 0 [].

End StateMachine.

(** [_maxCols || schema.cols.names.length] *)
Definition or_default (o : option nat) (d : nat) : nat :=
  match o with
  | Some (S n) => S n
  | _ => d
  end.

(** [parse(csvStr, schema, cb, limit, _maxCols)]; the answer is the
    sequence of calls of [cb].  [schema.quote] is only tested for being
    empty; the quote character itself is the constant [quote].  With
    quoting on, [colDelim.charCodeAt(0)] throws when [colDelim] is
    [undefined]. *)
Definition parse (fuel : nat) (csvStr : jsstring) (schema : Schema)
  (limit _maxCols : option nat) : result Calls :=
  let colDelim := cols_delim schema in
  let rowDelim := rows_delim schema in
  let numCols := or_default _maxCols (length (cols_names schema)) in
  let _probe :=
    match _maxCols, limit with Some _, Some _ => true | _, _ => false end in
  match s_quote schema with
  | [] => fast_loop fuel csvStr rowDelim colDelim limit 0 [] []
  | _ :: _ =>
      match colDelim with
      | None => TypeError
      | Some colDelim =>
          loop csvStr colDelim rowDelim numCols limit _probe fuel (init numCols)
      end
  end.

(** The match of the first-row pattern on [csvStr]: group 1 is the text
    before the first line terminator (the dot matches neither CR nor LF),
    group 2 the terminator: an optional CR, then an optional LF. *)
Definition is_line_terminator (c : ascii) : bool :=
  Ascii.eqb c lf || Ascii.eqb c cr.

Definition firstRowMatch (csvStr : jsstring) : jsstring * jsstring :=
  let (line, rest) :=
    Numeric.span (fun c => negb (is_line_terminator c)) csvStr in
  let (r, rest1) :=
    match rest with
    | c :: t => if Ascii.eqb c cr then ([cr], t) else ([], rest)
    | [] => ([], rest)
    end in
  let n :=
    match rest1 with
    | c :: _ => if Ascii.eqb c lf then [lf] else []
    | [] => []
    end in
  (line, r ++ n).

(** [Object.keys(a)] of an array: the indices of its filled slots. *)
Definition index_string (i : nat) : jsstring :=
  str (NilEmpty.string_of_uint (Nat.to_uint i)).

Fixpoint keys_from (i : nat) (a : Row) : list jsstring :=
  match a with
  | [] => []
  | Some _ :: a' => index_string i :: keys_from (S i) a'
  | None :: a' => keys_from (S i) a'
  end.

Definition Object_keys (a : Row) : list jsstring := keys_from 0 a.

(** [r.forEach((val, colIdx) => { if (!Number.isNaN(+val))
    schema.cols.types[colIdx] = 'n'; })]; [forEach] skips the holes. *)
Fixpoint probe_from (colIdx : nat) (r : Row) (types : list (option ColType))
  : list (option ColType) :=
  match r with
  | [] => types
  | Some val :: r' =>
      probe_from (S colIdx) r'
        (if Numeric.to_number_ok val then array_set types colIdx n_type
         else types)
  | None :: r' => probe_from (S colIdx) r' types
  end.

Definition probe_row (types : list (option ColType)) (r : Row)
  : list (option ColType) :=
  probe_from 0 r types.

(** The types after [firstRows.forEach(...)], from
    [Array(header.length).fill('s')]. *)
Definition probe_types (header_length : nat) (firstRows : list Row)
  : list (option ColType) :=
  fold_left probe_row firstRows (repeat (Some s_type) header_length).

(** A value of column [j] in one of the rows passes the number test. *)
Definition numeric_in (rs : list Row) (j : nat) : Prop :=
  exists r val, In r rs /\ nth_error r j = Some (Some val) /\
                Numeric.to_number_ok val = true.

(** The first statements of [schema]: the schema before it is probed and
    [_maxCols].  [schema.quote] is the quote when the text holds one
    anywhere, the empty string otherwise. *)
Definition sniff (csvStr : jsstring) : Schema * nat :=
  let (firstRowStr, rowDelim) := firstRowMatch csvStr in
  let colDelim :=
    List.find (fun delim => (indexOf firstRowStr delim 0 >? -1)%Z) COL_DELIMS in
  let hasQuotes := (indexOf csvStr quote 0 >? -1)%Z in
  (mkSchema (if hasQuotes then quote else []) colDelim [] [] rowDelim,
   length (split firstRowStr colDelim) + 1).

(** [schema(csvStr, limit)]; [limit] is the argument after the default
    10 has been put in for [undefined].  [firstRows.shift()] of no rows
    is [undefined], and [Object.keys] throws on it. *)
Definition schema (fuel : nat) (csvStr : jsstring) (limit : option nat)
  : result Schema :=
  let (schema0, _maxCols) := sniff csvStr in
  match parse fuel csvStr schema0 limit (Some _maxCols) with
  | Ok calls =>
      match concat calls with
      | [] => TypeError
      | first :: firstRows =>
          let header := Object_keys first in
          Ok (mkSchema (s_quote schema0) (cols_delim schema0) header
                (probe_types (length header) firstRows) (rows_delim schema0))
      end
  | TypeError => TypeError
  | SyntaxError => SyntaxError
  | OutOfFuel => OutOfFuel
  end.

End Src.

(** ** dist/uDSV.cjs.js *)

Module Dist.

Inductive ColType := s_type | n_type.

Definition Row := list (option jsstring).

(** The calls [cb(rows, numChunks++)], in order. *)
Definition Calls := list (list Row * nat).

(** The schema object, flattened; [quote] is [null] without quoting and
    [toTyped] is [null] until [schema] has compiled the conversion. *)
Record Schema (F : Type) := mkSchema {
  s_quote : option jsstring;
  cols_delim : option jsstring;
  cols_names : list jsstring;
  cols_types : list (option ColType);
  rows_delim : jsstring;
  toTyped : option F
}.

(** [_limit && numChunks === chunkLimit] *)
Definition limit_hit (chunkLimit : option nat) (numChunks : nat) : bool :=
  match chunkLimit with
  | Some k => numChunks =? k
  | None => false
  end.

(** The quote-free path. *)
Fixpoint fast_loop (fuel : nat) (csvStr rowDelim : jsstring)
  (colDelim : option jsstring) (chunkSize : nat) (chunkLimit : option nat)
  (pos : Z) (rows : list Row) (numChunks : nat) (out : Calls)
  : result Calls :=
  match fuel with
  | O => OutOfFuel
  | S fuel' =>
      let idx := indexOf csvStr rowDelim pos in
      if (idx >? -1)%Z then
        let rows := rows ++ [map Some (split (slice csvStr pos idx) colDelim)] in
        let pos := (idx + Z.of_nat (length rowDelim))%Z in
        if length rows =? chunkSize then
          let out := out ++ [(rows, numChunks)] in
          let numChunks := S numChunks in
          if limit_hit chunkLimit numChunks then Ok out
          else fast_loop fuel' csvStr rowDelim colDelim chunkSize chunkLimit
                         pos [] numChunks out
        else
          fast_loop fuel' csvStr rowDelim colDelim chunkSize chunkLimit
                    pos rows numChunks out
      else Ok (if 0 <? length rows then out ++ [(rows, numChunks)] else out)
  end.

Inductive InCol := NoCol | Unquoted | Quoted.

Record State := mkState {
  inCol : InCol;
  pos : Z;
  rows : list Row;
  v : jsstring;
  row : Row;
  colIdx : nat;
  numChunks : nat;
  out : Calls
}.

Definition set_inCol (x : InCol) (st : State) : State :=
  mkState x (pos st) (rows st) (v st) (row st) (colIdx st) (numChunks st) (out st).
Definition set_pos (x : Z) (st : State) : State :=
  mkState (inCol st) x (rows st) (v st) (row st) (colIdx st) (numChunks st) (out st).
Definition set_v (x : jsstring) (st : State) : State :=
  mkState (inCol st) (pos st) (rows st) x (row st) (colIdx st) (numChunks st) (out st).

Inductive Step :=
| Continue (st : State)
| Return (o : Calls)
| Throw
| Spin.

Section StateMachine.

Variables (csvStr colDelim rowDelim : jsstring).
Variables (numCols chunkSize : nat) (chunkLimit : option nat) (_probe : bool).

Definition quoteChar : option ascii := charCodeAt quote 0.
Definition rowDelimChar : option ascii := charCodeAt rowDelim 0.
Definition colDelimChar : option ascii := charCodeAt colDelim 0.
Definition rowDelimLen : Z := Z.of_nat (length rowDelim).
Definition endPos : Z := (Z.of_nat (length csvStr) - 1)%Z.
Definition lastColIdx : Z := (Z.of_nat numCols - 1)%Z.

(** The block between PUSH MACRO START and PUSH MACRO END. *)
Definition PUSH (c : option ascii) (st : State) : Step :=
  let row1 := array_set (row st) (colIdx st) (v st) in
  let colIdx1 := S (colIdx st) in
  let pos1 := (pos st + 1)%Z in
  if code_eq c rowDelimChar then
    let rows1 := rows st ++ [row1] in
    let pos2 := (pos1 + (rowDelimLen - 1))%Z in
    if length rows1 =? chunkSize then
      let out1 := out st ++ [(rows1, numChunks st)] in
      let numChunks1 := S (numChunks st) in
      if limit_hit chunkLimit numChunks1 then Return out1
      else Continue (mkState (inCol st) pos2 [] [] (Array numCols) 0 numChunks1 out1)
    else
      Continue (mkState (inCol st) pos2 rows1 [] (Array numCols) 0
                        (numChunks st) (out st))
  else
    Continue (mkState (inCol st) pos1 (rows st) [] row1 colIdx1
                      (numChunks st) (out st)).

(** The pattern of the probing mode, as in [Src.takeToCommaOrEOL], for
    delimiters that hold no character special inside a character
    class. *)
Definition takeToCommaOrEOL (p : Z) : option jsstring :=
  let excluded := colDelim ++ rowDelim in
  let from := Z.to_nat (Z.max p 0) in
  match fst (Numeric.span (fun c => negb (existsb (Ascii.eqb c) excluded))
                          (skipn from csvStr)) with
  | [] => None
  | m => Some m
  end.

Definition unstarted (st : State) (c : option ascii) : Step * option ascii :=
  match inCol st with
  | NoCol =>
      if code_eq c quoteChar then
        let st1 := set_pos (pos st + 1)%Z (set_inCol Quoted st) in
        (Continue st1, charCodeAt csvStr (pos st1))
      else if code_eq c colDelimChar || code_eq c rowDelimChar then
        match PUSH c st with
        | Continue st1 => (Continue st1, charCodeAt csvStr (pos st1))
        | r => (r, None)
        end
      else (Continue (set_inCol Unquoted st), c)
  | _ => (Continue st, c)
  end.

(** The [while (1)] of the quoted state: it leaves through [break] only.
    After a scan to the next quote, [c] is set to the quote character
    without reading the text. *)
Fixpoint quoted_loop (fuel : nat) (st : State) (c : option ascii)
  : option State :=
  match fuel with
  | O => None
  | S fuel' =>
      if code_eq c quoteChar then
        let cNext := charCodeAt csvStr (pos st + 1) in
        if code_eq cNext quoteChar then
          let st1 := set_pos (pos st + 2)%Z (set_v (v st ++ quote) st) in
          quoted_loop fuel' st1 (charCodeAt csvStr (pos st1))
        else Some (set_pos (pos st + 1)%Z (set_inCol NoCol st))
      else
        let pos2 := indexOf csvStr quote (pos st) in
        quoted_loop fuel'
          (set_pos pos2 (set_v (v st ++ slice csvStr (pos st) pos2) st))
          quoteChar
  end.

Definition in_column (fuel : nat) (st : State) (c : option ascii) : Step :=
  match inCol st with
  | Quoted =>
      match quoted_loop fuel st c with
      | Some st1 => Continue st1
      | None => Spin
      end
  | Unquoted =>
      if code_eq c colDelimChar || code_eq c rowDelimChar then
        match PUSH c st with
        | Continue st1 => Continue (set_inCol NoCol st1)
        | r => r
        end
      else if _probe then
        match takeToCommaOrEOL (pos st) with
        | Some m =>
            Continue (set_pos (pos st + Z.of_nat (length m))%Z
                              (set_v (v st ++ m) st))
        | None => Throw
        end
      else
        let pos2 :=
          if (Z.of_nat (colIdx st) =? lastColIdx)%Z then
            let p := indexOf csvStr rowDelim (pos st) in
            if (p =? -1)%Z then Z.of_nat (length csvStr) else p
          else indexOf csvStr colDelim (pos st) in
        Continue (set_pos pos2 (set_v (v st ++ slice csvStr (pos st) pos2) st))
  | NoCol => Continue st
  end.

(** The body of [while (pos <= endPos)]; the inner loop runs on the fuel
    that is left. *)
Definition turn (fuel : nat) (st : State) : Step :=
  match unstarted st (charCodeAt csvStr (pos st)) with
  | (Continue st1, c) => in_column fuel st1 c
  | (r, _) => r
  end.

(** [row[colIdx] = v; rows.push(row); cb(rows, numChunks++);] *)
Definition flush (st : State) : Calls :=
  out st ++ [(rows st ++ [array_set (row st) (colIdx st) (v st)], numChunks st)].

Fixpoint loop (fuel : nat) (st : State) : result Calls :=
  match fuel with
  | O => OutOfFuel
  | S fuel' =>
      if (pos st <=? endPos)%Z then
        match turn fuel' st with
        | Continue st1 => loop fuel' st1
        | Return o => Ok o
        | Throw => TypeError
        | Spin => OutOfFuel
        end
      else Ok (flush st)
  end.

Definition init : State := mkState NoCol 0 [] [] (Array numCols) 0 0 [].

End StateMachine.

Definition or_default (o : option nat) (d : nat) : nat :=
  match o with
  | Some (S n) => S n
  | _ => d
  end.

(** [parse(csvStr, schema, cb, chunkSize, chunkLimit, _maxCols)];
    [chunkSize] is the argument after the default [CHUNK_SIZE] has been
    put in for [undefined]. *)
Definition parse (F : Type) (fuel : nat) (csvStr : jsstring) (schema : Schema F)
  (chunkSize : nat) (chunkLimit _maxCols : option nat) : result Calls :=
  let colDelim := cols_delim schema in
  let rowDelim := rows_delim schema in
  let numCols := or_default _maxCols (length (cols_names schema)) in
  let _probe :=
    match _maxCols, chunkLimit with Some _, Some _ => true | _, _ => false end in
  match s_quote schema with
  | None => fast_loop fuel csvStr rowDelim colDelim chunkSize chunkLimit 0 [] 0 []
  | Some _ =>
      match colDelim with
      | None => TypeError
      | Some colDelim =>
          loop csvStr colDelim rowDelim numCols chunkSize chunkLimit _probe
               fuel (init numCols)
      end
  end.

(** *** The compiled conversion *)

(** Numbers are kept as the decimals that are written, [mantissa * 10 ^
    exponent] with a mantissa that is 0 or not a multiple of 10.  The
    rounding of [Number.parseFloat] to a binary double is not modelled:
    a value [Finite] stands for the double the code makes of that
    decimal, which is an infinity when the decimal is past the range of
    the doubles.  Whether a number is [NaN] is the same in the model and
    in the code. *)
Inductive JSNumber :=
| NaN
| Infinity (negative : bool)
| Finite (negative : bool) (mantissa : N) (exponent : Z).

Fixpoint strip_zeros (fuel : nat) (m : N) (e : Z) : N * Z :=
  match fuel with
  | O => (m, e)
  | S fuel' =>
      if (m =? 0)%N then (0%N, 0%Z)
      else if (m mod 10 =? 0)%N then strip_zeros fuel' (m / 10)%N (e + 1)%Z
      else (m, e)
  end.

Definition decimal (negative : bool) (m : N) (e : Z) : JSNumber :=
  let (m1, e1) := strip_zeros (S (N.to_nat (N.log2 m))) m e in
  Finite negative m1 e1.

Definition digits_value (ds : jsstring) : N :=
  fold_left (fun acc c => (acc * 10 + (N_of_ascii c - 48))%N) ds 0%N.

Definition take_sign (s : jsstring) : bool * jsstring :=
  match s with
  | c :: s' =>
      if Numeric.eq_str [c] (str "-") then (true, s')
      else if Numeric.eq_str [c] (str "+") then (false, s')
      else (false, s)
  | [] => (false, s)
  end.

(** [Number.parseFloat(s)]: leading white space is dropped and the
    longest prefix that is a decimal literal is read. *)
Definition parseFloat (s : jsstring) : JSNumber :=
  let (negative, u) := take_sign (Numeric.trim_start s) in
  if startsWith (str "Infinity") u then Infinity negative
  else
    let (ip, r) := Numeric.span Numeric.is_digit u in
    let (fp, r2) :=
      match r with
      | c :: r' =>
          if Numeric.eq_str [c] (str ".")
          then Numeric.span Numeric.is_digit r' else ([], r)
      | [] => ([], r)
      end in
    if Numeric.eq_str ip [] && Numeric.eq_str fp [] then NaN
    else
      let e :=
        match r2 with
        | c :: r3 =>
            if Numeric.eq_str [c] (str "e") || Numeric.eq_str [c] (str "E") then
              let (eneg, r4) := take_sign r3 in
              let ds := fst (Numeric.span Numeric.is_digit r4) in
              if Numeric.eq_str ds [] then 0%Z
              else if eneg then (- Z.of_N (digits_value ds))%Z
                   else Z.of_N (digits_value ds)
            else 0%Z
        | [] => 0%Z
        end in
      decimal negative (digits_value (ip ++ fp)) (e - Z.of_nat (length fp))%Z.

Definition isNaN (n : JSNumber) : bool :=
  match n with NaN => true | _ => false end.

(** Exactly [n] digits at the head of [s]. *)
Fixpoint digits (n : nat) (s : jsstring) : option jsstring :=
  match n with
  | O => Some s
  | S n' =>
      match s with
      | c :: s' => if Numeric.is_digit c then digits n' s' else None
      | [] => None
      end
  end.

Definition lit (c : string) (s : jsstring) : option jsstring :=
  match s with
  | x :: s' => if Numeric.eq_str [x] (str c) then Some s' else None
  | [] => None
  end.

Definition bind (A B : Type) (o : option A) (f : A -> option B) : option B :=
  match o with Some x => f x | None => None end.

(** The zone at the end: [Z], or a sign, two digits, an optional colon
    and two digits; nothing may follow. *)
Definition zone (s : jsstring) : bool :=
  match s with
  | [c] => Numeric.eq_str [c] (str "Z")
  | c :: s' =>
      if Numeric.eq_str [c] (str "-") || Numeric.eq_str [c] (str "+") then
        match digits 2 s' with
        | Some s2 =>
            let s3 := match lit ":" s2 with Some t => t | None => s2 end in
            match digits 2 s3 with
            | Some [] => true
            | _ => false
            end
        | None => false
        end
      else false
  | [] => false
  end.

(** [ISO8601.test(v)]: four digits, dash, two, dash, two, [T], two, colon,
    two, colon, two, an optional dot with three or more digits, the zone. *)
Definition ISO8601_test (s : jsstring) : bool :=
  match
    bind (digits 4 s) (fun s => bind (lit "-" s) (fun s =>
    bind (digits 2 s) (fun s => bind (lit "-" s) (fun s =>
    bind (digits 2 s) (fun s => bind (lit "T" s) (fun s =>
    bind (digits 2 s) (fun s => bind (lit ":" s) (fun s =>
    bind (digits 2 s) (fun s => bind (lit ":" s) (fun s =>
    digits 2 s))))))))))
  with
  | Some r =>
      match lit "." r with
      | Some f =>
          let (ds, r2) := Numeric.span Numeric.is_digit f in
          if 3 <=? length ds then zone r2 else false
      | None => zone r
      end
  | None => false
  end.

Definition lower (c : ascii) : ascii :=
  let n := nat_of_ascii c in
  if ((65 <=? n) && (n <=? 90))
     || ((192 <=? n) && (n <=? 222) && negb (n =? 215))
  then ascii_of_nat (n + 32) else c.

Definition toLowerCase (s : jsstring) : jsstring := map lower s.

(** The test of the pattern for [true] or [false], letter case ignored. *)
Definition bool_test (s : jsstring) : bool :=
  Numeric.eq_str (toLowerCase s) (str "true")
  || Numeric.eq_str (toLowerCase s) (str "false").

Section Coercion.

(** [JSON.parse] is a built-in whose values are not looked into: it is a
    parameter, [None] standing for the SyntaxError it throws. *)
Variable J : Type.
Variable JSON_parse : jsstring -> option J.

Inductive JSValue :=
| VUndefined
| VNull
| VBoolean (b : bool)
| VNumber (n : JSNumber)
| VString (s : jsstring)
| VDate (s : jsstring)        (* [new Date(s)] *)
| VJSON (j : J).

(** What a call of the compiled function returns: the rows, changed in
    place, or ([objs]) one object per row, kept as the key/value entries
    of its literal in the order they are written. *)
Inductive Typed :=
| TypedRows (rs : list (list (option JSValue)))
| TypedObjs (os : list (list (jsstring * JSValue))).

(** The expression [parseVal] chosen for a column. *)
Inductive ParseVal :=
| AsIs            (* r[ci] *)
| NewDate         (* new Date(r[ci]) *)
| ParseFloat      (* Number.parseFloat(r[ci]) *)
| IsTrue          (* r[ci].toLowerCase() === 'true' ? true : false *)
| JSONParse.      (* JSON.parse(r[ci]) *)

(** [rows.find(r => r[ci] != null & r[ci] !== '')] *)
Definition sample (rows : list Row) (ci : nat) : option Row :=
  List.find (fun r =>
    match array_get r ci with
    | Some x => negb (Numeric.eq_str x [])
    | None => false
    end) rows.

Definition first_is (c : string) (v : jsstring) : bool :=
  match v with
  | x :: _ => Numeric.eq_str [x] (str c)
  | [] => false
  end.

(** The classification of column [ci] from its sample. *)
Definition classify (rows : list Row) (ci : nat) : ParseVal :=
  match sample rows ci with
  | Some row =>
      match array_get row ci with
      | Some v =>
          if ISO8601_test v then NewDate
          else if negb (isNaN (parseFloat v)) then ParseFloat
          else if bool_test v then IsTrue
          else if first_is "[" v || first_is "{" v then
            match JSON_parse v with
            | Some _ => JSONParse
            | None => AsIs
            end
          else AsIs
      | None => AsIs
      end
  | None => AsIs
  end.

(** The value of [empty parseVal] for the slot [rv] of a row: an empty
    string or a missing slot gives [undefined], the text [null] gives
    [null], anything else goes through [parseVal]. *)
Definition convert (pv : ParseVal) (rv : option jsstring) : result JSValue :=
  match rv with
  | None => Ok VUndefined
  | Some s =>
      if Numeric.eq_str s [] then Ok VUndefined
      else if Numeric.eq_str s (str "null") then Ok VNull
      else
        match pv with
        | AsIs => Ok (VString s)
        | NewDate => Ok (VDate s)
        | ParseFloat => Ok (VNumber (parseFloat s))
        | IsTrue => Ok (VBoolean (Numeric.eq_str (toLowerCase s) (str "true")))
        | JSONParse =>
            match JSON_parse s with
            | Some j => Ok (VJSON j)
            | None => SyntaxError
            end
        end
  end.

(** The assignments [r[ci] = ...] for [ci = from, from + 1, ...] on one
    row. *)
Fixpoint assign_from (ci : nat) (pvs : list ParseVal)
  (r : list (option JSValue)) (raw : Row) : result (list (option JSValue)) :=
  match pvs with
  | [] => Ok r
  | pv :: pvs' =>
      match convert pv (array_get raw ci) with
      | Ok x => assign_from (S ci) pvs' (array_set r ci x) raw
      | TypeError => TypeError
      | SyntaxError => SyntaxError
      | OutOfFuel => OutOfFuel
      end
  end.

Definition typed_row (pvs : list ParseVal) (raw : Row)
  : result (list (option JSValue)) :=
  assign_from 0 pvs (map (option_map VString) raw) raw.

Fixpoint entries_from (ci : nat) (cols : list jsstring) (pvs : list ParseVal)
  (raw : Row) : result (list (jsstring * JSValue)) :=
  match cols, pvs with
  | col :: cols', pv :: pvs' =>
      match convert pv (array_get raw ci) with
      | Ok x =>
          match entries_from (S ci) cols' pvs' raw with
          | Ok es => Ok ((col, x) :: es)
          | e => e
          end
      | TypeError => TypeError
      | SyntaxError => SyntaxError
      | OutOfFuel => OutOfFuel
      end
  | _, _ => Ok []
  end.

Fixpoint for_rows (A : Type) (f : Row -> result A) (rows : list Row)
  : result (list A) :=
  match rows with
  | [] => Ok []
  | r :: rows' =>
      match f r with
      | Ok x =>
          match for_rows f rows' with
          | Ok xs => Ok (x :: xs)
          | e => e
          end
      | TypeError => TypeError
      | SyntaxError => SyntaxError
      | OutOfFuel => OutOfFuel
      end
  end.

(** [genToTypedFn(cols, rows, objs)]: the function compiled from the text
    it builds.  In array mode that text holds the indices of the columns
    only.  When [objs] is set the column names are pasted between double
    quotes into it, as the keys of an object literal; the model takes
    them to hold nothing that would end the string ([new Function] is
    not modelled: it throws on a text that is no function body), and it
    keeps an object as the entries of its literal in the order they are
    written.  These are the own properties of the object, in the order
    [Object.keys] lists them, when the names are distinct, none is made
    of digits only (such keys come first, by their number) and none is
    [__proto__]. *)
Definition genToTypedFn (cols : list jsstring) (rows : list Row) (objs : bool)
  : list Row -> result Typed :=
  let pvs := map (classify rows) (seq 0 (length cols)) in
  fun rows =>
    if objs then
      match for_rows (entries_from 0 cols pvs) rows with
      | Ok os => Ok (TypedObjs os)
      | TypeError => TypeError
      | SyntaxError => SyntaxError
      | OutOfFuel => OutOfFuel
      end
    else
      match for_rows (typed_row pvs) rows with
      | Ok rs => Ok (TypedRows rs)
      | TypeError => TypeError
      | SyntaxError => SyntaxError
      | OutOfFuel => OutOfFuel
      end.

Definition is_line_terminator (c : ascii) : bool :=
  Ascii.eqb c lf || Ascii.eqb c cr.

(** The match of the first-row pattern, as in [Src.firstRowMatch]. *)
Definition firstRowMatch (csvStr : jsstring) : jsstring * jsstring :=
  let (line, rest) :=
    Numeric.span (fun c => negb (is_line_terminator c)) csvStr in
  let (r, rest1) :=
    match rest with
    | c :: t => if Ascii.eqb c cr then ([cr], t) else ([], rest)
    | [] => ([], rest)
    end in
  let n :=
    match rest1 with
    | c :: _ => if Ascii.eqb c lf then [lf] else []
    | [] => []
    end in
  (line, r ++ n).

(** [Object.values(a)] of an array: its filled slots. *)
Fixpoint Object_values (a : Row) : list jsstring :=
  match a with
  | [] => []
  | Some x :: a' => x :: Object_values a'
  | None :: a' => Object_values a'
  end.

Fixpoint probe_from (colIdx : nat) (r : Row) (types : list (option ColType))
  : list (option ColType) :=
  match r with
  | [] => types
  | Some val :: r' =>
      probe_from (S colIdx) r'
        (if Numeric.to_number_ok val then array_set types colIdx n_type
         else types)
  | None :: r' => probe_from (S colIdx) r' types
  end.

Definition probe_types (header_length : nat) (firstRows : list Row)
  : list (option ColType) :=
  fold_left (fun types r => probe_from 0 r types) firstRows
            (repeat (Some s_type) header_length).

Definition TypedFn := list Row -> result Typed.

(** The first statements of [schema]: the schema before it is probed and
    [_maxCols]. *)
Definition sniff (csvStr : jsstring) : Schema TypedFn * nat :=
  let (firstRowStr, rowDelim) := firstRowMatch csvStr in
  let colDelim :=
    List.find (fun delim => (indexOf firstRowStr delim 0 >? -1)%Z) COL_DELIMS in
  let hasQuotes := (indexOf csvStr quote 0 >? -1)%Z in
  (mkSchema (if hasQuotes then Some quote else None) colDelim [] [] rowDelim None,
   length (split firstRowStr colDelim)).

(** [schema(csvStr, limit, typedObjs)]; [limit] is the argument after the
    default 10 has been put in for [undefined]. *)
Definition schema (fuel : nat) (csvStr : jsstring) (limit : nat)
  (typedObjs : bool) : result (Schema TypedFn) :=
  let (schema0, _maxCols) := sniff csvStr in
  match parse fuel csvStr schema0 limit (Some 1) (Some _maxCols) with
  | Ok calls =>
      match concat (map fst calls) with
      | [] => TypeError
      | first :: firstRows =>
          let header := Object_values first in
          Ok (mkSchema (s_quote schema0) (cols_delim schema0) header
                (probe_types (length header) firstRows) (rows_delim schema0)
                (Some (genToTypedFn header firstRows typedObjs)))
      end
  | TypeError => TypeError
  | SyntaxError => SyntaxError
  | OutOfFuel => OutOfFuel
  end.

End Coercion.

End Dist.

(** ** Well-formed delimited text

    The inputs the tokenizer is written for: rows of fields, a field
    being either plain text free of the delimiter characters, or text
    wrapped in quote characters in which a doubled quote stands for one
    quote character. *)

Module Text.

Inductive Field :=
| Plain (u : jsstring)
| InQuotes (q : jsstring).

(** Every quote character doubled. *)
Definition escape (q : jsstring) : jsstring :=
  flat_map (fun c => if Ascii.eqb c dq then [dq; dq] else [c]) q.

(** The field as it is written in the text. *)
Definition raw (f : Field) : jsstring :=
  match f with
  | Plain u => u
  | InQuotes q => dq :: escape q ++ [dq]
  end.

(** The field as it is meant. *)
Definition value (f : Field) : jsstring :=
  match f with
  | Plain u => u
  | InQuotes q => q
  end.

(** A plain field does not start with a quote and holds neither the
    column delimiter nor the first character of the row delimiter. *)
Definition plain_ok (cd rd : ascii) (u : jsstring) : bool :=
  match u with
  | c :: _ => negb (Ascii.eqb c dq)
  | [] => true
  end
  && forallb (fun c => negb (Ascii.eqb c cd) && negb (Ascii.eqb c rd)) u.

Definition field_ok (cd rd : ascii) (f : Field) : bool :=
  match f with
  | Plain u => plain_ok cd rd u
  | InQuotes _ => true
  end.

Definition row_ok (cd rd : ascii) (numCols : nat) (r : list Field) : bool :=
  (length r =? numCols) && forallb (field_ok cd rd) r.

Definition raw_row (cd : ascii) (r : list Field) : jsstring :=
  join [cd] (map raw r).

(** Rows, each followed by the row delimiter. *)
Definition render (cd : ascii) (rowDelim : jsstring) (rows : list (list Field))
  : jsstring :=
  flat_map (fun r => raw_row cd r ++ rowDelim) rows.

(** The row of the values, [numCols] wide: slots past the fields are
    holes. *)
Definition values (numCols : nat) (r : list Field) : list (option jsstring) :=
  map (fun f => Some (value f)) r ++ repeat None (numCols - length r).

(** A field with none of the three special characters in it. *)
Definition clean (cd rd : ascii) (u : jsstring) : bool :=
  forallb (fun c => negb (Ascii.eqb c cd) && negb (Ascii.eqb c rd)
                    && negb (Ascii.eqb c dq)) u.

(** The three special characters are distinct. *)
Definition delims_ok (cd rd : ascii) : bool :=
  negb (Ascii.eqb cd dq) && negb (Ascii.eqb rd dq) && negb (Ascii.eqb cd rd).

(** What may stand after the last row delimiter: at least one and at
    most [numCols] fields; a row that stops short does not end in a
    plain field with text in it. *)
Definition open_field (f : Field) : bool :=
  match f with
  | Plain (_ :: _) => true
  | _ => false
  end.

Definition last_row_ok (cd rd : ascii) (numCols : nat) (r : list Field) : bool :=
  (1 <=? length r) && (length r <=? numCols) && forallb (field_ok cd rd) r
  && ((length r =? numCols) || negb (open_field (last r (Plain [])))).

End Text.

(** ** Writing rows back as text *)

Module Rejoin.

(** What [join] makes of a slot: a hole gives the empty string. *)
Definition field_text (o : option jsstring) : jsstring :=
  match o with
  | Some s => s
  | None => []
  end.

(** [r.join(colDelim)] *)
Definition join_row (colDelim : jsstring) (r : list (option jsstring)) : jsstring :=
  join colDelim (map field_text r).

(** The fields of every row joined with the column delimiter, the rows
    joined with the row delimiter. *)
Definition rejoin (colDelim rowDelim : jsstring)
  (rows : list (list (option jsstring))) : jsstring :=
  join rowDelim (map (join_row colDelim) rows).

(** The same with the row delimiter behind every row. *)
Definition reterminate (colDelim rowDelim : jsstring)
  (rows : list (list (option jsstring))) : jsstring :=
  flat_map (fun r => join_row colDelim r ++ rowDelim) rows.

End Rejoin.

(** ** Lines and chunks *)

Module Lines.

(** The row the quote-free path makes of one line. *)
Definition line_row (colDelim : option jsstring) (l : jsstring)
  : list (option jsstring) :=
  map Some (split l colDelim).

(** The lines that end with the row delimiter: all the pieces of
    [csvStr.split(rowDelim)] but the last. *)
Definition lines (csvStr rowDelim : jsstring) : list jsstring :=
  removelast (split csvStr (Some rowDelim)).

(** What stands behind the last row delimiter: the last piece of
    [csvStr.split(rowDelim)]. *)
Definition rest (csvStr rowDelim : jsstring) : jsstring :=
  last (split csvStr (Some rowDelim)) [].

End Lines.

Module Chunks.

(** The rows of all calls, in order. *)
Definition rows_of (calls : Dist.Calls) : list Dist.Row := concat (map fst calls).

(** The ceiling of [r / c]. *)
Definition ceil_div (r c : nat) : nat := (r + c - 1) / c.

(** The calls so far, while the parse runs: numbered from 0, each with a
    full chunk. *)
Definition full_calls (C : nat) (nc : nat) (o : Dist.Calls) : Prop :=
  nc = length o /\ map snd o = seq 0 (length o) /\
  Forall (fun ch => length (fst ch) = C) o.

(** All the calls of a parse: numbered from 0, every chunk but the last
    one full, the last one not empty and not over the chunk size. *)
Definition chunked (C : nat) (calls : Dist.Calls) : Prop :=
  map snd calls = seq 0 (length calls) /\
  Forall (fun ch => length (fst ch) = C) (removelast calls) /\
  Forall (fun ch => 1 <= length (fst ch) <= C) calls.

End Chunks.

(** ** Sample inputs *)

Module Samples.

(** Comma and line feed, quoting off, [n] columns. *)
Definition src_plain (n : nat) : Src.Schema :=
  Src.mkSchema [] (Some comma) (repeat [] n) [] [lf].

(** Comma and line feed, quoting on, [n] columns. *)
Definition src_quoted (n : nat) : Src.Schema :=
  Src.mkSchema quote (Some comma) (repeat [] n) [] [lf].

Definition dist_plain (n : nat) : Dist.Schema unit :=
  Dist.mkSchema None (Some comma) (repeat [] n) [] [lf] None.

Definition dist_quoted (n : nat) : Dist.Schema unit :=
  Dist.mkSchema (Some quote) (Some comma) (repeat [] n) [] [lf] None.

(** A quote, then [a]: a quoted field that is never closed. *)
Definition open_a : jsstring := quote ++ str "a".

(** A quote, then [ab]. *)
Definition open_ab : jsstring := quote ++ str "ab".

(** Two rows of two fields, with and without the last row delimiter. *)
Definition two_rows : jsstring := str "a,b" ++ [lf] ++ str "c,d".
Definition two_rows_lf : jsstring := two_rows ++ [lf].

(** The scenario of the specification: a header and two rows, the second
    with a quoted field that holds a comma. *)
Definition scenario : jsstring :=
  str "id,name,active" ++ [lf] ++ str "1,Alice,true" ++ [lf]
  ++ str "2," ++ quote ++ str "Bob, Jr." ++ quote ++ str ",false" ++ [lf].

Definition scenario_schema : Dist.Schema unit :=
  Dist.mkSchema (Some quote) (Some comma) [str "id"; str "name"; str "active"]
                [] [lf] None.

Definition row_of (l : list string) : list (option jsstring) :=
  map (fun x => Some (str x)) l.



(** A row of two fields, then a line that holds one field only. *)
Definition short_second_row : jsstring := str "a,b" ++ [lf] ++ str "c" ++ [lf].

(** [n] lines that hold [a]. *)
Definition lines_of_a (n : nat) : jsstring := concat (repeat (str "a" ++ [lf]) n).

(** One column, quoting on, rows that end with a carriage return and a
    line feed. *)
Definition src_quoted_crlf : Src.Schema :=
  Src.mkSchema quote (Some comma) [[]] [] [cr; lf].
Definition dist_quoted_crlf : Dist.Schema unit :=
  Dist.mkSchema (Some quote) (Some comma) [[]] [] [cr; lf] None.

(** No delimiter in the header line, and no quote. *)
Definition no_delim : jsstring := str "abc" ++ [lf] ++ str "def" ++ [lf].

(** Two columns, each with one number and one word. *)
Definition mixed : jsstring :=
  str "a,b" ++ [lf] ++ str "1,x" ++ [lf] ++ str "y,2" ++ [lf].

End Samples.

(** * Facts about the embedding

    ** String operations

    [At text pos rest] says that position [pos] of [text] stands in front
    of [rest]; the string operations of the source are read off it. *)

Module JSFacts.

Lemma startsWith_app (p s : jsstring) : startsWith p (p ++ s) = true.
Proof.
  induction p as [|a p IH]; simpl; [reflexivity|].
  now rewrite Ascii.eqb_refl, IH.
Qed.

Lemma startsWith_spec (p s : jsstring) :
  startsWith p s = true <-> exists t, s = p ++ t.
Proof.
  revert s; induction p as [|a p IH]; intros s; simpl.
  - split; [intros _; now exists s | reflexivity].
  - destruct s as [|b s]; [split; [discriminate | intros [t H]; discriminate]|].
    rewrite andb_true_iff, Ascii.eqb_eq, IH. split.
    + intros [-> [t ->]]. now exists t.
    + intros [t H]. injection H as -> ->. split; [reflexivity | now exists t].
Qed.

Lemma startsWith_head_neq (a b : ascii) (p s : jsstring) :
  b <> a -> startsWith (a :: p) (b :: s) = false.
Proof.
  intros H. simpl. destruct (Ascii.eqb a b) eqn:E; [|reflexivity].
  apply Ascii.eqb_eq in E. congruence.
Qed.

(** Skipping a run free of the first character of the pattern. *)
Lemma find_skip (a : ascii) (p u s : jsstring) :
  Forall (fun c => c <> a) u ->
  find (a :: p) (u ++ s) = option_map (Nat.add (length u)) (find (a :: p) s).
Proof.
  induction 1 as [|b u Hb _ IH].
  - simpl app. destruct (find (a :: p) s); reflexivity.
  - change ((b :: u) ++ s) with (b :: (u ++ s)).
    cbn [find]. rewrite (startsWith_head_neq p (u ++ s) Hb), IH.
    destruct (find (a :: p) s); reflexivity.
Qed.

Lemma find_here (p s : jsstring) : find p (p ++ s) = Some 0.
Proof.
  destruct (p ++ s) eqn:E; cbn [find];
    rewrite <- E, startsWith_app; reflexivity.
Qed.

Lemma find_nil_none (a : ascii) (p : jsstring) : find (a :: p) [] = None.
Proof. reflexivity. Qed.

Lemma find_Some (pat s : jsstring) (k : nat) :
  find pat s = Some k ->
  exists u t, s = u ++ pat ++ t /\ length u = k.
Proof.
  revert k; induction s as [|b s IH]; intros k; cbn [find].
  - destruct (startsWith pat []) eqn:E; [|discriminate].
    intros [= <-]. apply startsWith_spec in E as [t E]. now exists [], t.
  - destruct (startsWith pat (b :: s)) eqn:E.
    + intros [= <-]. apply startsWith_spec in E as [t E]. now exists [], t.
    + destruct (find pat s) as [k'|]; [|discriminate].
      intros [= <-]. destruct (IH k' eq_refl) as (u & t & -> & <-).
      now exists (b :: u), t.
Qed.

(** The scan position [pos] stands in front of [rest] in [text]. *)
Definition At (text : jsstring) (pos : Z) (rest : jsstring) : Prop :=
  exists pre, text = pre ++ rest /\ pos = Z.of_nat (length pre).

Lemma At_start (text : jsstring) : At text 0 text.
Proof. now exists []. Qed.

Lemma At_app (text : jsstring) (pos : Z) (u rest : jsstring) :
  At text pos (u ++ rest) -> At text (pos + Z.of_nat (length u)) rest.
Proof.
  intros (pre & -> & ->). exists (pre ++ u).
  rewrite <- app_assoc, length_app. split; [reflexivity | lia].
Qed.

Lemma At_cons (text : jsstring) (pos : Z) (c : ascii) (rest : jsstring) :
  At text pos (c :: rest) -> At text (pos + 1) rest.
Proof. intros H. apply (@At_app text pos [c] rest H). Qed.

Lemma At_length (text : jsstring) (pos : Z) (rest : jsstring) :
  At text pos rest -> (pos + Z.of_nat (length rest) = Z.of_nat (length text))%Z.
Proof. intros (pre & -> & ->). rewrite length_app. lia. Qed.

Lemma At_nonneg (text : jsstring) (pos : Z) (rest : jsstring) :
  At text pos rest -> (0 <= pos)%Z.
Proof. intros (pre & -> & ->). lia. Qed.

Lemma charCodeAt_At (text : jsstring) (pos : Z) (c : ascii) (rest : jsstring) :
  At text pos (c :: rest) -> charCodeAt text pos = Some c.
Proof.
  intros (pre & -> & ->). unfold charCodeAt.
  destruct (Z.ltb_spec (Z.of_nat (length pre)) 0); [lia|].
  rewrite Nat2Z.id, nth_error_app2, Nat.sub_diag by lia. reflexivity.
Qed.

Lemma charCodeAt_end (text : jsstring) (pos : Z) :
  At text pos [] -> charCodeAt text pos = None.
Proof.
  intros (pre & -> & ->). unfold charCodeAt.
  destruct (Z.ltb_spec (Z.of_nat (length pre)) 0); [lia|].
  rewrite Nat2Z.id, app_nil_r. apply nth_error_None. lia.
Qed.

Lemma clamp_At (text : jsstring) (pos : Z) (rest : jsstring) :
  At text pos rest ->
  clamp (length text) pos = Z.to_nat pos /\ skipn (Z.to_nat pos) text = rest.
Proof.
  intros (pre & -> & ->). unfold clamp. rewrite length_app.
  split.
  - f_equal. lia.
  - rewrite Nat2Z.id, skipn_app, skipn_all, Nat.sub_diag. reflexivity.
Qed.

Lemma indexOf_At (text : jsstring) (pos : Z) (rest pat : jsstring) :
  At text pos rest ->
  indexOf text pat pos =
  match find pat rest with
  | Some k => (pos + Z.of_nat k)%Z
  | None => (-1)%Z
  end.
Proof.
  intros H. unfold indexOf. destruct (clamp_At H) as [-> ->].
  pose proof (At_nonneg H). destruct (find pat rest); [|reflexivity]. lia.
Qed.

Lemma rel_index_nonneg (len : nat) (i : Z) :
  (0 <= i <= Z.of_nat len)%Z -> rel_index len i = Z.to_nat i.
Proof.
  intros H. unfold rel_index. destruct (Z.ltb_spec i 0); [lia|]. f_equal. lia.
Qed.

Lemma slice_At (text : jsstring) (pos : Z) (u rest : jsstring) :
  At text pos (u ++ rest) ->
  slice text pos (pos + Z.of_nat (length u)) = u.
Proof.
  intros H. pose proof (At_length H) as HL. pose proof (At_nonneg H) as H0.
  rewrite length_app in HL. unfold slice.
  rewrite !rel_index_nonneg by lia.
  destruct (clamp_At H) as [_ ->].
  replace (Z.to_nat (pos + Z.of_nat (length u)) - Z.to_nat pos)
    with (length u) by lia.
  rewrite firstn_app, Nat.sub_diag, firstn_all. simpl. apply app_nil_r.
Qed.

End JSFacts.

(** ** [split] and [join] *)

Module SplitFacts.
Import JSFacts.

Lemma split_from_nonempty (n : nat) (d s : jsstring) : split_from n d s <> [].
Proof. destruct n; simpl; [|destruct (find d s)]; discriminate. Qed.

Lemma split_nonempty_sep (d s : jsstring) :
  d <> [] -> split s (Some d) = split_from (length s) d s.
Proof.
  intros Hd. unfold split. destruct d as [|a d]; [congruence|].
  destruct s; reflexivity.
Qed.

(** More fuel than the length of the string changes nothing. *)
Lemma split_from_enough (d : jsstring) (n m : nat) (s : jsstring) :
  d <> [] -> length s <= n -> length s <= m ->
  split_from n d s = split_from m d s.
Proof.
  intros Hd. revert m s; induction n as [|n IH]; intros m s Hn Hm.
  - destruct s; [|simpl in Hn; lia].
    destruct m; simpl; [reflexivity|].
    destruct d; [congruence | reflexivity].
  - destruct m as [|m].
    + destruct s; [|simpl in Hm; lia].
      simpl. destruct d; [congruence | reflexivity].
    + simpl. destruct (find d s) as [k|] eqn:E; [|reflexivity].
      f_equal. destruct (find_Some _ _ E) as (u & t & -> & <-).
      assert (length d <> 0) by (destruct d; simpl; congruence).
      rewrite !length_app in *.
      apply IH; rewrite length_skipn, !length_app; lia.
Qed.

Lemma join_cons (sep x : jsstring) (l : list jsstring) :
  l <> [] -> join sep (x :: l) = x ++ sep ++ join sep l.
Proof. destruct l; [congruence | reflexivity]. Qed.

Lemma join_split_from (n : nat) (d s : jsstring) :
  join d (split_from n d s) = s.
Proof.
  revert s; induction n as [|n IH]; intros s; simpl; [reflexivity|].
  destruct (find d s) as [k|] eqn:E; [|reflexivity].
  rewrite join_cons by apply split_from_nonempty. rewrite IH.
  destruct (find_Some _ _ E) as (u & t & -> & <-).
  rewrite firstn_app, Nat.sub_diag, firstn_all, firstn_O, app_nil_r.
  rewrite skipn_app, skipn_all2 by (rewrite ?length_app; lia).
  replace (length u + length d - length u) with (length d) by lia.
  rewrite skipn_app, skipn_all, Nat.sub_diag. reflexivity.
Qed.

Lemma join_chars (s : jsstring) : join [] (map (fun c => [c]) s) = s.
Proof.
  induction s as [|c s IH]; [reflexivity|].
  destruct s as [|c' s]; [reflexivity|].
  change (map (fun c => [c]) (c :: c' :: s))
    with ([c] :: map (fun c => [c]) (c' :: s)).
  rewrite join_cons by discriminate. now rewrite IH.
Qed.

(** [s.split(d).join(d) === s] for every string [d]. *)
Lemma join_split (d s : jsstring) : join d (split s (Some d)) = s.
Proof.
  unfold split. destruct d as [|a d]; [apply join_chars|].
  destruct s; [reflexivity | apply join_split_from].
Qed.

End SplitFacts.

(** ** The quote-free path of [parse] (src)

    Without a limit, the rows are the lines of the text that end with the
    row delimiter, each split on the column delimiter. *)

Module SrcFast.
Import JSFacts SplitFacts.
Import Src Lines.

Lemma removelast_split_from (n : nat) (d s : jsstring) (k : nat) :
  find d s = Some k ->
  removelast (split_from (S n) d s) =
  firstn k s :: removelast (split_from n d (skipn (k + length d) s)).
Proof.
  intros E. cbn [split_from]. rewrite E.
  pose proof (split_from_nonempty n d (skipn (k + length d) s)).
  destruct (split_from n d (skipn (k + length d) s)); [congruence | reflexivity].
Qed.

Lemma removelast_split_from_none (n : nat) (d s : jsstring) :
  find d s = None -> removelast (split_from n d s) = [].
Proof. intros E. destruct n; cbn [split_from]; rewrite ?E; reflexivity. Qed.

Lemma fast_loop_S (fuel : nat) (csvStr rowDelim : jsstring)
  (colDelim : option jsstring) (limit : option nat)
  (pos : Z) (rows : list Row) (out : Calls) :
  fast_loop (S fuel) csvStr rowDelim colDelim limit pos rows out =
  let idx := indexOf csvStr rowDelim pos in
  if (idx >? -1)%Z then
    let rows := rows ++ [map Some (split (slice csvStr pos idx) colDelim)] in
    let pos := (idx + Z.of_nat (length rowDelim))%Z in
    if limit_hit limit rows then
      Ok (if 0 <? length rows then out ++ [rows] else out)
    else if length rows =? CHUNK_SIZE then
      fast_loop fuel csvStr rowDelim colDelim limit pos [] (out ++ [rows])
    else
      fast_loop fuel csvStr rowDelim colDelim limit pos rows out
  else Ok (if 0 <? length rows then out ++ [rows] else out).
Proof. reflexivity. Qed.

Section Fast.

Variables (text d : jsstring) (cd : option jsstring).
Hypothesis d_nonempty : d <> [].

Lemma d_length : 0 < length d.
Proof. destruct d; [congruence | simpl; lia]. Qed.

(** One turn of the loop when the delimiter is found. *)
Lemma fast_step (pos : Z) (rest : jsstring) (k : nat) :
  At text pos rest -> find d rest = Some k ->
  indexOf text d pos = (pos + Z.of_nat k)%Z /\
  slice text pos (pos + Z.of_nat k) = firstn k rest /\
  At text (pos + Z.of_nat k + Z.of_nat (length d)) (skipn (k + length d) rest) /\
  length (skipn (k + length d) rest) < length rest.
Proof.
  intros HA E. rewrite (indexOf_At d HA), E.
  destruct (find_Some _ _ E) as (u & t & -> & <-).
  split; [reflexivity|]. split.
  - rewrite (slice_At u (d ++ t) HA), firstn_app, Nat.sub_diag, firstn_all.
    now rewrite firstn_O, app_nil_r.
  - rewrite skipn_app, skipn_all2 by lia.
    replace (length u + length d - length u) with (length d) by lia.
    rewrite skipn_app, skipn_all, Nat.sub_diag. cbn [skipn app].
    split.
    + apply (At_app d t). now apply (At_app u (d ++ t)).
    + pose proof d_length. rewrite !length_app. lia.
Qed.

Lemma fast_stop (pos : Z) (rest : jsstring) :
  At text pos rest -> find d rest = None -> indexOf text d pos = (-1)%Z.
Proof. intros HA E. now rewrite (indexOf_At d HA), E. Qed.

(** Without a row limit the path emits the terminated lines, whatever
    the chunking. *)
Lemma fast_loop_unlimited (n : nat) :
  forall (rest : jsstring) (pos : Z) (rows : list Row) (out : Calls),
  At text pos rest -> length rest <= n ->
  exists calls,
    fast_loop (S n) text d cd None pos rows out = Ok calls /\
    concat calls =
    concat out ++ rows ++ map (line_row cd) (removelast (split_from n d rest)).
Proof.
  induction n as [|n IH]; intros rest pos rows out HA Hn.
  - destruct rest; [|simpl in Hn; lia].
    cbn [fast_loop]. rewrite (fast_stop HA) by (destruct d; [congruence | reflexivity]).
    cbn [Z.gtb Z.compare]. eexists; split; [reflexivity|].
    cbn [split_from removelast map]. rewrite app_nil_r.
    destruct rows; cbn [length Nat.ltb Nat.leb]; [now rewrite app_nil_r|].
    now rewrite concat_app; cbn [concat]; rewrite app_nil_r.
  - rewrite fast_loop_S. cbv zeta. destruct (find d rest) as [k|] eqn:E.
    + destruct (fast_step HA E) as (-> & -> & HA' & Hlt).
      replace (pos + Z.of_nat k >? -1)%Z with true
        by (pose proof (At_nonneg HA); symmetry; apply Z.gtb_lt; lia).
      cbn [limit_hit]. rewrite (@removelast_split_from n d rest k E).
      destruct (length (rows ++ [map Some (split (firstn k rest) cd)]) =? CHUNK_SIZE).
      * destruct (IH _ _ [] (out ++ [rows ++ [map Some (split (firstn k rest) cd)]]) HA')
          as (calls & -> & Hc); [lia|].
        eexists; split; [reflexivity|]. rewrite Hc.
        rewrite concat_app. cbn [concat map app]. unfold line_row.
        now rewrite app_nil_r, <- !app_assoc.
      * destruct (IH _ _ (rows ++ [map Some (split (firstn k rest) cd)]) out HA')
          as (calls & -> & Hc); [lia|].
        eexists; split; [reflexivity|]. rewrite Hc.
        cbn [map]. unfold line_row. now rewrite <- !app_assoc.
    + rewrite (fast_stop HA E). cbn [Z.gtb Z.compare].
      eexists; split; [reflexivity|].
      rewrite removelast_split_from_none by assumption. cbn [map]. rewrite app_nil_r.
      destruct rows; cbn [length Nat.ltb Nat.leb]; [now rewrite app_nil_r|].
      now rewrite concat_app; cbn [concat]; rewrite app_nil_r.
Qed.

End Fast.

(** The quote-free path of [parse], run to the end: every line that
    ends with the row delimiter becomes a row; what follows the last row
    delimiter is not emitted. *)
Lemma parse_fast (csvStr : jsstring) (schema : Schema) (mc : option nat) (fuel : nat) :
  s_quote schema = [] -> rows_delim schema <> [] -> length csvStr < fuel ->
  exists calls,
    parse fuel csvStr schema None mc = Ok calls /\
    concat calls =
    map (line_row (cols_delim schema)) (lines csvStr (rows_delim schema)).
Proof.
  intros Hq Hd Hf. unfold parse. rewrite Hq.
  destruct fuel as [|n]; [lia|].
  destruct (@fast_loop_unlimited csvStr (rows_delim schema) (cols_delim schema) Hd
              n csvStr 0%Z [] [] (At_start csvStr)) as (calls & -> & Hc); [lia|].
  eexists; split; [reflexivity|]. rewrite Hc. cbn [concat app].
  unfold lines. rewrite split_nonempty_sep by assumption.
  now rewrite (@split_from_enough (rows_delim schema) n (length csvStr) csvStr) by (assumption || lia).
Qed.

End SrcFast.

(** ** Arrays with holes *)

Module ArrayFacts.
Import JSFacts SplitFacts.

Lemma array_set_fill (A : Type) (xs : list A) (k : nat) (x : A) :
  array_set (map Some xs ++ repeat None (S k)) (length xs) x =
  map Some (xs ++ [x]) ++ repeat None k.
Proof. induction xs as [|y xs IH]; simpl in *; [reflexivity | now rewrite IH]. Qed.

Lemma array_set_end (A : Type) (xs : list A) (x : A) :
  array_set (map Some xs) (length xs) x = map Some (xs ++ [x]).
Proof. induction xs as [|y xs IH]; simpl; [reflexivity | now rewrite IH]. Qed.

End ArrayFacts.

(** ** Well-formed text: plain fields and escaped quotes *)

Module TextFacts.
Import JSFacts SplitFacts.
Import Text.

Lemma eqb_neq_false (a b : ascii) : a <> b -> Ascii.eqb a b = false.
Proof. intros H. now apply Ascii.eqb_neq. Qed.

Lemma plain_ok_Forall (cd rd : ascii) (u : jsstring) :
  plain_ok cd rd u = true ->
  Forall (fun c => c <> cd) u /\ Forall (fun c => c <> rd) u /\
  match u with c :: _ => c <> dq | [] => True end.
Proof.
  unfold plain_ok. rewrite andb_true_iff, forallb_forall. intros [H1 H2].
  repeat split.
  - apply Forall_forall. intros c Hc. specialize (H2 c Hc).
    rewrite andb_true_iff, !negb_true_iff in H2. now apply Ascii.eqb_neq.
  - apply Forall_forall. intros c Hc. specialize (H2 c Hc).
    rewrite andb_true_iff, !negb_true_iff in H2. now apply Ascii.eqb_neq.
  - destruct u; [exact I|]. rewrite negb_true_iff in H1. now apply Ascii.eqb_neq.
Qed.

Lemma delims_ok_neq (cd rd : ascii) :
  delims_ok cd rd = true -> cd <> dq /\ rd <> dq /\ cd <> rd.
Proof.
  unfold delims_ok. rewrite !andb_true_iff, !negb_true_iff.
  intros [[H1 H2] H3]. repeat split; now apply Ascii.eqb_neq.
Qed.

(** A string splits into its longest quote-free prefix and a rest that is
    empty or starts with a quote. *)
Lemma quote_free_prefix (q : jsstring) :
  exists seg q2, q = seg ++ q2 /\ Forall (fun c => c <> dq) seg /\
    (q2 = [] \/ exists q3, q2 = dq :: q3).
Proof.
  induction q as [|c q (seg & q2 & -> & Hs & Hq)].
  - exists [], []. repeat split; auto.
  - destruct (ascii_dec c dq) as [->|Hc].
    + exists [], (dq :: seg ++ q2). repeat split; eauto.
    + exists (c :: seg), q2. repeat split; auto.
Qed.

Lemma escape_app (a b : jsstring) : escape (a ++ b) = escape a ++ escape b.
Proof. unfold escape. now rewrite flat_map_app. Qed.

Lemma escape_quote_free (seg : jsstring) :
  Forall (fun c => c <> dq) seg -> escape seg = seg.
Proof.
  induction 1 as [|c seg Hc _ IH]; [reflexivity|].
  unfold escape in *. cbn [flat_map]. rewrite (eqb_neq_false Hc), IH. reflexivity.
Qed.

Lemma escape_quote (q : jsstring) : escape (dq :: q) = dq :: dq :: escape q.
Proof. reflexivity. Qed.

Lemma length_escape (q : jsstring) : length q <= length (escape q).
Proof.
  induction q as [|c q IH]; [simpl; lia|].
  unfold escape in *. cbn [flat_map]. destruct (Ascii.eqb c dq); simpl; lia.
Qed.

End TextFacts.

Unset Implicit Arguments.

(** ** The state machine of [parse] (src) on well-formed text

    The loop is followed field by field.  [finish st o] says that the
    loop started in [st] returns [o] on every fuel larger than what is
    left of the text; the lemmas below take one turn, one field, one row
    and then all rows of a well-formed text. *)

Module SrcQuoted.
Import JSFacts SplitFacts ArrayFacts TextFacts.
Import Src Text.

Lemma loop_S (csvStr colDelim rowDelim : jsstring) (numCols : nat)
  (limit : option nat) (_probe : bool) (fuel : nat) (st : State) :
  loop csvStr colDelim rowDelim numCols limit _probe (S fuel) st =
  if (pos st <=? endPos csvStr)%Z then
    match turn csvStr colDelim rowDelim numCols limit _probe st with
    | Continue st1 => loop csvStr colDelim rowDelim numCols limit _probe fuel st1
    | Return o => Ok o
    | Throw => TypeError
    end
  else Ok (flush st).
Proof. reflexivity. Qed.

Lemma ceq_quote (c : ascii) : code_eq (Some c) quoteChar = Ascii.eqb c dq.
Proof. reflexivity. Qed.

Lemma ceq_cd (c cd : ascii) : code_eq (Some c) (colDelimChar [cd]) = Ascii.eqb c cd.
Proof. reflexivity. Qed.

Lemma ceq_rd (c rd : ascii) (rdt : jsstring) :
  code_eq (Some c) (rowDelimChar (rd :: rdt)) = Ascii.eqb c rd.
Proof. reflexivity. Qed.

Section Machine.

Variables (text : jsstring) (cd rd : ascii) (rdt : jsstring).
Variables (numCols : nat) (limit : option nat) (L : Z).
Hypothesis cd_dq : cd <> dq.
Hypothesis rd_dq : rd <> dq.
Hypothesis cd_rd : cd <> rd.

Local Abbreviation rowDelim := (rd :: rdt).
Local Abbreviation Run := (loop text [cd] rowDelim numCols limit false).
Local Abbreviation Turn := (turn text [cd] rowDelim numCols limit false).

(** The field is committed with the delimiter [c] under [pos]. *)
Definition commit (c : ascii) (p : Z) (rws : list Row) (v0 : jsstring)
  (rw : Row) (i : nat) (o0 : Calls) : Step :=
  PUSH rowDelim numCols limit (Some c) (mkState NoCol p rws v0 rw i o0).

(** From [st] on, the parse returns with the calls [o], on any fuel that
    covers the distance to [L]. *)
Definition finish (st : State) (o : Calls) : Prop :=
  forall fuel, (Z.of_nat fuel > L - pos st)%Z -> Run fuel st = Ok o.

Definition finish_step (s : Step) (o : Calls) : Prop :=
  match s with
  | Continue st1 => finish st1 o
  | Return o1 => o1 = o
  | Throw => False
  end.

Lemma At_endPos (p : Z) (c : ascii) (rest : jsstring) :
  At text p (c :: rest) -> (p <=? endPos text)%Z = true.
Proof.
  intros H. apply At_length in H. unfold endPos. cbn [length] in H.
  apply Z.leb_le. lia.
Qed.

Lemma finish_exit (st : State) :
  At text (pos st) [] -> (pos st <= L)%Z -> finish st (flush st).
Proof.
  intros HA HL fuel Hf. destruct fuel as [|fuel]; [lia|].
  rewrite loop_S. apply At_length in HA. unfold endPos. cbn [length] in HA.
  destruct (Z.leb_spec (pos st) (Z.of_nat (length text) - 1)); [lia | reflexivity].
Qed.

Lemma finish_turn (st : State) (s : Step) (o : Calls) (c : ascii) (rest : jsstring) :
  At text (pos st) (c :: rest) -> (pos st <= L)%Z ->
  Turn st = s ->
  match s with Continue st1 => (pos st < pos st1)%Z | _ => True end ->
  finish_step s o -> finish st o.
Proof.
  intros HA HL HT Hp Hs fuel Hf. destruct fuel as [|fuel]; [lia|].
  rewrite loop_S, (At_endPos _ _ _ HA), HT.
  destruct s as [st1|o1|]; cbn [finish_step] in Hs.
  - apply Hs. lia.
  - now subst.
  - contradiction.
Qed.

Lemma commit_cd (p : Z) (rws : list Row) (v0 : jsstring) (rw : Row) (i : nat)
  (o0 : Calls) :
  commit cd p rws v0 rw i o0 =
  Continue (mkState NoCol (p + 1) rws [] (array_set rw i v0) (S i) o0).
Proof.
  unfold commit, PUSH. rewrite ceq_rd, (eqb_neq_false cd_rd). reflexivity.
Qed.

(** The end of a row: the limit is tested first, then the chunk size. *)
Definition push_row (p : Z) (rws : list Row) (full : Row) (o0 : Calls) : Step :=
  let rows1 := rws ++ [full] in
  if limit_hit limit rows1 then Return (o0 ++ [rows1])
  else if length rows1 =? CHUNK_SIZE then
    Continue (mkState NoCol (p + Z.of_nat (length rowDelim)) [] []
                      (Array numCols) 0 (o0 ++ [rows1]))
  else
    Continue (mkState NoCol (p + Z.of_nat (length rowDelim)) rows1 []
                      (Array numCols) 0 o0).

Lemma commit_rd (p : Z) (rws : list Row) (v0 : jsstring) (rw : Row) (i : nat)
  (o0 : Calls) :
  commit rd p rws v0 rw i o0 = push_row p rws (array_set rw i v0) o0.
Proof.
  unfold commit, PUSH, push_row. rewrite ceq_rd, Ascii.eqb_refl.
  cbn [pos rows row colIdx v out inCol]. unfold rowDelimLen.
  replace (p + 1 + (Z.of_nat (length rowDelim) - 1))%Z
    with (p + Z.of_nat (length rowDelim))%Z by lia.
  reflexivity.
Qed.

Lemma commit_pos (c : ascii) (p : Z) (rws : list Row) (v0 : jsstring)
  (rw : Row) (i : nat) (o0 : Calls) :
  c = cd \/ c = rd ->
  match commit c p rws v0 rw i o0 with
  | Continue st1 => (p < pos st1)%Z /\ inCol st1 = NoCol
  | _ => True
  end.
Proof.
  intros [-> | ->].
  - rewrite commit_cd. cbn. split; [lia | reflexivity].
  - rewrite commit_rd. unfold push_row. cbv zeta.
    destruct (limit_hit _ _); [exact I|].
    destruct (_ =? _); cbn [pos inCol length]; split; (lia || reflexivity).
Qed.

(** A delimiter met while no field is open: the field is committed. *)
Lemma turn_NoCol_delim (c : ascii) (rest : jsstring) (p : Z) (rws : list Row)
  (v0 : jsstring) (rw : Row) (i : nat) (o0 : Calls) :
  At text p (c :: rest) -> c = cd \/ c = rd ->
  Turn (mkState NoCol p rws v0 rw i o0) = commit c p rws v0 rw i o0.
Proof.
  intros HA Hc. pose proof (commit_pos c p rws v0 rw i o0 Hc) as HP.
  unfold turn, unstarted. cbn [inCol pos]. rewrite (charCodeAt_At HA).
  rewrite ceq_quote, ceq_cd, ceq_rd.
  replace (Ascii.eqb c dq) with false
    by (symmetry; apply eqb_neq_false; destruct Hc; congruence).
  replace (Ascii.eqb c cd || Ascii.eqb c rd) with true
    by (destruct Hc as [-> | ->]; rewrite Ascii.eqb_refl; now rewrite ?orb_true_r).
  fold (commit c p rws v0 rw i o0).
  destruct (commit c p rws v0 rw i o0) as [st1| |]; try reflexivity.
  unfold in_column. now rewrite (proj2 HP).
Qed.

(** A delimiter met at the end of a plain field. *)
Lemma turn_Unquoted_delim (c : ascii) (rest : jsstring) (p : Z) (rws : list Row)
  (v0 : jsstring) (rw : Row) (i : nat) (o0 : Calls) :
  At text p (c :: rest) -> c = cd \/ c = rd ->
  Turn (mkState Unquoted p rws v0 rw i o0) = commit c p rws v0 rw i o0.
Proof.
  intros HA Hc.
  unfold turn, unstarted, in_column. cbn [inCol pos]. rewrite (charCodeAt_At HA).
  rewrite ceq_cd, ceq_rd.
  replace (Ascii.eqb c cd || Ascii.eqb c rd) with true
    by (destruct Hc as [-> | ->]; rewrite Ascii.eqb_refl; now rewrite ?orb_true_r).
  unfold commit, PUSH. cbn [inCol pos rows v row colIdx out].
  destruct (code_eq (Some c) (rowDelimChar rowDelim)); [|reflexivity].
  destruct (limit_hit _ _); [reflexivity|].
  destruct (_ =? _); reflexivity.
Qed.

(** The forward scan of a plain field, in its three cases. *)
Lemma scan_col (p : Z) (u rest : jsstring) :
  At text p (u ++ cd :: rest) -> Forall (fun c => c <> cd) u ->
  indexOf text [cd] p = (p + Z.of_nat (length u))%Z.
Proof.
  intros HA Hu. rewrite (indexOf_At [cd] HA), (find_skip [] (cd :: rest) Hu).
  pose proof (find_here [cd] rest) as E. cbn [app] in E. rewrite E.
  cbn [option_map]. f_equal. lia.
Qed.

Lemma scan_row (p : Z) (u rest : jsstring) :
  At text p (u ++ rowDelim ++ rest) -> Forall (fun c => c <> rd) u ->
  indexOf text rowDelim p = (p + Z.of_nat (length u))%Z.
Proof.
  intros HA Hu. rewrite (indexOf_At rowDelim HA), (find_skip rdt (rowDelim ++ rest) Hu).
  pose proof (find_here rowDelim rest) as E. rewrite E.
  cbn [option_map]. f_equal. lia.
Qed.

Lemma scan_end (p : Z) (u : jsstring) :
  At text p u -> Forall (fun c => c <> rd) u ->
  indexOf text rowDelim p = (-1)%Z /\ Z.of_nat (length text) = (p + Z.of_nat (length u))%Z.
Proof.
  intros HA Hu. rewrite (indexOf_At rowDelim HA).
  pose proof (find_skip rdt [] Hu) as E. rewrite app_nil_r in E. rewrite E.
  split; [reflexivity|]. apply At_length in HA. lia.
Qed.

(** The first turn on a plain field with text in it: the whole field is
    taken by one scan. *)
Lemma turn_plain (c : ascii) (u after : jsstring) (p : Z) (rws : list Row)
  (rw : Row) (i : nat) (o0 : Calls) :
  At text p ((c :: u) ++ after) ->
  c <> dq -> Forall (fun x => x <> cd) (c :: u) -> Forall (fun x => x <> rd) (c :: u) ->
  ((Z.of_nat i =? lastColIdx numCols)%Z = false /\ exists r, after = cd :: r) \/
  ((Z.of_nat i =? lastColIdx numCols)%Z = true /\
   (after = [] \/ exists r, after = rowDelim ++ r)) ->
  Turn (mkState NoCol p rws [] rw i o0) =
  Continue (mkState Unquoted (p + Z.of_nat (length (c :: u))) rws (c :: u) rw i o0).
Proof.
  intros HA Hq Hcd Hrd Hcase.
  unfold turn, unstarted, in_column. cbn [inCol pos set_inCol].
  rewrite (charCodeAt_At (c := c) (rest := u ++ after) HA).
  rewrite ceq_quote, ceq_cd, ceq_rd, (eqb_neq_false Hq).
  rewrite (eqb_neq_false (Forall_inv Hcd)), (eqb_neq_false (Forall_inv Hrd)).
  cbn [orb inCol colIdx pos v set_pos set_v set_inCol rows row out app].
  rewrite ceq_cd, ceq_rd.
  rewrite (eqb_neq_false (Forall_inv Hcd)), (eqb_neq_false (Forall_inv Hrd)).
  cbn [orb inCol colIdx pos v set_pos set_v set_inCol rows row out app].
  destruct Hcase as [[-> [r ->]] | [-> [-> | [r ->]]]].
  - rewrite (scan_col p (c :: u) r HA Hcd), (slice_At (c :: u) (cd :: r) HA). reflexivity.
  - rewrite app_nil_r in HA. destruct (scan_end p (c :: u) HA Hrd) as [E1 E2].
    rewrite E1. change ((-1 =? -1)%Z) with true. cbv iota. rewrite E2.
    rewrite <- (app_nil_r (c :: u)) in HA.
    rewrite (slice_At (c :: u) [] HA). reflexivity.
  - rewrite (scan_row p (c :: u) r HA Hrd).
    destruct (Z.eqb_spec (p + Z.of_nat (length (c :: u))) (-1)) as [E|_];
      [pose proof (At_nonneg HA); lia|].
    rewrite (slice_At (c :: u) (rowDelim ++ r) HA). reflexivity.
Qed.

(** An opening quote and the first quoted turn are one turn. *)
Lemma turn_open (rest : jsstring) (p : Z) (rws : list Row)
  (v0 : jsstring) (rw : Row) (i : nat) (o0 : Calls) :
  At text p (dq :: rest) ->
  Turn (mkState NoCol p rws v0 rw i o0) = Turn (mkState Quoted (p + 1) rws v0 rw i o0).
Proof.
  intros HA. unfold turn, unstarted. cbn [inCol pos set_inCol set_pos].
  rewrite (charCodeAt_At HA), ceq_quote, Ascii.eqb_refl. reflexivity.
Qed.

Lemma turn_escaped (rest : jsstring) (p : Z) (rws : list Row)
  (v0 : jsstring) (rw : Row) (i : nat) (o0 : Calls) :
  At text p (dq :: dq :: rest) ->
  Turn (mkState Quoted p rws v0 rw i o0) =
  Continue (mkState Quoted (p + 2) rws (v0 ++ quote) rw i o0).
Proof.
  intros HA. unfold turn, unstarted, in_column. cbn [inCol pos].
  rewrite (charCodeAt_At HA), (charCodeAt_At (At_cons HA)).
  rewrite ceq_quote, Ascii.eqb_refl. reflexivity.
Qed.

(** No quote follows: [rest] is empty or starts with another character. *)
Definition no_quote_ahead (rest : jsstring) : Prop :=
  match rest with
  | c :: _ => c <> dq
  | [] => True
  end.

Lemma turn_close (rest : jsstring) (p : Z) (rws : list Row)
  (v0 : jsstring) (rw : Row) (i : nat) (o0 : Calls) :
  At text p (dq :: rest) -> no_quote_ahead rest ->
  Turn (mkState Quoted p rws v0 rw i o0) =
  Continue (mkState NoCol (p + 1) rws v0 rw i o0).
Proof.
  intros HA Hn. unfold turn, unstarted, in_column. cbn [inCol pos].
  rewrite (charCodeAt_At HA), ceq_quote, Ascii.eqb_refl.
  destruct rest as [|c rest].
  - rewrite (charCodeAt_end (At_cons HA)). reflexivity.
  - rewrite (charCodeAt_At (At_cons HA)), ceq_quote, (eqb_neq_false Hn). reflexivity.
Qed.

Lemma turn_segment (c : ascii) (seg rest : jsstring) (p : Z) (rws : list Row)
  (v0 : jsstring) (rw : Row) (i : nat) (o0 : Calls) :
  At text p ((c :: seg) ++ dq :: rest) -> Forall (fun x => x <> dq) (c :: seg) ->
  Turn (mkState Quoted p rws v0 rw i o0) =
  Continue (mkState Quoted (p + Z.of_nat (length (c :: seg))) rws
                    (v0 ++ c :: seg) rw i o0).
Proof.
  intros HA Hs. unfold turn, unstarted, in_column. cbn [inCol pos].
  rewrite (charCodeAt_At (c := c) (rest := seg ++ dq :: rest) HA).
  rewrite ceq_quote, (eqb_neq_false (Forall_inv Hs)).
  unfold quote. rewrite (indexOf_At [dq] HA), (find_skip [] (dq :: rest) Hs).
  pose proof (find_here [dq] rest) as E. cbn [app] in E. rewrite E.
  cbn [option_map].
  replace (p + Z.of_nat (length (c :: seg) + 0))%Z
    with (p + Z.of_nat (length (c :: seg)))%Z by lia.
  rewrite (slice_At (c :: seg) (dq :: rest) HA). reflexivity.
Qed.

(** A quoted field, from behind its opening quote to behind its closing
    quote: every doubled quote has become one quote. *)
Lemma quoted_finish (n : nat) :
  forall (q : jsstring) (p : Z) (v0 rest : jsstring) (rws : list Row) (rw : Row)
         (i : nat) (o0 o : Calls),
  length q <= n ->
  At text p (escape q ++ dq :: rest) -> no_quote_ahead rest ->
  (p + Z.of_nat (length (escape q)) <= L)%Z ->
  finish (mkState NoCol (p + Z.of_nat (length (escape q)) + 1) rws (v0 ++ q) rw i o0) o ->
  finish (mkState Quoted p rws v0 rw i o0) o.
Proof.
  induction n as [|n IH]; intros q p v0 rest rws rw i o0 o Hn HA Hq HL Hf.
  - destruct q; [|simpl in Hn; lia]. cbn [escape flat_map app length] in *.
    rewrite app_nil_r, Z.add_0_r in Hf.
    eapply finish_turn;
      [exact HA | cbn [pos]; lia | eapply turn_close; eassumption
      | cbn [pos]; lia | exact Hf].
  - destruct (quote_free_prefix q) as (seg & q2 & -> & Hs & Hq2).
    destruct seg as [|c seg].
    + destruct Hq2 as [-> | [q3 ->]].
      * cbn [escape flat_map app length] in *.
        rewrite app_nil_r, Z.add_0_r in Hf.
        eapply finish_turn;
          [exact HA | cbn [pos]; lia | eapply turn_close; eassumption
          | cbn [pos]; lia | exact Hf].
      * cbn [app] in *. rewrite escape_quote in *. cbn [app length] in *.
        eapply finish_turn;
          [exact HA | cbn [pos]; lia | eapply turn_escaped; eassumption
          | cbn [pos]; lia | cbn [finish_step] ].
        apply (IH q3 (p + 2)%Z (v0 ++ quote) rest); try assumption; try lia.
        -- exact (At_app [dq; dq] _ HA).
        -- unfold quote. rewrite <- app_assoc. cbn [app].
           replace (p + 2 + Z.of_nat (length (escape q3)) + 1)%Z
             with (p + Z.of_nat (S (S (length (escape q3)))) + 1)%Z by lia.
           exact Hf.
    + rewrite escape_app, (escape_quote_free Hs), <- app_assoc in HA.
      rewrite escape_app, (escape_quote_free Hs), length_app in HL, Hf.
      rewrite length_app in Hn.
      assert (exists r, escape q2 ++ dq :: rest = dq :: r) as [r Er]
        by (destruct Hq2 as [-> | [q3 ->]];
            [now exists rest | rewrite escape_quote; eexists; reflexivity]).
      eapply finish_turn;
        [exact HA | cbn [pos]; lia
        | rewrite Er in HA; eapply turn_segment; eassumption
        | cbn [pos length]; lia | cbn [finish_step] ].
      apply (IH q2 _ (v0 ++ c :: seg) rest); try assumption.
      * cbn [length] in Hn. lia.
      * apply (At_app (c :: seg) _ HA).
      * lia.
      * rewrite <- app_assoc.
        replace (p + Z.of_nat (length (c :: seg)) + Z.of_nat (length (escape q2)) + 1)%Z
          with (p + Z.of_nat (length (c :: seg) + length (escape q2)) + 1)%Z by lia.
        exact Hf.
Qed.

Lemma finish_open (rest : jsstring) (p : Z) (rws : list Row)
  (v0 : jsstring) (rw : Row) (i : nat) (o0 o : Calls) :
  At text p (dq :: rest) -> rest <> [] -> (p <= L)%Z ->
  finish (mkState Quoted (p + 1) rws v0 rw i o0) o ->
  finish (mkState NoCol p rws v0 rw i o0) o.
Proof.
  intros HA Hne HL Hf fuel Hfuel.
  destruct rest as [|x rest]; [congruence|].
  destruct fuel as [|fuel]; [cbn [pos] in Hfuel; lia|].
  rewrite loop_S. cbn [pos].
  rewrite (At_endPos _ _ _ HA), (turn_open (x :: rest) p rws v0 rw i o0 HA).
  rewrite <- (Hf (S fuel)) by (cbn [pos] in *; lia).
  rewrite loop_S. cbn [pos]. now rewrite (At_endPos _ _ _ (At_cons HA)).
Qed.

Lemma finish_commit (c : ascii) (after : jsstring) (st : State)
  (rws : list Row) (v0 : jsstring) (rw : Row) (i : nat) (o0 o : Calls) :
  At text (pos st) (c :: after) -> c = cd \/ c = rd -> (pos st <= L)%Z ->
  Turn st = commit c (pos st) rws v0 rw i o0 ->
  finish_step (commit c (pos st) rws v0 rw i o0) o ->
  finish st o.
Proof.
  intros HA Hc HL HT Hf.
  eapply finish_turn; [exact HA | exact HL | exact HT | | exact Hf].
  pose proof (commit_pos c (pos st) rws v0 rw i o0 Hc) as HP.
  destruct (commit c (pos st) rws v0 rw i o0); [apply HP | exact I | exact I].
Qed.

(** One field and the delimiter behind it. *)
Lemma field_finish (f : Field) (c : ascii) (after : jsstring) (p : Z)
  (rws : list Row) (rw : Row) (i : nat) (o0 o : Calls) :
  field_ok cd rd f = true ->
  At text p (raw f ++ c :: after) ->
  (c = cd /\ (Z.of_nat i =? lastColIdx numCols)%Z = false) \/
  (c = rd /\ (Z.of_nat i =? lastColIdx numCols)%Z = true /\
   exists r, after = rdt ++ r) ->
  (p + Z.of_nat (length (raw f)) <= L)%Z ->
  finish_step (commit c (p + Z.of_nat (length (raw f))) rws (value f) rw i o0) o ->
  finish (mkState NoCol p rws [] rw i o0) o.
Proof.
  intros Hok HA Hcase HL Hf.
  assert (Hc : c = cd \/ c = rd) by (destruct Hcase as [[? _] | [? _]]; auto).
  assert (Hcq : c <> dq) by (destruct Hc; congruence).
  destruct f as [[|c0 u] | q]; cbn [raw value app length] in *.
  - rewrite Z.add_0_r in *.
    eapply (finish_commit c after (mkState NoCol p rws [] rw i o0) _ _ _ _ _ _ HA Hc HL);
      [apply (turn_NoCol_delim c after p rws [] rw i o0 HA Hc) | exact Hf].
  - destruct (plain_ok_Forall _ _ _ Hok) as (Hcd & Hrd & Hq0).
    eapply finish_turn;
      [exact HA | cbn [pos]; lia
      | eapply (turn_plain c0 u (c :: after)); try eassumption
      | cbn [pos length]; lia | cbn [finish_step] ].
    + destruct Hcase as [[-> E] | [-> [E [r ->]]]]; [left | right];
        (split; [exact E|]); [now exists after | right; now exists r].
    + pose proof (At_app (c0 :: u) _ HA) as HA2.
      eapply (finish_commit c after (mkState Unquoted _ rws (c0 :: u) rw i o0)
                _ _ _ _ _ _ HA2 Hc);
        [ cbn [pos length]; lia
        | apply (turn_Unquoted_delim c after _ rws (c0 :: u) rw i o0 HA2 Hc) | exact Hf].
  - apply (finish_open ((escape q ++ [dq]) ++ c :: after));
      [exact HA | destruct (escape q); discriminate | lia |].
    rewrite <- app_assoc in HA. cbn [app] in HA.
    pose proof (At_cons HA) as HA1.
    rewrite length_app in *. cbn [length] in *.
    eapply (quoted_finish (length q) q _ _ (c :: after));
      [reflexivity | exact HA1 | exact Hcq | lia |].
    assert (HA2 : At text (p + 1 + Z.of_nat (length (escape q) + 1)) (c :: after)).
    { replace (length (escape q) + 1) with (length (escape q ++ [dq]))
        by (rewrite length_app; reflexivity).
      apply At_app. now rewrite <- app_assoc. }
    replace (p + 1 + Z.of_nat (length (escape q)) + 1)%Z
      with (p + 1 + Z.of_nat (length (escape q) + 1))%Z by lia.
    eapply (finish_commit c after (mkState NoCol _ rws ([] ++ q) rw i o0)
              _ _ _ _ _ _ HA2 Hc);
      [ cbn [pos length]; lia
      | apply (turn_NoCol_delim c after _ rws ([] ++ q) rw i o0 HA2 Hc) | ].
    cbn [pos app].
    replace (p + 1 + Z.of_nat (length (escape q) + 1))%Z
      with (p + Z.of_nat (S (length (escape q) + 1)))%Z by lia.
    exact Hf.
Qed.

Lemma raw_row_cons (f f2 : Field) (fs : list Field) :
  raw_row cd (f :: f2 :: fs) = raw f ++ cd :: raw_row cd (f2 :: fs).
Proof. reflexivity. Qed.

Lemma raw_row_one (f : Field) : raw_row cd [f] = raw f.
Proof. reflexivity. Qed.

(** The fields of a row that ends with the row delimiter; [xs] are the
    values already stored in the row buffer. *)
Lemma row_fields_finish (fs : list Field) :
  forall (xs : list jsstring) (p : Z) (rws : list Row) (o0 o : Calls)
         (after : jsstring),
  fs <> [] -> length xs + length fs = numCols ->
  forallb (field_ok cd rd) fs = true ->
  At text p (raw_row cd fs ++ rowDelim ++ after) ->
  (p + Z.of_nat (length (raw_row cd fs)) <= L)%Z ->
  finish_step (push_row (p + Z.of_nat (length (raw_row cd fs))) rws
                        (map Some (xs ++ map value fs)) o0) o ->
  finish (mkState NoCol p rws [] (map Some xs ++ repeat None (length fs))
                  (length xs) o0) o.
Proof.
  induction fs as [|f fs IH]; intros xs p rws o0 o after Hne Hlen Hok HA HL Hf;
    [congruence|].
  cbn [forallb] in Hok. apply andb_true_iff in Hok as [Hokf Hok].
  destruct fs as [|f2 fs].
  - rewrite raw_row_one in *. cbn [length] in Hlen.
    eapply (field_finish f rd (rdt ++ after)); [exact Hokf | | | exact HL |].
    + exact HA.
    + right. split; [reflexivity|]. split; [|now exists after].
      unfold lastColIdx. apply Z.eqb_eq. lia.
    + rewrite commit_rd. cbn [length map] in *.
      rewrite (array_set_fill xs 0 (value f)). cbn [repeat]. now rewrite app_nil_r.
  - rewrite raw_row_cons in *. rewrite <- app_assoc in HA. cbn [app] in HA.
    rewrite length_app in *. cbn [length] in HL, Hf, Hlen.
    eapply (field_finish f cd (raw_row cd (f2 :: fs) ++ rowDelim ++ after));
      [exact Hokf | exact HA | | lia |].
    + left. split; [reflexivity|]. unfold lastColIdx. apply Z.eqb_neq. lia.
    + rewrite commit_cd. cbn [finish_step].
      change (length (f :: f2 :: fs)) with (S (length (f2 :: fs))).
      rewrite (array_set_fill xs (length (f2 :: fs)) (value f)).
      replace (S (length xs)) with (length (xs ++ [value f]))
        by (rewrite length_app; cbn [length]; lia).
      eapply (IH (xs ++ [value f]) _ rws o0 o after);
        [discriminate | rewrite length_app; cbn [length] in *; lia | exact Hok
        | | | ].
      * apply (At_cons (c := cd)). exact (At_app (raw f) _ HA).
      * lia.
      * rewrite <- app_assoc. cbn [map app].
        replace (p + Z.of_nat (length (raw f)) + 1 +
                 Z.of_nat (length (raw_row cd (f2 :: fs))))%Z
          with (p + Z.of_nat (length (raw f) + S (length (raw_row cd (f2 :: fs)))))%Z
          by lia.
        exact Hf.
Qed.

Lemma values_full (r : list Field) :
  length r = numCols -> values numCols r = map Some (map value r).
Proof.
  intros H. unfold values. rewrite H, Nat.sub_diag, app_nil_r.
  now rewrite map_map.
Qed.

Lemma render_cons (r : list Field) (rs : list (list Field)) :
  render cd rowDelim (r :: rs) = (raw_row cd r ++ rowDelim) ++ render cd rowDelim rs.
Proof. reflexivity. Qed.

Hypothesis numCols_pos : 1 <= numCols.

(** A whole row, from its first character to behind its delimiter. *)
Lemma row_finish (r : list Field) (p : Z) (rws : list Row) (o0 o : Calls)
  (after : jsstring) :
  row_ok cd rd numCols r = true ->
  At text p (raw_row cd r ++ rowDelim ++ after) ->
  (p + Z.of_nat (length (raw_row cd r)) <= L)%Z ->
  finish_step (push_row (p + Z.of_nat (length (raw_row cd r))) rws
                        (values numCols r) o0) o ->
  finish (mkState NoCol p rws [] (Array numCols) 0 o0) o.
Proof.
  intros Hok HA HL Hf. unfold row_ok in Hok.
  apply andb_true_iff in Hok as [Hlen Hok]. apply Nat.eqb_eq in Hlen.
  rewrite (values_full r Hlen) in Hf.
  unfold Array. rewrite <- Hlen.
  apply (row_fields_finish r [] p rws o0 o after); try assumption.
  destruct r; [simpl in Hlen; lia | discriminate].
Qed.

(** Rows without a row limit: the rows are added to the chunks. *)
Lemma rows_finish (rs : list (list Field)) :
  forall (p : Z) (rws : list Row) (o0 : Calls) (after : jsstring),
  limit = None ->
  forallb (row_ok cd rd numCols) rs = true ->
  At text p (render cd rowDelim rs ++ after) ->
  (p + Z.of_nat (length (render cd rowDelim rs)) <= L)%Z ->
  exists rws1 o1,
    concat o1 ++ rws1 = concat o0 ++ rws ++ map (values numCols) rs /\
    forall o,
      finish (mkState NoCol (p + Z.of_nat (length (render cd rowDelim rs)))
                      rws1 [] (Array numCols) 0 o1) o ->
      finish (mkState NoCol p rws [] (Array numCols) 0 o0) o.
Proof.
  induction rs as [|r rs IH]; intros p rws o0 after Hlim Hok HA HL.
  - exists rws, o0. cbn [render flat_map length map]. rewrite app_nil_r, Z.add_0_r.
    split; [reflexivity | auto].
  - cbn [forallb] in Hok. apply andb_true_iff in Hok as [Hokr Hok].
    rewrite render_cons in *. rewrite <- !app_assoc in HA.
    rewrite !length_app in HL.
    set (p1 := (p + Z.of_nat (length (raw_row cd r)))%Z) in *.
    assert (HA1 : At text (p1 + Z.of_nat (length rowDelim))
                     (render cd rowDelim rs ++ after)).
    { apply (At_app rowDelim). exact (At_app (raw_row cd r) _ HA). }
    set (rows1 := rws ++ [values numCols r]).
    destruct (IH (p1 + Z.of_nat (length rowDelim))%Z
                 (if length rows1 =? CHUNK_SIZE then [] else rows1)
                 (if length rows1 =? CHUNK_SIZE then o0 ++ [rows1] else o0)
                 after Hlim Hok HA1) as (rws2 & o2 & Hc & Hfin); [lia|].
    exists rws2, o2. split.
    + rewrite Hc. subst rows1. cbn [map].
      destruct (_ =? _); rewrite ?concat_app; cbn [concat app];
        rewrite ?app_nil_r, <- ?app_assoc; reflexivity.
    + intros o Hf. apply (row_finish r p rws o0 o (render cd rowDelim rs ++ after) Hokr HA);
        [lia|].
      unfold push_row. rewrite Hlim. cbn [limit_hit]. fold p1.
      subst rows1. cbv zeta.
      rewrite !length_app in Hf.
      replace (p + Z.of_nat (length (raw_row cd r) + length rowDelim +
                             length (render cd rowDelim rs)))%Z
        with (p1 + Z.of_nat (length rowDelim) +
              Z.of_nat (length (render cd rowDelim rs)))%Z in Hf by lia.
      destruct (_ =? CHUNK_SIZE); cbn [finish_step]; apply Hfin; exact Hf.
Qed.


Hypothesis L_end : (Z.of_nat (length text) <= L)%Z.

Lemma At_bound (p : Z) (rest : jsstring) :
  At text p rest -> (p + Z.of_nat (length rest) <= L)%Z.
Proof. intros H. apply At_length in H. lia. Qed.

(** The fields after the last row delimiter, up to the end of the text:
    they are flushed as the last row. *)
Lemma last_fields_finish (fs : list Field) :
  forall (xs : list jsstring) (k : nat) (p : Z) (rws : list Row) (o0 : Calls),
  fs <> [] -> length xs + k = numCols -> length fs <= k ->
  forallb (field_ok cd rd) fs = true ->
  length fs = k \/ open_field (last fs (Plain [])) = false ->
  At text p (raw_row cd fs) ->
  finish (mkState NoCol p rws [] (map Some xs ++ repeat None k) (length xs) o0)
         (o0 ++ [rws ++ [map Some (xs ++ map value fs)
                         ++ repeat None (k - length fs)]]).
Proof.
  induction fs as [|f fs IH]; intros xs k p rws o0 Hne Hk Hlen Hok Hlast HA;
    [congruence|].
  cbn [forallb] in Hok. apply andb_true_iff in Hok as [Hokf Hok].
  pose proof (At_bound _ _ HA) as HB.
  destruct k as [|k]; [cbn [length] in Hlen; lia|].
  destruct fs as [|f2 fs].
  - rewrite raw_row_one in *. cbn [length map last] in *.
    replace (S k - 1) with k by lia.
    destruct f as [[|c0 u] | q]; cbn [raw value] in *.
    + pose proof (finish_exit (mkState NoCol p rws []
                    (map Some xs ++ repeat None (S k)) (length xs) o0) HA) as HE.
      unfold flush in HE. cbn [pos rows row colIdx v out] in HE.
      rewrite array_set_fill in HE. apply HE. cbn [length] in HB. lia.
    + destruct (plain_ok_Forall _ _ _ Hokf) as (Hcd & Hrd & Hq0).
      assert (HA' : At text p ((c0 :: u) ++ [])) by now rewrite app_nil_r.
      eapply finish_turn;
        [exact HA | cbn [pos]; lia
        | eapply (turn_plain c0 u []); try eassumption
        | cbn [pos length]; lia | cbn [finish_step] ].
      * right. split; [|now left]. unfold lastColIdx. apply Z.eqb_eq.
        destruct Hlast as [E | E]; [lia | discriminate].
      * pose proof (At_app (c0 :: u) [] HA') as HA2.
        pose proof (finish_exit (mkState Unquoted (p + Z.of_nat (length (c0 :: u)))
                      rws (c0 :: u)
                      (map Some xs ++ repeat None (S k)) (length xs) o0) HA2) as HE.
        unfold flush in HE. cbn [pos rows row colIdx v out] in HE.
        rewrite array_set_fill in HE. apply HE. lia.
    + cbn [length] in HB. rewrite length_app in HB. cbn [length] in HB.
      apply (finish_open (escape q ++ [dq]));
        [exact HA | destruct (escape q); discriminate | lia |].
      pose proof (At_cons HA) as HA1.
      eapply (quoted_finish (length q) q _ _ []);
        [reflexivity | exact HA1 | exact I | lia |].
      assert (HA2 : At text (p + 1 + Z.of_nat (length (escape q)) + 1) []).
      { apply (At_cons (c := dq)). exact (At_app (escape q) [dq] HA1). }
      pose proof (finish_exit (mkState NoCol (p + 1 + Z.of_nat (length (escape q)) + 1)
                    rws ([] ++ q)
                    (map Some xs ++ repeat None (S k)) (length xs) o0) HA2) as HE.
      unfold flush in HE. cbn [pos rows row colIdx v out app] in HE.
      rewrite array_set_fill in HE. apply HE. lia.
  - rewrite raw_row_cons in *. cbn [length] in Hlen.
    rewrite length_app in HB. cbn [length] in HB.
    eapply (field_finish f cd (raw_row cd (f2 :: fs)));
      [exact Hokf | exact HA | | lia |].
    + left. split; [reflexivity|]. unfold lastColIdx. apply Z.eqb_neq. lia.
    + rewrite commit_cd. cbn [finish_step].
      rewrite (array_set_fill xs k (value f)).
      replace (S (length xs)) with (length (xs ++ [value f]))
        by (rewrite length_app; cbn [length]; lia).
      replace (xs ++ map value (f :: f2 :: fs))
        with ((xs ++ [value f]) ++ map value (f2 :: fs))
        by (rewrite <- app_assoc; reflexivity).
      change (S k - length (f :: f2 :: fs)) with (k - length (f2 :: fs)).
      apply IH; [discriminate | rewrite length_app; cbn [length]; lia
                | cbn [length] in *; lia | exact Hok | | ].
      * cbn [length last] in *.
        destruct Hlast as [E | E]; [left; lia | right; exact E].
      * apply (At_cons (c := cd)). exact (At_app (raw f) _ HA).
Qed.

Lemma last_row_finish (r : list Field) (p : Z) (rws : list Row) (o0 : Calls) :
  last_row_ok cd rd numCols r = true ->
  At text p (raw_row cd r) ->
  finish (mkState NoCol p rws [] (Array numCols) 0 o0)
         (o0 ++ [rws ++ [values numCols r]]).
Proof.
  unfold last_row_ok. rewrite !andb_true_iff, orb_true_iff, negb_true_iff.
  rewrite Nat.leb_le, Nat.leb_le, Nat.eqb_eq.
  intros [[[H1 H2] Hok] Hlast] HA.
  pose proof (last_fields_finish r [] numCols p rws o0) as H.
  cbn [length map app] in H.
  unfold values. rewrite <- (map_map value Some). apply H; try assumption.
  - destruct r; [simpl in H1; lia | discriminate].
  - reflexivity.
Qed.

End Machine.

(** The quoted path on well-formed text: rows that end with the row
    delimiter, then the fields of a last row up to the end of the text.
    The text after the last row delimiter always makes a row of its own;
    when it is empty, that row holds one empty field. *)
Lemma parse_text (cd rd : ascii) (rdt : jsstring) (schema : Schema)
  (mc : option nat) (rs : list (list Field)) (r : list Field) (fuel : nat) :
  let numCols := or_default mc (length (cols_names schema)) in
  let text := render cd (rd :: rdt) rs ++ raw_row cd r in
  delims_ok cd rd = true ->
  s_quote schema <> [] ->
  cols_delim schema = Some [cd] ->
  rows_delim schema = rd :: rdt ->
  forallb (row_ok cd rd numCols) rs = true ->
  last_row_ok cd rd numCols r = true ->
  length text < fuel ->
  exists calls chunk,
    parse fuel text schema None mc = Ok (calls ++ [chunk ++ [values numCols r]]) /\
    concat calls ++ chunk = map (values numCols) rs.
Proof.
  intros numCols text Hd Hq Hcd Hrd Hrs Hr Hfuel.
  destruct (delims_ok_neq _ _ Hd) as (H1 & H2 & H3).
  assert (Hn : 1 <= numCols).
  { unfold last_row_ok in Hr. rewrite !andb_true_iff, !Nat.leb_le in Hr. lia. }
  unfold parse. rewrite Hcd, Hrd. destruct (s_quote schema); [congruence|].
  fold numCols.
  replace (match mc with Some _ => false | None => false end) with false
    by (destruct mc; reflexivity).
  set (L := Z.of_nat (length text)).
  destruct (rows_finish text cd rd rdt numCols None L H1 H2 H3 Hn rs 0 [] []
              (raw_row cd r) eq_refl Hrs (At_start text))
    as (rws1 & o1 & Hc & Hfin).
  { subst L text. rewrite length_app. lia. }
  exists o1, rws1. split; [|exact Hc].
  apply Hfin; [|unfold init; cbn [pos]; lia].
  apply (last_row_finish text cd rd rdt numCols None L H1 H2 H3 Hn); [subst L; lia | exact Hr|].
  exact (At_app (render cd (rd :: rdt) rs) (raw_row cd r) (At_start text)).
Qed.


End SrcQuoted.

(** ** The state machine of [parse] (dist) on well-formed text

    The same development for the distributed file, whose quoted state has
    a loop of its own and whose callback takes the chunk index. *)

Module DistQuoted.
Import JSFacts SplitFacts ArrayFacts TextFacts.
Import Dist Text.

Lemma d_loop_S (csvStr colDelim rowDelim : jsstring) (numCols chunkSize : nat)
  (chunkLimit : option nat) (_probe : bool) (fuel : nat) (st : State) :
  loop csvStr colDelim rowDelim numCols chunkSize chunkLimit _probe (S fuel) st =
  if (pos st <=? endPos csvStr)%Z then
    match turn csvStr colDelim rowDelim numCols chunkSize chunkLimit _probe fuel st with
    | Continue st1 =>
        loop csvStr colDelim rowDelim numCols chunkSize chunkLimit _probe fuel st1
    | Return o => Ok o
    | Throw => TypeError
    | Spin => OutOfFuel
    end
  else Ok (flush st).
Proof. reflexivity. Qed.

Lemma quoted_loop_S (csvStr : jsstring) (fuel : nat) (st : State) (c : option ascii) :
  quoted_loop csvStr (S fuel) st c =
  if code_eq c quoteChar then
    let cNext := charCodeAt csvStr (pos st + 1) in
    if code_eq cNext quoteChar then
      let st1 := set_pos (pos st + 2)%Z (set_v (v st ++ quote) st) in
      quoted_loop csvStr fuel st1 (charCodeAt csvStr (pos st1))
    else Some (set_pos (pos st + 1)%Z (set_inCol NoCol st))
  else
    let pos2 := indexOf csvStr quote (pos st) in
    quoted_loop csvStr fuel
      (set_pos pos2 (set_v (v st ++ slice csvStr (pos st) pos2) st))
      quoteChar.
Proof. reflexivity. Qed.

Lemma d_ceq_quote (c : ascii) : code_eq (Some c) quoteChar = Ascii.eqb c dq.
Proof. reflexivity. Qed.

Lemma d_ceq_cd (c cd : ascii) : code_eq (Some c) (colDelimChar [cd]) = Ascii.eqb c cd.
Proof. reflexivity. Qed.

Lemma d_ceq_rd (c rd : ascii) (rdt : jsstring) :
  code_eq (Some c) (rowDelimChar (rd :: rdt)) = Ascii.eqb c rd.
Proof. reflexivity. Qed.

Section Machine.

Variables (text : jsstring) (cd rd : ascii) (rdt : jsstring).
Variables (numCols chunkSize : nat) (chunkLimit : option nat) (L : Z).
Hypothesis cd_dq : cd <> dq.
Hypothesis rd_dq : rd <> dq.
Hypothesis cd_rd : cd <> rd.

Local Abbreviation rowDelim := (rd :: rdt).
Local Abbreviation Run := (loop text [cd] rowDelim numCols chunkSize chunkLimit false).
Local Abbreviation Turn := (turn text [cd] rowDelim numCols chunkSize chunkLimit false).

(** The field is committed with the delimiter [c] under [pos]. *)
Definition d_commit (c : ascii) (p : Z) (rws : list Row) (v0 : jsstring)
  (rw : Row) (i nc : nat) (o0 : Calls) : Step :=
  PUSH rowDelim numCols chunkSize chunkLimit (Some c)
       (mkState NoCol p rws v0 rw i nc o0).

(** From [st] on, the parse returns with the calls [o], on any fuel that
    covers the distance to [L]. *)
Definition d_finish (st : State) (o : Calls) : Prop :=
  forall fuel, (Z.of_nat fuel > L - pos st)%Z -> Run fuel st = Ok o.

Definition d_finish_step (s : Step) (o : Calls) : Prop :=
  match s with
  | Continue st1 => d_finish st1 o
  | Return o1 => o1 = o
  | Throw => False
  | Spin => False
  end.

Lemma d_At_endPos (p : Z) (c : ascii) (rest : jsstring) :
  At text p (c :: rest) -> (p <=? endPos text)%Z = true.
Proof.
  intros H. apply At_length in H. unfold endPos. cbn [length] in H.
  apply Z.leb_le. lia.
Qed.

Lemma d_finish_exit (st : State) :
  At text (pos st) [] -> (pos st <= L)%Z -> d_finish st (flush st).
Proof.
  intros HA HL fuel Hf. destruct fuel as [|fuel]; [lia|].
  rewrite d_loop_S. apply At_length in HA. unfold endPos. cbn [length] in HA.
  destruct (Z.leb_spec (pos st) (Z.of_nat (length text) - 1)); [lia | reflexivity].
Qed.

Lemma d_finish_turn (st : State) (s : Step) (o : Calls) (c : ascii) (rest : jsstring) :
  At text (pos st) (c :: rest) -> (pos st <= L)%Z ->
  (forall f, (Z.of_nat f >= L - pos st)%Z -> Turn f st = s) ->
  match s with Continue st1 => (pos st < pos st1)%Z | _ => True end ->
  d_finish_step s o -> d_finish st o.
Proof.
  intros HA HL HT Hp Hs fuel Hf. destruct fuel as [|fuel]; [lia|].
  rewrite d_loop_S, (d_At_endPos _ _ _ HA), HT by lia.
  destruct s as [st1|o1| |]; cbn [d_finish_step] in Hs.
  - apply Hs. lia.
  - now subst.
  - contradiction.
  - contradiction.
Qed.

Lemma d_commit_cd (p : Z) (rws : list Row) (v0 : jsstring) (rw : Row) (i nc : nat)
  (o0 : Calls) :
  d_commit cd p rws v0 rw i nc o0 =
  Continue (mkState NoCol (p + 1) rws [] (array_set rw i v0) (S i) nc o0).
Proof.
  unfold d_commit, PUSH. rewrite d_ceq_rd, (eqb_neq_false cd_rd). reflexivity.
Qed.

(** The end of a row: a full chunk goes to the callback, and the chunk
    limit is tested behind that call. *)
Definition d_push_row (p : Z) (rws : list Row) (full : Row) (nc : nat) (o0 : Calls)
  : Step :=
  let rows1 := rws ++ [full] in
  if length rows1 =? chunkSize then
    if limit_hit chunkLimit (S nc) then Return (o0 ++ [(rows1, nc)])
    else Continue (mkState NoCol (p + Z.of_nat (length rowDelim)) [] []
                           (Array numCols) 0 (S nc) (o0 ++ [(rows1, nc)]))
  else
    Continue (mkState NoCol (p + Z.of_nat (length rowDelim)) rows1 []
                      (Array numCols) 0 nc o0).

Lemma d_commit_rd (p : Z) (rws : list Row) (v0 : jsstring) (rw : Row) (i nc : nat)
  (o0 : Calls) :
  d_commit rd p rws v0 rw i nc o0 = d_push_row p rws (array_set rw i v0) nc o0.
Proof.
  unfold d_commit, PUSH, d_push_row. rewrite d_ceq_rd, Ascii.eqb_refl.
  cbn [pos rows row colIdx v out inCol numChunks]. unfold rowDelimLen.
  replace (p + 1 + (Z.of_nat (length rowDelim) - 1))%Z
    with (p + Z.of_nat (length rowDelim))%Z by lia.
  reflexivity.
Qed.

Lemma d_commit_pos (c : ascii) (p : Z) (rws : list Row) (v0 : jsstring)
  (rw : Row) (i nc : nat) (o0 : Calls) :
  c = cd \/ c = rd ->
  match d_commit c p rws v0 rw i nc o0 with
  | Continue st1 => (p < pos st1)%Z /\ inCol st1 = NoCol
  | _ => True
  end.
Proof.
  intros [-> | ->].
  - rewrite d_commit_cd. cbn. split; [lia | reflexivity].
  - rewrite d_commit_rd. unfold d_push_row. cbv zeta.
    destruct (_ =? _); [destruct (limit_hit _ _); [exact I|]|];
      cbn [pos inCol length]; split; (lia || reflexivity).
Qed.

(** A delimiter met while no field is open: the field is committed. *)
Lemma d_turn_NoCol_delim (f : nat) (c : ascii) (rest : jsstring) (p : Z)
  (rws : list Row) (v0 : jsstring) (rw : Row) (i nc : nat) (o0 : Calls) :
  At text p (c :: rest) -> c = cd \/ c = rd ->
  Turn f (mkState NoCol p rws v0 rw i nc o0) = d_commit c p rws v0 rw i nc o0.
Proof.
  intros HA Hc. pose proof (d_commit_pos c p rws v0 rw i nc o0 Hc) as HP.
  unfold turn, unstarted. cbn [inCol pos]. rewrite (charCodeAt_At HA).
  rewrite d_ceq_quote, d_ceq_cd, d_ceq_rd.
  replace (Ascii.eqb c dq) with false
    by (symmetry; apply eqb_neq_false; destruct Hc; congruence).
  replace (Ascii.eqb c cd || Ascii.eqb c rd) with true
    by (destruct Hc as [-> | ->]; rewrite Ascii.eqb_refl; now rewrite ?orb_true_r).
  fold (d_commit c p rws v0 rw i nc o0).
  destruct (d_commit c p rws v0 rw i nc o0) as [st1| | |]; try reflexivity.
  unfold in_column. now rewrite (proj2 HP).
Qed.

(** A delimiter met at the end of a plain field. *)
Lemma d_turn_Unquoted_delim (f : nat) (c : ascii) (rest : jsstring) (p : Z)
  (rws : list Row) (v0 : jsstring) (rw : Row) (i nc : nat) (o0 : Calls) :
  At text p (c :: rest) -> c = cd \/ c = rd ->
  Turn f (mkState Unquoted p rws v0 rw i nc o0) = d_commit c p rws v0 rw i nc o0.
Proof.
  intros HA Hc.
  unfold turn, unstarted, in_column. cbn [inCol pos]. rewrite (charCodeAt_At HA).
  rewrite d_ceq_cd, d_ceq_rd.
  replace (Ascii.eqb c cd || Ascii.eqb c rd) with true
    by (destruct Hc as [-> | ->]; rewrite Ascii.eqb_refl; now rewrite ?orb_true_r).
  unfold d_commit, PUSH. cbn [inCol pos rows v row colIdx out numChunks].
  destruct (code_eq (Some c) (rowDelimChar rowDelim)); [|reflexivity].
  destruct (_ =? _); [|reflexivity].
  destruct (limit_hit _ _); reflexivity.
Qed.

(** The forward scan of a plain field, in its three cases. *)
Lemma d_scan_col (p : Z) (u rest : jsstring) :
  At text p (u ++ cd :: rest) -> Forall (fun c => c <> cd) u ->
  indexOf text [cd] p = (p + Z.of_nat (length u))%Z.
Proof.
  intros HA Hu. rewrite (indexOf_At [cd] HA), (find_skip [] (cd :: rest) Hu).
  pose proof (find_here [cd] rest) as E. cbn [app] in E. rewrite E.
  cbn [option_map]. f_equal. lia.
Qed.

Lemma d_scan_row (p : Z) (u rest : jsstring) :
  At text p (u ++ rowDelim ++ rest) -> Forall (fun c => c <> rd) u ->
  indexOf text rowDelim p = (p + Z.of_nat (length u))%Z.
Proof.
  intros HA Hu. rewrite (indexOf_At rowDelim HA), (find_skip rdt (rowDelim ++ rest) Hu).
  pose proof (find_here rowDelim rest) as E. rewrite E.
  cbn [option_map]. f_equal. lia.
Qed.

Lemma d_scan_end (p : Z) (u : jsstring) :
  At text p u -> Forall (fun c => c <> rd) u ->
  indexOf text rowDelim p = (-1)%Z /\ Z.of_nat (length text) = (p + Z.of_nat (length u))%Z.
Proof.
  intros HA Hu. rewrite (indexOf_At rowDelim HA).
  pose proof (find_skip rdt [] Hu) as E. rewrite app_nil_r in E. rewrite E.
  split; [reflexivity|]. apply At_length in HA. lia.
Qed.

(** The first turn on a plain field with text in it: the whole field is
    taken by one scan. *)
Lemma d_turn_plain (f : nat) (c : ascii) (u after : jsstring) (p : Z)
  (rws : list Row) (rw : Row) (i nc : nat) (o0 : Calls) :
  At text p ((c :: u) ++ after) ->
  c <> dq -> Forall (fun x => x <> cd) (c :: u) -> Forall (fun x => x <> rd) (c :: u) ->
  ((Z.of_nat i =? lastColIdx numCols)%Z = false /\ exists r, after = cd :: r) \/
  ((Z.of_nat i =? lastColIdx numCols)%Z = true /\
   (after = [] \/ exists r, after = rowDelim ++ r)) ->
  Turn f (mkState NoCol p rws [] rw i nc o0) =
  Continue (mkState Unquoted (p + Z.of_nat (length (c :: u))) rws (c :: u) rw i nc o0).
Proof.
  intros HA Hq Hcd Hrd Hcase.
  unfold turn, unstarted, in_column. cbn [inCol pos set_inCol].
  rewrite (charCodeAt_At (c := c) (rest := u ++ after) HA).
  rewrite d_ceq_quote, d_ceq_cd, d_ceq_rd, (eqb_neq_false Hq).
  rewrite (eqb_neq_false (Forall_inv Hcd)), (eqb_neq_false (Forall_inv Hrd)).
  cbn [orb inCol colIdx pos v set_pos set_v set_inCol rows row out numChunks app].
  rewrite d_ceq_cd, d_ceq_rd.
  rewrite (eqb_neq_false (Forall_inv Hcd)), (eqb_neq_false (Forall_inv Hrd)).
  cbn [orb inCol colIdx pos v set_pos set_v set_inCol rows row out numChunks app].
  destruct Hcase as [[-> [r ->]] | [-> [-> | [r ->]]]].
  - rewrite (d_scan_col p (c :: u) r HA Hcd), (slice_At (c :: u) (cd :: r) HA). reflexivity.
  - rewrite app_nil_r in HA. destruct (d_scan_end p (c :: u) HA Hrd) as [E1 E2].
    rewrite E1. change ((-1 =? -1)%Z) with true. cbv iota. rewrite E2.
    rewrite <- (app_nil_r (c :: u)) in HA.
    rewrite (slice_At (c :: u) [] HA). reflexivity.
  - rewrite (d_scan_row p (c :: u) r HA Hrd).
    destruct (Z.eqb_spec (p + Z.of_nat (length (c :: u))) (-1)) as [E|_];
      [pose proof (At_nonneg HA); lia|].
    rewrite (slice_At (c :: u) (rowDelim ++ r) HA). reflexivity.
Qed.

(** No quote follows: [rest] is empty or starts with another character. *)
Definition d_no_quote_ahead (rest : jsstring) : Prop :=
  match rest with
  | c :: _ => c <> dq
  | [] => True
  end.

Lemma charCodeAt_no_quote (p : Z) (rest : jsstring) :
  At text p rest -> d_no_quote_ahead rest ->
  code_eq (charCodeAt text p) quoteChar = false.
Proof.
  intros HA Hn. destruct rest as [|c rest].
  - now rewrite (charCodeAt_end HA).
  - rewrite (charCodeAt_At HA), d_ceq_quote. now apply eqb_neq_false.
Qed.

(** The inner loop on a quoted field, from behind its opening quote to
    behind its closing quote: every doubled quote has become one quote. *)
Lemma quoted_loop_field (n : nat) :
  forall (q : jsstring) (p : Z) (v0 rest : jsstring) (rws : list Row) (rw : Row)
         (i nc : nat) (o0 : Calls) (f : nat),
  length q <= n ->
  At text p (escape q ++ dq :: rest) -> d_no_quote_ahead rest ->
  length (escape q) < f ->
  quoted_loop text f (mkState Quoted p rws v0 rw i nc o0) (charCodeAt text p) =
  Some (mkState NoCol (p + Z.of_nat (length (escape q)) + 1) rws (v0 ++ q) rw i nc o0).
Proof.
  induction n as [|n IH]; intros q p v0 rest rws rw i nc o0 f Hn HA Hq Hf.
  - destruct q; [|simpl in Hn; lia]. cbn [escape flat_map app length] in *.
    destruct f as [|f]; [lia|]. rewrite quoted_loop_S.
    rewrite (charCodeAt_At HA), d_ceq_quote, Ascii.eqb_refl. cbn [pos].
    rewrite (charCodeAt_no_quote _ _ (At_cons HA) Hq).
    unfold set_pos, set_inCol; cbn [inCol pos rows v row colIdx numChunks out].
    now rewrite app_nil_r, Z.add_0_r.
  - destruct (quote_free_prefix q) as (seg & q2 & -> & Hs & Hq2).
    destruct f as [|f]; [lia|]. rewrite quoted_loop_S.
    destruct seg as [|c seg].
    + destruct Hq2 as [-> | [q3 ->]].
      * cbn [escape flat_map app length] in *.
        rewrite (charCodeAt_At HA), d_ceq_quote, Ascii.eqb_refl. cbn [pos].
        rewrite (charCodeAt_no_quote _ _ (At_cons HA) Hq).
        unfold set_pos, set_inCol; cbn [inCol pos rows v row colIdx numChunks out].
        now rewrite app_nil_r, Z.add_0_r.
      * cbn [app] in *. rewrite escape_quote in *. cbn [app length] in *.
        rewrite (charCodeAt_At HA), d_ceq_quote, Ascii.eqb_refl. cbn [pos].
        rewrite (charCodeAt_At (At_cons HA)), d_ceq_quote, Ascii.eqb_refl.
        cbv zeta. unfold set_pos, set_v; cbn [inCol pos rows v row colIdx numChunks out].
        rewrite (IH q3 (p + 2)%Z (v0 ++ quote) rest); try assumption; try lia.
        -- unfold quote. rewrite <- app_assoc. cbn [app]. do 2 f_equal. lia.
        -- exact (At_app [dq; dq] _ HA).
    + rewrite escape_app, (escape_quote_free Hs), <- app_assoc in HA.
      rewrite escape_app, (escape_quote_free Hs), length_app in Hf |- *.
      rewrite length_app in Hn.
      assert (exists r, escape q2 ++ dq :: rest = dq :: r) as [r Er]
        by (destruct Hq2 as [-> | [q3 ->]];
            [now exists rest | rewrite escape_quote; eexists; reflexivity]).
      rewrite (charCodeAt_At (c := c) (rest := seg ++ escape q2 ++ dq :: rest) HA).
      rewrite d_ceq_quote, (eqb_neq_false (Forall_inv Hs)). cbv zeta. cbn [pos v].
      pose proof HA as HA'. rewrite Er in HA'.
      unfold quote at 1 2. rewrite (indexOf_At [dq] HA'), (find_skip [] (dq :: r) Hs).
      pose proof (find_here [dq] r) as E. cbn [app] in E. rewrite E.
      cbn [option_map].
      replace (p + Z.of_nat (length (c :: seg) + 0))%Z
        with (p + Z.of_nat (length (c :: seg)))%Z by lia.
      rewrite (slice_At (c :: seg) (dq :: r) HA').
      unfold set_pos, set_v; cbn [inCol pos rows v row colIdx numChunks out].
      pose proof (At_app (c :: seg) _ HA) as HA2.
      replace quoteChar with (charCodeAt text (p + Z.of_nat (length (c :: seg))))
        by (rewrite Er in HA2; now rewrite (charCodeAt_At HA2)).
      rewrite (IH q2 _ (v0 ++ c :: seg) rest); try assumption.
      * rewrite <- app_assoc. do 2 f_equal. lia.
      * cbn [length] in Hn. lia.
      * cbn [length] in Hf. lia.
Qed.

(** The turn that opens a quoted field takes the whole field. *)
Lemma turn_quoted (f : nat) (q rest : jsstring) (p : Z) (rws : list Row)
  (rw : Row) (i nc : nat) (o0 : Calls) :
  At text p (dq :: escape q ++ dq :: rest) -> d_no_quote_ahead rest ->
  length (escape q) < f ->
  Turn f (mkState NoCol p rws [] rw i nc o0) =
  Continue (mkState NoCol (p + 1 + Z.of_nat (length (escape q)) + 1) rws q rw i nc o0).
Proof.
  intros HA Hq Hf. unfold turn, unstarted. cbn [inCol pos set_inCol set_pos].
  rewrite (charCodeAt_At HA), d_ceq_quote, Ascii.eqb_refl.
  unfold in_column.
  unfold set_pos, set_inCol; cbn [inCol pos rows v row colIdx numChunks out].
  now rewrite (quoted_loop_field (length q) q (p + 1) [] rest rws rw i nc o0 f
             (le_n _) (At_cons HA) Hq Hf).
Qed.

Lemma d_finish_commit (c : ascii) (after : jsstring) (st : State)
  (rws : list Row) (v0 : jsstring) (rw : Row) (i nc : nat) (o0 o : Calls) :
  At text (pos st) (c :: after) -> c = cd \/ c = rd -> (pos st <= L)%Z ->
  (forall f, Turn f st = d_commit c (pos st) rws v0 rw i nc o0) ->
  d_finish_step (d_commit c (pos st) rws v0 rw i nc o0) o ->
  d_finish st o.
Proof.
  intros HA Hc HL HT Hf.
  eapply d_finish_turn; [exact HA | exact HL | intros f _; apply HT | | exact Hf].
  pose proof (d_commit_pos c (pos st) rws v0 rw i nc o0 Hc) as HP.
  destruct (d_commit c (pos st) rws v0 rw i nc o0); [apply HP | exact I ..].
Qed.

(** One field and the delimiter behind it. *)
Lemma d_field_finish (fd : Field) (c : ascii) (after : jsstring) (p : Z)
  (rws : list Row) (rw : Row) (i nc : nat) (o0 o : Calls) :
  field_ok cd rd fd = true ->
  At text p (raw fd ++ c :: after) ->
  (c = cd /\ (Z.of_nat i =? lastColIdx numCols)%Z = false) \/
  (c = rd /\ (Z.of_nat i =? lastColIdx numCols)%Z = true /\
   exists r, after = rdt ++ r) ->
  (p + Z.of_nat (length (raw fd)) <= L)%Z ->
  d_finish_step (d_commit c (p + Z.of_nat (length (raw fd))) rws (value fd) rw i nc o0) o ->
  d_finish (mkState NoCol p rws [] rw i nc o0) o.
Proof.
  intros Hok HA Hcase HL Hf.
  assert (Hc : c = cd \/ c = rd) by (destruct Hcase as [[? _] | [? _]]; auto).
  assert (Hcq : c <> dq) by (destruct Hc; congruence).
  destruct fd as [[|c0 u] | q]; cbn [raw value app length] in *.
  - rewrite Z.add_0_r in *.
    eapply (d_finish_commit c after (mkState NoCol p rws [] rw i nc o0) _ _ _ _ _ _ _ HA Hc HL);
      [intros f; apply (d_turn_NoCol_delim f c after p rws [] rw i nc o0 HA Hc) | exact Hf].
  - destruct (plain_ok_Forall _ _ _ Hok) as (Hcd & Hrd & Hq0).
    eapply d_finish_turn;
      [exact HA | cbn [pos]; lia
      | intros f _; eapply (d_turn_plain f c0 u (c :: after)); try eassumption
      | cbn [pos length]; lia | cbn [d_finish_step] ].
    + destruct Hcase as [[-> E] | [-> [E [r ->]]]]; [left | right];
        (split; [exact E|]); [now exists after | right; now exists r].
    + pose proof (At_app (c0 :: u) _ HA) as HA2.
      eapply (d_finish_commit c after (mkState Unquoted _ rws (c0 :: u) rw i nc o0)
                _ _ _ _ _ _ _ HA2 Hc);
        [ cbn [pos length]; lia
        | intros f; apply (d_turn_Unquoted_delim f c after _ rws (c0 :: u) rw i nc o0 HA2 Hc)
        | exact Hf].
  - rewrite <- app_assoc in HA. cbn [app] in HA.
    rewrite length_app in *. cbn [length] in *.
    eapply d_finish_turn;
      [exact HA | cbn [pos]; lia
      | intros f Hfu; apply (turn_quoted f q (c :: after) p rws rw i nc o0 HA Hcq);
        cbn [pos] in Hfu; lia
      | cbn [pos]; lia | cbn [d_finish_step] ].
    assert (HA2 : At text (p + 1 + Z.of_nat (length (escape q)) + 1) (c :: after)).
    { apply (At_cons (c := dq)). apply (At_app (escape q)). exact (At_cons HA). }
    eapply (d_finish_commit c after (mkState NoCol _ rws q rw i nc o0)
              _ _ _ _ _ _ _ HA2 Hc);
      [ cbn [pos length]; lia
      | intros f; apply (d_turn_NoCol_delim f c after _ rws q rw i nc o0 HA2 Hc) | ].
    cbn [pos].
    replace (p + 1 + Z.of_nat (length (escape q)) + 1)%Z
      with (p + Z.of_nat (S (length (escape q) + 1)))%Z by lia.
    exact Hf.
Qed.

Lemma d_raw_row_cons (f f2 : Field) (fs : list Field) :
  raw_row cd (f :: f2 :: fs) = raw f ++ cd :: raw_row cd (f2 :: fs).
Proof. reflexivity. Qed.

Lemma d_raw_row_one (f : Field) : raw_row cd [f] = raw f.
Proof. reflexivity. Qed.

(** The fields of a row that ends with the row delimiter; [xs] are the
    values already stored in the row buffer. *)
Lemma d_row_fields_finish (fs : list Field) :
  forall (xs : list jsstring) (p : Z) (rws : list Row) (nc : nat) (o0 o : Calls)
         (after : jsstring),
  fs <> [] -> length xs + length fs = numCols ->
  forallb (field_ok cd rd) fs = true ->
  At text p (raw_row cd fs ++ rowDelim ++ after) ->
  (p + Z.of_nat (length (raw_row cd fs)) <= L)%Z ->
  d_finish_step (d_push_row (p + Z.of_nat (length (raw_row cd fs))) rws
                        (map Some (xs ++ map value fs)) nc o0) o ->
  d_finish (mkState NoCol p rws [] (map Some xs ++ repeat None (length fs))
                  (length xs) nc o0) o.
Proof.
  induction fs as [|f fs IH]; intros xs p rws nc o0 o after Hne Hlen Hok HA HL Hf;
    [congruence|].
  cbn [forallb] in Hok. apply andb_true_iff in Hok as [Hokf Hok].
  destruct fs as [|f2 fs].
  - rewrite d_raw_row_one in *. cbn [length] in Hlen.
    eapply (d_field_finish f rd (rdt ++ after)); [exact Hokf | | | exact HL |].
    + exact HA.
    + right. split; [reflexivity|]. split; [|now exists after].
      unfold lastColIdx. apply Z.eqb_eq. lia.
    + rewrite d_commit_rd. cbn [length map] in *.
      rewrite (array_set_fill xs 0 (value f)). cbn [repeat]. now rewrite app_nil_r.
  - rewrite d_raw_row_cons in *. rewrite <- app_assoc in HA. cbn [app] in HA.
    rewrite length_app in *. cbn [length] in HL, Hf, Hlen.
    eapply (d_field_finish f cd (raw_row cd (f2 :: fs) ++ rowDelim ++ after));
      [exact Hokf | exact HA | | lia |].
    + left. split; [reflexivity|]. unfold lastColIdx. apply Z.eqb_neq. lia.
    + rewrite d_commit_cd. cbn [d_finish_step].
      change (length (f :: f2 :: fs)) with (S (length (f2 :: fs))).
      rewrite (array_set_fill xs (length (f2 :: fs)) (value f)).
      replace (S (length xs)) with (length (xs ++ [value f]))
        by (rewrite length_app; cbn [length]; lia).
      eapply (IH (xs ++ [value f]) _ rws nc o0 o after);
        [discriminate | rewrite length_app; cbn [length] in *; lia | exact Hok
        | | | ].
      * apply (At_cons (c := cd)). exact (At_app (raw f) _ HA).
      * lia.
      * rewrite <- app_assoc. cbn [map app].
        replace (p + Z.of_nat (length (raw f)) + 1 +
                 Z.of_nat (length (raw_row cd (f2 :: fs))))%Z
          with (p + Z.of_nat (length (raw f) + S (length (raw_row cd (f2 :: fs)))))%Z
          by lia.
        exact Hf.
Qed.

Lemma d_values_full (r : list Field) :
  length r = numCols -> values numCols r = map Some (map value r).
Proof.
  intros H. unfold values. rewrite H, Nat.sub_diag, app_nil_r.
  now rewrite map_map.
Qed.

Lemma d_render_cons (r : list Field) (rs : list (list Field)) :
  render cd rowDelim (r :: rs) = (raw_row cd r ++ rowDelim) ++ render cd rowDelim rs.
Proof. reflexivity. Qed.

Hypothesis numCols_pos : 1 <= numCols.

(** A whole row, from its first character to behind its delimiter. *)
Lemma d_row_finish (r : list Field) (p : Z) (rws : list Row) (nc : nat) (o0 o : Calls)
  (after : jsstring) :
  row_ok cd rd numCols r = true ->
  At text p (raw_row cd r ++ rowDelim ++ after) ->
  (p + Z.of_nat (length (raw_row cd r)) <= L)%Z ->
  d_finish_step (d_push_row (p + Z.of_nat (length (raw_row cd r))) rws
                        (values numCols r) nc o0) o ->
  d_finish (mkState NoCol p rws [] (Array numCols) 0 nc o0) o.
Proof.
  intros Hok HA HL Hf. unfold row_ok in Hok.
  apply andb_true_iff in Hok as [Hlen Hok]. apply Nat.eqb_eq in Hlen.
  rewrite (d_values_full r Hlen) in Hf.
  unfold Array. rewrite <- Hlen.
  apply (d_row_fields_finish r [] p rws nc o0 o after); try assumption.
  destruct r; [simpl in Hlen; lia | discriminate].
Qed.

(** Rows without a chunk limit: the rows are added to the chunks. *)
Lemma d_rows_finish (rs : list (list Field)) :
  forall (p : Z) (rws : list Row) (nc : nat) (o0 : Calls) (after : jsstring),
  chunkLimit = None ->
  forallb (row_ok cd rd numCols) rs = true ->
  At text p (render cd rowDelim rs ++ after) ->
  (p + Z.of_nat (length (render cd rowDelim rs)) <= L)%Z ->
  exists rws1 nc1 o1,
    concat (map fst o1) ++ rws1 =
    concat (map fst o0) ++ rws ++ map (values numCols) rs /\
    forall o,
      d_finish (mkState NoCol (p + Z.of_nat (length (render cd rowDelim rs)))
                      rws1 [] (Array numCols) 0 nc1 o1) o ->
      d_finish (mkState NoCol p rws [] (Array numCols) 0 nc o0) o.
Proof.
  induction rs as [|r rs IH]; intros p rws nc o0 after Hlim Hok HA HL.
  - exists rws, nc, o0. cbn [render flat_map length map]. rewrite app_nil_r, Z.add_0_r.
    split; [reflexivity | auto].
  - cbn [forallb] in Hok. apply andb_true_iff in Hok as [Hokr Hok].
    rewrite d_render_cons in *. rewrite <- !app_assoc in HA.
    rewrite !length_app in HL.
    set (p1 := (p + Z.of_nat (length (raw_row cd r)))%Z) in *.
    assert (HA1 : At text (p1 + Z.of_nat (length rowDelim))
                     (render cd rowDelim rs ++ after)).
    { apply (At_app rowDelim). exact (At_app (raw_row cd r) _ HA). }
    set (rows1 := rws ++ [values numCols r]).
    destruct (IH (p1 + Z.of_nat (length rowDelim))%Z
                 (if length rows1 =? chunkSize then [] else rows1)
                 (if length rows1 =? chunkSize then S nc else nc)
                 (if length rows1 =? chunkSize then o0 ++ [(rows1, nc)] else o0)
                 after Hlim Hok HA1) as (rws2 & nc2 & o2 & Hc & Hfin); [lia|].
    exists rws2, nc2, o2. split.
    + rewrite Hc. subst rows1. cbn [map].
      destruct (_ =? _); rewrite ?map_app, ?concat_app; cbn [map fst concat app];
        rewrite ?app_nil_r, <- ?app_assoc; reflexivity.
    + intros o Hf. apply (d_row_finish r p rws nc o0 o (render cd rowDelim rs ++ after) Hokr HA);
        [lia|].
      unfold d_push_row. rewrite Hlim. cbn [limit_hit]. fold p1.
      subst rows1. cbv zeta.
      rewrite !length_app in Hf.
      replace (p + Z.of_nat (length (raw_row cd r) + length rowDelim +
                             length (render cd rowDelim rs)))%Z
        with (p1 + Z.of_nat (length rowDelim) +
              Z.of_nat (length (render cd rowDelim rs)))%Z in Hf by lia.
      destruct (_ =? chunkSize); cbn [d_finish_step]; apply Hfin; exact Hf.
Qed.

Hypothesis L_end : (Z.of_nat (length text) <= L)%Z.

Lemma d_At_bound (p : Z) (rest : jsstring) :
  At text p rest -> (p + Z.of_nat (length rest) <= L)%Z.
Proof. intros H. apply At_length in H. lia. Qed.

(** The fields after the last row delimiter, up to the end of the text:
    they are flushed as the last row. *)
Lemma d_last_fields_finish (fs : list Field) :
  forall (xs : list jsstring) (k : nat) (p : Z) (rws : list Row) (nc : nat)
         (o0 : Calls),
  fs <> [] -> length xs + k = numCols -> length fs <= k ->
  forallb (field_ok cd rd) fs = true ->
  length fs = k \/ open_field (last fs (Plain [])) = false ->
  At text p (raw_row cd fs) ->
  d_finish (mkState NoCol p rws [] (map Some xs ++ repeat None k) (length xs) nc o0)
         (o0 ++ [(rws ++ [map Some (xs ++ map value fs)
                          ++ repeat None (k - length fs)], nc)]).
Proof.
  induction fs as [|f fs IH]; intros xs k p rws nc o0 Hne Hk Hlen Hok Hlast HA;
    [congruence|].
  cbn [forallb] in Hok. apply andb_true_iff in Hok as [Hokf Hok].
  pose proof (d_At_bound _ _ HA) as HB.
  destruct k as [|k]; [cbn [length] in Hlen; lia|].
  destruct fs as [|f2 fs].
  - rewrite d_raw_row_one in *. cbn [length map last] in *.
    replace (S k - 1) with k by lia.
    destruct f as [[|c0 u] | q]; cbn [raw value] in *.
    + pose proof (d_finish_exit (mkState NoCol p rws []
                    (map Some xs ++ repeat None (S k)) (length xs) nc o0) HA) as HE.
      unfold flush in HE. cbn [pos rows row colIdx v out numChunks] in HE.
      rewrite array_set_fill in HE. apply HE. cbn [length] in HB. lia.
    + destruct (plain_ok_Forall _ _ _ Hokf) as (Hcd & Hrd & Hq0).
      assert (HA' : At text p ((c0 :: u) ++ [])) by now rewrite app_nil_r.
      eapply d_finish_turn;
        [exact HA | cbn [pos]; lia
        | intros f0 _; eapply (d_turn_plain f0 c0 u []); try eassumption
        | cbn [pos length]; lia | cbn [d_finish_step] ].
      * right. split; [|now left]. unfold lastColIdx. apply Z.eqb_eq.
        destruct Hlast as [E | E]; [lia | discriminate].
      * pose proof (At_app (c0 :: u) [] HA') as HA2.
        pose proof (d_finish_exit (mkState Unquoted (p + Z.of_nat (length (c0 :: u)))
                      rws (c0 :: u)
                      (map Some xs ++ repeat None (S k)) (length xs) nc o0) HA2) as HE.
        unfold flush in HE. cbn [pos rows row colIdx v out numChunks] in HE.
        rewrite array_set_fill in HE. apply HE. lia.
    + cbn [length] in HB. rewrite length_app in HB. cbn [length] in HB.
      assert (HA0 : At text p (dq :: escape q ++ dq :: []))
        by (cbn [app] in HA; exact HA).
      eapply d_finish_turn;
        [exact HA | cbn [pos]; lia
        | intros f0 Hfu; apply (turn_quoted f0 q [] p rws _ _ nc o0 HA0 I);
          cbn [pos] in Hfu; lia
        | cbn [pos]; lia | cbn [d_finish_step] ].
      assert (HA2 : At text (p + 1 + Z.of_nat (length (escape q)) + 1) []).
      { apply (At_cons (c := dq)). exact (At_app (escape q) [dq] (At_cons HA0)). }
      pose proof (d_finish_exit (mkState NoCol (p + 1 + Z.of_nat (length (escape q)) + 1)
                    rws q
                    (map Some xs ++ repeat None (S k)) (length xs) nc o0) HA2) as HE.
      unfold flush in HE. cbn [pos rows row colIdx v out numChunks app] in HE.
      rewrite array_set_fill in HE. apply HE. lia.
  - rewrite d_raw_row_cons in *. cbn [length] in Hlen.
    rewrite length_app in HB. cbn [length] in HB.
    eapply (d_field_finish f cd (raw_row cd (f2 :: fs)));
      [exact Hokf | exact HA | | lia |].
    + left. split; [reflexivity|]. unfold lastColIdx. apply Z.eqb_neq. lia.
    + rewrite d_commit_cd. cbn [d_finish_step].
      rewrite (array_set_fill xs k (value f)).
      replace (S (length xs)) with (length (xs ++ [value f]))
        by (rewrite length_app; cbn [length]; lia).
      replace (xs ++ map value (f :: f2 :: fs))
        with ((xs ++ [value f]) ++ map value (f2 :: fs))
        by (rewrite <- app_assoc; reflexivity).
      change (S k - length (f :: f2 :: fs)) with (k - length (f2 :: fs)).
      apply IH; [discriminate | rewrite length_app; cbn [length]; lia
                | cbn [length] in *; lia | exact Hok | | ].
      * cbn [length last] in *.
        destruct Hlast as [E | E]; [left; lia | right; exact E].
      * apply (At_cons (c := cd)). exact (At_app (raw f) _ HA).
Qed.

Lemma d_last_row_finish (r : list Field) (p : Z) (rws : list Row) (nc : nat)
  (o0 : Calls) :
  last_row_ok cd rd numCols r = true ->
  At text p (raw_row cd r) ->
  d_finish (mkState NoCol p rws [] (Array numCols) 0 nc o0)
         (o0 ++ [(rws ++ [values numCols r], nc)]).
Proof.
  unfold last_row_ok. rewrite !andb_true_iff, orb_true_iff, negb_true_iff.
  rewrite Nat.leb_le, Nat.leb_le, Nat.eqb_eq.
  intros [[[H1 H2] Hok] Hlast] HA.
  pose proof (d_last_fields_finish r [] numCols p rws nc o0) as H.
  cbn [length map app] in H.
  unfold values. rewrite <- (map_map value Some). apply H; try assumption.
  - destruct r; [simpl in H1; lia | discriminate].
  - reflexivity.
Qed.

End Machine.

(** The quoted path on well-formed text, for every chunk size: rows that
    end with the row delimiter, then the fields of a last row up to the
    end of the text.  The last call of the callback ends with the row
    made of what follows the last row delimiter. *)
Lemma d_parse_text (F : Type) (cd rd : ascii) (rdt : jsstring) (schema : Schema F)
  (chunkSize : nat) (mc : option nat) (rs : list (list Field)) (r : list Field)
  (fuel : nat) :
  let numCols := or_default mc (length (cols_names schema)) in
  let text := render cd (rd :: rdt) rs ++ raw_row cd r in
  delims_ok cd rd = true ->
  s_quote schema <> None ->
  cols_delim schema = Some [cd] ->
  rows_delim schema = rd :: rdt ->
  forallb (row_ok cd rd numCols) rs = true ->
  last_row_ok cd rd numCols r = true ->
  length text < fuel ->
  exists calls chunk nc,
    parse fuel text schema chunkSize None mc =
    Ok (calls ++ [(chunk ++ [values numCols r], nc)]) /\
    concat (map fst calls) ++ chunk = map (values numCols) rs.
Proof.
  intros numCols text Hd Hq Hcd Hrd Hrs Hr Hfuel.
  destruct (delims_ok_neq _ _ Hd) as (H1 & H2 & H3).
  assert (Hn : 1 <= numCols).
  { unfold last_row_ok in Hr. rewrite !andb_true_iff, !Nat.leb_le in Hr. lia. }
  unfold parse. rewrite Hcd, Hrd. destruct (s_quote schema); [|congruence].
  fold numCols.
  replace (match mc with Some _ => false | None => false end) with false
    by (destruct mc; reflexivity).
  set (L := Z.of_nat (length text)).
  destruct (d_rows_finish text cd rd rdt numCols chunkSize None L H1 H2 H3 Hn rs 0 [] 0 []
              (raw_row cd r) eq_refl Hrs (At_start text))
    as (rws1 & nc1 & o1 & Hc & Hfin).
  { subst L text. rewrite length_app. lia. }
  exists o1, rws1, nc1. split; [|exact Hc].
  apply Hfin; [|unfold init; cbn [pos]; lia].
  apply (d_last_row_finish text cd rd rdt numCols chunkSize None L H1 H2 H3 Hn);
    [subst L; lia | exact Hr|].
  exact (At_app (render cd (rd :: rdt) rs) (raw_row cd r) (At_start text)).
Qed.

End DistQuoted.

(** ** The shape of the calls: numbered chunks, all full but the last *)

Module ChunkFacts.
Import JSFacts SplitFacts.
Import Dist Chunks.

Lemma full_calls_nil (C : nat) : full_calls C 0 [].
Proof. repeat split; constructor. Qed.

Lemma full_calls_snoc (C nc : nat) (o : Calls) (ch : list Row) :
  full_calls C nc o -> length ch = C -> full_calls C (S nc) (o ++ [(ch, nc)]).
Proof.
  intros (-> & Hs & Hf) Hc. repeat split.
  - rewrite length_app. cbn [length]. lia.
  - rewrite map_app, length_app, Hs. cbn [map snd length].
    rewrite Nat.add_1_r, seq_S. reflexivity.
  - apply Forall_app. split; [exact Hf | repeat constructor; exact Hc].
Qed.

Lemma chunked_full (C nc : nat) (o : Calls) :
  1 <= C -> full_calls C nc o -> chunked C o.
Proof.
  intros HC (_ & Hs & Hf). repeat split; [exact Hs | |].
  - clear Hs. induction Hf as [|x o Hx Hf IH]; [constructor|].
    cbn [removelast]. destruct o; [constructor|].
    constructor; [exact Hx | exact IH].
  - eapply Forall_impl; [|exact Hf]. cbn beta. intros a Ha. lia.
Qed.

Lemma chunked_snoc (C nc : nat) (o : Calls) (ch : list Row) :
  full_calls C nc o -> 1 <= length ch <= C -> chunked C (o ++ [(ch, nc)]).
Proof.
  intros (-> & Hs & Hf) Hc. repeat split.
  - rewrite map_app, length_app, Hs. cbn [map snd length].
    rewrite Nat.add_1_r, seq_S. reflexivity.
  - rewrite removelast_last. exact Hf.
  - apply Forall_app. split.
    + eapply Forall_impl; [|exact Hf]. cbn beta. intros a Ha. lia.
    + repeat constructor; cbn [fst]; lia.
Qed.

Lemma rows_of_full (C : nat) (o : Calls) :
  Forall (fun ch => length (fst ch) = C) o -> length (rows_of o) = C * length o.
Proof.
  unfold rows_of. induction 1 as [|x o Hx _ IH]; cbn [map concat length]; [lia|].
  rewrite length_app, IH, Hx. lia.
Qed.

Lemma rows_of_app (a b : Calls) : rows_of (a ++ b) = rows_of a ++ rows_of b.
Proof. unfold rows_of. now rewrite map_app, concat_app. Qed.

(** The number of calls is the number of rows over the chunk size,
    rounded up. *)
Lemma chunked_count (C : nat) (calls : Calls) :
  1 <= C -> chunked C calls ->
  length calls = ceil_div (length (rows_of calls)) C.
Proof.
  intros HC (_ & Hfull & Hall). unfold ceil_div.
  destruct calls as [|c0 calls'].
  - cbn. symmetry. apply Nat.div_small. lia.
  - destruct (@exists_last _ (c0 :: calls') ltac:(discriminate)) as (o & [ch n] & E).
    rewrite E in *. clear E c0 calls'.
    rewrite removelast_last in Hfull. apply Forall_app in Hall as [_ Hl].
    apply Forall_inv in Hl. cbn [fst] in Hl.
    rewrite rows_of_app, !length_app, (rows_of_full C o Hfull).
    unfold rows_of. cbn [map fst concat length]. rewrite app_nil_r.
    replace (C * length o + length ch + C - 1)
      with ((length ch - 1) + (length o + 1) * C) by nia.
    rewrite Nat.div_add by lia. rewrite Nat.div_small by lia. lia.
Qed.

End ChunkFacts.

(** ** The quote-free path of [parse] (dist) *)

Module DistFast.
Import JSFacts SplitFacts Lines Chunks ChunkFacts.
Import Dist.
Import SrcFast.

Lemma d_fast_loop_S (fuel : nat) (csvStr rowDelim : jsstring)
  (colDelim : option jsstring) (chunkSize : nat) (chunkLimit : option nat)
  (pos : Z) (rows : list Row) (numChunks : nat) (out : Calls) :
  fast_loop (S fuel) csvStr rowDelim colDelim chunkSize chunkLimit
            pos rows numChunks out =
  let idx := indexOf csvStr rowDelim pos in
  if (idx >? -1)%Z then
    let rows := rows ++ [map Some (split (slice csvStr pos idx) colDelim)] in
    let pos := (idx + Z.of_nat (length rowDelim))%Z in
    if length rows =? chunkSize then
      let out := out ++ [(rows, numChunks)] in
      let numChunks := S numChunks in
      if limit_hit chunkLimit numChunks then Ok out
      else fast_loop fuel csvStr rowDelim colDelim chunkSize chunkLimit
                     pos [] numChunks out
    else
      fast_loop fuel csvStr rowDelim colDelim chunkSize chunkLimit
                pos rows numChunks out
  else Ok (if 0 <? length rows then out ++ [(rows, numChunks)] else out).
Proof. reflexivity. Qed.

Section Fast.

Variables (text d : jsstring) (cd : option jsstring) (C : nat).
Hypothesis d_nonempty : d <> [].
Hypothesis C_pos : 1 <= C.

(** Without a chunk limit the path emits the terminated lines, in full
    chunks and one last chunk with what is left. *)
Lemma fast_loop_chunks (n : nat) :
  forall (rest : jsstring) (p : Z) (rws : list Row) (nc : nat) (o0 : Calls),
  At text p rest -> length rest <= n ->
  length rws < C -> full_calls C nc o0 ->
  exists calls,
    fast_loop (S n) text d cd C None p rws nc o0 = Ok calls /\
    rows_of calls =
    rows_of o0 ++ rws ++ map (line_row cd) (removelast (split_from n d rest)) /\
    chunked C calls.
Proof.
  induction n as [|n IH]; intros rest p rws nc o0 HA Hn Hrws Hfull.
  - destruct rest; [|simpl in Hn; lia].
    rewrite d_fast_loop_S. cbv zeta.
    rewrite (fast_stop d HA) by (destruct d; [congruence | reflexivity]).
    cbn [Z.gtb Z.compare]. eexists; split; [reflexivity|].
    cbn [split_from removelast map]. rewrite app_nil_r.
    destruct rws; cbn [length Nat.ltb Nat.leb].
    + split; [now rewrite app_nil_r | exact (chunked_full C nc o0 C_pos Hfull)].
    + split.
      * rewrite rows_of_app. unfold rows_of at 2. cbn [map fst concat].
        now rewrite app_nil_r.
      * apply chunked_snoc; [exact Hfull | cbn [length] in *; lia].
  - rewrite d_fast_loop_S. cbv zeta. destruct (find d rest) as [k|] eqn:E.
    + destruct (fast_step d_nonempty HA E) as (-> & -> & HA' & Hlt).
      replace (p + Z.of_nat k >? -1)%Z with true
        by (pose proof (At_nonneg HA); symmetry; apply Z.gtb_lt; lia).
      cbn [limit_hit]. rewrite (removelast_split_from n d rest E).
      set (rw := map Some (split (firstn k rest) cd)).
      destruct (Nat.eqb_spec (length (rws ++ [rw])) C) as [EC | NC].
      * destruct (IH _ _ [] (S nc) (o0 ++ [(rws ++ [rw], nc)]) HA')
          as (calls & -> & Hc & Hch);
          [lia | cbn [length]; lia | now apply full_calls_snoc |].
        eexists; split; [reflexivity|]. split; [|exact Hch].
        rewrite Hc, rows_of_app. unfold rows_of at 2. cbn [map fst concat app].
        unfold line_row. fold rw. now rewrite app_nil_r, <- !app_assoc.
      * rewrite length_app in NC. cbn [length] in NC.
        destruct (IH _ _ (rws ++ [rw]) nc o0 HA')
          as (calls & -> & Hc & Hch);
          [lia | rewrite length_app; cbn [length]; lia | exact Hfull |].
        eexists; split; [reflexivity|]. split; [|exact Hch].
        rewrite Hc. cbn [map]. unfold line_row. fold rw. now rewrite <- !app_assoc.
    + rewrite (fast_stop d HA E). cbn [Z.gtb Z.compare].
      eexists; split; [reflexivity|].
      rewrite removelast_split_from_none by assumption. cbn [map]. rewrite app_nil_r.
      destruct rws; cbn [length Nat.ltb Nat.leb].
      * split; [now rewrite app_nil_r | exact (chunked_full C nc o0 C_pos Hfull)].
      * split.
        -- rewrite rows_of_app. unfold rows_of at 2. cbn [map fst concat].
           now rewrite app_nil_r.
        -- apply chunked_snoc; [exact Hfull | cbn [length] in *; lia].
Qed.

End Fast.

(** The quote-free path of [parse] without a chunk limit. *)
Lemma d_parse_fast (F : Type) (csvStr : jsstring) (schema : Schema F) (C : nat)
  (mc : option nat) (fuel : nat) :
  s_quote schema = None -> rows_delim schema <> [] -> 1 <= C ->
  length csvStr < fuel ->
  exists calls,
    parse fuel csvStr schema C None mc = Ok calls /\
    rows_of calls =
    map (line_row (cols_delim schema)) (lines csvStr (rows_delim schema)) /\
    chunked C calls.
Proof.
  intros Hq Hd HC Hf. unfold parse. rewrite Hq.
  destruct fuel as [|n]; [lia|].
  destruct (@fast_loop_chunks csvStr (rows_delim schema) (cols_delim schema) C Hd HC
              n csvStr 0%Z [] 0 [] (At_start csvStr))
    as (calls & -> & Hc & Hch); [lia | cbn [length]; lia | apply full_calls_nil |].
  eexists; split; [reflexivity|]. split; [|exact Hch]. rewrite Hc.
  unfold lines. rewrite split_nonempty_sep by assumption.
  now rewrite (@split_from_enough (rows_delim schema) n (length csvStr) csvStr)
    by (assumption || lia).
Qed.

End DistFast.

(** ** Chunks, for every input

    An invariant of the loop on the calls made so far, and a simulation
    between runs with two chunk sizes: they scan alike and make the same
    rows. *)

Module DistChunks.
Import JSFacts SplitFacts Lines Chunks ChunkFacts.
Import Dist.

(** Two states of runs with different chunk sizes agree on the scan and
    on the rows made so far. *)
Definition core_eq (a b : State) : Prop :=
  inCol a = inCol b /\ pos a = pos b /\ v a = v b /\ row a = row b /\
  colIdx a = colIdx b /\
  rows_of (out a) ++ rows a = rows_of (out b) ++ rows b.

(** The calls made so far are full chunks and the open chunk is not. *)
Definition inv (C : nat) (st : State) : Prop :=
  full_calls C (numChunks st) (out st) /\ length (rows st) < C.

Section Sim.

Variables (text colDelim rowDelim : jsstring) (numCols : nat) (_probe : bool).

Lemma quoted_loop_same (f : nat) :
  forall (a a' : State) (c : option ascii),
  quoted_loop text f a c = Some a' ->
  rows a' = rows a /\ out a' = out a /\ numChunks a' = numChunks a /\
  row a' = row a /\ colIdx a' = colIdx a.
Proof.
  induction f as [|f IH]; intros a a' c; cbn [quoted_loop]; [discriminate|].
  destruct (code_eq c quoteChar).
  - destruct (code_eq _ quoteChar).
    + intros H. apply IH in H. cbn in H. exact H.
    + intros [= <-]. cbn. auto.
  - intros H. apply IH in H. cbn in H. exact H.
Qed.

Lemma quoted_loop_core (f : nat) :
  forall (a b : State) (c : option ascii),
  inCol a = inCol b -> pos a = pos b -> v a = v b ->
  match quoted_loop text f a c, quoted_loop text f b c with
  | Some a', Some b' => inCol a' = inCol b' /\ pos a' = pos b' /\ v a' = v b'
  | None, None => True
  | _, _ => False
  end.
Proof.
  induction f as [|f IH]; intros a b c Hi Hp Hv; cbn [quoted_loop]; [exact I|].
  rewrite <- Hp, <- Hv.
  destruct (code_eq c quoteChar).
  - destruct (code_eq _ quoteChar).
    + apply IH; cbn; congruence.
    + cbn. auto.
  - apply IH; cbn; congruence.
Qed.

(** Two steps that go on in states that agree, or stop the same way. *)
Definition step_sim (sa sb : Step) : Prop :=
  match sa, sb with
  | Continue a', Continue b' => core_eq a' b'
  | Throw, Throw => True
  | Spin, Spin => True
  | _, _ => False
  end.

Lemma rows_of_snoc (o : Calls) (ch : list Row) (n : nat) :
  rows_of (o ++ [(ch, n)]) = rows_of o ++ ch.
Proof. rewrite rows_of_app. unfold rows_of at 2. cbn. now rewrite app_nil_r. Qed.

Lemma PUSH_sim (C C' : nat) (c : option ascii) (a b : State) :
  core_eq a b ->
  step_sim (PUSH rowDelim numCols C None c a) (PUSH rowDelim numCols C' None c b).
Proof.
  destruct a as [ia pa ra va wa ca na oa], b as [ib pb rb vb wb cb nb ob].
  unfold core_eq. cbn [inCol pos v row colIdx out rows].
  intros (-> & -> & -> & -> & -> & H).
  unfold PUSH. cbn [inCol pos v row colIdx out rows numChunks limit_hit].
  destruct (code_eq c (rowDelimChar rowDelim)).
  - destruct (_ =? C), (_ =? C'); cbn [step_sim]; unfold core_eq;
      cbn [inCol pos v row colIdx out rows]; repeat split;
      rewrite ?rows_of_snoc, ?app_nil_r, ?app_assoc; now rewrite H.
  - cbn [step_sim]. unfold core_eq. cbn [inCol pos v row colIdx out rows].
    repeat split; exact H.
Qed.

Lemma PUSH_inv (C : nat) (c : option ascii) (a a' : State) :
  1 <= C -> inv C a ->
  PUSH rowDelim numCols C None c a = Continue a' -> inv C a' /\ inCol a' = inCol a.
Proof.
  intros HC [Hf Hr]. unfold PUSH. cbn [limit_hit].
  destruct (code_eq c (rowDelimChar rowDelim)).
  - destruct (Nat.eqb_spec (length (rows a ++ [array_set (row a) (colIdx a) (v a)])) C)
      as [E | E]; intros [= <-]; (split; [|reflexivity]); split;
      cbn [out rows numChunks length].
    + now apply full_calls_snoc.
    + lia.
    + exact Hf.
    + rewrite length_app in *. cbn [length] in *. lia.
  - intros [= <-]. split; [|reflexivity]. split; cbn [out rows numChunks]; assumption.
Qed.

Lemma PUSH_Continue (C : nat) (c : option ascii) (a : State) :
  exists a', PUSH rowDelim numCols C None c a = Continue a'.
Proof.
  unfold PUSH. cbn [limit_hit].
  destruct (code_eq c (rowDelimChar rowDelim)); [destruct (_ =? C)|]; eauto.
Qed.

Lemma core_eq_set_inCol (x : InCol) (a b : State) :
  core_eq a b -> core_eq (set_inCol x a) (set_inCol x b).
Proof. unfold core_eq. cbn. intuition. Qed.

Lemma core_eq_set_pos (x : Z) (a b : State) :
  core_eq a b -> core_eq (set_pos x a) (set_pos x b).
Proof. unfold core_eq. cbn. intuition. Qed.

Lemma core_eq_set_v (x : jsstring) (a b : State) :
  core_eq a b -> core_eq (set_v x a) (set_v x b).
Proof. unfold core_eq. cbn. intuition. Qed.

Lemma in_column_sim (C C' f : nat) (a b : State) (c : option ascii) :
  core_eq a b ->
  step_sim (in_column text colDelim rowDelim numCols C None _probe f a c)
           (in_column text colDelim rowDelim numCols C' None _probe f b c).
Proof.
  intros H. pose proof H as (Hi & Hp & Hv & Hw & Hc & Hr).
  pose proof (quoted_loop_core f a b c Hi Hp Hv) as HQ.
  unfold in_column. rewrite <- Hi, <- Hp, <- Hv, <- Hc.
  destruct (inCol a).
  - exact H.
  - destruct (_ || _).
    + pose proof (PUSH_sim C C' c a b H) as HP.
      destruct (PUSH rowDelim numCols C None c a),
               (PUSH rowDelim numCols C' None c b); cbn [step_sim] in *;
        try contradiction; try exact I.
      now apply core_eq_set_inCol.
    + destruct _probe.
      * destruct (takeToCommaOrEOL text colDelim rowDelim (pos a)); [|exact I].
        cbn [step_sim]. now apply core_eq_set_pos, core_eq_set_v.
      * cbn [step_sim]. now apply core_eq_set_pos, core_eq_set_v.
  - destruct (quoted_loop text f a c) as [a'|] eqn:Ea,
             (quoted_loop text f b c) as [b'|] eqn:Eb; cbn [step_sim];
      try contradiction; try exact I.
    destruct (quoted_loop_same f a a' c Ea) as (R1 & O1 & N1 & W1 & C1).
    destruct (quoted_loop_same f b b' c Eb) as (R2 & O2 & N2 & W2 & C2).
    destruct HQ as (Q1 & Q2 & Q3).
    unfold core_eq. rewrite R1, O1, R2, O2, W1, W2, C1, C2. auto 10.
Qed.

Lemma turn_sim (C C' f : nat) (a b : State) :
  core_eq a b ->
  step_sim (turn text colDelim rowDelim numCols C None _probe f a)
           (turn text colDelim rowDelim numCols C' None _probe f b).
Proof.
  intros H. pose proof H as (Hi & Hp & Hv & Hw & Hc & Hr).
  unfold turn, unstarted. rewrite <- Hi, <- Hp.
  destruct (inCol a) eqn:Ei.
  - destruct (code_eq _ quoteChar).
    + apply in_column_sim. now apply core_eq_set_pos, core_eq_set_inCol.
    + destruct (_ || _).
      * pose proof (PUSH_sim C C' (charCodeAt text (pos a)) a b H) as HP.
        destruct (PUSH rowDelim numCols C None _ a) as [a'| | |] eqn:Ea,
                 (PUSH rowDelim numCols C' None _ b) as [b'| | |] eqn:Eb;
          cbn [step_sim] in *; try contradiction; try exact I.
        destruct HP as (Hi' & Hp' & ?). rewrite <- Hp'.
        apply in_column_sim. unfold core_eq. auto 10.
      * apply in_column_sim. now apply core_eq_set_inCol.
  - now apply in_column_sim.
  - now apply in_column_sim.
Qed.

Lemma in_column_inv (C f : nat) (a a' : State) (c : option ascii) :
  1 <= C -> inv C a ->
  in_column text colDelim rowDelim numCols C None _probe f a c = Continue a' ->
  inv C a'.
Proof.
  intros HC Hinv. unfold in_column. destruct (inCol a).
  - now intros [= <-].
  - destruct (_ || _).
    + destruct (PUSH rowDelim numCols C None c a) as [a1| | |] eqn:E; try discriminate.
      intros [= <-]. destruct (PUSH_inv C c a a1 HC Hinv E) as [[? ?] _].
      split; assumption.
    + destruct _probe.
      * destruct (takeToCommaOrEOL _ _ _ _); [|discriminate].
        intros [= <-]. exact Hinv.
      * intros [= <-]. exact Hinv.
  - destruct (quoted_loop text f a c) as [a1|] eqn:E; [|discriminate].
    intros [= <-]. destruct (quoted_loop_same f a a1 c E) as (R1 & O1 & N1 & _).
    unfold inv. now rewrite R1, O1, N1.
Qed.

Lemma turn_inv (C f : nat) (a a' : State) :
  1 <= C -> inv C a ->
  turn text colDelim rowDelim numCols C None _probe f a = Continue a' ->
  inv C a'.
Proof.
  intros HC Hinv. unfold turn, unstarted. destruct (inCol a).
  - destruct (code_eq _ quoteChar).
    + apply in_column_inv; [exact HC | exact Hinv].
    + destruct (_ || _).
      * destruct (PUSH rowDelim numCols C None _ a) as [a1| | |] eqn:E; try discriminate.
        apply in_column_inv; [exact HC|].
        exact (proj1 (PUSH_inv C _ a a1 HC Hinv E)).
      * apply in_column_inv; [exact HC | exact Hinv].
  - apply in_column_inv; [exact HC | exact Hinv].
  - apply in_column_inv; [exact HC | exact Hinv].
Qed.

(** A run that returns has made its calls in full chunks, the last call
    apart. *)
Lemma loop_chunked (C : nat) (fuel : nat) :
  forall (st : State) (calls : Calls),
  1 <= C -> inv C st ->
  loop text colDelim rowDelim numCols C None _probe fuel st = Ok calls ->
  chunked C calls.
Proof.
  induction fuel as [|fuel IH]; intros st calls HC Hinv; cbn [loop]; [discriminate|].
  destruct (pos st <=? endPos text)%Z.
  - destruct (turn text colDelim rowDelim numCols C None _probe fuel st)
      as [st1| | |] eqn:E; try discriminate.
    + apply IH; [exact HC | exact (turn_inv C fuel st st1 HC Hinv E)].
    + exfalso. revert E. unfold turn, unstarted, in_column.
      pose proof (fun c a => PUSH_Continue C c a) as HP.
      destruct (inCol st); repeat
        match goal with
        | |- context [PUSH rowDelim numCols C None ?c ?a] =>
            destruct (HP c a) as [? ->]
        | |- context [if ?x then _ else _] => destruct x
        | |- context [match quoted_loop ?t ?f ?a ?c with _ => _ end] =>
            destruct (quoted_loop t f a c)
        | |- context [match takeToCommaOrEOL ?t ?x ?y ?p with _ => _ end] =>
            destruct (takeToCommaOrEOL t x y p)
        | |- context [match inCol ?s with _ => _ end] => destruct (inCol s)
        end; discriminate.
  - intros [= <-]. destruct Hinv as [Hf Hr]. unfold flush.
    apply chunked_snoc; [exact Hf|]. rewrite length_app. cbn [length]. lia.
Qed.

(** Runs with two chunk sizes on the same fuel: both return or neither
    does, and they make the same rows. *)
Lemma loop_sim (C C' : nat) (fuel : nat) :
  forall (a b : State), core_eq a b ->
  match loop text colDelim rowDelim numCols C None _probe fuel a,
        loop text colDelim rowDelim numCols C' None _probe fuel b with
  | Ok ca, Ok cb => rows_of ca = rows_of cb
  | TypeError, TypeError => True
  | OutOfFuel, OutOfFuel => True
  | _, _ => False
  end.
Proof.
  induction fuel as [|fuel IH]; intros a b H; cbn [loop]; [exact I|].
  pose proof H as (Hi & Hp & Hv & Hw & Hc & Hr). rewrite <- Hp.
  destruct (pos a <=? endPos text)%Z.
  - pose proof (turn_sim C C' fuel a b H) as HT.
    destruct (turn text colDelim rowDelim numCols C None _probe fuel a),
             (turn text colDelim rowDelim numCols C' None _probe fuel b);
      cbn [step_sim] in HT; try contradiction; try exact I.
    now apply IH.
  - unfold flush. rewrite !rows_of_snoc, !app_assoc, Hr, Hv, Hw, Hc. reflexivity.
Qed.

End Sim.
End DistChunks.

(** ** [parse] (dist): the calls are chunked, the rows do not depend on
    the chunk size *)

Module DistParse.
Import JSFacts SplitFacts Lines Chunks ChunkFacts.
Import Dist DistFast DistChunks.

Lemma fast_loop_chunked (text d : jsstring) (cd : option jsstring) (C : nat)
  (fuel : nat) :
  forall (p : Z) (rws : list Row) (nc : nat) (o0 calls : Calls),
  1 <= C -> length rws < C -> full_calls C nc o0 ->
  fast_loop fuel text d cd C None p rws nc o0 = Ok calls ->
  chunked C calls.
Proof.
  induction fuel as [|fuel IH]; intros p rws nc o0 calls HC Hr Hf;
    [discriminate|].
  rewrite d_fast_loop_S. cbv zeta. cbn [limit_hit].
  destruct (_ >? _)%Z.
  - set (rw := map Some _).
    destruct (Nat.eqb_spec (length (rws ++ [rw])) C) as [E | E].
    + apply IH; [exact HC | cbn [length]; lia | now apply full_calls_snoc].
    + apply IH; [exact HC | | exact Hf].
      rewrite length_app in *. cbn [length] in *. lia.
  - intros [= <-]. destruct rws; cbn [length Nat.ltb Nat.leb].
    + exact (chunked_full C nc o0 HC Hf).
    + apply chunked_snoc; [exact Hf | cbn [length] in *; lia].
Qed.

Lemma fast_loop_sim (text d : jsstring) (cd : option jsstring) (C C' : nat)
  (fuel : nat) :
  forall (p : Z) (rws rws' : list Row) (nc nc' : nat) (o o' : Calls),
  rows_of o ++ rws = rows_of o' ++ rws' ->
  match fast_loop fuel text d cd C None p rws nc o,
        fast_loop fuel text d cd C' None p rws' nc' o' with
  | Ok a, Ok b => rows_of a = rows_of b
  | OutOfFuel, OutOfFuel => True
  | _, _ => False
  end.
Proof.
  induction fuel as [|fuel IH]; intros p rws rws' nc nc' o o' H; [exact I|].
  rewrite !d_fast_loop_S. cbv zeta. cbn [limit_hit].
  destruct (_ >? _)%Z.
  - set (rw := map Some _).
    destruct (_ =? C), (_ =? C'); apply IH;
      rewrite ?rows_of_snoc, ?app_nil_r, ?app_assoc; now rewrite H.
  - destruct rws, rws'; cbn [length Nat.ltb Nat.leb];
      rewrite ?rows_of_snoc; rewrite ?app_nil_r in H; exact H.
Qed.

Lemma core_eq_init (numCols : nat) : core_eq (init numCols) (init numCols).
Proof. unfold core_eq. auto 10. Qed.

Lemma inv_init (C numCols : nat) : 1 <= C -> inv C (init numCols).
Proof. intros HC. split; [apply full_calls_nil | cbn; lia]. Qed.

(** Whatever the input, a parse without a chunk limit that returns has
    made its calls in full chunks, the last call apart. *)
Lemma parse_chunked (F : Type) (fuel : nat) (csvStr : jsstring)
  (schema : Schema F) (C : nat) (mc : option nat) (calls : Calls) :
  1 <= C -> parse fuel csvStr schema C None mc = Ok calls -> chunked C calls.
Proof.
  intros HC. unfold parse. destruct (s_quote schema).
  - destruct (cols_delim schema); [|discriminate].
    apply loop_chunked; [exact HC | now apply inv_init].
  - apply fast_loop_chunked; [exact HC | cbn; lia | apply full_calls_nil].
Qed.

(** The rows do not depend on the chunk size, nor does the fuel. *)
Lemma parse_sim (F : Type) (fuel : nat) (csvStr : jsstring)
  (schema : Schema F) (C C' : nat) (mc : option nat) (calls : Calls) :
  parse fuel csvStr schema C None mc = Ok calls ->
  exists calls',
    parse fuel csvStr schema C' None mc = Ok calls' /\
    rows_of calls' = rows_of calls.
Proof.
  unfold parse. destruct (s_quote schema).
  - destruct (cols_delim schema) as [colDelim|]; [|discriminate].
    set (numCols := or_default mc _). set (pr := match mc with Some _ => _ | None => _ end).
    pose proof (loop_sim csvStr colDelim (rows_delim schema) numCols pr C C' fuel
                  _ _ (core_eq_init numCols)) as H.
    intros E. rewrite E in H.
    destruct (loop _ _ _ _ C' _ _ _ _) as [calls'| | |]; try contradiction.
    exists calls'. split; [reflexivity | now symmetry].
  - pose proof (fast_loop_sim csvStr (rows_delim schema) (cols_delim schema)
                  C C' fuel 0 [] [] 0 0 [] [] eq_refl) as H.
    intros E. rewrite E in H.
    destruct (fast_loop _ _ _ _ C' _ _ _ _ _) as [calls'| | |]; try contradiction.
    exists calls'. split; [reflexivity | now symmetry].
Qed.

End DistParse.

(** ** A quoted field that is never closed *)

Module Unterminated.
Import JSFacts Samples.

(** dist: the inner loop goes round between the position behind the
    opening quote and position -1, adding a quote to the field each
    time. *)
Lemma dist_quoted_loop_spins (f : nat) :
  forall (val : jsstring) (rws : list Dist.Row) (rw : Dist.Row) (i nc : nat)
         (o : Dist.Calls),
  Dist.quoted_loop open_a f (Dist.mkState Dist.Quoted 1 rws val rw i nc o)
                   (Some "a"%char) = None /\
  Dist.quoted_loop open_a f (Dist.mkState Dist.Quoted (-1) rws val rw i nc o)
                   Dist.quoteChar = None.
Proof.
  induction f as [|f IH]; intros val rws rw i nc o; [split; reflexivity|].
  split.
  - rewrite DistQuoted.quoted_loop_S.
    change (code_eq (Some "a"%char) Dist.quoteChar) with false. cbv iota zeta.
    cbn [Dist.pos Dist.v].
    change (indexOf open_a quote 1) with (-1)%Z.
    change (slice open_a 1 (-1)) with (@nil ascii).
    unfold Dist.set_pos, Dist.set_v.
    cbn [Dist.inCol Dist.pos Dist.rows Dist.v Dist.row Dist.colIdx Dist.numChunks Dist.out].
    apply IH.
  - rewrite DistQuoted.quoted_loop_S.
    change (code_eq Dist.quoteChar Dist.quoteChar) with true. cbv iota zeta.
    cbn [Dist.pos Dist.v].
    change (code_eq (charCodeAt open_a (-1 + 1)) Dist.quoteChar) with true.
    cbv iota.
    unfold Dist.set_pos, Dist.set_v.
    cbn [Dist.inCol Dist.pos Dist.rows Dist.v Dist.row Dist.colIdx Dist.numChunks Dist.out].
    change (charCodeAt open_a (-1 + 2)) with (Some "a"%char).
    apply IH.
Qed.

Lemma dist_never_returns (n C : nat) (chunkLimit mc : option nat) (fuel : nat) :
  Dist.parse fuel open_a (dist_quoted n) C chunkLimit mc = OutOfFuel.
Proof.
  unfold Dist.parse, dist_quoted.
  cbn [Dist.s_quote Dist.cols_delim Dist.rows_delim Dist.cols_names].
  destruct fuel as [|fuel]; [reflexivity|].
  rewrite DistQuoted.d_loop_S. unfold Dist.init. cbn [Dist.pos].
  change (0 <=? Dist.endPos open_a)%Z with true. cbv iota.
  unfold Dist.turn, Dist.unstarted. cbn [Dist.inCol Dist.pos].
  change (code_eq (charCodeAt open_a 0) Dist.quoteChar) with true. cbv iota.
  unfold Dist.set_pos, Dist.set_inCol.
  cbn [Dist.inCol Dist.pos Dist.rows Dist.v Dist.row Dist.colIdx Dist.numChunks Dist.out].
  unfold Dist.in_column. cbn [Dist.inCol].
  change (charCodeAt open_a (0 + 1)) with (Some "a"%char).
  now rewrite (proj1 (dist_quoted_loop_spins fuel _ _ _ _ _ _)).
Qed.

(** src, two columns: after four turns the scan sits at position -1 in
    an unquoted field, and stays there. *)
Definition src_stuck : Src.State :=
  Src.mkState Src.Unquoted (-1) [] [] (Array 2) 0 [].

Lemma src_stuck_loops (fuel : nat) :
  Src.loop open_a comma [lf] 2 None false fuel src_stuck = OutOfFuel.
Proof.
  induction fuel as [|fuel IH]; [reflexivity|].
  rewrite SrcQuoted.loop_S.
  change (Src.pos src_stuck <=? Src.endPos open_a)%Z with true. cbv iota.
  change (Src.turn open_a comma [lf] 2 None false src_stuck)
    with (Src.Continue src_stuck).
  exact IH.
Qed.

Lemma src_never_returns (fuel : nat) :
  Src.parse fuel open_a (src_quoted 2) None None = OutOfFuel.
Proof.
  unfold Src.parse, src_quoted.
  cbn [Src.s_quote Src.cols_delim Src.rows_delim Src.cols_names quote].
  change (Src.or_default None (length (repeat (@nil ascii) 2))) with 2.
  do 4 (destruct fuel as [|fuel]; [reflexivity|]).
  change (Src.loop open_a comma [lf] 2 None false (S (S (S (S fuel)))) (Src.init 2))
    with (Src.loop open_a comma [lf] 2 None false fuel src_stuck).
  apply src_stuck_loops.
Qed.

End Unterminated.

(** ** Type probing in [schema] (src) *)

Module SchemaFacts.
Import JSFacts SplitFacts.
Import Src.

(** Where [array_set] leaves the mark [n_type]. *)
Lemma array_set_n (types : list (option ColType)) :
  forall (i j : nat),
  nth_error (array_set types i n_type) j = Some (Some n_type) <->
  i = j \/ nth_error types j = Some (Some n_type).
Proof.
  induction types as [|t types IH]; intros i j.
  - revert j. induction i as [|i IHi]; intros [|j]; cbn [array_set nth_error].
    + intuition.
    + destruct j; cbn; intuition discriminate.
    + intuition discriminate.
    + rewrite IHi. destruct j; cbn; intuition.
  - destruct i as [|i], j as [|j]; cbn [array_set nth_error].
    + intuition.
    + intuition discriminate.
    + intuition discriminate.
    + rewrite IH. intuition.
Qed.

(** A slot that holds a type keeps holding one. *)
Lemma array_set_typed (types : list (option ColType)) (x : ColType) :
  forall (i j : nat),
  (exists t, nth_error types j = Some (Some t)) ->
  exists t, nth_error (array_set types i x) j = Some (Some t).
Proof.
  induction types as [|t types IH]; intros i j [t0 H].
  - destruct j; discriminate.
  - destruct i as [|i], j as [|j]; cbn [array_set nth_error] in *; eauto.
Qed.

Lemma probe_from_n (r : Row) :
  forall (c : nat) (types : list (option ColType)) (j : nat),
  nth_error (probe_from c r types) j = Some (Some n_type) <->
  nth_error types j = Some (Some n_type) \/
  exists val, c <= j /\ nth_error r (j - c) = Some (Some val) /\
              Numeric.to_number_ok val = true.
Proof.
  induction r as [|[val|] r IH]; intros c types j; cbn [probe_from].
  - split; [auto | intros [H | (val & _ & H & _)]; [exact H|]].
    destruct (j - c); discriminate.
  - rewrite IH. split.
    + intros [H | (val' & Hc & Hn & Hv)].
      * destruct (Numeric.to_number_ok val) eqn:E; [|now left].
        apply array_set_n in H as [<- | H]; [|now left].
        right. exists val. rewrite Nat.sub_diag. auto.
      * right. exists val'. split; [lia|]. split; [|exact Hv].
        replace (j - c) with (S (j - S c)) by lia. exact Hn.
    + intros [H | (val' & Hc & Hn & Hv)].
      * left. destruct (Numeric.to_number_ok val); [|exact H].
        apply array_set_n. now right.
      * destruct (Nat.eq_dec c j) as [<- | Hne].
        -- rewrite Nat.sub_diag in Hn. injection Hn as <-. rewrite Hv.
           left. apply array_set_n. now left.
        -- right. exists val'. split; [lia|]. split; [|exact Hv].
           replace (j - c) with (S (j - S c)) in Hn by lia. exact Hn.
  - rewrite IH. split.
    + intros [H | (val' & Hc & Hn & Hv)]; [now left|].
      right. exists val'. split; [lia|]. split; [|exact Hv].
      replace (j - c) with (S (j - S c)) by lia. exact Hn.
    + intros [H | (val' & Hc & Hn & Hv)]; [now left|].
      destruct (Nat.eq_dec c j) as [<- | Hne].
      * rewrite Nat.sub_diag in Hn. discriminate.
      * right. exists val'. split; [lia|]. split; [|exact Hv].
        replace (j - c) with (S (j - S c)) in Hn by lia. exact Hn.
Qed.

Lemma probe_from_typed (r : Row) :
  forall (c : nat) (types : list (option ColType)) (j : nat),
  (exists t, nth_error types j = Some (Some t)) ->
  exists t, nth_error (probe_from c r types) j = Some (Some t).
Proof.
  induction r as [|[val|] r IH]; intros c types j H; cbn [probe_from]; auto.
  apply IH. destruct (Numeric.to_number_ok val); [|exact H].
  now apply array_set_typed.
Qed.

Lemma fold_probe_n (rs : list Row) :
  forall (types : list (option ColType)) (j : nat),
  nth_error (fold_left probe_row rs types) j = Some (Some n_type) <->
  nth_error types j = Some (Some n_type) \/ numeric_in rs j.
Proof.
  induction rs as [|r rs IH]; intros types j; cbn [fold_left].
  - split; [auto | intros [H | (r & val & [] & _)]; exact H].
  - rewrite IH. unfold probe_row. rewrite probe_from_n, Nat.sub_0_r. split.
    + intros [[H | (val & _ & Hn & Hv)] | (r' & val & Hin & Hn & Hv)].
      * now left.
      * right. exists r, val. cbn [In]. auto.
      * right. exists r', val. cbn [In]. auto.
    + intros [H | (r' & val & [<- | Hin] & Hn & Hv)].
      * left. now left.
      * left. right. exists val. split; [lia | auto].
      * right. exists r', val. auto.
Qed.

Lemma fold_probe_typed (rs : list Row) :
  forall (types : list (option ColType)) (j : nat),
  (exists t, nth_error types j = Some (Some t)) ->
  exists t, nth_error (fold_left probe_row rs types) j = Some (Some t).
Proof.
  induction rs as [|r rs IH]; intros types j H; cbn [fold_left]; [exact H|].
  apply IH. unfold probe_row. now apply probe_from_typed.
Qed.

(** The probed type of a header column: ['n'] as soon as one sampled
    value of the column passes the number test, ['s'] otherwise. *)
Lemma probe_types_spec (header_length : nat) (firstRows : list Row) (j : nat) :
  j < header_length ->
  (nth_error (probe_types header_length firstRows) j = Some (Some n_type) <->
   numeric_in firstRows j) /\
  (nth_error (probe_types header_length firstRows) j = Some (Some s_type) <->
   ~ numeric_in firstRows j).
Proof.
  intros Hj. unfold probe_types.
  assert (H0 : nth_error (repeat (Some s_type) header_length) j = Some (Some s_type)).
  { rewrite nth_error_repeat by exact Hj. reflexivity. }
  pose proof (fold_probe_n firstRows (repeat (Some s_type) header_length) j) as Hn.
  destruct (fold_probe_typed firstRows (repeat (Some s_type) header_length) j
              (ex_intro _ s_type H0)) as [t Ht].
  rewrite H0 in Hn. split.
  - rewrite Hn. split; [intros [H | H]; [discriminate | exact H] | now right].
  - rewrite Ht in *. destruct t.
    + split; [intros _ H | reflexivity].
      assert (Some (Some s_type) = Some (Some n_type)) by (apply Hn; now right).
      discriminate.
    + split; [discriminate | intros H]. exfalso. apply H.
      destruct (proj1 Hn eq_refl) as [E | E]; [discriminate | exact E].
Qed.

End SchemaFacts.

(** ** [schema] (src) on a text without quote characters *)

Module SniffFacts.
Import JSFacts SplitFacts.
Import Src Lines SrcFast.

Lemma span_app (p : ascii -> bool) (s : jsstring) :
  fst (Numeric.span p s) ++ snd (Numeric.span p s) = s.
Proof.
  induction s as [|c s IH]; cbn [Numeric.span]; [reflexivity|].
  destruct (p c); [|reflexivity].
  destruct (Numeric.span p s). cbn [fst snd app] in *. now rewrite IH.
Qed.

(** The first-row match splits the text: the header text, the row
    delimiter, and the rest. *)
Lemma firstRowMatch_app (csvStr : jsstring) :
  exists rest,
    csvStr = fst (firstRowMatch csvStr) ++ snd (firstRowMatch csvStr) ++ rest.
Proof.
  unfold firstRowMatch.
  pose proof (span_app (fun c => negb (is_line_terminator c)) csvStr) as H.
  destruct (Numeric.span _ csvStr) as [line rest]. cbn [fst snd] in *.
  rewrite <- H. clear H.
  destruct rest as [|c t]; cbn [fst snd app].
  - exists []. reflexivity.
  - destruct (Ascii.eqb_spec c cr) as [-> | Hc].
    + destruct t as [|c2 t2]; [exists []; reflexivity|].
      destruct (Ascii.eqb_spec c2 lf) as [-> | Hc2].
      * exists t2. reflexivity.
      * exists (c2 :: t2). reflexivity.
    + destruct (Ascii.eqb_spec c lf) as [-> | Hc2].
      * exists t. reflexivity.
      * exists (c :: t). reflexivity.
Qed.

(** A string that occurs is found. *)
Lemma find_occurs (d t : jsstring) (u : jsstring) :
  exists k, find d (u ++ d ++ t) = Some k.
Proof.
  induction u as [|x u [k IH]].
  - exists 0. cbn [app]. apply find_here.
  - change ((x :: u) ++ d ++ t) with (x :: (u ++ d ++ t)). cbn [find].
    destruct (startsWith d (x :: u ++ d ++ t)); [now exists 0|].
    rewrite IH. now exists (S k).
Qed.

Section Limit.

Variables (text d : jsstring) (cd : option jsstring) (k : nat).
Hypothesis k_chunk : k <= CHUNK_SIZE.

(** Under a row limit within the chunk size the quote-free path returns
    after at most [k] rows, in one call at most. *)
Lemma fast_loop_limit (fuel : nat) :
  forall (p : Z) (rws : list Row),
  length rws < k -> k - length rws < fuel ->
  exists calls,
    fast_loop fuel text d cd (Some k) p rws [] = Ok calls /\
    (concat calls = [] -> rws = [] /\ indexOf text d p = (-1)%Z).
Proof.
  induction fuel as [|fuel IH]; intros p rws Hr Hf; [lia|].
  rewrite fast_loop_S. cbv zeta. cbn [limit_hit app].
  destruct (Z.gtb_spec (indexOf text d p) (-1)) as [Hi | Hi].
  - set (rw := map Some _). rewrite length_app. cbn [length].
    destruct (Nat.eqb_spec (length rws + 1) k) as [E | E].
    + replace (0 <? length rws + 1) with true by (symmetry; apply Nat.ltb_lt; lia).
      eexists; split; [reflexivity|]. cbn [concat]. rewrite app_nil_r.
      intros Hn. apply app_eq_nil in Hn as [_ Hn]. discriminate.
    + replace (length rws + 1 =? CHUNK_SIZE) with false
        by (symmetry; apply Nat.eqb_neq; lia).
      destruct (IH (indexOf text d p + Z.of_nat (length d))%Z (rws ++ [rw]))
        as (calls & -> & Hc);
        [rewrite length_app; cbn [length]; lia
        | rewrite length_app; cbn [length]; lia |].
      eexists; split; [reflexivity|]. intros Hn. destruct (Hc Hn) as [Hx _].
      destruct rws; discriminate.
  - eexists; split; [reflexivity|].
    destruct rws; cbn [length Nat.ltb Nat.leb concat app]; [|discriminate].
    intros _. split; [reflexivity|].
    unfold indexOf in *. destruct (find d _); [lia | reflexivity].
Qed.

End Limit.

Lemma indexOf_occurs (u d t : jsstring) :
  (indexOf (u ++ d ++ t) d 0 > -1)%Z.
Proof.
  rewrite (indexOf_At d (At_start _)). destruct (find_occurs d t u) as [k ->]. lia.
Qed.

(** With no quote in the text, [schema] under a row limit within the chunk
    size gets to the end on the quote-free path and returns the schema it
    has sniffed. *)
Lemma schema_fast (csvStr : jsstring) (k fuel : nat) :
  s_quote (fst (sniff csvStr)) = [] ->
  1 <= k <= CHUNK_SIZE -> k < fuel ->
  exists sch,
    schema fuel csvStr (Some k) = Ok sch /\
    cols_delim sch = cols_delim (fst (sniff csvStr)) /\
    rows_delim sch = rows_delim (fst (sniff csvStr)) /\
    s_quote sch = [].
Proof.
  intros Hq Hk Hf. unfold schema.
  destruct (sniff csvStr) as [schema0 mc] eqn:Es. cbn [fst] in *.
  unfold parse. rewrite Hq.
  destruct (fast_loop_limit csvStr (rows_delim schema0) (cols_delim schema0) k
              (proj2 Hk) fuel 0 []) as (calls & -> & Hc);
    [cbn [length]; lia | cbn [length]; lia |].
  assert (Hi : (indexOf csvStr (rows_delim schema0) 0 > -1)%Z).
  { destruct (firstRowMatch_app csvStr) as [rest E].
    assert (rows_delim schema0 = snd (firstRowMatch csvStr)) as ->.
    { unfold sniff in Es. destruct (firstRowMatch csvStr). now inversion Es. }
    rewrite E at 1. apply indexOf_occurs. }
  destruct (concat calls) as [|first firstRows] eqn:Ec;
    [destruct (Hc eq_refl); lia|].
  eexists. split; [reflexivity|]. cbn [cols_delim rows_delim s_quote]. auto.
Qed.

End SniffFacts.

(** ** Writing the rows of the quote-free path back *)

Module RejoinFacts.
Import JSFacts SplitFacts.
Import Rejoin Lines SrcFast.

Lemma join_row_line (d l : jsstring) : join_row d (line_row (Some d) l) = l.
Proof.
  unfold join_row, line_row. rewrite map_map. cbn [field_text].
  rewrite map_id. apply join_split.
Qed.

(** The terminated lines, each with its delimiter, then a tail without
    delimiter, spell the string. *)
Lemma split_from_spell (d : jsstring) (n : nat) :
  d <> [] ->
  forall s, length s <= n ->
  flat_map (fun l => l ++ d) (removelast (split_from n d s))
    ++ last (split_from n d s) [] = s /\
  find d (last (split_from n d s) []) = None.
Proof.
  intros Hd. induction n as [|n IH]; intros s Hn.
  - destruct s; [|simpl in Hn; lia]. cbn. split; [reflexivity|].
    destruct d; [congruence | reflexivity].
  - destruct (find d s) as [k|] eqn:E.
    + rewrite (removelast_split_from n d s E). cbn [split_from]. rewrite E.
      destruct (find_Some d s E) as (u & t & -> & <-).
      assert (length d <> 0) by (destruct d; simpl; congruence).
      rewrite firstn_app, Nat.sub_diag, firstn_all, firstn_O, app_nil_r.
      rewrite skipn_app, skipn_all2 by lia.
      replace (length u + length d - length u) with (length d) by lia.
      rewrite skipn_app, skipn_all, Nat.sub_diag. cbn [skipn app].
      destruct (IH t) as [H1 H2]; [rewrite !length_app in Hn; lia|].
      pose proof (split_from_nonempty n d t) as Hne.
      destruct (split_from n d t) as [|x xs] eqn:Et; [congruence|].
      cbn [last flat_map]. rewrite <- Et in *. change (match xs with [] => u | _ :: _ => last xs [] end) with (last (u :: x :: xs) []).
      split.
      * rewrite <- !app_assoc. do 2 f_equal.
        rewrite Et in *. exact H1.
      * rewrite Et in *. exact H2.
    + rewrite removelast_split_from_none by exact E.
      cbn [split_from]. rewrite E. cbn. auto.
Qed.

Lemma lines_spell (s d : jsstring) :
  d <> [] ->
  exists tail,
    flat_map (fun l => l ++ d) (lines s d) ++ tail = s /\ find d tail = None.
Proof.
  intros Hd. unfold lines. rewrite split_nonempty_sep by exact Hd.
  exists (last (split_from (length s) d s) []).
  apply split_from_spell; [exact Hd | lia].
Qed.

Lemma lines_rest (s d : jsstring) :
  d <> [] ->
  flat_map (fun l => l ++ d) (lines s d) ++ rest s d = s.
Proof.
  intros Hd. unfold lines, rest. rewrite split_nonempty_sep by exact Hd.
  apply split_from_spell; [exact Hd | lia].
Qed.

Lemma reterminate_lines (d rd : jsstring) (ls : list jsstring) :
  reterminate d rd (map (line_row (Some d)) ls) = flat_map (fun l => l ++ rd) ls.
Proof.
  unfold reterminate. induction ls as [|l ls IH]; [reflexivity|].
  cbn [map flat_map]. now rewrite join_row_line, IH.
Qed.

End RejoinFacts.

(** ** Rows of plain fields *)

Module PlainFacts.
Import JSFacts SplitFacts TextFacts.
Import Rejoin Text.

Lemma clean_plain_ok (cd rd : ascii) (u : jsstring) :
  clean cd rd u = true -> plain_ok cd rd u = true.
Proof.
  unfold clean, plain_ok. intros H. apply andb_true_iff. split.
  - destruct u as [|c u]; [reflexivity|]. cbn [forallb] in H.
    rewrite !andb_true_iff in H. tauto.
  - rewrite forallb_forall in *. intros c Hc. specialize (H c Hc).
    rewrite !andb_true_iff in *. tauto.
Qed.

Lemma row_ok_plain (cd rd : ascii) (n : nat) (r : list jsstring) :
  length r = n -> forallb (clean cd rd) r = true ->
  row_ok cd rd n (map Plain r) = true.
Proof.
  intros Hl Hc. unfold row_ok. rewrite length_map, Hl, Nat.eqb_refl. cbn [andb].
  rewrite forallb_forall in *. intros f Hf.
  apply in_map_iff in Hf as (u & <- & Hu). cbn [field_ok].
  apply clean_plain_ok. now apply Hc.
Qed.

Lemma raw_row_plain (cd : ascii) (r : list jsstring) :
  raw_row cd (map Plain r) = join [cd] r.
Proof. unfold raw_row. rewrite map_map. cbn [raw]. now rewrite map_id. Qed.

Lemma join_row_values (cd : ascii) (n : nat) (r : list jsstring) :
  length r = n -> join_row [cd] (values n (map Plain r)) = join [cd] r.
Proof.
  intros Hl. unfold join_row, values.
  rewrite length_map, Hl, Nat.sub_diag, app_nil_r, !map_map.
  cbn [field_text value]. now rewrite map_id.
Qed.

Lemma join_snoc (sep : jsstring) (xs : list jsstring) (x : jsstring) :
  join sep (xs ++ [x]) = flat_map (fun y => y ++ sep) xs ++ x.
Proof.
  induction xs as [|y xs IH]; [reflexivity|].
  change ((y :: xs) ++ [x]) with (y :: (xs ++ [x])).
  rewrite join_cons by (destruct xs; discriminate).
  cbn [flat_map]. now rewrite IH, <- !app_assoc.
Qed.

Lemma render_plain (cd : ascii) (rowDelim : jsstring) (rs : list (list jsstring)) :
  render cd rowDelim (map (map Plain) rs) =
  flat_map (fun y => y ++ rowDelim) (map (join [cd]) rs).
Proof.
  unfold render. induction rs as [|r rs IH]; [reflexivity|].
  cbn [map flat_map]. now rewrite raw_row_plain, IH.
Qed.

End PlainFacts.

(** ** The quote-free path of [parse] (src) under a row limit *)

Module SrcLimit.
Import JSFacts SplitFacts TextFacts.
Import Src Lines SrcFast.

Section FastLimit.

Variables (text : jsstring) (rd : ascii) (rdt : jsstring) (cd : option jsstring).
Variable k : nat.
Hypothesis k_chunk : k <= CHUNK_SIZE.


End FastLimit.


End SrcLimit.

(** * The properties of the specification *)

Module Claims.
Import Text Lines Chunks Rejoin Samples.

(** Chunking of [parse] (dist), for a chunk size [C] of at least 1 and
    no chunk limit.  Whatever the input, a parse that returns has called
    the callback [ceil (R / C)] times, [R] being the number of rows it
    has emitted; the chunk indices are 0, 1, 2, ...; every chunk but the
    last is full; and the rows, in their order, are the same for every
    other chunk size, on the same fuel.  The parse does return: on the
    quote-free path whenever the row delimiter is not empty, and the
    emitted rows are the terminated lines of the text; on the quoted path
    on every well-formed text, and the emitted rows are the rows before
    the last row delimiter and one row more for what follows it. *)
Theorem chunking_invariant (F : Type) (csvStr : jsstring) (schema : Dist.Schema F)
  (C : nat) (mc : option nat) :
  1 <= C ->
  (forall fuel calls,
     Dist.parse fuel csvStr schema C None mc = Ok calls ->
     length calls = ceil_div (length (rows_of calls)) C /\
     map snd calls = seq 0 (length calls) /\
     Forall (fun ch => length (fst ch) = C) (removelast calls) /\
     (forall C', 1 <= C' ->
        exists calls',
          Dist.parse fuel csvStr schema C' None mc = Ok calls' /\
          rows_of calls' = rows_of calls)) /\
  (Dist.s_quote schema = None -> Dist.rows_delim schema <> [] ->
   forall fuel, length csvStr < fuel ->
   exists calls,
     Dist.parse fuel csvStr schema C None mc = Ok calls /\
     rows_of calls =
     map (line_row (Dist.cols_delim schema)) (lines csvStr (Dist.rows_delim schema))) /\
  (forall cd rd rdt rs r,
     let numCols := Dist.or_default mc (length (Dist.cols_names schema)) in
     csvStr = render cd (rd :: rdt) rs ++ raw_row cd r ->
     delims_ok cd rd = true ->
     Dist.s_quote schema <> None ->
     Dist.cols_delim schema = Some [cd] ->
     Dist.rows_delim schema = rd :: rdt ->
     forallb (row_ok cd rd numCols) rs = true ->
     last_row_ok cd rd numCols r = true ->
     forall fuel, length csvStr < fuel ->
     exists calls,
       Dist.parse fuel csvStr schema C None mc = Ok calls /\
       rows_of calls = map (values numCols) rs ++ [values numCols r]).
Proof.
  intros HC. split; [|split].
  - intros fuel calls H.
    pose proof (DistParse.parse_chunked F fuel csvStr schema C mc calls HC H)
      as Hch.
    split; [exact (ChunkFacts.chunked_count C calls HC Hch)|].
    destruct Hch as (Hs & Hf & _). split; [exact Hs|]. split; [exact Hf|].
    intros C' _. exact (DistParse.parse_sim F fuel csvStr schema C C' mc calls H).
  - intros Hq Hd fuel Hf.
    destruct (DistFast.d_parse_fast F csvStr schema C mc fuel Hq Hd HC Hf)
      as (calls & E & Hr & _).
    exists calls. split; assumption.
  - intros cd rd rdt rs r numCols -> Hd Hq Hcd Hrd Hrs Hr fuel Hf.
    subst numCols.
    destruct (DistQuoted.d_parse_text F cd rd rdt schema C mc rs r fuel
                Hd Hq Hcd Hrd Hrs Hr Hf) as (calls & chunk & nc & E & Hc).
    eexists. split; [exact E|]. rewrite <- Hc.
    unfold rows_of. rewrite map_app, concat_app. cbn [map fst concat].
    rewrite app_nil_r. apply app_assoc.
Qed.

(** The parse of [two_rows_lf] in chunks of 2, quoting on, emits three
    rows with two calls. *)
Lemma chunking_invariant_witness :
  1 <= 2 /\
  (let calls :=
     [([row_of ["a"; "b"]; row_of ["c"; "d"]], 0); ([[Some []; None]], 1)]%string in
   length calls = ceil_div (length (rows_of calls)) 2 /\
   map snd calls = seq 0 (length calls)) /\
  (exists calls,
     Dist.parse 20 two_rows_lf (dist_plain 2) 2 None None = Ok calls /\
     rows_of calls = map (line_row (Some comma)) (lines two_rows_lf [lf])) /\
  (exists calls,
     Dist.parse 20 two_rows_lf (dist_quoted 2) 2 None None = Ok calls /\
     rows_of calls =
     [row_of ["a"; "b"]; row_of ["c"; "d"]; [Some []; None]]%string).
Proof.
  split; [lia|]. cbv zeta.
  pose proof (proj1 (chunking_invariant unit two_rows_lf (dist_quoted 2) 2 None
                       ltac:(lia)) 20 _ ltac:(vm_compute; reflexivity))
    as (H1 & H2 & _).
  split; [split; [exact H1 | exact H2]|]. split.
  - apply (proj1 (proj2 (chunking_invariant unit two_rows_lf (dist_plain 2) 2 None
                           ltac:(lia))));
      [reflexivity | discriminate | vm_compute; lia].
  - apply (proj2 (proj2 (chunking_invariant unit two_rows_lf (dist_quoted 2) 2 None
                           ltac:(lia)))
             ","%char lf []
             [[Plain (str "a"); Plain (str "b")]; [Plain (str "c"); Plain (str "d")]]
             [Plain []]);
      [reflexivity | reflexivity | discriminate | reflexivity | reflexivity
      | reflexivity | reflexivity | vm_compute; lia].
Defined.

(** C1, evaluated where the code misses it, with chunks of 2 rows
    (dist).  The text [two_rows_lf] has two rows, each followed by the
    row delimiter: the quote-free path calls the callback once, with the
    two rows; the quoted path calls it twice and emits three rows.  The
    text [two_rows] has the same two rows and no row delimiter behind the
    second: the quoted path calls the callback once, with the two rows;
    the quote-free path emits one row. *)
Theorem C1_chunking :
  ceil_div 2 2 = 1 /\
  Dist.parse 20 two_rows_lf (dist_plain 2) 2 None None =
  Ok [([row_of ["a"; "b"]; row_of ["c"; "d"]], 0)]%string /\
  Dist.parse 20 two_rows_lf (dist_quoted 2) 2 None None =
  Ok [([row_of ["a"; "b"]; row_of ["c"; "d"]], 0); ([[Some []; None]], 1)]%string /\
  Dist.parse 20 two_rows (dist_quoted 2) 2 None None =
  Ok [([row_of ["a"; "b"]; row_of ["c"; "d"]], 0)]%string /\
  Dist.parse 20 two_rows (dist_plain 2) 2 None None =
  Ok [([row_of ["a"; "b"]], 0)]%string.
Proof. repeat split; vm_compute; reflexivity. Qed.

(** C2.  The scenario of the specification, evaluated (dist).  With
    quoting on, [parse] yields the header, the two rows, and a fourth row
    that holds one empty field: the input ends with the row delimiter.
    The conversion that [schema] compiles from its sample turns the two
    rows into [1, "Alice", true] and [2, "Bob, Jr.", false], whatever
    [JSON.parse] does. *)
Theorem C2_scenario (J : Type) (JSON_parse : jsstring -> option J) :
  Dist.parse 60 scenario scenario_schema CHUNK_SIZE None None =
  Ok [([row_of ["id"; "name"; "active"]; row_of ["1"; "Alice"; "true"];
        row_of ["2"; "Bob, Jr."; "false"]; [Some []; None; None]]%string, 0)]
  /\
  match Dist.schema JSON_parse 60 scenario 10 false with
  | Ok sch =>
      Dist.cols_names sch = [str "id"; str "name"; str "active"] /\
      match Dist.toTyped sch with
      | Some toTyped =>
          toTyped [row_of ["1"; "Alice"; "true"];
                   row_of ["2"; "Bob, Jr."; "false"]]%string =
          Ok (Dist.TypedRows
                [[Some (Dist.VNumber J (Dist.Finite false 1 0));
                  Some (Dist.VString J (str "Alice"));
                  Some (Dist.VBoolean J true)];
                 [Some (Dist.VNumber J (Dist.Finite false 2 0));
                  Some (Dist.VString J (str "Bob, Jr."));
                  Some (Dist.VBoolean J false)]])
      | None => False
      end
  | _ => False
  end.
Proof. split; [vm_compute; reflexivity | vm_compute; split; reflexivity]. Qed.

(** C3 as it is written fails: the header line of [no_delim] holds none
    of the candidate delimiters, and [schema] returns a schema. *)
Lemma C3_counterexample :
  List.find (fun delim => (indexOf (fst (Src.firstRowMatch no_delim)) delim 0 >? -1)%Z)
            COL_DELIMS = None /\
  exists sch, Src.schema 20 no_delim (Some 10) = Ok sch.
Proof. split; [reflexivity | eexists; vm_compute; reflexivity]. Qed.

(** C3, amended.  No error of the name NoDelimiterFound exists.  When the
    header line holds none of the candidate column delimiters, the
    sniffed column delimiter is [undefined]: if the text holds a quote
    character, the call of [parse] throws a TypeError at
    [colDelim.charCodeAt(0)]; if it holds none, [schema], under a sample
    limit between 1 and the chunk size, returns a schema whose column
    delimiter is [undefined]. *)
Theorem C3_no_delimiter (csvStr : jsstring) :
  List.find (fun delim => (indexOf (fst (Src.firstRowMatch csvStr)) delim 0 >? -1)%Z)
            COL_DELIMS = None ->
  ((indexOf csvStr quote 0 >? -1)%Z = true ->
   forall fuel limit, Src.schema fuel csvStr limit = TypeError) /\
  ((indexOf csvStr quote 0 >? -1)%Z = false ->
   forall k fuel, 1 <= k <= CHUNK_SIZE -> k < fuel ->
   exists sch,
     Src.schema fuel csvStr (Some k) = Ok sch /\ Src.cols_delim sch = None).
Proof.
  intros Hfind.
  assert (Hcd : Src.cols_delim (fst (Src.sniff csvStr)) = None).
  { unfold Src.sniff. destruct (Src.firstRowMatch csvStr). cbn [fst] in *.
    cbn [Src.cols_delim]. exact Hfind. }
  split.
  - intros Hq fuel limit. unfold Src.schema.
    assert (Hsq : Src.s_quote (fst (Src.sniff csvStr)) = quote).
    { unfold Src.sniff. destruct (Src.firstRowMatch csvStr). cbn [fst Src.s_quote].
      now rewrite Hq. }
    destruct (Src.sniff csvStr) as [schema0 mc]. cbn [fst] in *.
    unfold Src.parse. now rewrite Hsq, Hcd.
  - intros Hq k fuel Hk Hf.
    assert (Hsq : Src.s_quote (fst (Src.sniff csvStr)) = []).
    { unfold Src.sniff. destruct (Src.firstRowMatch csvStr). cbn [fst Src.s_quote].
      now rewrite Hq. }
    destruct (SniffFacts.schema_fast csvStr k fuel Hsq Hk Hf)
      as (sch & E & H1 & _).
    exists sch. split; [exact E | now rewrite H1].
Qed.

(** [open_a] holds a quote character and no delimiter, [no_delim] holds
    neither. *)
Lemma C3_no_delimiter_witness :
  Src.schema 20 open_a (Some 10) = TypeError /\
  exists sch,
    Src.schema 20 no_delim (Some 10) = Ok sch /\ Src.cols_delim sch = None.
Proof.
  split.
  - apply (proj1 (C3_no_delimiter open_a ltac:(reflexivity))). reflexivity.
  - apply (proj2 (C3_no_delimiter no_delim ltac:(reflexivity)));
      [reflexivity | vm_compute; lia | lia].
Defined.

(** C4 as it is written fails: in [mixed] each column has one value that
    is not a number, and both columns are probed as numbers. *)
Lemma C4_counterexample :
  Src.parse 20 mixed (fst (Src.sniff mixed)) (Some 10) (Some (snd (Src.sniff mixed)))
  = Ok [[row_of ["a"; "b"]; row_of ["1"; "x"]; row_of ["y"; "2"]]]%string /\
  Numeric.to_number_ok (str "x") = false /\
  Numeric.to_number_ok (str "y") = false /\
  exists sch,
    Src.schema 20 mixed (Some 10) = Ok sch /\
    Src.cols_types sch = [Some Src.n_type; Some Src.n_type].
Proof.
  repeat split; try (vm_compute; reflexivity).
  eexists. split; vm_compute; reflexivity.
Qed.

(** C4, amended.  For every column of the header, the probed type is
    number if and only if at least one value sampled in that column,
    after the header row, converts with the unary plus to a number that
    is not NaN; otherwise it stays the default string. *)
Theorem C4_probed_types (fuel : nat) (csvStr : jsstring) (limit : option nat)
  (sch : Src.Schema) :
  Src.schema fuel csvStr limit = Ok sch ->
  exists calls first firstRows,
    Src.parse fuel csvStr (fst (Src.sniff csvStr)) limit
              (Some (snd (Src.sniff csvStr))) = Ok calls /\
    concat calls = first :: firstRows /\
    forall j, j < length (Src.cols_names sch) ->
      (nth_error (Src.cols_types sch) j = Some (Some Src.n_type) <->
       Src.numeric_in firstRows j) /\
      (nth_error (Src.cols_types sch) j = Some (Some Src.s_type) <->
       ~ Src.numeric_in firstRows j).
Proof.
  unfold Src.schema. destruct (Src.sniff csvStr) as [schema0 mc]. cbn [fst snd].
  destruct (Src.parse fuel csvStr schema0 limit (Some mc)) as [calls| | |];
    try discriminate.
  destruct (concat calls) as [|first firstRows] eqn:Ec; [discriminate|].
  intros [= <-]. exists calls, first, firstRows.
  split; [reflexivity|]. split; [exact Ec|].
  cbn [Src.cols_names Src.cols_types]. intros j Hj.
  now apply SchemaFacts.probe_types_spec.
Qed.

Lemma C4_probed_types_witness :
  exists calls first firstRows,
    Src.parse 20 mixed (fst (Src.sniff mixed)) (Some 10)
              (Some (snd (Src.sniff mixed))) = Ok calls /\
    concat calls = first :: firstRows /\
    forall j, j < 2 ->
      (nth_error [Some Src.n_type; Some Src.n_type] j = Some (Some Src.n_type) <->
       Src.numeric_in firstRows j) /\
      (nth_error [Some Src.n_type; Some Src.n_type] j = Some (Some Src.s_type) <->
       ~ Src.numeric_in firstRows j).
Proof.
  exact (C4_probed_types 20 mixed (Some 10)
           (Src.mkSchema [] (Some comma) [str "0"; str "1"]
                         [Some Src.n_type; Some Src.n_type] [lf])
           ltac:(vm_compute; reflexivity)).
Defined.

(** C5 as it is written fails: on the quote-free path the text
    [two_rows_lf] is parsed into two rows, and joining them with the
    delimiters gives the text without its last line feed. *)
Lemma C5_counterexample :
  exists calls,
    Src.parse 20 two_rows_lf (src_plain 2) None None = Ok calls /\
    rejoin comma [lf] (concat calls) = two_rows /\
    rejoin comma [lf] (concat calls) <> two_rows_lf.
Proof.
  eexists. split; [vm_compute; reflexivity|].
  split; [vm_compute; reflexivity | vm_compute; discriminate].
Qed.

(** C5, amended.  On the quote-free path, for every text with nothing
    behind its last row delimiter and every column delimiter, the parsed
    rows written back, fields joined with the column delimiter and the
    row delimiter behind every row, give the text exactly.  On the quoted
    path, for every text made of full rows of fields that hold no column
    delimiter, quote or row delimiter character, joined by the
    delimiters and with no row delimiter behind the last row, parsing
    and joining the rows again gives the text exactly. *)
Theorem C5_round_trip :
  (forall (csvStr : jsstring) (schema : Src.Schema) (mc : option nat)
          (d : jsstring) (fuel : nat),
     Src.s_quote schema = [] ->
     Src.cols_delim schema = Some d ->
     Src.rows_delim schema <> [] ->
     rest csvStr (Src.rows_delim schema) = [] ->
     length csvStr < fuel ->
     exists calls,
       Src.parse fuel csvStr schema None mc = Ok calls /\
       reterminate d (Src.rows_delim schema) (concat calls) = csvStr) /\
  (forall (cd rd : ascii) (rdt : jsstring) (schema : Src.Schema)
          (mc : option nat) (fields : list (list jsstring)) (fuel : nat),
     let numCols := Src.or_default mc (length (Src.cols_names schema)) in
     let text := join (rd :: rdt) (map (join [cd]) fields) in
     delims_ok cd rd = true ->
     Src.s_quote schema <> [] ->
     Src.cols_delim schema = Some [cd] ->
     Src.rows_delim schema = rd :: rdt ->
     1 <= numCols ->
     fields <> [] ->
     forallb (fun r => (length r =? numCols) && forallb (clean cd rd) r) fields
       = true ->
     length text < fuel ->
     exists calls,
       Src.parse fuel text schema None mc = Ok calls /\
       rejoin [cd] (rd :: rdt) (concat calls) = text).
Proof.
  split.
  - intros csvStr schema mc d fuel Hq Hcd Hrd Hrest Hf.
    destruct (@SrcFast.parse_fast csvStr schema mc fuel Hq Hrd Hf) as (calls & E & Hc).
    pose proof (RejoinFacts.lines_rest csvStr (Src.rows_delim schema) Hrd) as Ht.
    rewrite Hrest, app_nil_r in Ht.
    exists calls. split; [exact E|].
    now rewrite Hc, Hcd, RejoinFacts.reterminate_lines.
  - intros cd rd rdt schema mc fields fuel numCols text Hd Hq Hcd Hrd Hn Hne Hok Hf.
    destruct (@exists_last _ fields Hne) as (rs & r & ->).
    rewrite forallb_app in Hok. cbn [forallb] in Hok.
    rewrite !andb_true_iff in Hok. destruct Hok as (Hrs & (Hlr & Hcr) & _).
    apply Nat.eqb_eq in Hlr.
    assert (Htext : text = render cd (rd :: rdt) (map (map Plain) rs)
                           ++ raw_row cd (map Plain r)).
    { subst text. rewrite map_app. cbn [map].
      now rewrite PlainFacts.join_snoc, PlainFacts.render_plain,
                  PlainFacts.raw_row_plain. }
    assert (Hrows : forallb (row_ok cd rd numCols) (map (map Plain) rs) = true).
    { rewrite forallb_forall in *. intros x Hx.
      apply in_map_iff in Hx as (y & <- & Hy). specialize (Hrs y Hy).
      apply andb_true_iff in Hrs as [H1 H2]. apply Nat.eqb_eq in H1.
      now apply PlainFacts.row_ok_plain. }
    assert (Hlast : last_row_ok cd rd numCols (map Plain r) = true).
    { unfold last_row_ok. rewrite length_map, Hlr, Nat.eqb_refl.
      rewrite !andb_true_iff. repeat split.
      - now apply Nat.leb_le.
      - now apply Nat.leb_le.
      - pose proof (PlainFacts.row_ok_plain cd rd numCols r Hlr Hcr) as H.
        unfold row_ok in H. now apply andb_true_iff in H as [_ H]. }
    rewrite Htext in Hf |- *.
    destruct (SrcQuoted.parse_text cd rd rdt schema mc (map (map Plain) rs)
                (map Plain r) fuel Hd Hq Hcd Hrd Hrows Hlast Hf)
      as (calls & chunk & E & Hc).
    fold numCols in E, Hc.
    eexists. split; [exact E|].
    rewrite concat_app. cbn [concat]. rewrite app_nil_r, app_assoc, Hc.
    unfold rejoin. rewrite map_app, !map_map. cbn [map].
    rewrite PlainFacts.join_snoc, (PlainFacts.join_row_values cd numCols r Hlr).
    rewrite PlainFacts.render_plain, PlainFacts.raw_row_plain. f_equal.
    rewrite !flat_map_concat_map, !map_map. f_equal.
    apply map_ext_in. intros y Hy. f_equal.
    rewrite forallb_forall in Hrs. specialize (Hrs y Hy).
    apply andb_true_iff in Hrs as [H1 _]. apply Nat.eqb_eq in H1.
    apply (PlainFacts.join_row_values cd numCols y H1).
Qed.

Lemma C5_round_trip_witness :
  (exists calls,
     Src.parse 20 two_rows_lf (src_plain 2) None None = Ok calls /\
     reterminate comma [lf] (concat calls) = two_rows_lf) /\
  (exists calls,
     Src.parse 20 two_rows (src_quoted 2) None None = Ok calls /\
     rejoin comma [lf] (concat calls) = two_rows).
Proof.
  split.
  - apply (proj1 C5_round_trip two_rows_lf (src_plain 2) None comma 20);
      [reflexivity | reflexivity | discriminate | reflexivity | vm_compute; lia].
  - apply (proj2 C5_round_trip ","%char lf [] (src_quoted 2) None
             [[str "a"; str "b"]; [str "c"; str "d"]] 20);
      [reflexivity | discriminate | reflexivity | reflexivity
      | vm_compute; lia | discriminate | reflexivity | vm_compute; lia].
Defined.



(** C7, evaluated where the code misses it.  On the text [open_a], a
    quote and one character, [parse] of dist never returns, whatever the
    columns, chunk size and limits: the inner loop of the quoted state
    takes the -1 of [indexOf] as a position and goes round.  [parse] of
    src never returns on it with two columns, and with one column it
    returns a field that is not the text behind the quote: [open_ab]
    gives [aab]. *)
Theorem C7_unterminated_quote :
  (forall fuel n C chunkLimit mc,
     Dist.parse fuel open_a (dist_quoted n) C chunkLimit mc = OutOfFuel) /\
  (forall fuel, Src.parse fuel open_a (src_quoted 2) None None = OutOfFuel) /\
  Src.parse 20 open_ab (src_quoted 1) None None = Ok [[[Some (str "aab")]]].
Proof.
  split; [|split].
  - intros fuel n C chunkLimit mc. apply Unterminated.dist_never_returns.
  - apply Unterminated.src_never_returns.
  - vm_compute. reflexivity.
Qed.

(** C8, evaluated where the code misses it.  The text [two_rows] has no
    row delimiter behind its last row.  The quoted path emits both rows;
    the quote-free path emits the first row only.  The quote-free path
    never emits what follows the last row delimiter: its rows are the
    pieces of [csvStr.split(rowDelim)] without the last piece. *)
Theorem C8_final_row :
  Src.parse 20 two_rows (src_quoted 2) None None =
  Ok [[row_of ["a"; "b"]; row_of ["c"; "d"]]]%string /\
  Src.parse 20 two_rows (src_plain 2) None None =
  Ok [[row_of ["a"; "b"]]]%string /\
  (forall (csvStr : jsstring) (n : nat) (mc : option nat),
   exists calls,
     Src.parse (S (length csvStr)) csvStr (src_plain n) None mc = Ok calls /\
     concat calls = map (line_row (Some comma)) (lines csvStr [lf])).
Proof.
  split; [vm_compute; reflexivity|]. split; [vm_compute; reflexivity|].
  intros csvStr n mc.
  apply (@SrcFast.parse_fast csvStr (src_plain n) mc (S (length csvStr)));
    [reflexivity | discriminate | lia].
Qed.




(** C10, amended.  The trailing row.  With quoting on and no limit, a
    state left by the push of a row is flushed as one more row that holds
    the empty string at index 0 and holes behind it; and on every text of
    well-formed rows, each ended by the row delimiter (every row has as
    many fields as there are columns, at least one; a field that is not
    quoted does not start with a quote and holds neither the column
    delimiter nor the first character of the row delimiter), [parse]
    (dist and src) returns, and the last call of the callback ends with
    that row, behind the rows of the text. *)
Theorem C10_trailing_row :
  (forall (rowDelim : jsstring) (numCols C : nat) (chunkLimit : option nat)
          (c : option ascii) (st st' : Dist.State),
     code_eq c (Dist.rowDelimChar rowDelim) = true ->
     Dist.PUSH rowDelim numCols C chunkLimit c st = Dist.Continue st' ->
     Dist.flush st' =
     Dist.out st' ++ [(Dist.rows st' ++ [Some [] :: repeat None (numCols - 1)],
                       Dist.numChunks st')]) /\
  (forall (F : Type) (cd rd : ascii) (rdt : jsstring) (schema : Dist.Schema F)
          (C : nat) (mc : option nat) (rs : list (list Field)) (fuel : nat),
     let numCols := Dist.or_default mc (length (Dist.cols_names schema)) in
     delims_ok cd rd = true ->
     Dist.s_quote schema <> None ->
     Dist.cols_delim schema = Some [cd] ->
     Dist.rows_delim schema = rd :: rdt ->
     1 <= numCols ->
     forallb (row_ok cd rd numCols) rs = true ->
     length (render cd (rd :: rdt) rs) < fuel ->
     exists calls chunk nc,
       Dist.parse fuel (render cd (rd :: rdt) rs) schema C None mc =
       Ok (calls ++ [(chunk ++ [Some [] :: repeat None (numCols - 1)], nc)]) /\
       rows_of calls ++ chunk = map (values numCols) rs) /\
  (forall (cd rd : ascii) (rdt : jsstring) (schema : Src.Schema)
          (mc : option nat) (rs : list (list Field)) (fuel : nat),
     let numCols := Src.or_default mc (length (Src.cols_names schema)) in
     delims_ok cd rd = true ->
     Src.s_quote schema <> [] ->
     Src.cols_delim schema = Some [cd] ->
     Src.rows_delim schema = rd :: rdt ->
     1 <= numCols ->
     forallb (row_ok cd rd numCols) rs = true ->
     length (render cd (rd :: rdt) rs) < fuel ->
     exists calls chunk,
       Src.parse fuel (render cd (rd :: rdt) rs) schema None mc =
       Ok (calls ++ [chunk ++ [Some [] :: repeat None (numCols - 1)]]) /\
       concat calls ++ chunk = map (values numCols) rs).
Proof.
  assert (Hlast : forall cd rd n, 1 <= n -> last_row_ok cd rd n [Plain []] = true).
  { intros cd rd n Hn. unfold last_row_ok. cbn [length]. destruct n as [|n]; [lia|].
    cbn. now rewrite orb_true_r. }
  split; [|split].
  - intros rowDelim numCols C chunkLimit c st st' Hc. unfold Dist.PUSH. rewrite Hc.
    destruct (_ =? C); [destruct (Dist.limit_hit _ _); [discriminate|]|];
      intros [= <-]; unfold Dist.flush;
      cbn [Dist.out Dist.rows Dist.row Dist.colIdx Dist.v Dist.numChunks];
      destruct numCols; cbn; rewrite ?Nat.sub_0_r; reflexivity.
  - intros F cd rd rdt schema C mc rs fuel numCols Hd Hq Hcd Hrd Hn Hrs Hf.
    pose proof (DistQuoted.d_parse_text F cd rd rdt schema C mc rs [Plain []] fuel
                  Hd Hq Hcd Hrd Hrs (Hlast cd rd _ Hn)) as H.
    cbv zeta in H. cbn [raw_row map raw join] in H. rewrite app_nil_r in H.
    exact (H Hf).
  - intros cd rd rdt schema mc rs fuel numCols Hd Hq Hcd Hrd Hn Hrs Hf.
    pose proof (SrcQuoted.parse_text cd rd rdt schema mc rs [Plain []] fuel
                  Hd Hq Hcd Hrd Hrs (Hlast cd rd _ Hn)) as H.
    cbv zeta in H. cbn [raw_row map raw join] in H. rewrite app_nil_r in H.
    exact (H Hf).
Qed.

(** The text [two_rows_lf] ends with the row delimiter: two rows and the
    trailing row.  The state is the one its last character leaves. *)
Lemma C10_trailing_row_witness :
  Dist.flush (Dist.mkState Dist.Unquoted 8
                [row_of ["a"; "b"]; row_of ["c"; "d"]]%string [] (Array 2) 0 0 []) =
  [([row_of ["a"; "b"]; row_of ["c"; "d"]; [Some []; None]]%string, 0)] /\
  (exists calls chunk nc,
     Dist.parse 20 two_rows_lf (dist_quoted 2) CHUNK_SIZE None None =
     Ok (calls ++ [(chunk ++ [[Some []; None]], nc)]) /\
     rows_of calls ++ chunk = [row_of ["a"; "b"]; row_of ["c"; "d"]]%string) /\
  (exists calls chunk,
     Src.parse 20 two_rows_lf (src_quoted 2) None None =
     Ok (calls ++ [chunk ++ [[Some []; None]]]) /\
     concat calls ++ chunk = [row_of ["a"; "b"]; row_of ["c"; "d"]]%string).
Proof.
  split; [|split].
  - exact (proj1 C10_trailing_row [lf] 2 CHUNK_SIZE None (Some lf)
             (Dist.mkState Dist.Unquoted 7 [row_of ["a"; "b"]]%string (str "d")
                           [Some (str "c"); None] 1 0 [])
             _ eq_refl eq_refl).
  - apply (proj1 (proj2 C10_trailing_row) unit ","%char lf [] (dist_quoted 2)
             CHUNK_SIZE None
             [[Plain (str "a"); Plain (str "b")]; [Plain (str "c"); Plain (str "d")]]
             20);
      [reflexivity | discriminate | reflexivity | reflexivity | vm_compute; lia
      | reflexivity | vm_compute; lia].
  - apply (proj2 (proj2 C10_trailing_row) ","%char lf [] (src_quoted 2) None
             [[Plain (str "a"); Plain (str "b")]; [Plain (str "c"); Plain (str "d")]]
             20);
      [reflexivity | discriminate | reflexivity | reflexivity | vm_compute; lia
      | reflexivity | vm_compute; lia].
Defined.

End Claims.

(** * Further properties of the code *)

(** ** The compiled conversion of [genToTypedFn] (dist) *)

Module TypedFacts.
Import Dist.

Section Typed.

Variable J : Type.
Variable JSON_parse : jsstring -> option J.

Local Abbreviation convert := (Dist.convert JSON_parse).
Local Abbreviation classify := (Dist.classify JSON_parse).

Lemma eq_str_true (a b : jsstring) : Numeric.eq_str a b = true <-> a = b.
Proof. unfold Numeric.eq_str. destruct (list_eq_dec ascii_dec a b); split; congruence. Qed.

Lemma eq_str_false (a b : jsstring) : Numeric.eq_str a b = false <-> a <> b.
Proof. unfold Numeric.eq_str. destruct (list_eq_dec ascii_dec a b); split; congruence. Qed.

(** A conversion throws only from [JSON.parse]. *)
Lemma convert_cases (pv : ParseVal) (rv : option jsstring) :
  (exists x, convert pv rv = Ok x) \/
  (convert pv rv = SyntaxError /\ pv = JSONParse /\
   exists s, rv = Some s /\ s <> [] /\ s <> str "null" /\ JSON_parse s = None).
Proof.
  unfold Dist.convert. destruct rv as [s|]; [|left; eauto].
  destruct (Numeric.eq_str s []) eqn:E1; [left; eauto|].
  destruct (Numeric.eq_str s (str "null")) eqn:E2; [left; eauto|].
  apply eq_str_false in E1, E2.
  destruct pv; try (left; eauto; fail).
  destruct (JSON_parse s) eqn:Ej; [left; eauto|].
  right. repeat split; eauto 10.
Qed.

Lemma for_rows_Ok (A : Type) (f : Row -> result A) (rows : list Row) (xs : list A) :
  for_rows f rows = Ok xs <-> Forall2 (fun r x => f r = Ok x) rows xs.
Proof.
  revert xs. induction rows as [|r rows IH]; intros xs; cbn [for_rows].
  - split; [intros [= <-]; constructor | intros H; now inversion H].
  - destruct (f r) as [x| | |] eqn:Er.
    + destruct (for_rows f rows) as [ys| | |] eqn:Ey.
      * split.
        -- intros [= <-]. constructor; [exact Er | now apply IH].
        -- intros H. inversion H as [|? y ? ys' H1 H2]; subst.
           apply IH in H2. congruence.
      * split; [discriminate|]. intros H. inversion H as [|? y ? ys' H1 H2]; subst.
        apply IH in H2. discriminate.
      * split; [discriminate|]. intros H. inversion H as [|? y ? ys' H1 H2]; subst.
        apply IH in H2. discriminate.
      * split; [discriminate|]. intros H. inversion H as [|? y ? ys' H1 H2]; subst.
        apply IH in H2. discriminate.
    + split; [discriminate|]. intros H. inversion H; subst. congruence.
    + split; [discriminate|]. intros H. inversion H; subst. congruence.
    + split; [discriminate|]. intros H. inversion H; subst. congruence.
Qed.

(** With a body that only ever throws a SyntaxError, so does the loop
    over the rows, and it does when the body does on one of them. *)
Lemma for_rows_cases (A : Type) (f : Row -> result A) (rows : list Row) :
  (forall r, In r rows -> (exists x, f r = Ok x) \/ f r = SyntaxError) ->
  (exists xs, for_rows f rows = Ok xs /\ forall r, In r rows -> exists x, f r = Ok x) \/
  (for_rows f rows = SyntaxError /\ exists r, In r rows /\ f r = SyntaxError).
Proof.
  induction rows as [|r rows IH]; intros H; cbn [for_rows].
  - left. exists []. split; [reflexivity | intros r []].
  - destruct (H r (or_introl eq_refl)) as [[x Ex] | Ex]; rewrite Ex.
    + destruct IH as [(xs & -> & Hall) | (-> & r' & Hin & Er')].
      * intros r' Hr'. apply H. now right.
      * left. eexists. split; [reflexivity|]. intros r' [<- | Hr']; eauto.
      * right. split; [reflexivity|]. exists r'. split; [now right | exact Er'].
    + right. split; [reflexivity|]. exists r. split; [now left | exact Ex].
Qed.

Lemma array_get_set_same (A : Type) (a : list (option A)) (i : nat) (x : A) :
  nth_error (array_set a i x) i = Some (Some x).
Proof.
  revert a. induction i as [|i IH]; intros [|y a]; cbn; auto.
Qed.

Lemma array_get_set_other (A : Type) (a : list (option A)) (i j : nat) (x : A) :
  i <> j -> array_get (array_set a i x) j = array_get a j.
Proof.
  unfold array_get. revert a j. induction i as [|i IH]; intros [|y a] [|j] Hij;
    cbn; try congruence; try reflexivity.
  - now destruct j.
  - rewrite (IH [] j) by congruence. now destruct j.
  - apply IH. congruence.
Qed.

Lemma length_array_set (A : Type) (a : list (option A)) (i : nat) (x : A) :
  length (array_set a i x) = Nat.max (length a) (S i).
Proof.
  revert a. induction i as [|i IH]; intros [|y a]; cbn [array_set length].
  - reflexivity.
  - lia.
  - rewrite IH. cbn [length]. lia.
  - rewrite IH. lia.
Qed.

(** The assignments of one row: the slots of the columns hold the
    conversions, the others are left as they were. *)
Lemma assign_from_Ok (pvs : list ParseVal) :
  forall (ci : nat) (r r' : list (option (JSValue J))) (raw : Row),
  assign_from JSON_parse ci pvs r raw = Ok r' ->
  (forall k pv, nth_error pvs k = Some pv ->
     exists x, convert pv (array_get raw (ci + k)) = Ok x /\
               array_get r' (ci + k) = Some x) /\
  (forall j, j < ci \/ ci + length pvs <= j -> array_get r' j = array_get r j) /\
  length r' = match pvs with
              | [] => length r
              | _ :: _ => Nat.max (length r) (ci + length pvs)
              end.
Proof.
  induction pvs as [|pv pvs IH]; intros ci r r' raw; cbn [assign_from].
  - intros [= <-]. split; [intros [|k] pv'; discriminate|]. split; reflexivity.
  - destruct (Dist.convert JSON_parse pv (array_get raw ci)) as [x| | |] eqn:Ex;
      try discriminate.
    intros H. destruct (IH _ _ _ _ H) as (H1 & H2 & H3).
    split; [|split].
    + intros [|k] pv' Hk.
      * cbn in Hk. injection Hk as <-. rewrite Nat.add_0_r. exists x.
        split; [exact Ex|]. rewrite H2 by lia.
        unfold array_get. now rewrite array_get_set_same.
      * cbn in Hk. destruct (H1 k pv' Hk) as (y & Hy1 & Hy2).
        replace (ci + S k) with (S ci + k) by lia. eauto.
    + intros j Hj. cbn [length] in Hj. rewrite H2 by lia.
      apply array_get_set_other. lia.
    + rewrite H3, length_array_set. cbn [length]. destruct pvs; cbn [length]; lia.
Qed.

Lemma assign_from_cases (pvs : list ParseVal) :
  forall (ci : nat) (r : list (option (JSValue J))) (raw : Row),
  (exists r', assign_from JSON_parse ci pvs r raw = Ok r') \/
  (assign_from JSON_parse ci pvs r raw = SyntaxError /\
   exists k s, nth_error pvs k = Some JSONParse /\ array_get raw (ci + k) = Some s /\
               s <> [] /\ s <> str "null" /\ JSON_parse s = None).
Proof.
  induction pvs as [|pv pvs IH]; intros ci r raw; cbn [assign_from].
  - left. eauto.
  - destruct (convert_cases pv (array_get raw ci)) as [[x Ex] | (Ex & -> & s & Hs)];
      rewrite Ex.
    + destruct (IH (S ci) (array_set r ci x) raw) as [[r' E] | (E & k & s & Hk & Hs)].
      * left. eauto.
      * right. split; [exact E|]. exists (S k), s.
        replace (ci + S k) with (S ci + k) by lia. now cbn.
    + right. split; [reflexivity|]. exists 0, s. rewrite Nat.add_0_r. now cbn.
Qed.

Lemma assign_from_all_Ok (pvs : list ParseVal) :
  forall (ci : nat) (r : list (option (JSValue J))) (raw : Row),
  (forall k, nth_error pvs k = Some JSONParse ->
     exists x, convert JSONParse (array_get raw (ci + k)) = Ok x) ->
  exists r', assign_from JSON_parse ci pvs r raw = Ok r'.
Proof.
  induction pvs as [|pv pvs IH]; intros ci r raw H; cbn [assign_from]; [eauto|].
  assert (exists x, convert pv (array_get raw ci) = Ok x) as [x Ex].
  { destruct (convert_cases pv (array_get raw ci)) as [Hx | (E & -> & _)]; [exact Hx|].
    specialize (H 0 eq_refl). now rewrite Nat.add_0_r in H. }
  rewrite Ex. apply IH. intros k Hk. specialize (H (S k) Hk).
  now replace (ci + S k) with (S ci + k) in H by lia.
Qed.

Lemma entries_from_cases (cols : list jsstring) :
  forall (pvs : list ParseVal) (ci : nat) (raw : Row),
  length pvs = length cols ->
  (exists es, entries_from JSON_parse ci cols pvs raw = Ok es /\
     map fst es = cols /\
     forall k pv, nth_error pvs k = Some pv ->
       exists x, convert pv (array_get raw (ci + k)) = Ok x /\
                 nth_error (map snd es) k = Some x) \/
  (entries_from JSON_parse ci cols pvs raw = SyntaxError /\
   exists k s, nth_error pvs k = Some JSONParse /\ array_get raw (ci + k) = Some s /\
               s <> [] /\ s <> str "null" /\ JSON_parse s = None).
Proof.
  induction cols as [|col cols IH]; intros [|pv pvs] ci raw Hl;
    try discriminate; cbn [entries_from].
  - left. exists []. repeat split. intros [|k] pv; discriminate.
  - cbn [length] in Hl. injection Hl as Hl.
    destruct (convert_cases pv (array_get raw ci)) as [[x Ex] | (Ex & -> & s & Hs)];
      rewrite Ex.
    + destruct (IH pvs (S ci) raw Hl) as [(es & -> & Hk & Hv) | (-> & k & s & Hk & Hs)].
      * left. eexists. split; [reflexivity|]. cbn [map fst snd]. split; [now rewrite Hk|].
        intros [|k] pv' Hpv.
        -- cbn in Hpv. injection Hpv as <-. rewrite Nat.add_0_r. eauto.
        -- cbn in Hpv. destruct (Hv k pv' Hpv) as (y & Hy1 & Hy2).
           replace (ci + S k) with (S ci + k) by lia. eauto.
      * right. split; [reflexivity|]. exists (S k), s.
        replace (ci + S k) with (S ci + k) by lia. now cbn.
    + right. split; [reflexivity|]. exists 0, s. rewrite Nat.add_0_r. now cbn.
Qed.

Lemma nth_error_pvs (sample : list Row) (n k : nat) (pv : ParseVal) :
  nth_error (map (classify sample) (seq 0 n)) k = Some pv <->
  k < n /\ pv = classify sample k.
Proof.
  rewrite nth_error_map. split.
  - intros H. rewrite nth_error_seq in H. destruct (k <? n) eqn:Ek; [|discriminate].
    apply Nat.ltb_lt in Ek. cbn in H. injection H as <-. auto.
  - intros [Hk ->]. rewrite nth_error_seq.
    replace (k <? n) with true by (symmetry; now apply Nat.ltb_lt). reflexivity.
Qed.

(** What a converted value is, the magnitude of a number left out.  The
    model reads a number as the decimal that is written, where the code
    holds the double next to it, or an infinity past the range of the
    doubles; whether the number is [NaN] is the same for both, and that
    is all that is kept of it. *)
Inductive Kind :=
| KUndefined
| KNull
| KBoolean (b : bool)
| KNumber (nan : bool)
| KString (s : jsstring)
| KDate (s : jsstring)
| KJSON (j : J).

Definition kind (x : JSValue J) : Kind :=
  match x with
  | VUndefined _ => KUndefined
  | VNull _ => KNull
  | VBoolean _ b => KBoolean b
  | VNumber _ n => KNumber (isNaN n)
  | VString _ s => KString s
  | VDate _ s => KDate s
  | @VJSON _ j => KJSON j
  end.

(** Array mode.  The compiled function returns as many rows as it is
    given; in each, the slot of every header column holds what the
    conversion makes of the string that was there (an empty or missing
    one gives [undefined], the text [null] gives [null], a number column
    gives a number, which is [NaN] when the string does not start with a
    decimal literal, and so on by the class of the column), and the slots
    past the header are left as they were. *)
Theorem toTyped_rows (cols : list jsstring) (sample rows : list Row)
  (out : list (list (option (JSValue J)))) :
  genToTypedFn JSON_parse cols sample false rows = Ok (TypedRows out) ->
  Forall2 (fun raw r =>
    (forall ci, ci < length cols ->
       exists x, convert (classify sample ci) (array_get raw ci) = Ok x /\
                 option_map kind (array_get r ci) = Some (kind x)) /\
    (forall ci, length cols <= ci ->
       array_get r ci = option_map (@VString J) (array_get raw ci)) /\
    length r = Nat.max (length raw) (length cols)) rows out.
Proof.
  unfold genToTypedFn.
  destruct (for_rows _ rows) as [rs| | |] eqn:E; try discriminate.
  intros [= <-]. apply for_rows_Ok in E.
  eapply Forall2_impl; [|exact E]. cbv beta. intros raw r Hr.
  unfold typed_row in Hr. apply assign_from_Ok in Hr as (H1 & H2 & H3).
  split; [|split].
  - intros ci Hci. destruct (H1 ci (classify sample ci)) as (x & Ex & Hx);
      [apply nth_error_pvs; auto|].
    exists x. split; [exact Ex|]. change (0 + ci) with ci in Hx. now rewrite Hx.
  - intros ci Hci. rewrite H2 by (rewrite length_map, length_seq; lia).
    unfold array_get. rewrite nth_error_map.
    destruct (nth_error raw ci) as [[x|]|]; reflexivity.
  - rewrite H3, !length_map, length_seq. destruct cols; cbn [map seq length]; lia.
Qed.

(** A column name that can stand between the double quotes of the
    compiled text as it is: no double quote, backslash, line feed or
    carriage return in it. *)
Definition literal_safe (col : jsstring) : bool :=
  forallb (fun c => negb (Ascii.eqb c dq) && negb (Ascii.eqb c "\"%char)
                    && negb (Ascii.eqb c lf) && negb (Ascii.eqb c cr)) col.

(** A name made of digits only.  An object lists such keys first, by
    their number, and not where they are written. *)
Definition all_digits (col : jsstring) : bool :=
  negb (Numeric.eq_str col []) && forallb Numeric.is_digit col.

Fixpoint distinct (cols : list jsstring) : bool :=
  match cols with
  | [] => true
  | col :: cols' => negb (existsb (Numeric.eq_str col) cols') && distinct cols'
  end.

(** The header names that the object literal takes as they come: each
    can stand between double quotes, none is made of digits only, none
    is [__proto__] (that key of a literal sets the prototype), and no
    name comes twice (the literal would keep one key for both). *)
Definition keys_ok (cols : list jsstring) : bool :=
  forallb (fun col => literal_safe col && negb (all_digits col)
                      && negb (Numeric.eq_str col (str "__proto__"))) cols
  && distinct cols.

(** Object mode, for such header names.  Every object has the header
    names as its keys, in the order of the header, whatever the length
    of the row, and as values what the conversion makes of the strings
    of the row. *)
Theorem toTyped_objs (cols : list jsstring) (sample rows : list Row)
  (os : list (list (jsstring * JSValue J))) :
  keys_ok cols = true ->
  genToTypedFn JSON_parse cols sample true rows = Ok (TypedObjs os) ->
  Forall2 (fun raw o =>
    map fst o = cols /\
    forall ci, ci < length cols ->
      exists x, convert (classify sample ci) (array_get raw ci) = Ok x /\
                nth_error (map (fun e => kind (snd e)) o) ci = Some (kind x)) rows os.
Proof.
  intros _. unfold genToTypedFn.
  destruct (for_rows _ rows) as [rs| | |] eqn:E; try discriminate.
  intros [= <-]. apply for_rows_Ok in E.
  eapply Forall2_impl; [|exact E]. cbv beta. intros raw o Ho.
  destruct (entries_from_cases cols (map (classify sample) (seq 0 (length cols))) 0 raw)
    as [(es & Ee & Hk & Hv) | (Ee & _)];
    [now rewrite length_map, length_seq | | congruence].
  rewrite Ee in Ho. injection Ho as <-. split; [exact Hk|].
  intros ci Hci. destruct (Hv ci (classify sample ci)) as (x & Ex & Hx);
    [apply nth_error_pvs; auto|].
  exists x. split; [exact Ex|].
  rewrite <- (map_map snd kind), nth_error_map, Hx. reflexivity.
Qed.

(** Array mode.  The compiled function throws nothing but the
    SyntaxError of [JSON.parse], and throws it exactly when a column that
    was classified as JSON holds, in one of the rows, a string (not
    empty, not [null]) that [JSON.parse] rejects. *)
Theorem toTyped_throws (cols : list jsstring) (sample rows : list Row) :
  ((exists t, genToTypedFn JSON_parse cols sample false rows = Ok t) \/
   genToTypedFn JSON_parse cols sample false rows = SyntaxError) /\
  (genToTypedFn JSON_parse cols sample false rows = SyntaxError <->
   exists raw ci s,
     In raw rows /\ ci < length cols /\ classify sample ci = JSONParse /\
     array_get raw ci = Some s /\ s <> [] /\ s <> str "null" /\
     JSON_parse s = None).
Proof.
  set (pvs := map (classify sample) (seq 0 (length cols))).
  assert (Hbad : forall raw k s,
            nth_error pvs k = Some JSONParse -> array_get raw k = Some s ->
            s <> [] -> s <> str "null" -> JSON_parse s = None ->
            convert JSONParse (array_get raw k) = SyntaxError).
  { intros raw k s _ -> H1 H2 H3. unfold Dist.convert.
    apply eq_str_false in H1, H2. now rewrite H1, H2, H3. }
  assert (Hrow : forall raw,
            ((exists r, typed_row JSON_parse pvs raw = Ok r) /\
             ~ exists ci s, ci < length cols /\ classify sample ci = JSONParse /\
                 array_get raw ci = Some s /\ s <> [] /\ s <> str "null" /\
                 JSON_parse s = None) \/
            (typed_row JSON_parse pvs raw = SyntaxError /\
             exists ci s, ci < length cols /\ classify sample ci = JSONParse /\
                 array_get raw ci = Some s /\ s <> [] /\ s <> str "null" /\
                 JSON_parse s = None)).
  { intros raw. unfold typed_row.
    destruct (assign_from_cases pvs 0 (map (option_map (@VString J)) raw) raw)
      as [[r Er] | (Er & k & s & Hk & Hs)].
    - left. split; [eauto|].
      intros (ci & s & Hci & Hc & Hg & H1 & H2 & H3).
      apply assign_from_Ok in Er as (Hconv & _).
      destruct (Hconv ci JSONParse) as (x & Hx & _).
      + apply nth_error_pvs. auto.
      + change (0 + ci) with ci in Hx.
        assert (Hb : convert JSONParse (array_get raw ci) = SyntaxError)
          by (apply (Hbad raw ci s); try assumption; apply nth_error_pvs; auto).
        congruence.
    - right. split; [exact Er|].
      apply nth_error_pvs in Hk as [Hk Hc]. cbn [Nat.add] in Hs.
      destruct Hs as (Hg & H1 & H2 & H3). exists k, s. auto 10. }
  unfold genToTypedFn. fold pvs.
  destruct (for_rows_cases _ (typed_row JSON_parse pvs) rows)
    as [(xs & E & Hok) | (E & raw & Hin & Er)].
  - intros raw _. destruct (Hrow raw) as [([r ->] & _) | (-> & _)]; eauto.
  - rewrite E. split; [left; eauto|]. split; [discriminate|].
    intros (raw & ci & s & Hin & Hs). exfalso.
    destruct (Hrow raw) as [(_ & Hno) | (Ee & _)].
    + apply Hno. eauto.
    + destruct (Hok raw Hin) as [x Hx]. congruence.
  - rewrite E. split; [now right|]. split; [|reflexivity]. intros _.
    destruct (Hrow raw) as [([r Ee] & _) | (_ & ci & s & Hs)]; [congruence|].
    exists raw, ci, s. tauto.
Qed.

Lemma digit_cases (c : ascii) :
  Numeric.is_digit c = true ->
  Numeric.is_space c = false /\ Numeric.eq_str [c] (str "-") = false /\
  Numeric.eq_str [c] (str "+") = false /\ Ascii.eqb "I"%char c = false.
Proof.
  destruct c as [[] [] [] [] [] [] [] []]; vm_compute; intros H;
    try discriminate; repeat split.
Qed.

Lemma isNaN_decimal (negative : bool) (m : N) (e : Z) :
  isNaN (decimal negative m e) = false.
Proof. unfold decimal. now destruct (strip_zeros _ m e). Qed.

(** A string that starts with a digit is a number for [parseFloat],
    whatever follows the digits. *)
Lemma parseFloat_digit (c : ascii) (t : jsstring) :
  Numeric.is_digit c = true -> isNaN (parseFloat (c :: t)) = false.
Proof.
  intros Hc. destruct (digit_cases c Hc) as (H1 & H2 & H3 & H4).
  unfold parseFloat, Numeric.trim_start. cbn [Numeric.span]. rewrite H1. cbn [snd].
  cbn [take_sign]. rewrite H2, H3.
  change (str "Infinity") with ("I"%char :: str "nfinity"). cbn [startsWith].
  rewrite H4. cbn [andb]. cbn [Numeric.span]. rewrite Hc.
  destruct (Numeric.span Numeric.is_digit t) as [a b].
  assert (Hip : Numeric.eq_str (c :: a) [] = false) by (now apply eq_str_false).
  destruct b as [|x b].
  - rewrite Hip. cbn [andb]. apply isNaN_decimal.
  - destruct (Numeric.eq_str [x] (str ".")).
    + destruct (Numeric.span Numeric.is_digit b) as [fp r2].
      rewrite Hip. cbn [andb]. apply isNaN_decimal.
    + rewrite Hip. cbn [andb]. apply isNaN_decimal.
Qed.

Lemma ISO8601_digit (v : jsstring) :
  ISO8601_test v = true -> exists c t, v = c :: t /\ Numeric.is_digit c = true.
Proof.
  unfold ISO8601_test. destruct v as [|c t]; [discriminate|].
  cbn [digits bind]. destruct (Numeric.is_digit c) eqn:Ec; [|discriminate].
  intros _. now exists c, t.
Qed.

(** The order of the tests of a sample.  Every string that passes the
    timestamp test would pass the number test as well; the timestamp
    test comes first.  A sample that starts with a digit makes its
    column a date column when it is a timestamp and a number column
    otherwise, whatever follows the digits. *)
Theorem classify_leading_digit (sample : list Row) (ci : nat) (row : Row)
  (c : ascii) (t : jsstring) :
  Dist.sample sample ci = Some row ->
  array_get row ci = Some (c :: t) ->
  Numeric.is_digit c = true ->
  isNaN (parseFloat (c :: t)) = false /\
  classify sample ci = (if ISO8601_test (c :: t) then NewDate else ParseFloat) /\
  (forall v, ISO8601_test v = true -> isNaN (parseFloat v) = false).
Proof.
  intros Hs Hg Hc. pose proof (parseFloat_digit c t Hc) as Hn.
  split; [exact Hn|]. split.
  - unfold Dist.classify. rewrite Hs, Hg, Hn. reflexivity.
  - intros v Hv. destruct (ISO8601_digit v Hv) as (c' & t' & -> & Hc').
    now apply parseFloat_digit.
Qed.

End Typed.

(** A number column and a truth-value column; the second row is short,
    the first has a column more than the header. *)
Lemma toTyped_rows_witness :
  Forall2 (fun (raw : Row) (r : list (option (JSValue unit))) =>
             length r = Nat.max (length raw) 2)
    [Samples.row_of ["8"; "TRUE"; "x"]; Samples.row_of [""]]%string
    [[Some (VNumber unit (Finite false 8 0)); Some (VBoolean unit true);
      Some (VString unit (str "x"))];
     [Some (VUndefined unit); Some (VUndefined unit)]].
Proof.
  eapply Forall2_impl;
    [|apply (toTyped_rows unit (fun _ => None) [str "n"; str "ok"]
               [Samples.row_of ["7"; "true"]%string]
               [Samples.row_of ["8"; "TRUE"; "x"]; Samples.row_of [""]]%string);
      vm_compute; reflexivity].
  cbv beta. intros raw r (_ & _ & H). exact H.
Defined.

Lemma toTyped_objs_witness :
  Forall2 (fun (raw : Row) (o : list (jsstring * JSValue unit)) =>
             map fst o = [str "n"; str "ok"])
    [Samples.row_of ["8"; "TRUE"; "x"]; Samples.row_of [""]]%string
    [[(str "n", VNumber unit (Finite false 8 0)); (str "ok", VBoolean unit true)];
     [(str "n", VUndefined unit); (str "ok", VUndefined unit)]].
Proof.
  eapply Forall2_impl;
    [|apply (toTyped_objs unit (fun _ => None) [str "n"; str "ok"]
               [Samples.row_of ["7"; "true"]%string]
               [Samples.row_of ["8"; "TRUE"; "x"]; Samples.row_of [""]]%string);
      vm_compute; reflexivity].
  cbv beta. intros raw r (H & _). exact H.
Defined.

(** [12 Main St] makes its column a number column. *)
Lemma classify_leading_digit_witness :
  Dist.classify (fun _ : jsstring => @None unit)
    [Samples.row_of [""]; Samples.row_of ["12 Main St"]]%string 0 = ParseFloat.
Proof.
  exact (proj1 (proj2 (classify_leading_digit unit (fun _ => None)
           [Samples.row_of [""]; Samples.row_of ["12 Main St"]]%string 0
           (Samples.row_of ["12 Main St"]%string) "1"%char (str "2 Main St")
           eq_refl eq_refl eq_refl))).
Defined.

End TypedFacts.

(** ** What [schema] sniffs: the delimiters and the quote *)

Module SniffShape.
Import JSFacts SniffFacts.

(** The character [c] occurs in [s]. *)
Definition holds (c : ascii) (s : jsstring) : bool := existsb (Ascii.eqb c) s.

(** The first of tab, pipe, semicolon and comma that occurs in the
    header line. *)
Definition first_delim (header : jsstring) : option jsstring :=
  if holds "009"%char header then Some tab
  else if holds "|"%char header then Some pipe
  else if holds ";"%char header then Some semi
  else if holds ","%char header then Some comma
  else None.

(** The header line, the row delimiter and what follows them: the line
    holds no line terminator; the delimiter is the carriage return, the
    line feed, or both in this order, that follows it, and is empty only
    when the text ends with the line. *)
Definition first_line (csvStr header rowDelim rest : jsstring) : Prop :=
  csvStr = header ++ rowDelim ++ rest /\
  forallb (fun c => negb (Ascii.eqb c lf) && negb (Ascii.eqb c cr)) header = true /\
  ((rowDelim = [] /\ rest = []) \/ rowDelim = [lf] \/ rowDelim = [cr; lf] \/
   (rowDelim = [cr] /\ forall t, rest <> lf :: t)).

Lemma find_char (c : ascii) (s : jsstring) :
  match find [c] s with Some _ => true | None => false end = holds c s.
Proof.
  induction s as [|x s IH]; [reflexivity|].
  cbn [find startsWith holds existsb]. fold (holds c s).
  destruct (Ascii.eqb c x); cbn [andb orb]; [reflexivity|].
  destruct s as [|y s']; [reflexivity|].
  rewrite <- IH. now destruct (find [c] (y :: s')).
Qed.

Lemma indexOf_char (c : ascii) (s : jsstring) :
  (indexOf s [c] 0 >? -1)%Z = holds c s.
Proof.
  rewrite (indexOf_At [c] (At_start s)), <- find_char.
  destruct (find [c] s) as [k|]; [|reflexivity].
  apply Z.gtb_lt. lia.
Qed.

Lemma find_COL_DELIMS (header : jsstring) :
  List.find (fun delim => (indexOf header delim 0 >? -1)%Z) COL_DELIMS =
  first_delim header.
Proof.
  unfold COL_DELIMS, first_delim, tab, pipe, semi, comma. cbn [List.find str list_ascii_of_string].
  rewrite !indexOf_char.
  repeat match goal with |- context [holds ?c header] => destruct (holds c header) end;
    reflexivity.
Qed.

Lemma span_shape (p : ascii -> bool) (s : jsstring) :
  forallb p (fst (Numeric.span p s)) = true /\
  match snd (Numeric.span p s) with
  | [] => True
  | c :: _ => p c = false
  end.
Proof.
  induction s as [|c s IH]; cbn [Numeric.span]; [now split|].
  destruct (p c) eqn:E; [|now split].
  destruct (Numeric.span p s) as [a b]. cbn [fst snd forallb] in *.
  now rewrite E.
Qed.

Lemma firstRowMatch_first_line (csvStr : jsstring) :
  exists rest,
    first_line csvStr (fst (Src.firstRowMatch csvStr))
               (snd (Src.firstRowMatch csvStr)) rest.
Proof.
  unfold first_line, Src.firstRowMatch.
  pose proof (span_app (fun c => negb (Src.is_line_terminator c)) csvStr) as H.
  pose proof (span_shape (fun c => negb (Src.is_line_terminator c)) csvStr) as [H1 H2].
  destruct (Numeric.span _ csvStr) as [line rest]. cbn [fst snd] in *.
  assert (Hline : forallb (fun c => negb (Ascii.eqb c lf) && negb (Ascii.eqb c cr)) line
                  = true).
  { rewrite forallb_forall in *. intros c Hc. specialize (H1 c Hc).
    unfold Src.is_line_terminator in H1. now rewrite negb_orb in H1. }
  rewrite <- H. clear H H1.
  destruct rest as [|c t]; cbn [fst snd app].
  - exists []. rewrite app_nil_r. split; [reflexivity|]. split; [exact Hline|]. auto 10.
  - unfold Src.is_line_terminator in H2. apply negb_false_iff in H2.
    destruct (Ascii.eqb_spec c cr) as [-> | Hc].
    + destruct t as [|c2 t2].
      * exists []. split; [reflexivity|]. split; [exact Hline|].
        right. right. right. split; [reflexivity | discriminate].
      * destruct (Ascii.eqb_spec c2 lf) as [-> | Hc2].
        -- exists t2. split; [reflexivity|]. split; [exact Hline|]. auto 10.
        -- exists (c2 :: t2). split; [reflexivity|]. split; [exact Hline|].
           right. right. right. split; [reflexivity | congruence].
    + destruct (Ascii.eqb_spec c lf) as [-> | Hc2]; [|discriminate].
      exists t. split; [reflexivity|]. split; [exact Hline|]. auto 10.
Qed.

Lemma Dist_firstRowMatch (csvStr : jsstring) :
  Dist.firstRowMatch csvStr = Src.firstRowMatch csvStr.
Proof. reflexivity. Qed.

(** The quote test of [schema]. *)
Lemma has_quotes (csvStr : jsstring) :
  (indexOf csvStr quote 0 >? -1)%Z = holds dq csvStr.
Proof. apply indexOf_char. Qed.

(** Whenever [schema] returns, of src or of dist: the row delimiter is
    the line terminator behind the first line of the text (empty when the
    text has no line terminator), the column delimiter is the first of
    tab, pipe, semicolon and comma that occurs in that line ([undefined]
    when none does), and quoting is on when a quote character occurs
    anywhere in the text. *)
Theorem schema_delimiters (csvStr : jsstring) :
  (forall fuel limit sch,
     Src.schema fuel csvStr limit = Ok sch ->
     exists header rest,
       first_line csvStr header (Src.rows_delim sch) rest /\
       Src.cols_delim sch = first_delim header /\
       Src.s_quote sch = (if holds dq csvStr then quote else [])) /\
  (forall (J : Type) (JSON_parse : jsstring -> option J) fuel limit typedObjs sch,
     Dist.schema JSON_parse fuel csvStr limit typedObjs = Ok sch ->
     exists header rest,
       first_line csvStr header (Dist.rows_delim sch) rest /\
       Dist.cols_delim sch = first_delim header /\
       Dist.s_quote sch = (if holds dq csvStr then Some quote else None)).
Proof.
  destruct (firstRowMatch_first_line csvStr) as [rest Hfl].
  split.
  - intros fuel limit sch. unfold Src.schema, Src.sniff.
    destruct (Src.firstRowMatch csvStr) as [h rd]. cbn [fst snd] in Hfl.
    destruct (Src.parse _ _ _ _ _) as [calls| | |]; try discriminate.
    destruct (concat calls); [discriminate|]. intros [= <-].
    exists h, rest. cbn [Src.rows_delim Src.cols_delim Src.s_quote].
    split; [exact Hfl|].
    split; [rewrite <- find_COL_DELIMS; reflexivity | now rewrite has_quotes].
  - intros J JSON_parse fuel limit typedObjs sch. unfold Dist.schema, Dist.sniff.
    rewrite Dist_firstRowMatch.
    destruct (Src.firstRowMatch csvStr) as [h rd]. cbn [fst snd] in Hfl.
    destruct (Dist.parse _ _ _ _ _ _) as [calls| | |]; try discriminate.
    destruct (concat _); [discriminate|]. intros [= <-].
    exists h, rest. cbn [Dist.rows_delim Dist.cols_delim Dist.s_quote].
    split; [exact Hfl|].
    split; [rewrite <- find_COL_DELIMS; reflexivity | now rewrite has_quotes].
Qed.

(** The text [mixed] (src) and the scenario text (dist): line feed,
    comma; the second holds quotes. *)
Lemma schema_delimiters_witness :
  (exists header rest,
     first_line Samples.mixed header [lf] rest /\
     Some comma = first_delim header) /\
  (exists header rest,
     first_line Samples.scenario header [lf] rest /\
     Some comma = first_delim header).
Proof.
  split.
  - destruct (proj1 (schema_delimiters Samples.mixed) 20 (Some 10) _
                ltac:(vm_compute; reflexivity)) as (h & rest & H1 & H2 & _).
    exists h, rest. split; [exact H1 | exact H2].
  - destruct (proj2 (schema_delimiters Samples.scenario) unit (fun _ => None) 60 10 false
                (Dist.mkSchema (Some quote) (Some comma)
                   [str "id"; str "name"; str "active"]
                   [Some Dist.n_type; Some Dist.s_type; Some Dist.s_type] [lf]
                   (Some (Dist.genToTypedFn (fun _ => None)
                            [str "id"; str "name"; str "active"]
                            [Samples.row_of ["1"; "Alice"; "true"];
                             Samples.row_of ["2"; "Bob, Jr."; "false"];
                             [Some []; None; None]]%string false)))
                eq_refl) as (h & rest & H1 & H2 & _).
    exists h, rest. split; [exact H1 | exact H2].
Defined.

End SniffShape.

(** ** The empty row delimiter and the empty text

    The row delimiter that [schema] sniffs is empty when the text has no
    line terminator ("will fail if single line without line breaks"). *)

Module EmptyDelim.
Import JSFacts SrcFast DistFast Lines SniffShape.

Lemma indexOf_empty_0 (text : jsstring) : indexOf text [] 0 = 0%Z.
Proof.
  unfold indexOf, clamp. replace (Z.to_nat _) with 0 by lia.
  cbn [skipn]. now destruct text.
Qed.

Lemma slice_0_0 (text : jsstring) : slice text 0 0 = [].
Proof.
  unfold slice, rel_index. cbn [Z.ltb Z.compare].
  replace (Z.to_nat _) with 0 by lia. reflexivity.
Qed.

(** src, no limit: the loop stays at position 0. *)
Lemma src_fast_spins (text : jsstring) (cd : option jsstring) (fuel : nat) :
  forall (rws : list Src.Row) (o : Src.Calls),
  Src.fast_loop fuel text [] cd None 0 rws o = OutOfFuel.
Proof.
  induction fuel as [|fuel IH]; intros rws o; [reflexivity|].
  rewrite fast_loop_S. cbv zeta. rewrite indexOf_empty_0.
  cbn [Z.gtb Z.compare Src.limit_hit length Z.of_nat Z.add].
  destruct (_ =? CHUNK_SIZE); apply IH.
Qed.

Lemma dist_fast_spins (text : jsstring) (cd : option jsstring) (C : nat) (fuel : nat) :
  forall (rws : list Dist.Row) (nc : nat) (o : Dist.Calls),
  Dist.fast_loop fuel text [] cd C None 0 rws nc o = OutOfFuel.
Proof.
  induction fuel as [|fuel IH]; intros rws nc o; [reflexivity|].
  rewrite d_fast_loop_S. cbv zeta. rewrite indexOf_empty_0.
  cbn [Z.gtb Z.compare Dist.limit_hit length Z.of_nat Z.add].
  destruct (_ =? C); apply IH.
Qed.

(** src, under a row limit within the chunk size: the loop makes empty
    lines until the limit is reached. *)
Lemma src_fast_empty_rows (text : jsstring) (cd : option jsstring) (k : nat) :
  k <= CHUNK_SIZE ->
  forall (fuel : nat) (rws : list Src.Row),
  length rws < k -> k - length rws <= fuel ->
  Src.fast_loop fuel text [] cd (Some k) 0 rws [] =
  Ok [rws ++ repeat (line_row cd []) (k - length rws)].
Proof.
  intros Hk. induction fuel as [|fuel IH]; intros rws Hr Hf; [lia|].
  rewrite fast_loop_S. cbv zeta. rewrite indexOf_empty_0, slice_0_0.
  cbn [Z.gtb Z.compare Src.limit_hit length Z.of_nat Z.add app].
  fold (line_row cd []). rewrite length_app. cbn [length].
  destruct (Nat.eqb_spec (length rws + 1) k) as [E | E].
  - replace (0 <? length rws + 1) with true by (symmetry; apply Nat.ltb_lt; lia).
    replace (k - length rws) with 1 by lia. reflexivity.
  - replace (length rws + 1 =? CHUNK_SIZE) with false
      by (symmetry; apply Nat.eqb_neq; lia).
    rewrite IH by (rewrite ?length_app; cbn [length]; lia).
    rewrite length_app. cbn [length].
    replace (k - length rws) with (S (k - (length rws + 1))) by lia.
    cbn [repeat]. now rewrite <- app_assoc.
Qed.

(** dist, with [k] rows to a chunk and a limit of one chunk. *)
Lemma dist_fast_empty_rows (text : jsstring) (cd : option jsstring) (k : nat) :
  forall (fuel : nat) (rws : list Dist.Row),
  length rws < k -> k - length rws <= fuel ->
  Dist.fast_loop fuel text [] cd k (Some 1) 0 rws 0 [] =
  Ok [(rws ++ repeat (line_row cd []) (k - length rws), 0)].
Proof.
  induction fuel as [|fuel IH]; intros rws Hr Hf; [lia|].
  rewrite d_fast_loop_S. cbv zeta. rewrite indexOf_empty_0, slice_0_0.
  cbn [Z.gtb Z.compare length Z.of_nat Z.add app].
  fold (line_row cd []). rewrite length_app. cbn [length].
  destruct (Nat.eqb_spec (length rws + 1) k) as [E | E].
  - cbn [Dist.limit_hit Nat.eqb].
    replace (k - length rws) with 1 by lia. reflexivity.
  - rewrite IH by (rewrite ?length_app; cbn [length]; lia).
    rewrite length_app. cbn [length].
    replace (k - length rws) with (S (k - (length rws + 1))) by lia.
    cbn [repeat]. now rewrite <- app_assoc.
Qed.

(** With quoting off and an empty row delimiter, [parse] without a limit
    never returns, whatever the text: every turn of the loop finds the
    delimiter at position 0 and adds an empty line.  Under a row limit
    [k] within the chunk size, [parse] of src returns [k] empty lines. *)
Theorem empty_row_delimiter :
  (forall (csvStr : jsstring) (schema : Src.Schema) (mc : option nat) (fuel : nat),
     Src.s_quote schema = [] -> Src.rows_delim schema = [] ->
     Src.parse fuel csvStr schema None mc = OutOfFuel) /\
  (forall (F : Type) (csvStr : jsstring) (schema : Dist.Schema F) (C : nat)
          (mc : option nat) (fuel : nat),
     Dist.s_quote schema = None -> Dist.rows_delim schema = [] ->
     Dist.parse fuel csvStr schema C None mc = OutOfFuel) /\
  (forall (csvStr : jsstring) (schema : Src.Schema) (k : nat) (mc : option nat)
          (fuel : nat),
     Src.s_quote schema = [] -> Src.rows_delim schema = [] ->
     1 <= k <= CHUNK_SIZE -> k <= fuel ->
     Src.parse fuel csvStr schema (Some k) mc =
     Ok [repeat (line_row (Src.cols_delim schema) []) k]).
Proof.
  split; [|split].
  - intros csvStr schema mc fuel Hq Hd. unfold Src.parse. rewrite Hq, Hd.
    apply src_fast_spins.
  - intros F csvStr schema C mc fuel Hq Hd. unfold Dist.parse. rewrite Hq, Hd.
    apply dist_fast_spins.
  - intros csvStr schema k mc fuel Hq Hd Hk Hf. unfold Src.parse. rewrite Hq, Hd.
    rewrite (src_fast_empty_rows csvStr _ k (proj2 Hk) fuel []);
      cbn [length]; try lia.
    now rewrite Nat.sub_0_r.
Qed.

Lemma empty_row_delimiter_witness :
  Src.parse 7 (str "a,b") (Src.mkSchema [] (Some comma) [] [] []) None None
  = OutOfFuel /\
  Dist.parse 7 (str "a,b") (Dist.mkSchema None (Some comma) [] [] [] (@None unit))
             2 None None = OutOfFuel /\
  Src.parse 7 (str "a,b") (Src.mkSchema [] (Some comma) [] [] []) (Some 3) None
  = Ok [[[Some []]; [Some []]; [Some []]]].
Proof.
  split; [|split].
  - apply (proj1 empty_row_delimiter); reflexivity.
  - apply (proj1 (proj2 empty_row_delimiter)); reflexivity.
  - apply (proj2 (proj2 empty_row_delimiter) (str "a,b")
             (Src.mkSchema [] (Some comma) [] [] []) 3 None 7);
      [reflexivity | reflexivity | vm_compute; lia | lia].
Defined.

(** A delimiter that the pattern of the probing mode holds as it is
    written: none of the characters that are special inside a character
    class (backslash, closing bracket, hyphen, caret). *)
Definition class_plain (d : jsstring) : bool :=
  forallb (fun c => negb (Ascii.eqb c "\"%char) && negb (Ascii.eqb c "]"%char)
                    && negb (Ascii.eqb c "-"%char) && negb (Ascii.eqb c "^"%char)) d.

(** The empty text.  With quoting on, [parse] calls the callback once,
    with one row that holds the empty string and holes; with quoting off
    and a row delimiter that is not empty, it does not call it.  With
    quoting on and both a limit and [_maxCols] given, the pattern of the
    probing mode is built before the loop, out of the two delimiters:
    the statement then asks that they hold no character that is special
    inside a character class. *)
Theorem empty_text :
  (forall (schema : Src.Schema) (d : jsstring) (limit mc : option nat) (fuel : nat),
     Src.s_quote schema <> [] -> Src.cols_delim schema = Some d ->
     limit = None \/ mc = None \/ class_plain (d ++ Src.rows_delim schema) = true ->
     1 <= fuel ->
     Src.parse fuel [] schema limit mc =
     Ok [[Some [] :: repeat None
            (Src.or_default mc (length (Src.cols_names schema)) - 1)]]) /\
  (forall (schema : Src.Schema) (limit mc : option nat) (fuel : nat),
     Src.s_quote schema = [] -> Src.rows_delim schema <> [] -> 1 <= fuel ->
     Src.parse fuel [] schema limit mc = Ok []) /\
  (forall (F : Type) (schema : Dist.Schema F) (d : jsstring) (C : nat)
          (chunkLimit mc : option nat) (fuel : nat),
     Dist.s_quote schema <> None -> Dist.cols_delim schema = Some d ->
     chunkLimit = None \/ mc = None \/
       class_plain (d ++ Dist.rows_delim schema) = true ->
     1 <= fuel ->
     Dist.parse fuel [] schema C chunkLimit mc =
     Ok [([Some [] :: repeat None
             (Dist.or_default mc (length (Dist.cols_names schema)) - 1)], 0)]) /\
  (forall (F : Type) (schema : Dist.Schema F) (C : nat)
          (chunkLimit mc : option nat) (fuel : nat),
     Dist.s_quote schema = None -> Dist.rows_delim schema <> [] -> 1 <= fuel ->
     Dist.parse fuel [] schema C chunkLimit mc = Ok []).
Proof.
  assert (Hrow : forall n, array_set (@Array jsstring n) 0 [] = Some [] :: repeat None (n - 1)).
  { intros [|n]; cbn; rewrite ?Nat.sub_0_r; reflexivity. }
  assert (Hfind : forall d : jsstring, d <> [] -> indexOf [] d 0 = (-1)%Z).
  { intros [|c d] Hd; [congruence | reflexivity]. }
  split; [|split; [|split]].
  - intros schema d limit mc fuel Hq Hcd _ Hf. unfold Src.parse. rewrite Hcd.
    destruct (Src.s_quote schema); [congruence|].
    destruct fuel; [lia|]. cbn [Src.loop].
    destruct (Z.leb_spec (Src.pos (Src.init (Src.or_default mc (length (Src.cols_names schema)))))
                         (Src.endPos [])) as [H | _];
      [unfold Src.endPos, Src.init in H; cbn in H; lia|].
    unfold Src.flush, Src.init. cbn [Src.out Src.rows Src.row Src.colIdx Src.v app].
    now rewrite Hrow.
  - intros schema limit mc fuel Hq Hd Hf. unfold Src.parse. rewrite Hq.
    destruct fuel; [lia|]. rewrite fast_loop_S. cbv zeta. now rewrite (Hfind _ Hd).
  - intros F schema d C chunkLimit mc fuel Hq Hcd _ Hf. unfold Dist.parse. rewrite Hcd.
    destruct (Dist.s_quote schema); [|congruence].
    destruct fuel; [lia|]. cbn [Dist.loop].
    destruct (Z.leb_spec (Dist.pos (Dist.init (Dist.or_default mc (length (Dist.cols_names schema)))))
                         (Dist.endPos [])) as [H | _];
      [unfold Dist.endPos, Dist.init in H; cbn in H; lia|].
    unfold Dist.flush, Dist.init.
    cbn [Dist.out Dist.rows Dist.row Dist.colIdx Dist.v Dist.numChunks app].
    now rewrite Hrow.
  - intros F schema C chunkLimit mc fuel Hq Hd Hf. unfold Dist.parse. rewrite Hq.
    destruct fuel; [lia|]. rewrite d_fast_loop_S. cbv zeta. now rewrite (Hfind _ Hd).
Qed.

Lemma empty_text_witness :
  Src.parse 1 [] (Samples.src_quoted 3) None None = Ok [[[Some []; None; None]]] /\
  Src.parse 1 [] (Samples.src_plain 3) None None = Ok [] /\
  Dist.parse 1 [] (Samples.dist_quoted 3) CHUNK_SIZE None None
  = Ok [([[Some []; None; None]], 0)] /\
  Dist.parse 1 [] (Samples.dist_plain 3) CHUNK_SIZE None None = Ok [].
Proof.
  split; [|split; [|split]].
  - apply (proj1 empty_text (Samples.src_quoted 3) comma None None 1);
      [discriminate | reflexivity | left; reflexivity | lia].
  - apply (proj1 (proj2 empty_text)); [reflexivity | discriminate | lia].
  - apply (proj1 (proj2 (proj2 empty_text)) unit (Samples.dist_quoted 3) comma);
      [discriminate | reflexivity | left; reflexivity | lia].
  - apply (proj2 (proj2 (proj2 empty_text))); [reflexivity | discriminate | lia].
Defined.

End EmptyDelim.

(** ** [schema] on a text of a single line *)

Module SingleLine.
Import JSFacts SrcFast DistFast Lines SniffShape EmptyDelim.

Lemma span_all (p : ascii -> bool) (s : jsstring) :
  forallb p s = true -> Numeric.span p s = (s, []).
Proof.
  induction s as [|c s IH]; cbn [forallb Numeric.span]; [reflexivity|].
  intros H. apply andb_true_iff in H as [-> H]. now rewrite IH.
Qed.

Lemma firstRowMatch_single (csvStr : jsstring) :
  holds lf csvStr = false -> holds cr csvStr = false ->
  Src.firstRowMatch csvStr = (csvStr, []).
Proof.
  intros Hlf Hcr. unfold Src.firstRowMatch. rewrite span_all; [reflexivity|].
  apply forallb_forall. intros c Hc. unfold Src.is_line_terminator.
  apply negb_true_iff, orb_false_iff. split.
  - destruct (Ascii.eqb_spec c lf) as [-> | ]; [|reflexivity].
    unfold holds in Hlf. rewrite <- Hlf. symmetry. apply existsb_exists.
    exists lf. split; [exact Hc | apply Ascii.eqb_refl].
  - destruct (Ascii.eqb_spec c cr) as [-> | ]; [|reflexivity].
    unfold holds in Hcr. rewrite <- Hcr. symmetry. apply existsb_exists.
    exists cr. split; [exact Hc | apply Ascii.eqb_refl].
Qed.

Lemma line_row_first_delim (header : jsstring) :
  line_row (first_delim header) [] = [Some []].
Proof.
  unfold first_delim.
  repeat match goal with |- context [holds ?c header] => destruct (holds c header) end;
    reflexivity.
Qed.

Lemma src_probe_empty_rows (n : nat) :
  Src.probe_types 1 (repeat [Some []] n) =
  [Some (if 1 <=? n then Src.n_type else Src.s_type)].
Proof.
  unfold Src.probe_types. cbn [repeat].
  destruct n as [|n]; [reflexivity|]. cbn [repeat fold_left Nat.leb].
  change (Src.probe_row [Some Src.s_type] [Some []]) with [Some Src.n_type].
  induction n as [|n IH]; [reflexivity|]. cbn [repeat fold_left].
  exact IH.
Qed.

Lemma dist_probe_empty_rows (n : nat) :
  Dist.probe_types 1 (repeat [Some []] n) =
  [Some (if 1 <=? n then Dist.n_type else Dist.s_type)].
Proof.
  unfold Dist.probe_types. cbn [repeat].
  destruct n as [|n]; [reflexivity|]. cbn [repeat fold_left Nat.leb].
  change (Dist.probe_from 0 [Some []] [Some Dist.s_type]) with [Some Dist.n_type].
  induction n as [|n IH]; [reflexivity|]. cbn [repeat fold_left].
  exact IH.
Qed.

(** A text without line terminator and without quote character: the
    sniffed row delimiter is empty, the sampled rows are empty lines, as
    many as the limit asks for, and the header is taken from the first
    of them.  [schema] of src names one column [0], [schema] of dist
    names one column by the empty string; its type is number as soon as
    a second row is sampled, the empty string being a number. *)
Theorem single_line_schema (csvStr : jsstring) (k fuel : nat) :
  holds lf csvStr = false -> holds cr csvStr = false -> holds dq csvStr = false ->
  1 <= k <= CHUNK_SIZE -> k <= fuel ->
  Src.schema fuel csvStr (Some k) =
  Ok (Src.mkSchema [] (first_delim csvStr) [str "0"]
        [Some (if 2 <=? k then Src.n_type else Src.s_type)] []) /\
  forall (J : Type) (JSON_parse : jsstring -> option J) (typedObjs : bool),
  exists sch,
    Dist.schema JSON_parse fuel csvStr k typedObjs = Ok sch /\
    Dist.s_quote sch = None /\ Dist.cols_delim sch = first_delim csvStr /\
    Dist.rows_delim sch = [] /\ Dist.cols_names sch = [[]] /\
    Dist.cols_types sch = [Some (if 2 <=? k then Dist.n_type else Dist.s_type)].
Proof.
  intros Hlf Hcr Hq Hk Hf.
  split.
  - unfold Src.schema, Src.sniff. rewrite (firstRowMatch_single csvStr Hlf Hcr).
    rewrite has_quotes, Hq, find_COL_DELIMS.
    unfold Src.parse. cbn [Src.s_quote Src.rows_delim Src.cols_delim].
    rewrite (src_fast_empty_rows csvStr (first_delim csvStr) k (proj2 Hk) fuel [])
      by (cbn [length]; lia).
    cbn [length concat app]. rewrite Nat.sub_0_r, line_row_first_delim, app_nil_r.
    destruct k as [|k]; [lia|]. cbn [repeat].
    cbn [Src.s_quote Src.cols_delim Src.rows_delim].
    change (Src.Object_keys [Some []]) with [str "0"]. cbn [length].
    now rewrite src_probe_empty_rows.
  - intros J JSON_parse typedObjs. unfold Dist.schema, Dist.sniff.
    rewrite Dist_firstRowMatch, (firstRowMatch_single csvStr Hlf Hcr).
    rewrite has_quotes, Hq, find_COL_DELIMS.
    unfold Dist.parse. cbn [Dist.s_quote Dist.rows_delim Dist.cols_delim].
    rewrite (dist_fast_empty_rows csvStr (first_delim csvStr) k fuel [])
      by (cbn [length]; lia).
    cbn [length map fst concat app]. rewrite Nat.sub_0_r, line_row_first_delim, app_nil_r.
    destruct k as [|k]; [lia|]. cbn [repeat].
    eexists. split; [reflexivity|].
    cbn [Dist.s_quote Dist.cols_delim Dist.rows_delim Dist.cols_names Dist.cols_types].
    change (Dist.Object_values [Some []]) with [[] : jsstring]. cbn [length].
    now rewrite dist_probe_empty_rows.
Qed.

(** The text [a,b], ten rows asked for. *)
Lemma single_line_schema_witness :
  Src.schema 10 (str "a,b") (Some 10) =
  Ok (Src.mkSchema [] (Some comma) [str "0"] [Some Src.n_type] []).
Proof.
  exact (proj1 (single_line_schema (str "a,b") 10 10 eq_refl eq_refl eq_refl
                 ltac:(vm_compute; lia) ltac:(lia))).
Defined.

End SingleLine.

(** ** The limits of [parse] *)

Module Limits.
Import JSFacts SplitFacts SrcFast DistFast Lines Chunks ChunkFacts.

(** *** A row limit that is never reached (src) *)

Section SrcOff.

Variable k : nat.
Hypothesis k_off : k = 0 \/ CHUNK_SIZE < k.

Lemma limit_hit_off (rws : list Src.Row) (r : Src.Row) :
  length rws < CHUNK_SIZE -> Src.limit_hit (Some k) (rws ++ [r]) = false.
Proof.
  intros H. cbn [Src.limit_hit]. rewrite length_app. cbn [length].
  apply Nat.eqb_neq. lia.
Qed.

Lemma src_fast_limit_off (text d : jsstring) (cd : option jsstring) (fuel : nat) :
  forall (p : Z) (rws : list Src.Row) (o : Src.Calls),
  length rws < CHUNK_SIZE ->
  Src.fast_loop fuel text d cd (Some k) p rws o =
  Src.fast_loop fuel text d cd None p rws o.
Proof.
  induction fuel as [|fuel IH]; intros p rws o Hr; [reflexivity|].
  rewrite !fast_loop_S. cbv zeta.
  destruct (indexOf text d p >? -1)%Z; [|reflexivity].
  rewrite limit_hit_off by exact Hr. cbn [Src.limit_hit].
  destruct (Nat.eqb_spec (length (rws ++ [map Some (split (slice text p (indexOf text d p)) cd)]))
                         CHUNK_SIZE) as [E | E].
  - apply IH. cbn [length]. unfold CHUNK_SIZE. lia.
  - apply IH. rewrite length_app in *. cbn [length] in *. lia.
Qed.

Lemma PUSH_limit_off (rowDelim : jsstring) (numCols : nat) (c : option ascii)
  (st : Src.State) :
  length (Src.rows st) < CHUNK_SIZE ->
  Src.PUSH rowDelim numCols (Some k) c st = Src.PUSH rowDelim numCols None c st /\
  forall st', Src.PUSH rowDelim numCols None c st = Src.Continue st' ->
              length (Src.rows st') < CHUNK_SIZE.
Proof.
  intros Hr. unfold Src.PUSH. cbv zeta.
  destruct (code_eq c (Src.rowDelimChar rowDelim)).
  - rewrite limit_hit_off by exact Hr. cbn [Src.limit_hit]. split; [reflexivity|].
    destruct (Nat.eqb_spec (length (Src.rows st ++ [array_set (Src.row st) (Src.colIdx st) (Src.v st)]))
                           CHUNK_SIZE) as [E | E];
      intros st' [= <-]; cbn [Src.rows length].
    + unfold CHUNK_SIZE. lia.
    + rewrite length_app in *. cbn [length] in *. lia.
  - split; [reflexivity|]. intros st' [= <-]. exact Hr.
Qed.

Lemma turn_limit_off (text colDelim rowDelim : jsstring) (numCols : nat)
  (_probe : bool) (st : Src.State) :
  length (Src.rows st) < CHUNK_SIZE ->
  Src.turn text colDelim rowDelim numCols (Some k) _probe st =
  Src.turn text colDelim rowDelim numCols None _probe st /\
  forall st', Src.turn text colDelim rowDelim numCols None _probe st = Src.Continue st' ->
              length (Src.rows st') < CHUNK_SIZE.
Proof.
  intros Hr. unfold Src.turn, Src.unstarted.
  destruct (Src.inCol st) eqn:Ei.
  - destruct (code_eq _ Src.quoteChar).
    + unfold Src.in_column. cbn [Src.inCol Src.set_pos Src.set_inCol].
      split; [reflexivity|].
      repeat match goal with |- context [if ?b then _ else _] => destruct b end;
        intros st' [= <-]; exact Hr.
    + destruct (_ || _).
      * destruct (PUSH_limit_off rowDelim numCols (charCodeAt text (Src.pos st)) st Hr)
          as [-> Hinv].
        destruct (Src.PUSH rowDelim numCols None _ st) as [st1| |] eqn:EP;
          [|split; [reflexivity | discriminate]..].
        specialize (Hinv st1 eq_refl).
        assert (Src.inCol st1 = Src.NoCol) as Hi1.
        { unfold Src.PUSH in EP. cbv zeta in EP.
          repeat match type of EP with context [if ?b then _ else _] => destruct b end;
            try discriminate; injection EP as <-; exact Ei. }
        unfold Src.in_column. rewrite Hi1. split; [reflexivity|].
        intros st' [= <-]. exact Hinv.
      * unfold Src.in_column. cbn [Src.inCol Src.set_inCol Src.pos Src.colIdx Src.v].
        destruct (_ || _).
        -- destruct (PUSH_limit_off rowDelim numCols (charCodeAt text (Src.pos st))
                       (Src.set_inCol Src.Unquoted st) Hr) as [-> Hinv].
           destruct (Src.PUSH rowDelim numCols None _ _) as [st1| |];
             [|split; [reflexivity | discriminate]..].
           split; [reflexivity|]. intros st' [= <-]. exact (Hinv st1 eq_refl).
        -- split; [reflexivity|].
           destruct _probe; [destruct (Src.takeToCommaOrEOL _ _ _ _); [|discriminate]|];
             intros st' [= <-]; exact Hr.
  - unfold Src.in_column. rewrite Ei.
    destruct (_ || _).
    + destruct (PUSH_limit_off rowDelim numCols (charCodeAt text (Src.pos st)) st Hr)
        as [-> Hinv].
      destruct (Src.PUSH rowDelim numCols None _ st) as [st1| |];
        [|split; [reflexivity | discriminate]..].
      split; [reflexivity|]. intros st' [= <-]. exact (Hinv st1 eq_refl).
    + split; [reflexivity|].
      destruct _probe; [destruct (Src.takeToCommaOrEOL _ _ _ _); [|discriminate]|];
        intros st' [= <-]; exact Hr.
  - unfold Src.in_column. rewrite Ei. split; [reflexivity|].
    repeat match goal with |- context [if ?b then _ else _] => destruct b end;
      intros st' [= <-]; exact Hr.
Qed.

Lemma loop_limit_off (text colDelim rowDelim : jsstring) (numCols : nat)
  (_probe : bool) (fuel : nat) :
  forall st, length (Src.rows st) < CHUNK_SIZE ->
  Src.loop text colDelim rowDelim numCols (Some k) _probe fuel st =
  Src.loop text colDelim rowDelim numCols None _probe fuel st.
Proof.
  induction fuel as [|fuel IH]; intros st Hr; [reflexivity|].
  cbn [Src.loop]. destruct (_ <=? _)%Z; [|reflexivity].
  destruct (turn_limit_off text colDelim rowDelim numCols _probe st Hr) as [-> Hinv].
  destruct (Src.turn _ _ _ _ None _ st) as [st1| |]; try reflexivity.
  apply IH. now apply Hinv.
Qed.

End SrcOff.

(** *** A chunk limit of 0 (dist) *)

Lemma dist_fast_limit_0 (text d : jsstring) (cd : option jsstring) (C fuel : nat) :
  forall (p : Z) (rws : list Dist.Row) (nc : nat) (o : Dist.Calls),
  Dist.fast_loop fuel text d cd C (Some 0) p rws nc o =
  Dist.fast_loop fuel text d cd C None p rws nc o.
Proof.
  induction fuel as [|fuel IH]; intros p rws nc o; [reflexivity|].
  rewrite !d_fast_loop_S. cbv zeta. cbn [Dist.limit_hit Nat.eqb].
  destruct (_ >? _)%Z; [|reflexivity]. destruct (_ =? C); apply IH.
Qed.

Lemma dist_loop_limit_0 (text colDelim rowDelim : jsstring) (numCols C : nat)
  (_probe : bool) (fuel : nat) :
  forall st,
  Dist.loop text colDelim rowDelim numCols C (Some 0) _probe fuel st =
  Dist.loop text colDelim rowDelim numCols C None _probe fuel st.
Proof.
  assert (HP : forall c st, Dist.PUSH rowDelim numCols C (Some 0) c st =
                            Dist.PUSH rowDelim numCols C None c st) by reflexivity.
  induction fuel as [|fuel IH]; intros st; [reflexivity|].
  cbn [Dist.loop]. destruct (_ <=? _)%Z; [|reflexivity].
  assert (HT : Dist.turn text colDelim rowDelim numCols C (Some 0) _probe fuel st =
               Dist.turn text colDelim rowDelim numCols C None _probe fuel st)
    by reflexivity.
  rewrite HT. destruct (Dist.turn _ _ _ _ _ None _ _ st); try reflexivity; apply IH.
Qed.

(** A row limit of 0, or one above the chunk size, is never reached by
    [parse] of src: the limit is compared with the number of rows of the
    open chunk, which runs from 1 to the chunk size.  A chunk limit of 0
    is never reached by [parse] of dist.  The parse is then the parse
    without limit, on every input. *)
Theorem limit_without_effect :
  (forall (fuel : nat) (csvStr : jsstring) (schema : Src.Schema) (k : nat),
     k = 0 \/ CHUNK_SIZE < k ->
     Src.parse fuel csvStr schema (Some k) None =
     Src.parse fuel csvStr schema None None) /\
  (forall (F : Type) (fuel : nat) (csvStr : jsstring) (schema : Dist.Schema F)
          (C : nat),
     Dist.parse fuel csvStr schema C (Some 0) None =
     Dist.parse fuel csvStr schema C None None).
Proof.
  split.
  - intros fuel csvStr schema k Hk. unfold Src.parse.
    destruct (Src.s_quote schema).
    + apply src_fast_limit_off; [exact Hk | cbn [length]; unfold CHUNK_SIZE; lia].
    + destruct (Src.cols_delim schema); [|reflexivity].
      apply loop_limit_off; [exact Hk | cbn [Src.rows Src.init length]; unfold CHUNK_SIZE; lia].
  - intros F fuel csvStr schema C. unfold Dist.parse.
    destruct (Dist.s_quote schema).
    + destruct (Dist.cols_delim schema); [|reflexivity]. apply dist_loop_limit_0.
    + apply dist_fast_limit_0.
Qed.

Lemma limit_without_effect_witness :
  Src.parse 20 Samples.two_rows_lf (Samples.src_quoted 2) (Some 0) None =
  Src.parse 20 Samples.two_rows_lf (Samples.src_quoted 2) None None /\
  Src.parse 20 Samples.two_rows_lf (Samples.src_plain 2) (Some (S CHUNK_SIZE)) None =
  Src.parse 20 Samples.two_rows_lf (Samples.src_plain 2) None None.
Proof.
  split.
  - apply (proj1 limit_without_effect). left. reflexivity.
  - apply (proj1 limit_without_effect). right. apply Nat.lt_succ_diag_r.
Defined.

(** *** The quote-free path under a limit *)

Section FastLimit.

Variables (text d : jsstring) (cd : option jsstring).
Hypothesis d_nonempty : d <> [].

(** src: a row limit within the chunk size stops the loop at the [k]-th
    line, or the text does before. *)
Lemma src_fast_first_rows (k : nat) :
  k <= CHUNK_SIZE ->
  forall (n : nat) (rest : jsstring) (p : Z) (rws : list Src.Row),
  At text p rest -> length rest <= n -> length rws < k ->
  exists calls,
    Src.fast_loop (S n) text d cd (Some k) p rws [] = Ok calls /\
    length calls <= 1 /\
    concat calls =
    rws ++ firstn (k - length rws)
             (map (line_row cd) (removelast (split_from n d rest))).
Proof.
  intros Hk. induction n as [|n IH]; intros rest p rws HA Hn Hr.
  - destruct rest; [|cbn [length] in Hn; lia].
    rewrite fast_loop_S. cbv zeta.
    rewrite (fast_stop d HA) by (destruct d; [congruence | reflexivity]).
    cbn [Z.gtb Z.compare split_from removelast map firstn].
    rewrite firstn_nil, app_nil_r.
    destruct rws; cbn [length Nat.ltb Nat.leb]; eexists;
      (split; [reflexivity|]); cbn [length concat app]; rewrite ?app_nil_r;
      split; (lia || reflexivity).
  - rewrite fast_loop_S. cbv zeta.
    destruct (find d rest) as [j|] eqn:E.
    + destruct (fast_step d_nonempty HA E) as (-> & -> & HA' & Hlt).
      replace (p + Z.of_nat j >? -1)%Z with true
        by (pose proof (At_nonneg HA); symmetry; apply Z.gtb_lt; lia).
      rewrite (removelast_split_from n d rest E). cbn [map].
      fold (line_row cd (firstn j rest)).
      cbn [Src.limit_hit]. rewrite length_app. cbn [length].
      destruct (Nat.eqb_spec (length rws + 1) k) as [Ek | Ek].
      * replace (0 <? length rws + 1) with true by (symmetry; apply Nat.ltb_lt; lia).
        eexists. split; [reflexivity|]. cbn [length concat app]. rewrite app_nil_r.
        split; [lia|]. replace (k - length rws) with 1 by lia. reflexivity.
      * replace (length rws + 1 =? CHUNK_SIZE) with false
          by (symmetry; apply Nat.eqb_neq; lia).
        destruct (IH _ _ (rws ++ [line_row cd (firstn j rest)]) HA')
          as (calls & -> & Hl & Hc);
          [lia | rewrite length_app; cbn [length]; lia |].
        eexists. split; [reflexivity|]. split; [exact Hl|]. rewrite Hc.
        rewrite length_app. cbn [length].
        replace (k - length rws) with (S (k - (length rws + 1))) by lia.
        cbn [firstn]. now rewrite <- app_assoc.
    + rewrite (fast_stop d HA E). cbn [Z.gtb Z.compare].
      rewrite removelast_split_from_none by assumption.
      cbn [map]. rewrite firstn_nil, app_nil_r.
      destruct rws; cbn [length Nat.ltb Nat.leb]; eexists;
        (split; [reflexivity|]); cbn [length concat app]; rewrite ?app_nil_r;
        split; (lia || reflexivity).
Qed.

(** dist: a limit of [k] chunks stops the loop when the [k]-th chunk is
    full, or the text does before. *)
Lemma dist_fast_first_chunks (C k : nat) :
  1 <= C -> 1 <= k ->
  forall (n : nat) (rest : jsstring) (p : Z) (rws : list Dist.Row) (nc : nat)
         (o : Dist.Calls),
  At text p rest -> length rest <= n -> length rws < C -> nc < k ->
  full_calls C nc o ->
  exists calls,
    Dist.fast_loop (S n) text d cd C (Some k) p rws nc o = Ok calls /\
    chunked C calls /\ length calls <= k /\
    rows_of calls =
    firstn (k * C)
      (rows_of o ++ rws ++ map (line_row cd) (removelast (split_from n d rest))).
Proof.
  intros HC Hk.
  assert (Hstop : forall (rws : list Dist.Row) (nc : nat) (o : Dist.Calls),
            length rws < C -> nc < k -> full_calls C nc o ->
            let calls := if 0 <? length rws then o ++ [(rws, nc)] else o in
            chunked C calls /\ length calls <= k /\
            rows_of calls = firstn (k * C) (rows_of o ++ rws ++ [])).
  { intros rws nc o Hr Hnc Hfull. cbv zeta.
    pose proof Hfull as (Hno & _ & Hall).
    pose proof (rows_of_full C o Hall) as Hlen.
    rewrite app_nil_r.
    assert (Hfirst : firstn (k * C) (rows_of o ++ rws) = rows_of o ++ rws).
    { apply firstn_all2. rewrite length_app, Hlen, <- Hno. nia. }
    rewrite Hfirst.
    destruct rws as [|r rws]; cbn [length Nat.ltb Nat.leb].
    - split; [apply (chunked_full C nc o HC Hfull)|]. split; [lia|].
      now rewrite app_nil_r.
    - split; [apply chunked_snoc; [exact Hfull | cbn [length] in *; lia]|].
      split; [rewrite length_app; cbn [length]; lia|].
      rewrite rows_of_app. unfold rows_of at 2. cbn [map fst concat].
      now rewrite app_nil_r. }
  induction n as [|n IH]; intros rest p rws nc o HA Hn Hr Hnc Hfull.
  - destruct rest; [|cbn [length] in Hn; lia].
    rewrite d_fast_loop_S. cbv zeta.
    rewrite (fast_stop d HA) by (destruct d; [congruence | reflexivity]).
    cbn [Z.gtb Z.compare split_from removelast map].
    eexists. split; [reflexivity|]. apply Hstop; assumption.
  - rewrite d_fast_loop_S. cbv zeta.
    destruct (find d rest) as [j|] eqn:E.
    + destruct (fast_step d_nonempty HA E) as (-> & -> & HA' & Hlt).
      replace (p + Z.of_nat j >? -1)%Z with true
        by (pose proof (At_nonneg HA); symmetry; apply Z.gtb_lt; lia).
      rewrite (removelast_split_from n d rest E). cbn [map].
      fold (line_row cd (firstn j rest)). set (r := line_row cd (firstn j rest)).
      rewrite length_app. cbn [length].
      destruct (Nat.eqb_spec (length rws + 1) C) as [EC | EC].
      * assert (Hfull' : full_calls C (S nc) (o ++ [(rws ++ [r], nc)])).
        { apply full_calls_snoc; [exact Hfull | rewrite length_app; cbn [length]; lia]. }
        cbn [Dist.limit_hit].
        destruct (Nat.eqb_spec (S nc) k) as [Ek | Ek].
        -- eexists. split; [reflexivity|].
           split; [apply (chunked_full C (S nc) _ HC Hfull')|].
           pose proof Hfull' as (Hno & _ & Hall).
           split; [lia|].
           pose proof (rows_of_full C _ Hall) as Hlen.
           assert (Hrows : rows_of (o ++ [(rws ++ [r], nc)]) = rows_of o ++ rws ++ [r]).
           { rewrite rows_of_app. unfold rows_of at 2. cbn [map fst concat].
             now rewrite app_nil_r. }
           rewrite Hrows in *.
           set (X := map (line_row cd) _).
           replace (rows_of o ++ rws ++ r :: X) with ((rows_of o ++ rws ++ [r]) ++ X)
             by (now rewrite <- !app_assoc).
           rewrite firstn_app.
           replace (k * C - length (rows_of o ++ rws ++ [r])) with 0 by (rewrite Hlen; nia).
           rewrite firstn_O, app_nil_r. symmetry. apply firstn_all2.
           rewrite Hlen. nia.
        -- destruct (IH _ _ [] (S nc) (o ++ [(rws ++ [r], nc)]) HA')
             as (calls & -> & Hch & Hl & Hc);
             [lia | cbn [length]; lia | lia | exact Hfull' |].
           eexists. split; [reflexivity|]. split; [exact Hch|]. split; [exact Hl|].
           rewrite Hc, rows_of_app. unfold rows_of at 2. cbn [map fst concat app].
           now rewrite app_nil_r, <- !app_assoc.
      * destruct (IH _ _ (rws ++ [r]) nc o HA')
          as (calls & -> & Hch & Hl & Hc);
          [lia | rewrite length_app; cbn [length]; lia | exact Hnc | exact Hfull |].
        eexists. split; [reflexivity|]. split; [exact Hch|]. split; [exact Hl|].
        rewrite Hc. now rewrite <- !app_assoc.
    + rewrite (fast_stop d HA E). cbn [Z.gtb Z.compare].
      rewrite removelast_split_from_none by assumption. cbn [map].
      eexists. split; [reflexivity|]. apply Hstop; assumption.
Qed.

End FastLimit.

Lemma src_parse_first_rows (csvStr : jsstring) (schema : Src.Schema) (k : nat)
  (mc : option nat) (fuel : nat) :
  Src.s_quote schema = [] -> Src.rows_delim schema <> [] ->
  1 <= k <= CHUNK_SIZE -> length csvStr < fuel ->
  exists calls,
    Src.parse fuel csvStr schema (Some k) mc = Ok calls /\
    length calls <= 1 /\
    concat calls =
    firstn k (map (line_row (Src.cols_delim schema))
                  (lines csvStr (Src.rows_delim schema))).
Proof.
  intros Hq Hd Hk Hf. unfold Src.parse. rewrite Hq.
  destruct fuel as [|n]; [lia|].
  destruct (src_fast_first_rows csvStr (Src.rows_delim schema) (Src.cols_delim schema)
              Hd k (proj2 Hk) n csvStr 0%Z [] (At_start csvStr))
    as (calls & -> & Hl & Hc); [lia | cbn [length]; lia |].
  eexists. split; [reflexivity|]. split; [exact Hl|]. rewrite Hc.
  cbn [app length]. rewrite Nat.sub_0_r.
  unfold lines. rewrite split_nonempty_sep by assumption.
  now rewrite (@split_from_enough (Src.rows_delim schema) n (length csvStr) csvStr)
    by (assumption || lia).
Qed.

Lemma dist_parse_first_chunks (F : Type) (csvStr : jsstring) (schema : Dist.Schema F)
  (C k : nat) (mc : option nat) (fuel : nat) :
  Dist.s_quote schema = None -> Dist.rows_delim schema <> [] ->
  1 <= C -> 1 <= k -> length csvStr < fuel ->
  exists calls,
    Dist.parse fuel csvStr schema C (Some k) mc = Ok calls /\
    chunked C calls /\ length calls <= k /\
    rows_of calls =
    firstn (k * C) (map (line_row (Dist.cols_delim schema))
                        (lines csvStr (Dist.rows_delim schema))).
Proof.
  intros Hq Hd HC Hk Hf. unfold Dist.parse. rewrite Hq.
  destruct fuel as [|n]; [lia|].
  destruct (dist_fast_first_chunks csvStr (Dist.rows_delim schema)
              (Dist.cols_delim schema) Hd C k HC Hk n csvStr 0%Z [] 0 []
              (At_start csvStr))
    as (calls & -> & Hch & Hl & Hc);
    [lia | cbn [length]; lia | lia | apply full_calls_nil |].
  eexists. split; [reflexivity|]. split; [exact Hch|]. split; [exact Hl|].
  rewrite Hc. cbn [app]. unfold rows_of at 1. cbn [map concat app].
  unfold lines. rewrite split_nonempty_sep by assumption.
  now rewrite (@split_from_enough (Dist.rows_delim schema) n (length csvStr) csvStr)
    by (assumption || lia).
Qed.

(** On the quote-free path, for every text: under a row limit [k] from 1
    to the chunk size, [parse] of src emits the first [k] of the lines
    that end with the row delimiter (all of them when there are fewer),
    in one call at most; under a limit of [k] chunks, [k] at least 1,
    [parse] of dist emits the first [k * C] of them, in [k] calls at
    most. *)
Theorem fast_path_limit :
  (forall (csvStr : jsstring) (schema : Src.Schema) (k : nat) (mc : option nat)
          (fuel : nat),
     Src.s_quote schema = [] -> Src.rows_delim schema <> [] ->
     1 <= k <= CHUNK_SIZE -> length csvStr < fuel ->
     exists calls,
       Src.parse fuel csvStr schema (Some k) mc = Ok calls /\
       length calls <= 1 /\
       concat calls =
       firstn k (map (line_row (Src.cols_delim schema))
                     (lines csvStr (Src.rows_delim schema)))) /\
  (forall (F : Type) (csvStr : jsstring) (schema : Dist.Schema F) (C k : nat)
          (mc : option nat) (fuel : nat),
     Dist.s_quote schema = None -> Dist.rows_delim schema <> [] ->
     1 <= C -> 1 <= k -> length csvStr < fuel ->
     exists calls,
       Dist.parse fuel csvStr schema C (Some k) mc = Ok calls /\
       chunked C calls /\ length calls <= k /\
       rows_of calls =
       firstn (k * C) (map (line_row (Dist.cols_delim schema))
                           (lines csvStr (Dist.rows_delim schema)))).
Proof.
  split.
  - apply src_parse_first_rows.
  - apply dist_parse_first_chunks.
Qed.

(** One row asked of a text of two; one chunk of one row. *)
Lemma fast_path_limit_witness :
  (exists calls,
     Src.parse 20 Samples.two_rows_lf (Samples.src_plain 2) (Some 1) None = Ok calls /\
     concat calls = [Samples.row_of ["a"; "b"]%string]) /\
  (exists calls,
     Dist.parse 20 Samples.two_rows_lf (Samples.dist_plain 2) 1 (Some 1) None = Ok calls /\
     rows_of calls = [Samples.row_of ["a"; "b"]%string]).
Proof.
  split.
  - destruct (proj1 fast_path_limit Samples.two_rows_lf (Samples.src_plain 2) 1 None 20
                eq_refl ltac:(discriminate) ltac:(vm_compute; lia) ltac:(vm_compute; lia))
      as (calls & E & _ & Hc).
    exists calls. split; [exact E | exact Hc].
  - destruct (proj2 fast_path_limit unit Samples.two_rows_lf (Samples.dist_plain 2) 1 1
                None 20 eq_refl ltac:(discriminate) ltac:(lia) ltac:(lia)
                ltac:(vm_compute; lia))
      as (calls & E & _ & _ & Hc).
    exists calls. split; [exact E | exact Hc].
Defined.

End Limits.

(** ** The two files parse alike *)

Module Agreement.
Import JSFacts SplitFacts SrcFast DistFast Lines Chunks ChunkFacts Text.

(** Without limits, [parse] of dist, whatever its chunk size, and
    [parse] of src emit the same rows in the same order: with quoting
    off on every text, with quoting on on every well-formed text.  [s]
    and [d] are the same schema as each of the files writes it. *)
Theorem dist_rows_are_src_rows (F : Type) (s : Src.Schema) (d : Dist.Schema F)
  (C : nat) (mc : option nat) :
  Src.cols_delim s = Dist.cols_delim d ->
  Src.rows_delim s = Dist.rows_delim d ->
  length (Src.cols_names s) = length (Dist.cols_names d) ->
  (Src.s_quote s = [] <-> Dist.s_quote d = None) ->
  1 <= C ->
  (forall (csvStr : jsstring) (fuel : nat),
     Src.s_quote s = [] -> Src.rows_delim s <> [] -> length csvStr < fuel ->
     exists cs cd,
       Src.parse fuel csvStr s None mc = Ok cs /\
       Dist.parse fuel csvStr d C None mc = Ok cd /\
       rows_of cd = concat cs) /\
  (forall (cd rd : ascii) (rdt : jsstring) (rs : list (list Field)) (r : list Field)
          (fuel : nat),
     let numCols := Src.or_default mc (length (Src.cols_names s)) in
     let text := render cd (rd :: rdt) rs ++ raw_row cd r in
     delims_ok cd rd = true ->
     Src.s_quote s <> [] ->
     Src.cols_delim s = Some [cd] ->
     Src.rows_delim s = rd :: rdt ->
     forallb (row_ok cd rd numCols) rs = true ->
     last_row_ok cd rd numCols r = true ->
     length text < fuel ->
     exists cs cd',
       Src.parse fuel text s None mc = Ok cs /\
       Dist.parse fuel text d C None mc = Ok cd' /\
       rows_of cd' = concat cs).
Proof.
  intros Hcd Hrd Hn Hq HC. split.
  - intros csvStr fuel Hq0 Hd Hf.
    destruct (@parse_fast csvStr s mc fuel Hq0 Hd Hf) as (cs & Es & Hs).
    destruct (d_parse_fast F csvStr d C mc fuel (proj1 Hq Hq0)
                ltac:(rewrite <- Hrd; exact Hd) HC Hf) as (cd & Ed & Hd' & _).
    exists cs, cd. split; [exact Es|]. split; [exact Ed|].
    now rewrite Hd', Hs, Hcd, Hrd.
  - intros cd rd rdt rs r fuel numCols text Hok Hq0 Hcd0 Hrd0 Hrs Hr Hf.
    destruct (SrcQuoted.parse_text cd rd rdt s mc rs r fuel Hok Hq0 Hcd0 Hrd0 Hrs Hr Hf)
      as (cs & chunk & Es & Hs).
    assert (Hnum : Dist.or_default mc (length (Dist.cols_names d)) = numCols).
    { unfold numCols. rewrite Hn. reflexivity. }
    assert (Hq1 : Dist.s_quote d <> None) by (intros H; apply Hq in H; contradiction).
    assert (Hcd1 : Dist.cols_delim d = Some [cd]) by (now rewrite <- Hcd).
    assert (Hrd1 : Dist.rows_delim d = rd :: rdt) by (now rewrite <- Hrd).
    pose proof (DistQuoted.d_parse_text F cd rd rdt d C mc rs r fuel Hok Hq1 Hcd1 Hrd1)
      as Hdist.
    cbv zeta in Hdist. rewrite Hnum in Hdist.
    destruct (Hdist Hrs Hr Hf) as (cd' & chunk' & nc & Ed & Hd').
    eexists. eexists. split; [exact Es|]. split; [exact Ed|].
    fold numCols in Hs.
    unfold rows_of. rewrite map_app, !concat_app. cbn [map fst concat].
    rewrite !app_nil_r, !app_assoc.
    exact (f_equal (fun l => l ++ [values numCols r]) (eq_trans Hd' (eq_sym Hs))).
Qed.

Lemma dist_rows_are_src_rows_witness :
  (exists cs cd,
     Src.parse 20 Samples.two_rows_lf (Samples.src_plain 2) None None = Ok cs /\
     Dist.parse 20 Samples.two_rows_lf (Samples.dist_plain 2) 1 None None = Ok cd /\
     rows_of cd = concat cs) /\
  (exists cs cd,
     Src.parse 20 Samples.two_rows (Samples.src_quoted 2) None None = Ok cs /\
     Dist.parse 20 Samples.two_rows (Samples.dist_quoted 2) 1 None None = Ok cd /\
     rows_of cd = concat cs).
Proof.
  split.
  - apply (proj1 (dist_rows_are_src_rows unit (Samples.src_plain 2) (Samples.dist_plain 2)
                    1 None eq_refl eq_refl eq_refl
                    ltac:(split; reflexivity) ltac:(lia)));
      [reflexivity | discriminate | vm_compute; lia].
  - apply (proj2 (dist_rows_are_src_rows unit (Samples.src_quoted 2) (Samples.dist_quoted 2)
                    1 None eq_refl eq_refl eq_refl
                    ltac:(split; discriminate) ltac:(lia))
             ","%char lf [] [[Plain (str "a"); Plain (str "b")]]
             [Plain (str "c"); Plain (str "d")] 20);
      [reflexivity | discriminate | reflexivity | reflexivity | reflexivity
      | reflexivity | vm_compute; lia].
Defined.

End Agreement.

(** ** The rows of the quote-free path *)

Module FastShape.
Import JSFacts SplitFacts SrcFast Lines.

Lemma startsWith_firstn (d s : jsstring) (k : nat) :
  startsWith d (firstn k s) = true -> startsWith d s = true.
Proof.
  intros H. apply startsWith_spec in H as [t H]. apply startsWith_spec.
  exists (t ++ skipn k s). rewrite app_assoc, <- H. symmetry. apply firstn_skipn.
Qed.

(** Nothing before the first occurrence holds an occurrence. *)
Lemma find_firstn (d : jsstring) :
  d <> [] ->
  forall (s : jsstring) (k : nat), find d s = Some k -> find d (firstn k s) = None.
Proof.
  intros Hd. induction s as [|x s IH]; intros k; cbn [find].
  - destruct (startsWith d []); [|discriminate]. intros [= <-].
    destruct d; [congruence | reflexivity].
  - destruct (startsWith d (x :: s)) eqn:E.
    + intros [= <-]. destruct d; [congruence | reflexivity].
    + destruct (find d s) as [j|] eqn:Ej; [|discriminate]. intros [= <-].
      cbn [firstn find].
      destruct (startsWith d (x :: firstn j s)) eqn:E2.
      * apply (startsWith_firstn d (x :: s) (S j)) in E2. congruence.
      * now rewrite (IH j eq_refl).
Qed.

Lemma split_from_free (d : jsstring) (n : nat) :
  d <> [] ->
  forall s, Forall (fun piece => find d piece = None) (removelast (split_from n d s)) /\
            (length s <= n -> Forall (fun piece => find d piece = None) (split_from n d s)).
Proof.
  intros Hd. induction n as [|n IH]; intros s.
  - cbn [split_from removelast]. split; [constructor|].
    intros Hs. destruct s; [|cbn [length] in Hs; lia].
    constructor; [|constructor]. destruct d; [congruence | reflexivity].
  - destruct (find d s) as [k|] eqn:E.
    + rewrite (removelast_split_from n d s E). cbn [split_from]. rewrite E.
      destruct (IH (skipn (k + length d) s)) as [H1 H2].
      split.
      * constructor; [now apply find_firstn | exact H1].
      * intros Hs. constructor; [now apply find_firstn|]. apply H2.
        rewrite length_skipn.
        destruct (find_Some d s E) as (u & t & -> & <-).
        assert (length d <> 0) by (destruct d; cbn [length]; congruence).
        rewrite !length_app in *. lia.
    + rewrite removelast_split_from_none by exact E. cbn [split_from]. rewrite E.
      split; [constructor|]. intros _. constructor; [exact E | constructor].
Qed.

Lemma split_free (d s : jsstring) :
  d <> [] -> Forall (fun piece => find d piece = None) (split s (Some d)).
Proof.
  intros Hd. rewrite split_nonempty_sep by exact Hd.
  apply split_from_free; [exact Hd | lia].
Qed.

(** On the quote-free path, without a limit, every row that [parse]
    emits has at least one field and no hole, no field holds the column
    delimiter, and the fields joined with the column delimiter are a
    line without the row delimiter in it. *)
Theorem fast_rows_shape (csvStr : jsstring) (schema : Src.Schema) (d : jsstring)
  (mc : option nat) (fuel : nat) (calls : Src.Calls) :
  Src.s_quote schema = [] -> Src.rows_delim schema <> [] ->
  Src.cols_delim schema = Some d -> d <> [] -> length csvStr < fuel ->
  Src.parse fuel csvStr schema None mc = Ok calls ->
  Forall (fun row : Src.Row =>
    exists fields,
      row = map Some fields /\ fields <> [] /\
      Forall (fun f => find d f = None) fields /\
      find (Src.rows_delim schema) (join d fields) = None) (concat calls).
Proof.
  intros Hq Hrd Hcd Hd Hf E.
  destruct (@parse_fast csvStr schema mc fuel Hq Hrd Hf) as (calls' & E' & Hc).
  rewrite E in E'. injection E' as <-. rewrite Hc, Hcd.
  apply Forall_forall. intros row Hin. apply in_map_iff in Hin as (l & <- & Hl).
  exists (split l (Some d)). split; [reflexivity|]. split; [|split].
  - rewrite split_nonempty_sep by exact Hd. apply split_from_nonempty.
  - now apply split_free.
  - rewrite join_split.
    unfold lines in Hl. rewrite split_nonempty_sep in Hl by exact Hrd.
    pose proof (proj1 (split_from_free (Src.rows_delim schema) (length csvStr) Hrd csvStr))
      as Hall.
    rewrite Forall_forall in Hall. now apply Hall.
Qed.

Lemma fast_rows_shape_witness :
  Forall (fun row : Src.Row =>
    exists fields,
      row = map Some fields /\ fields <> [] /\
      Forall (fun f => find comma f = None) fields /\
      find [lf] (join comma fields) = None)
    [Samples.row_of ["a"; "b"]; Samples.row_of ["c"; "d"]]%string.
Proof.
  exact (fast_rows_shape Samples.two_rows_lf (Samples.src_plain 2) comma None 20
           _ eq_refl ltac:(discriminate) eq_refl ltac:(discriminate)
           ltac:(vm_compute; lia) ltac:(vm_compute; reflexivity)).
Defined.

End FastShape.

(** ** [schema] on a text without quote characters *)

Module SchemaPlain.
Import JSFacts SplitFacts SrcFast Lines Chunks SniffShape Limits.

Lemma span_stop (p : ascii -> bool) (h : jsstring) (c : ascii) (t : jsstring) :
  forallb p h = true -> p c = false -> Numeric.span p (h ++ c :: t) = (h, c :: t).
Proof.
  intros Hh Hc. induction h as [|x h IH]; cbn [app Numeric.span].
  - now rewrite Hc.
  - cbn [forallb] in Hh. apply andb_true_iff in Hh as [-> Hh]. now rewrite IH.
Qed.

Lemma span_none (p : ascii -> bool) (h : jsstring) :
  forallb p h = true -> Numeric.span p h = (h, []).
Proof.
  induction h as [|x h IH]; cbn [forallb Numeric.span]; [reflexivity|].
  intros H. apply andb_true_iff in H as [-> H]. now rewrite IH.
Qed.

Lemma header_free (header : jsstring) :
  forallb (fun c => negb (Ascii.eqb c lf) && negb (Ascii.eqb c cr)) header = true ->
  forallb (fun c => negb (Src.is_line_terminator c)) header = true /\
  Forall (fun c => c <> lf) header /\ Forall (fun c => c <> cr) header.
Proof.
  intros H. rewrite forallb_forall in H. repeat split.
  - apply forallb_forall. intros c Hc. specialize (H c Hc).
    unfold Src.is_line_terminator. now rewrite negb_orb.
  - apply Forall_forall. intros c Hc ->. specialize (H lf Hc). discriminate.
  - apply Forall_forall. intros c Hc ->. specialize (H cr Hc). discriminate.
Qed.

(** The first-row match of a text is its first line and the terminator
    behind it. *)
Lemma first_line_firstRowMatch (csvStr header rd rest : jsstring) :
  first_line csvStr header rd rest -> Src.firstRowMatch csvStr = (header, rd).
Proof.
  intros (-> & Hh & Hrd). destruct (header_free header Hh) as (Hp & _ & _).
  unfold Src.firstRowMatch.
  destruct Hrd as [[-> ->] | [-> | [-> | [-> Hrest]]]]; cbn [app].
  - rewrite app_nil_r, span_none by exact Hp. reflexivity.
  - rewrite span_stop by (exact Hp || reflexivity). reflexivity.
  - rewrite span_stop by (exact Hp || reflexivity). reflexivity.
  - rewrite span_stop by (exact Hp || reflexivity). rewrite Ascii.eqb_refl.
    destruct rest as [|c t]; [reflexivity|].
    destruct (Ascii.eqb c lf) eqn:E; [|reflexivity].
    apply Ascii.eqb_eq in E. subst c. now destruct (Hrest t).
Qed.

(** The first of the lines of a text is its first line. *)
Lemma lines_first_line (csvStr header rd rest : jsstring) :
  first_line csvStr header rd rest -> rd <> [] ->
  lines csvStr rd = header :: lines rest rd.
Proof.
  intros (-> & Hh & Hrd) Hne. destruct (header_free header Hh) as (_ & Hlf & Hcr).
  assert (E : find rd (header ++ rd ++ rest) = Some (length header)).
  { destruct Hrd as [[-> ->] | [-> | [-> | [-> _]]]]; [congruence| | |].
    - rewrite (find_skip [] (rd ++ rest) Hlf) || rewrite (find_skip [] _ Hlf).
      change (lf :: rest) with ([lf] ++ rest). rewrite find_here. cbn. now rewrite Nat.add_0_r.
    - rewrite (find_skip [lf] _ Hcr).
      change ([cr; lf] ++ rest) with ([cr; lf] ++ rest). rewrite find_here. cbn.
      now rewrite Nat.add_0_r.
    - rewrite (find_skip [] _ Hcr).
      change ([cr] ++ rest) with ([cr] ++ rest). rewrite find_here. cbn.
      now rewrite Nat.add_0_r. }
  unfold lines. rewrite !split_nonempty_sep by exact Hne.
  assert (Hlen : length (header ++ rd ++ rest) = S (length header + length rd + length rest - 1)).
  { rewrite !length_app. destruct rd; [congruence | cbn [length]; lia]. }
  rewrite Hlen, (removelast_split_from _ rd _ E).
  rewrite firstn_app, Nat.sub_diag, firstn_all, firstn_O, app_nil_r.
  rewrite skipn_app, skipn_all2 by lia.
  replace (length header + length rd - length header) with (length rd) by lia.
  rewrite skipn_app, skipn_all, Nat.sub_diag. cbn [skipn app].
  f_equal. f_equal. apply split_from_enough; [exact Hne | | lia].
  destruct rd; [congruence | cbn [length]; lia].
Qed.

Lemma keys_from_Some (l : list jsstring) (i : nat) :
  Src.keys_from i (map Some l) = map Src.index_string (seq i (length l)).
Proof.
  revert i. induction l as [|x l IH]; intros i; cbn [map Src.keys_from length seq];
    [reflexivity|]. now rewrite IH.
Qed.

Lemma Object_values_Some (l : list jsstring) : Dist.Object_values (map Some l) = l.
Proof. induction l as [|x l IH]; cbn; [reflexivity | now rewrite IH]. Qed.

(** A text without quote character whose first line ends with a line
    terminator.  [schema] samples the first [k] lines: the first one
    gives the column names, the others the types.  [schema] of src names
    the columns by their indices, [schema] of dist by the fields of the
    first line.  [schema] of dist is taken in array mode ([typedObjs]
    false), where the compiled conversion holds the indices of the
    columns and not their names. *)
Theorem schema_quote_free (csvStr header rd rest : jsstring) (k fuel : nat) :
  first_line csvStr header rd rest -> rd <> [] -> holds dq csvStr = false ->
  length csvStr < fuel ->
  let delim := first_delim header in
  let names := split header delim in
  let sampled := firstn (k - 1) (map (line_row delim) (lines rest rd)) in
  (1 <= k <= CHUNK_SIZE ->
   Src.schema fuel csvStr (Some k) =
   Ok (Src.mkSchema [] delim (map Src.index_string (seq 0 (length names)))
         (Src.probe_types (length names) sampled) rd)) /\
  (1 <= k ->
   forall (J : Type) (JSON_parse : jsstring -> option J),
   Dist.schema JSON_parse fuel csvStr k false =
   Ok (Dist.mkSchema None delim names (Dist.probe_types (length names) sampled) rd
         (Some (Dist.genToTypedFn JSON_parse names sampled false)))).
Proof.
  intros Hfl Hrd Hq Hf delim names sampled.
  pose proof (first_line_firstRowMatch _ _ _ _ Hfl) as Efm.
  pose proof (lines_first_line _ _ _ _ Hfl Hrd) as El.
  split.
  - intros Hk. unfold Src.schema, Src.sniff. rewrite Efm, has_quotes, Hq, find_COL_DELIMS.
    fold delim.
    destruct (src_parse_first_rows csvStr (Src.mkSchema [] delim [] [] rd) k
                (Some (length (split header delim) + 1)) fuel eq_refl Hrd Hk Hf)
      as (calls & -> & _ & Hc).
    cbn [Src.cols_delim Src.rows_delim Src.s_quote] in *. rewrite Hc, El.
    destruct k as [|k]; [lia|]. cbn [map firstn]. subst sampled.
    replace (S k - 1) with k by lia.
    change (line_row delim header) with (map Some (split header delim)).
    unfold Src.Object_keys.
    rewrite keys_from_Some, length_map, length_seq. reflexivity.
  - intros Hk J JSON_parse. unfold Dist.schema, Dist.sniff.
    rewrite Dist_firstRowMatch, Efm, has_quotes, Hq, find_COL_DELIMS. fold delim.
    destruct (dist_parse_first_chunks _ csvStr
                (Dist.mkSchema None delim [] [] rd (@None (Dist.TypedFn J))) k 1
                (Some (length (split header delim))) fuel eq_refl Hrd Hk (le_n 1) Hf)
      as (calls & -> & _ & _ & Hc).
    cbn [Dist.cols_delim Dist.rows_delim Dist.s_quote] in *.
    unfold rows_of in Hc. rewrite Hc, El, Nat.mul_1_l.
    destruct k as [|k]; [lia|]. cbn [map firstn]. subst sampled.
    replace (S k - 1) with k by lia.
    change (line_row delim header) with (map Some (split header delim)).
    rewrite !Object_values_Some. reflexivity.
Qed.

(** The text [mixed]: the header [a,b] and two lines. *)
Lemma schema_quote_free_witness :
  Src.schema 20 Samples.mixed (Some 10) =
  Ok (Src.mkSchema [] (Some comma) [str "0"; str "1"]
        [Some Src.n_type; Some Src.n_type] [lf]).
Proof.
  refine (proj1 (schema_quote_free Samples.mixed (str "a,b") [lf]
                   (str "1,x" ++ [lf] ++ str "y,2" ++ [lf]) 10 20 _ _ eq_refl _) _).
  - split; [reflexivity|]. split; [reflexivity|]. right. left. reflexivity.
  - discriminate.
  - vm_compute. lia.
  - vm_compute. lia.
Defined.

End SchemaPlain.

(** ** The chunk limit of [parse] (dist), for every input *)

Module ChunkLimit.
Import JSFacts Lines Chunks ChunkFacts DistFast DistChunks.
Import Dist.

Section Limit.

Variables (C k : nat).
Hypothesis C_pos : 1 <= C.

(** The calls made so far are full chunks, fewer than the limit, and the
    open chunk is not full. *)
Definition inv_k (st : State) : Prop :=
  full_calls C (numChunks st) (out st) /\ length (rows st) < C /\ numChunks st < k.

(** What a parse under the limit may return. *)
Definition within (calls : Calls) : Prop :=
  chunked C calls /\ length calls <= k.

Definition step_ok (s : Step) : Prop :=
  match s with
  | Continue a' => inv_k a'
  | Return o => within o
  | _ => True
  end.

Lemma within_full (nc : nat) (o : Calls) :
  full_calls C nc o -> nc <= k -> within o.
Proof.
  intros Hf Hk. split; [exact (chunked_full C nc o C_pos Hf)|].
  destruct Hf as (-> & _). exact Hk.
Qed.

Lemma within_snoc (nc : nat) (o : Calls) (ch : list Row) :
  full_calls C nc o -> nc < k -> 1 <= length ch <= C -> within (o ++ [(ch, nc)]).
Proof.
  intros Hf Hk Hch. split; [now apply chunked_snoc|].
  destruct Hf as (-> & _). rewrite length_app. cbn [length]. lia.
Qed.

Lemma PUSH_k (rowDelim : jsstring) (numCols : nat) (c : option ascii) (a : State) :
  inv_k a ->
  step_ok (PUSH rowDelim numCols C (Some k) c a) /\
  match PUSH rowDelim numCols C (Some k) c a with
  | Continue a' => inCol a' = inCol a
  | Return _ => True
  | _ => False
  end.
Proof.
  intros (Hf & Hr & Hk). unfold PUSH. cbv zeta.
  destruct (code_eq c (rowDelimChar rowDelim)).
  - destruct (Nat.eqb_spec (length (rows a ++ [array_set (row a) (colIdx a) (v a)])) C)
      as [E | E].
    + pose proof (full_calls_snoc C (numChunks a) (out a) _ Hf E) as Hf'.
      cbn [limit_hit]. destruct (Nat.eqb_spec (S (numChunks a)) k) as [Ek | Ek].
      * split; [|exact I]. cbn [step_ok]. apply (within_full (S (numChunks a))); [exact Hf' | lia].
      * split; [|reflexivity]. cbn [step_ok]. unfold inv_k. cbn [out rows numChunks length].
        repeat split; [apply Hf' | apply Hf' | apply Hf' | lia | lia].
    + split; [|reflexivity]. cbn [step_ok]. unfold inv_k. cbn [out rows numChunks].
      rewrite length_app in *. cbn [length] in *. repeat split; [apply Hf.. | lia | lia].
  - split; [|reflexivity]. cbn [step_ok]. unfold inv_k. cbn [out rows numChunks].
    repeat split; [apply Hf.. | lia | lia].
Qed.

Lemma inv_k_same (a b : State) :
  rows b = rows a -> out b = out a -> numChunks b = numChunks a ->
  inv_k a -> inv_k b.
Proof. unfold inv_k. now intros -> -> ->. Qed.

Section Turn.

Variables (text colDelim rowDelim : jsstring) (numCols : nat) (_probe : bool).

Lemma in_column_k (f : nat) (a : State) (c : option ascii) :
  inv_k a ->
  step_ok (in_column text colDelim rowDelim numCols C (Some k) _probe f a c).
Proof.
  intros Hinv. unfold in_column. destruct (inCol a).
  - exact Hinv.
  - destruct (_ || _).
    + destruct (PUSH_k rowDelim numCols c a Hinv) as [H1 H2].
      destruct (PUSH rowDelim numCols C (Some k) c a) as [a1| | |];
        cbn [step_ok] in *; try exact I; exact H1.
    + destruct _probe.
      * destruct (takeToCommaOrEOL _ _ _ _); [|exact I].
        cbn [step_ok]. now apply (inv_k_same a).
      * cbn [step_ok]. now apply (inv_k_same a).
  - destruct (quoted_loop text f a c) as [a1|] eqn:E; [|exact I].
    destruct (quoted_loop_same text f a a1 c E) as (R1 & O1 & N1 & _).
    cbn [step_ok]. now apply (inv_k_same a).
Qed.

Lemma turn_k (f : nat) (a : State) :
  inv_k a ->
  step_ok (turn text colDelim rowDelim numCols C (Some k) _probe f a).
Proof.
  intros Hinv. unfold turn, unstarted. destruct (inCol a).
  - destruct (code_eq _ quoteChar).
    + apply in_column_k. now apply (inv_k_same a).
    + destruct (_ || _).
      * destruct (PUSH_k rowDelim numCols (charCodeAt text (pos a)) a Hinv) as [H1 H2].
        destruct (PUSH rowDelim numCols C (Some k) _ a) as [a1| | |];
          cbn [step_ok] in *; try exact I; try exact H1.
        now apply in_column_k.
      * apply in_column_k. now apply (inv_k_same a).
  - now apply in_column_k.
  - now apply in_column_k.
Qed.

Lemma loop_k (fuel : nat) :
  forall (st : State) (calls : Calls),
  inv_k st ->
  loop text colDelim rowDelim numCols C (Some k) _probe fuel st = Ok calls ->
  within calls.
Proof.
  induction fuel as [|fuel IH]; intros st calls Hinv; cbn [loop]; [discriminate|].
  destruct (pos st <=? endPos text)%Z.
  - pose proof (turn_k fuel st Hinv) as Hs.
    destruct (turn text colDelim rowDelim numCols C (Some k) _probe fuel st)
      as [st1|o| |]; try discriminate; cbn [step_ok] in Hs.
    + now apply IH.
    + now intros [= <-].
  - intros [= <-]. destruct Hinv as (Hf & Hr & Hk). unfold flush.
    apply within_snoc; [exact Hf | exact Hk |]. rewrite length_app. cbn [length]. lia.
Qed.

End Turn.

Lemma fast_loop_k (text d : jsstring) (cd : option jsstring) (fuel : nat) :
  forall (p : Z) (rws : list Row) (nc : nat) (o calls : Calls),
  length rws < C -> nc < k -> full_calls C nc o ->
  fast_loop fuel text d cd C (Some k) p rws nc o = Ok calls ->
  within calls.
Proof.
  induction fuel as [|fuel IH]; intros p rws nc o calls Hr Hk Hf; [discriminate|].
  rewrite d_fast_loop_S. cbv zeta.
  destruct (_ >? _)%Z.
  - set (rw := map Some _).
    destruct (Nat.eqb_spec (length (rws ++ [rw])) C) as [E | E].
    + pose proof (full_calls_snoc C nc o _ Hf E) as Hf'.
      cbn [limit_hit]. destruct (Nat.eqb_spec (S nc) k) as [Ek | Ek].
      * intros [= <-]. apply (within_full (S nc)); [exact Hf' | lia].
      * apply IH; [cbn [length]; lia | lia | exact Hf'].
    + apply IH; [|exact Hk | exact Hf].
      rewrite length_app in *. cbn [length] in *. lia.
  - intros [= <-]. destruct rws; cbn [length Nat.ltb Nat.leb].
    + apply (within_full nc); [exact Hf | lia].
    + apply within_snoc; [exact Hf | exact Hk | cbn [length] in *; lia].
Qed.

End Limit.

Lemma within_rows (C k : nat) (calls : Calls) :
  within C k calls -> length (rows_of calls) <= k * C.
Proof.
  intros [(_ & _ & Hall) Hlen].
  assert (H : length (rows_of calls) <= length calls * C).
  { clear Hlen. induction Hall as [|ch calls Hch _ IH]; [cbn; lia|].
    unfold rows_of in *. cbn [map concat length]. rewrite length_app. cbn [length]. lia. }
  nia.
Qed.

(** Under a limit of [k] chunks, [k] at least 1, with a chunk size of at
    least 1, a parse that returns has called the callback [k] times at
    most, with the indices 0, 1, 2, ... and full chunks, the last one
    apart, and has emitted [k * C] rows at most: on every input, on both
    paths, in the probing mode or not. *)
Theorem chunk_limit_bound (F : Type) (fuel : nat) (csvStr : jsstring)
  (schema : Schema F) (C k : nat) (mc : option nat) (calls : Calls) :
  1 <= C -> 1 <= k ->
  parse fuel csvStr schema C (Some k) mc = Ok calls ->
  chunked C calls /\ length calls <= k /\ length (rows_of calls) <= k * C.
Proof.
  intros HC Hk E.
  assert (H : within C k calls).
  { revert E. unfold parse. destruct (s_quote schema).
    - destruct (cols_delim schema); [|discriminate].
      apply loop_k; [exact HC|]. unfold inv_k, init. cbn [out rows numChunks length].
      split; [apply full_calls_nil | lia].
    - apply fast_loop_k; [exact HC | cbn [length]; lia | lia | apply full_calls_nil]. }
  split; [apply H|]. split; [apply H|]. now apply within_rows.
Qed.

(** One chunk of one row is asked of a text of two rows. *)
Lemma chunk_limit_bound_witness :
  chunked 1 [([Samples.row_of ["a"; "b"]%string], 0)] /\
  length [([Samples.row_of ["a"; "b"]%string], 0)] <= 1 /\
  length (rows_of [([Samples.row_of ["a"; "b"]%string], 0)]) <= 1 * 1.
Proof.
  exact (chunk_limit_bound unit 20 Samples.two_rows_lf (Samples.dist_quoted 2) 1 1 None
           _ (le_n 1) (le_n 1) ltac:(vm_compute; reflexivity)).
Defined.

End ChunkLimit.

(** ** The state machine of [parse] (src) in the probing mode

    [schema] calls [parse] with a row limit and [_maxCols]: plain fields
    are then taken by the pattern [takeToCommaOrEOL], whatever the
    column they stand in. *)

Module SrcProbe.
Import JSFacts SplitFacts ArrayFacts TextFacts.
Import Src Text.
Import SrcQuoted.

(** A plain field as the probing mode takes it: it does not start with
    a quote and holds none of the characters of the two delimiters. *)
Definition excluded (cd : ascii) (rowDelim : jsstring) (x : ascii) : bool :=
  existsb (Ascii.eqb x) (cd :: rowDelim).

Definition probe_plain_ok (cd : ascii) (rowDelim u : jsstring) : bool :=
  match u with
  | c :: _ => negb (Ascii.eqb c dq)
  | [] => true
  end
  && forallb (fun x => negb (excluded cd rowDelim x)) u.

Definition probe_field_ok (cd : ascii) (rowDelim : jsstring) (f : Field) : bool :=
  match f with
  | Plain u => probe_plain_ok cd rowDelim u
  | InQuotes _ => true
  end.

(** A row of any number of fields, one at least. *)
Definition probe_row_ok (cd : ascii) (rowDelim : jsstring) (r : list Field) : bool :=
  (1 <=? length r) && forallb (probe_field_ok cd rowDelim) r.

(** Fields that are each followed by the column delimiter. *)
Definition cells (cd : ascii) (fs : list Field) : jsstring :=
  flat_map (fun f => raw f ++ [cd]) fs.

Lemma skipn_At (text : jsstring) (p : Z) (rest : jsstring) :
  At text p rest -> skipn (Z.to_nat (Z.max p 0)) text = rest.
Proof.
  intros (pre & -> & ->). replace (Z.to_nat _) with (length pre) by lia.
  rewrite skipn_app, skipn_all, Nat.sub_diag. reflexivity.
Qed.

Lemma array_set_next (A : Type) (xs : list A) (k : nat) (x : A) :
  array_set (map Some xs ++ repeat None k) (length xs) x =
  map Some (xs ++ [x]) ++ repeat None (k - 1).
Proof.
  destruct k as [|k].
  - cbn [repeat]. rewrite !app_nil_r. apply array_set_end.
  - replace (S k - 1) with k by lia. apply array_set_fill.
Qed.

Section Machine.

Variables (text : jsstring) (cd rd : ascii) (rdt : jsstring).
Variables (numCols : nat) (limit : option nat) (L : Z).
Hypothesis cd_dq : cd <> dq.
Hypothesis rd_dq : rd <> dq.
Hypothesis cd_rd : cd <> rd.

Local Abbreviation rowDelim := (rd :: rdt).
Local Abbreviation Run := (loop text [cd] rowDelim numCols limit true).
Local Abbreviation Turn := (turn text [cd] rowDelim numCols limit true).

(** The field is committed with the delimiter [c] under [pos]. *)
Definition p_commit (c : ascii) (p : Z) (rws : list Row) (v0 : jsstring)
  (rw : Row) (i : nat) (o0 : Calls) : Step :=
  PUSH rowDelim numCols limit (Some c) (mkState NoCol p rws v0 rw i o0).

(** From [st] on, the parse ends with [o], on any fuel that covers the
    distance to [L]. *)
Definition p_finish (st : State) (o : result Calls) : Prop :=
  forall fuel, (Z.of_nat fuel > L - pos st)%Z -> Run fuel st = o.

Definition p_finish_step (s : Step) (o : result Calls) : Prop :=
  match s with
  | Continue st1 => p_finish st1 o
  | Return o1 => Ok o1 = o
  | Throw => TypeError = o
  end.

Lemma p_At_endPos (p : Z) (c : ascii) (rest : jsstring) :
  At text p (c :: rest) -> (p <=? endPos text)%Z = true.
Proof.
  intros H. apply At_length in H. unfold endPos. cbn [length] in H.
  apply Z.leb_le. lia.
Qed.

Lemma p_finish_exit (st : State) :
  At text (pos st) [] -> (pos st <= L)%Z -> p_finish st (Ok (flush st)).
Proof.
  intros HA HL fuel Hf. destruct fuel as [|fuel]; [lia|].
  rewrite loop_S. apply At_length in HA. unfold endPos. cbn [length] in HA.
  destruct (Z.leb_spec (pos st) (Z.of_nat (length text) - 1)); [lia | reflexivity].
Qed.

Lemma p_finish_turn (st : State) (s : Step) (o : result Calls) (c : ascii) (rest : jsstring) :
  At text (pos st) (c :: rest) -> (pos st <= L)%Z ->
  Turn st = s ->
  match s with Continue st1 => (pos st < pos st1)%Z | _ => True end ->
  p_finish_step s o -> p_finish st o.
Proof.
  intros HA HL HT Hp Hs fuel Hf. destruct fuel as [|fuel]; [lia|].
  rewrite loop_S, (p_At_endPos _ _ _ HA), HT.
  destruct s as [st1|o1|]; cbn [p_finish_step] in Hs.
  - apply Hs. lia.
  - now subst.
  - now subst.
Qed.

Lemma p_commit_cd (p : Z) (rws : list Row) (v0 : jsstring) (rw : Row) (i : nat)
  (o0 : Calls) :
  p_commit cd p rws v0 rw i o0 =
  Continue (mkState NoCol (p + 1) rws [] (array_set rw i v0) (S i) o0).
Proof.
  unfold p_commit, PUSH. rewrite ceq_rd, (eqb_neq_false cd_rd). reflexivity.
Qed.

(** The end of a row: the limit is tested first, then the chunk size. *)
Definition p_push_row (p : Z) (rws : list Row) (full : Row) (o0 : Calls) : Step :=
  let rows1 := rws ++ [full] in
  if limit_hit limit rows1 then Return (o0 ++ [rows1])
  else if length rows1 =? CHUNK_SIZE then
    Continue (mkState NoCol (p + Z.of_nat (length rowDelim)) [] []
                      (Array numCols) 0 (o0 ++ [rows1]))
  else
    Continue (mkState NoCol (p + Z.of_nat (length rowDelim)) rows1 []
                      (Array numCols) 0 o0).

Lemma p_commit_rd (p : Z) (rws : list Row) (v0 : jsstring) (rw : Row) (i : nat)
  (o0 : Calls) :
  p_commit rd p rws v0 rw i o0 = p_push_row p rws (array_set rw i v0) o0.
Proof.
  unfold p_commit, PUSH, p_push_row. rewrite ceq_rd, Ascii.eqb_refl.
  cbn [pos rows row colIdx v out inCol]. unfold rowDelimLen.
  replace (p + 1 + (Z.of_nat (length rowDelim) - 1))%Z
    with (p + Z.of_nat (length rowDelim))%Z by lia.
  reflexivity.
Qed.

Lemma p_commit_pos (c : ascii) (p : Z) (rws : list Row) (v0 : jsstring)
  (rw : Row) (i : nat) (o0 : Calls) :
  c = cd \/ c = rd ->
  match p_commit c p rws v0 rw i o0 with
  | Continue st1 => (p < pos st1)%Z /\ inCol st1 = NoCol
  | _ => True
  end.
Proof.
  intros [-> | ->].
  - rewrite p_commit_cd. cbn. split; [lia | reflexivity].
  - rewrite p_commit_rd. unfold p_push_row. cbv zeta.
    destruct (limit_hit _ _); [exact I|].
    destruct (_ =? _); cbn [pos inCol length]; split; (lia || reflexivity).
Qed.

(** A delimiter met while no field is open: the field is committed. *)
Lemma p_turn_NoCol_delim (c : ascii) (rest : jsstring) (p : Z) (rws : list Row)
  (v0 : jsstring) (rw : Row) (i : nat) (o0 : Calls) :
  At text p (c :: rest) -> c = cd \/ c = rd ->
  Turn (mkState NoCol p rws v0 rw i o0) = p_commit c p rws v0 rw i o0.
Proof.
  intros HA Hc. pose proof (p_commit_pos c p rws v0 rw i o0 Hc) as HP.
  unfold turn, unstarted. cbn [inCol pos]. rewrite (charCodeAt_At HA).
  rewrite ceq_quote, ceq_cd, ceq_rd.
  replace (Ascii.eqb c dq) with false
    by (symmetry; apply eqb_neq_false; destruct Hc; congruence).
  replace (Ascii.eqb c cd || Ascii.eqb c rd) with true
    by (destruct Hc as [-> | ->]; rewrite Ascii.eqb_refl; now rewrite ?orb_true_r).
  fold (p_commit c p rws v0 rw i o0).
  destruct (p_commit c p rws v0 rw i o0) as [st1| |]; try reflexivity.
  unfold in_column. now rewrite (proj2 HP).
Qed.

(** A delimiter met at the end of a plain field. *)
Lemma p_turn_Unquoted_delim (c : ascii) (rest : jsstring) (p : Z) (rws : list Row)
  (v0 : jsstring) (rw : Row) (i : nat) (o0 : Calls) :
  At text p (c :: rest) -> c = cd \/ c = rd ->
  Turn (mkState Unquoted p rws v0 rw i o0) = p_commit c p rws v0 rw i o0.
Proof.
  intros HA Hc.
  unfold turn, unstarted, in_column. cbn [inCol pos]. rewrite (charCodeAt_At HA).
  rewrite ceq_cd, ceq_rd.
  replace (Ascii.eqb c cd || Ascii.eqb c rd) with true
    by (destruct Hc as [-> | ->]; rewrite Ascii.eqb_refl; now rewrite ?orb_true_r).
  unfold p_commit, PUSH. cbn [inCol pos rows v row colIdx out].
  destruct (code_eq (Some c) (rowDelimChar rowDelim)); [|reflexivity].
  destruct (limit_hit _ _); [reflexivity|].
  destruct (_ =? _); reflexivity.
Qed.

(** The first turn on a plain field with text in it: the pattern takes
    the whole field. *)
Lemma p_turn_plain (c : ascii) (u after : jsstring) (p : Z) (rws : list Row)
  (rw : Row) (i : nat) (o0 : Calls) :
  At text p ((c :: u) ++ after) ->
  c <> dq ->
  forallb (fun x => negb (excluded cd rowDelim x)) (c :: u) = true ->
  after = [] \/ (exists x r, after = x :: r /\ excluded cd rowDelim x = true) ->
  Turn (mkState NoCol p rws [] rw i o0) =
  Continue (mkState Unquoted (p + Z.of_nat (length (c :: u))) rws (c :: u) rw i o0).
Proof.
  intros HA Hq Hu Hafter.
  assert (Hc : Ascii.eqb c cd = false /\ Ascii.eqb c rd = false).
  { cbn [forallb] in Hu. apply andb_true_iff in Hu as [Hc _].
    unfold excluded in Hc. cbn [existsb] in Hc.
    apply negb_true_iff in Hc. apply orb_false_iff in Hc as [H1 Hc].
    apply orb_false_iff in Hc as [H2 _]. auto. }
  destruct Hc as [Hcd Hrd].
  unfold turn, unstarted, in_column. cbn [inCol pos set_inCol].
  rewrite (charCodeAt_At (c := c) (rest := u ++ after) HA).
  rewrite ceq_quote, ceq_cd, ceq_rd, (eqb_neq_false Hq), Hcd, Hrd.
  cbn [orb inCol colIdx pos v set_pos set_v set_inCol rows row out app].
  rewrite ceq_cd, ceq_rd, Hcd, Hrd.
  cbn [orb inCol colIdx pos v set_pos set_v set_inCol rows row out app].
  unfold takeToCommaOrEOL. rewrite (skipn_At _ _ _ HA).
  assert (Hspan : Numeric.span
                    (fun c0 => negb (existsb (Ascii.eqb c0) ([cd] ++ rowDelim)))
                    ((c :: u) ++ after) = (c :: u, after)).
  { destruct Hafter as [-> | (x & r & -> & Hx)].
    - rewrite app_nil_r. now apply SingleLine.span_all.
    - apply SchemaPlain.span_stop; [exact Hu|]. unfold excluded in Hx.
      cbn [app]. now rewrite Hx. }
  cbn [app] in Hspan |- *. rewrite Hspan. cbn [fst]. reflexivity.
Qed.

(** An opening quote and the first quoted turn are one turn. *)
Lemma p_turn_open (rest : jsstring) (p : Z) (rws : list Row)
  (v0 : jsstring) (rw : Row) (i : nat) (o0 : Calls) :
  At text p (dq :: rest) ->
  Turn (mkState NoCol p rws v0 rw i o0) = Turn (mkState Quoted (p + 1) rws v0 rw i o0).
Proof.
  intros HA. unfold turn, unstarted. cbn [inCol pos set_inCol set_pos].
  rewrite (charCodeAt_At HA), ceq_quote, Ascii.eqb_refl. reflexivity.
Qed.

Lemma p_turn_escaped (rest : jsstring) (p : Z) (rws : list Row)
  (v0 : jsstring) (rw : Row) (i : nat) (o0 : Calls) :
  At text p (dq :: dq :: rest) ->
  Turn (mkState Quoted p rws v0 rw i o0) =
  Continue (mkState Quoted (p + 2) rws (v0 ++ quote) rw i o0).
Proof.
  intros HA. unfold turn, unstarted, in_column. cbn [inCol pos].
  rewrite (charCodeAt_At HA), (charCodeAt_At (At_cons HA)).
  rewrite ceq_quote, Ascii.eqb_refl. reflexivity.
Qed.

(** No quote follows: [rest] is empty or starts with another character. *)
Definition p_no_quote_ahead (rest : jsstring) : Prop :=
  match rest with
  | c :: _ => c <> dq
  | [] => True
  end.

Lemma p_turn_close (rest : jsstring) (p : Z) (rws : list Row)
  (v0 : jsstring) (rw : Row) (i : nat) (o0 : Calls) :
  At text p (dq :: rest) -> p_no_quote_ahead rest ->
  Turn (mkState Quoted p rws v0 rw i o0) =
  Continue (mkState NoCol (p + 1) rws v0 rw i o0).
Proof.
  intros HA Hn. unfold turn, unstarted, in_column. cbn [inCol pos].
  rewrite (charCodeAt_At HA), ceq_quote, Ascii.eqb_refl.
  destruct rest as [|c rest].
  - rewrite (charCodeAt_end (At_cons HA)). reflexivity.
  - rewrite (charCodeAt_At (At_cons HA)), ceq_quote, (eqb_neq_false Hn). reflexivity.
Qed.

Lemma p_turn_segment (c : ascii) (seg rest : jsstring) (p : Z) (rws : list Row)
  (v0 : jsstring) (rw : Row) (i : nat) (o0 : Calls) :
  At text p ((c :: seg) ++ dq :: rest) -> Forall (fun x => x <> dq) (c :: seg) ->
  Turn (mkState Quoted p rws v0 rw i o0) =
  Continue (mkState Quoted (p + Z.of_nat (length (c :: seg))) rws
                    (v0 ++ c :: seg) rw i o0).
Proof.
  intros HA Hs. unfold turn, unstarted, in_column. cbn [inCol pos].
  rewrite (charCodeAt_At (c := c) (rest := seg ++ dq :: rest) HA).
  rewrite ceq_quote, (eqb_neq_false (Forall_inv Hs)).
  unfold quote. rewrite (indexOf_At [dq] HA), (find_skip [] (dq :: rest) Hs).
  pose proof (find_here [dq] rest) as E. cbn [app] in E. rewrite E.
  cbn [option_map].
  replace (p + Z.of_nat (length (c :: seg) + 0))%Z
    with (p + Z.of_nat (length (c :: seg)))%Z by lia.
  rewrite (slice_At (c :: seg) (dq :: rest) HA). reflexivity.
Qed.

(** A quoted field, from behind its opening quote to behind its closing
    quote: every doubled quote has become one quote. *)
Lemma p_quoted_finish (n : nat) :
  forall (q : jsstring) (p : Z) (v0 rest : jsstring) (rws : list Row) (rw : Row)
         (i : nat) (o0 : Calls) (o : result Calls),
  length q <= n ->
  At text p (escape q ++ dq :: rest) -> p_no_quote_ahead rest ->
  (p + Z.of_nat (length (escape q)) <= L)%Z ->
  p_finish (mkState NoCol (p + Z.of_nat (length (escape q)) + 1) rws (v0 ++ q) rw i o0) o ->
  p_finish (mkState Quoted p rws v0 rw i o0) o.
Proof.
  induction n as [|n IH]; intros q p v0 rest rws rw i o0 o Hn HA Hq HL Hf.
  - destruct q; [|simpl in Hn; lia]. cbn [escape flat_map app length] in *.
    rewrite app_nil_r, Z.add_0_r in Hf.
    eapply p_finish_turn;
      [exact HA | cbn [pos]; lia | eapply p_turn_close; eassumption
      | cbn [pos]; lia | exact Hf].
  - destruct (quote_free_prefix q) as (seg & q2 & -> & Hs & Hq2).
    destruct seg as [|c seg].
    + destruct Hq2 as [-> | [q3 ->]].
      * cbn [escape flat_map app length] in *.
        rewrite app_nil_r, Z.add_0_r in Hf.
        eapply p_finish_turn;
          [exact HA | cbn [pos]; lia | eapply p_turn_close; eassumption
          | cbn [pos]; lia | exact Hf].
      * cbn [app] in *. rewrite escape_quote in *. cbn [app length] in *.
        eapply p_finish_turn;
          [exact HA | cbn [pos]; lia | eapply p_turn_escaped; eassumption
          | cbn [pos]; lia | cbn [p_finish_step] ].
        apply (IH q3 (p + 2)%Z (v0 ++ quote) rest); try assumption; try lia.
        -- exact (At_app [dq; dq] _ HA).
        -- unfold quote. rewrite <- app_assoc. cbn [app].
           replace (p + 2 + Z.of_nat (length (escape q3)) + 1)%Z
             with (p + Z.of_nat (S (S (length (escape q3)))) + 1)%Z by lia.
           exact Hf.
    + rewrite escape_app, (escape_quote_free Hs), <- app_assoc in HA.
      rewrite escape_app, (escape_quote_free Hs), length_app in HL, Hf.
      rewrite length_app in Hn.
      assert (exists r, escape q2 ++ dq :: rest = dq :: r) as [r Er]
        by (destruct Hq2 as [-> | [q3 ->]];
            [now exists rest | rewrite escape_quote; eexists; reflexivity]).
      eapply p_finish_turn;
        [exact HA | cbn [pos]; lia
        | rewrite Er in HA; eapply p_turn_segment; eassumption
        | cbn [pos length]; lia | cbn [p_finish_step] ].
      apply (IH q2 _ (v0 ++ c :: seg) rest); try assumption.
      * cbn [length] in Hn. lia.
      * apply (At_app (c :: seg) _ HA).
      * lia.
      * rewrite <- app_assoc.
        replace (p + Z.of_nat (length (c :: seg)) + Z.of_nat (length (escape q2)) + 1)%Z
          with (p + Z.of_nat (length (c :: seg) + length (escape q2)) + 1)%Z by lia.
        exact Hf.
Qed.

Lemma p_finish_open (rest : jsstring) (p : Z) (rws : list Row)
  (v0 : jsstring) (rw : Row) (i : nat) (o0 : Calls) (o : result Calls) :
  At text p (dq :: rest) -> rest <> [] -> (p <= L)%Z ->
  p_finish (mkState Quoted (p + 1) rws v0 rw i o0) o ->
  p_finish (mkState NoCol p rws v0 rw i o0) o.
Proof.
  intros HA Hne HL Hf fuel Hfuel.
  destruct rest as [|x rest]; [congruence|].
  destruct fuel as [|fuel]; [cbn [pos] in Hfuel; lia|].
  rewrite loop_S. cbn [pos].
  rewrite (p_At_endPos _ _ _ HA), (p_turn_open (x :: rest) p rws v0 rw i o0 HA).
  rewrite <- (Hf (S fuel)) by (cbn [pos] in *; lia).
  rewrite loop_S. cbn [pos]. now rewrite (p_At_endPos _ _ _ (At_cons HA)).
Qed.

Lemma p_finish_commit (c : ascii) (after : jsstring) (st : State)
  (rws : list Row) (v0 : jsstring) (rw : Row) (i : nat) (o0 : Calls) (o : result Calls) :
  At text (pos st) (c :: after) -> c = cd \/ c = rd -> (pos st <= L)%Z ->
  Turn st = p_commit c (pos st) rws v0 rw i o0 ->
  p_finish_step (p_commit c (pos st) rws v0 rw i o0) o ->
  p_finish st o.
Proof.
  intros HA Hc HL HT Hf.
  eapply p_finish_turn; [exact HA | exact HL | exact HT | | exact Hf].
  pose proof (p_commit_pos c (pos st) rws v0 rw i o0 Hc) as HP.
  destruct (p_commit c (pos st) rws v0 rw i o0); [apply HP | exact I | exact I].
Qed.

(** One field and the delimiter behind it. *)
Lemma p_field_finish (f : Field) (c : ascii) (after : jsstring) (p : Z)
  (rws : list Row) (rw : Row) (i : nat) (o0 : Calls) (o : result Calls) :
  probe_field_ok cd rowDelim f = true ->
  At text p (raw f ++ c :: after) ->
  c = cd \/ c = rd ->
  (p + Z.of_nat (length (raw f)) <= L)%Z ->
  p_finish_step (p_commit c (p + Z.of_nat (length (raw f))) rws (value f) rw i o0) o ->
  p_finish (mkState NoCol p rws [] rw i o0) o.
Proof.
  intros Hok HA Hc HL Hf.
  assert (Hcq : c <> dq) by (destruct Hc; congruence).
  assert (Hex : excluded cd rowDelim c = true).
  { unfold excluded. cbn [existsb].
    destruct Hc as [-> | ->]; rewrite Ascii.eqb_refl; now rewrite ?orb_true_r. }
  destruct f as [[|c0 u] | q]; cbn [raw value app length] in *.
  - rewrite Z.add_0_r in *.
    eapply (p_finish_commit c after (mkState NoCol p rws [] rw i o0) _ _ _ _ _ _ HA Hc HL);
      [apply (p_turn_NoCol_delim c after p rws [] rw i o0 HA Hc) | exact Hf].
  - unfold probe_plain_ok in Hok. apply andb_true_iff in Hok as [Hq0 Hu].
    apply negb_true_iff, Ascii.eqb_neq in Hq0.
    eapply p_finish_turn;
      [exact HA | cbn [pos]; lia
      | eapply (p_turn_plain c0 u (c :: after)); try eassumption
      | cbn [pos length]; lia | cbn [p_finish_step] ].
    + right. now exists c, after.
    + pose proof (At_app (c0 :: u) _ HA) as HA2.
      eapply (p_finish_commit c after (mkState Unquoted _ rws (c0 :: u) rw i o0)
                _ _ _ _ _ _ HA2 Hc);
        [ cbn [pos length]; lia
        | apply (p_turn_Unquoted_delim c after _ rws (c0 :: u) rw i o0 HA2 Hc) | exact Hf].
  - apply (p_finish_open ((escape q ++ [dq]) ++ c :: after));
      [exact HA | destruct (escape q); discriminate | lia |].
    rewrite <- app_assoc in HA. cbn [app] in HA.
    pose proof (At_cons HA) as HA1.
    rewrite length_app in *. cbn [length] in *.
    eapply (p_quoted_finish (length q) q _ _ (c :: after));
      [reflexivity | exact HA1 | exact Hcq | lia |].
    assert (HA2 : At text (p + 1 + Z.of_nat (length (escape q) + 1)) (c :: after)).
    { replace (length (escape q) + 1) with (length (escape q ++ [dq]))
        by (rewrite length_app; reflexivity).
      apply At_app. now rewrite <- app_assoc. }
    replace (p + 1 + Z.of_nat (length (escape q)) + 1)%Z
      with (p + 1 + Z.of_nat (length (escape q) + 1))%Z by lia.
    eapply (p_finish_commit c after (mkState NoCol _ rws ([] ++ q) rw i o0)
              _ _ _ _ _ _ HA2 Hc);
      [ cbn [pos length]; lia
      | apply (p_turn_NoCol_delim c after _ rws ([] ++ q) rw i o0 HA2 Hc) | ].
    cbn [pos app].
    replace (p + 1 + Z.of_nat (length (escape q) + 1))%Z
      with (p + Z.of_nat (S (length (escape q) + 1)))%Z by lia.
    exact Hf.
Qed.

Lemma p_raw_row_cons (f f2 : Field) (fs : list Field) :
  raw_row cd (f :: f2 :: fs) = raw f ++ cd :: raw_row cd (f2 :: fs).
Proof. reflexivity. Qed.

Lemma p_raw_row_one (f : Field) : raw_row cd [f] = raw f.
Proof. reflexivity. Qed.

(** The fields of a row that ends with the row delimiter; [xs] are the
    values already stored in the row buffer, [k] the slots behind them. *)
Lemma p_row_fields_finish (fs : list Field) :
  forall (xs : list jsstring) (k : nat) (p : Z) (rws : list Row) (o0 : Calls) (o : result Calls)
         (after : jsstring),
  fs <> [] ->
  forallb (probe_field_ok cd rowDelim) fs = true ->
  At text p (raw_row cd fs ++ rowDelim ++ after) ->
  (p + Z.of_nat (length (raw_row cd fs)) <= L)%Z ->
  p_finish_step (p_push_row (p + Z.of_nat (length (raw_row cd fs))) rws
                   (map Some (xs ++ map value fs) ++ repeat None (k - length fs)) o0) o ->
  p_finish (mkState NoCol p rws [] (map Some xs ++ repeat None k) (length xs) o0) o.
Proof.
  induction fs as [|f fs IH]; intros xs k p rws o0 o after Hne Hok HA HL Hf;
    [congruence|].
  cbn [forallb] in Hok. apply andb_true_iff in Hok as [Hokf Hok].
  destruct fs as [|f2 fs].
  - rewrite p_raw_row_one in *.
    eapply (p_field_finish f rd (rdt ++ after)); [exact Hokf | exact HA | now right | exact HL |].
    rewrite p_commit_rd. cbn [length map] in *. now rewrite array_set_next.
  - rewrite p_raw_row_cons in *. rewrite <- app_assoc in HA. cbn [app] in HA.
    rewrite length_app in *. cbn [length] in HL, Hf.
    eapply (p_field_finish f cd (raw_row cd (f2 :: fs) ++ rowDelim ++ after));
      [exact Hokf | exact HA | now left | lia |].
    rewrite p_commit_cd. cbn [p_finish_step].
    rewrite array_set_next.
    replace (S (length xs)) with (length (xs ++ [value f]))
      by (rewrite length_app; cbn [length]; lia).
    eapply (IH (xs ++ [value f]) (k - 1) _ rws o0 o after);
      [discriminate | exact Hok | | | ].
    + apply (At_cons (c := cd)). exact (At_app (raw f) _ HA).
    + lia.
    + rewrite <- app_assoc. cbn [map app].
      replace (k - 1 - length (f2 :: fs)) with (k - length (f :: f2 :: fs))
        by (cbn [length]; lia).
      replace (p + Z.of_nat (length (raw f)) + 1 +
               Z.of_nat (length (raw_row cd (f2 :: fs))))%Z
        with (p + Z.of_nat (length (raw f) + S (length (raw_row cd (f2 :: fs)))))%Z
        by lia.
      exact Hf.
Qed.

Lemma p_render_cons (r : list Field) (rs : list (list Field)) :
  render cd rowDelim (r :: rs) = (raw_row cd r ++ rowDelim) ++ render cd rowDelim rs.
Proof. reflexivity. Qed.

(** A whole row, from its first character to behind its delimiter. *)
Lemma p_row_finish (r : list Field) (p : Z) (rws : list Row) (o0 : Calls) (o : result Calls)
  (after : jsstring) :
  probe_row_ok cd rowDelim r = true ->
  At text p (raw_row cd r ++ rowDelim ++ after) ->
  (p + Z.of_nat (length (raw_row cd r)) <= L)%Z ->
  p_finish_step (p_push_row (p + Z.of_nat (length (raw_row cd r))) rws
                   (values numCols r) o0) o ->
  p_finish (mkState NoCol p rws [] (Array numCols) 0 o0) o.
Proof.
  intros Hok HA HL Hf. unfold probe_row_ok in Hok.
  apply andb_true_iff in Hok as [Hlen Hok]. apply Nat.leb_le in Hlen.
  apply (p_row_fields_finish r [] numCols p rws o0 o after); try assumption.
  - destruct r; [cbn [length] in Hlen; lia | discriminate].
  - cbn [app]. unfold values in Hf. now rewrite <- (map_map value Some) in Hf.
Qed.

(** Rows under a row limit that is reached with the last of them: the
    parse returns there, with the rows in one call. *)
Lemma p_rows_limit_finish (rs : list (list Field)) :
  forall (p : Z) (rws : list Row) (after : jsstring) (k : nat),
  limit = Some k -> k <= CHUNK_SIZE ->
  rs <> [] -> length rws + length rs = k ->
  forallb (probe_row_ok cd rowDelim) rs = true ->
  At text p (render cd rowDelim rs ++ after) ->
  (p + Z.of_nat (length (render cd rowDelim rs)) <= L)%Z ->
  p_finish (mkState NoCol p rws [] (Array numCols) 0 [])
           (Ok [rws ++ map (values numCols) rs]).
Proof.
  induction rs as [|r rs IH]; intros p rws after k Hlim Hk Hne Hlen Hok HA HL;
    [congruence|].
  cbn [forallb] in Hok. apply andb_true_iff in Hok as [Hokr Hok].
  rewrite p_render_cons in *. rewrite <- !app_assoc in HA.
  rewrite !length_app in HL.
  apply (p_row_finish r p rws [] _ (render cd rowDelim rs ++ after) Hokr HA); [lia|].
  unfold p_push_row. rewrite Hlim. cbn [limit_hit map]. cbv zeta.
  rewrite length_app. cbn [length] in *.
  destruct rs as [|r2 rs]; cbn [length] in *.
  - replace (length rws + 1 =? k) with true by (symmetry; apply Nat.eqb_eq; lia).
    reflexivity.
  - replace (length rws + 1 =? k) with false by (symmetry; apply Nat.eqb_neq; lia).
    replace (length rws + 1 =? CHUNK_SIZE) with false
      by (symmetry; apply Nat.eqb_neq; lia).
    cbn [p_finish_step].
    replace (rws ++ values numCols r :: map (values numCols) (r2 :: rs))
      with ((rws ++ [values numCols r]) ++ map (values numCols) (r2 :: rs))
      by (rewrite <- app_assoc; reflexivity).
    apply (IH _ _ after k); try assumption; try discriminate.
    + rewrite length_app. cbn [length]. lia.
    + apply (At_app rowDelim). exact (At_app (raw_row cd r) _ HA).
    + lia.
Qed.

(** Rows that reach neither the row limit nor the chunk size: the parse
    goes on behind them. *)
Lemma p_rows_finish (rs : list (list Field)) :
  forall (p : Z) (rws : list Row) (after : jsstring) (k : nat)
         (o : result Calls),
  limit = Some k ->
  length rws + length rs < k -> length rws + length rs < CHUNK_SIZE ->
  forallb (probe_row_ok cd rowDelim) rs = true ->
  At text p (render cd rowDelim rs ++ after) ->
  (p + Z.of_nat (length (render cd rowDelim rs)) <= L)%Z ->
  p_finish (mkState NoCol (p + Z.of_nat (length (render cd rowDelim rs)))
              (rws ++ map (values numCols) rs) [] (Array numCols) 0 []) o ->
  p_finish (mkState NoCol p rws [] (Array numCols) 0 []) o.
Proof.
  induction rs as [|r rs IH]; intros p rws after k o Hlim Hk Hc Hok HA HL Hf.
  - cbn [render concat map length app] in Hf.
    now rewrite Z.add_0_r, app_nil_r in Hf.
  - cbn [forallb] in Hok. apply andb_true_iff in Hok as [Hokr Hok].
    rewrite p_render_cons in *. rewrite <- !app_assoc in HA.
    rewrite !length_app in HL, Hf. cbn [length] in Hk, Hc.
    apply (p_row_finish r p rws [] _ (render cd rowDelim rs ++ after) Hokr HA); [lia|].
    unfold p_push_row. rewrite Hlim. cbn [limit_hit]. cbv zeta.
    rewrite length_app. cbn [length].
    replace (length rws + 1 =? k) with false by (symmetry; apply Nat.eqb_neq; lia).
    replace (length rws + 1 =? CHUNK_SIZE) with false
      by (symmetry; apply Nat.eqb_neq; lia).
    cbn [p_finish_step].
    apply (IH _ _ after k o Hlim); try assumption.
    + rewrite length_app. cbn [length]. lia.
    + rewrite length_app. cbn [length]. lia.
    + apply (At_app rowDelim). exact (At_app (raw_row cd r) _ HA).
    + cbn [length] in *. lia.
    + cbn [map] in Hf. rewrite <- app_assoc. cbn [app].
      replace (p + Z.of_nat (length (raw_row cd r)) + Z.of_nat (S (length rdt)) +
               Z.of_nat (length (render cd rowDelim rs)))%Z
        with (p + Z.of_nat (length (raw_row cd r) + length rowDelim +
                            length (render cd rowDelim rs)))%Z
        by (cbn [length]; lia).
      exact Hf.
Qed.

(** Fields that are each followed by the column delimiter: the parse
    goes on behind them, inside the row. *)
Lemma p_cells_finish (fs : list Field) :
  forall (p : Z) (rws : list Row) (rw : Row) (i : nat) (o0 : Calls)
         (o : result Calls) (after : jsstring),
  forallb (probe_field_ok cd rowDelim) fs = true ->
  At text p (cells cd fs ++ after) ->
  (p + Z.of_nat (length (cells cd fs)) <= L)%Z ->
  (forall rw1 i1,
     p_finish (mkState NoCol (p + Z.of_nat (length (cells cd fs))) rws [] rw1 i1 o0) o) ->
  p_finish (mkState NoCol p rws [] rw i o0) o.
Proof.
  induction fs as [|f fs IH]; intros p rws rw i o0 o after Hok HA HL Hf.
  - cbn [cells flat_map length] in Hf. rewrite Z.add_0_r in Hf. apply Hf.
  - cbn [forallb] in Hok. apply andb_true_iff in Hok as [Hokf Hok].
    unfold cells in *. cbn [flat_map] in *. fold (cells cd fs) in *.
    rewrite <- !app_assoc in HA. cbn [app] in HA.
    rewrite !length_app in HL, Hf. cbn [length] in HL, Hf.
    eapply (p_field_finish f cd (cells cd fs ++ after));
      [exact Hokf | exact HA | now left | lia |].
    rewrite p_commit_cd. cbn [p_finish_step].
    apply (IH _ rws _ _ o0 o after Hok).
    + apply (At_cons (c := cd)). exact (At_app (raw f) _ HA).
    + lia.
    + intros rw1 i1.
      replace (p + Z.of_nat (length (raw f)) + 1 + Z.of_nat (length (cells cd fs)))%Z
        with (p + Z.of_nat (length (raw f) + 1 + length (cells cd fs)))%Z by lia.
      apply Hf.
Qed.

(** A character of the row delimiter other than its first, met outside
    quotes: the pattern matches nothing there. *)
Lemma p_turn_stray (x : ascii) (after : jsstring) (p : Z) (rws : list Row)
  (v0 : jsstring) (rw : Row) (i : nat) (o0 : Calls) (ic : InCol) :
  At text p (x :: after) ->
  x <> dq -> x <> cd -> x <> rd -> excluded cd rowDelim x = true ->
  ic <> Quoted ->
  Turn (mkState ic p rws v0 rw i o0) = Throw.
Proof.
  intros HA Hq Hcd Hrd Hx Hic.
  unfold turn, unstarted, in_column.
  destruct ic; [ | |congruence]; cbn [inCol pos set_inCol];
    rewrite (charCodeAt_At HA);
    rewrite ?ceq_quote, ?ceq_cd, ?ceq_rd, ?(eqb_neq_false Hq),
            ?(eqb_neq_false Hcd), ?(eqb_neq_false Hrd);
    cbn [orb inCol colIdx pos v set_pos set_v set_inCol rows row out app];
    rewrite ?ceq_cd, ?ceq_rd, ?(eqb_neq_false Hcd), ?(eqb_neq_false Hrd);
    cbn [orb inCol colIdx pos v set_pos set_v set_inCol rows row out app];
    unfold takeToCommaOrEOL; rewrite (skipn_At _ _ _ HA);
    cbn [Numeric.span app]; unfold excluded in Hx; rewrite Hx; reflexivity.
Qed.

(** A plain run that ends in front of such a character: the parse
    throws. *)
Lemma p_stray_throws (u : jsstring) (x : ascii) (after : jsstring) (p : Z)
  (rws : list Row) (rw : Row) (i : nat) (o0 : Calls) :
  probe_plain_ok cd rowDelim u = true ->
  At text p (u ++ x :: after) ->
  x <> dq -> x <> cd -> x <> rd -> excluded cd rowDelim x = true ->
  (p + Z.of_nat (length u) <= L)%Z ->
  p_finish (mkState NoCol p rws [] rw i o0) TypeError.
Proof.
  intros Hok HA Hq Hcd Hrd Hx HL.
  destruct u as [|c u]; cbn [app length] in *.
  - eapply p_finish_turn;
      [exact HA | cbn [pos]; lia
      | apply (p_turn_stray x after p rws [] rw i o0 NoCol HA Hq Hcd Hrd Hx); discriminate
      | exact I | reflexivity].
  - unfold probe_plain_ok in Hok. apply andb_true_iff in Hok as [Hq0 Hu].
    apply negb_true_iff, Ascii.eqb_neq in Hq0.
    eapply p_finish_turn;
      [exact HA | cbn [pos]; lia
      | eapply (p_turn_plain c u (x :: after)); try eassumption
      | cbn [pos length]; lia | cbn [p_finish_step] ].
    + right. now exists x, after.
    + pose proof (At_app (c :: u) _ HA) as HA2.
      eapply p_finish_turn;
        [exact HA2 | cbn [pos length]; lia
        | apply (p_turn_stray x after _ rws (c :: u) rw i o0 Unquoted HA2 Hq Hcd Hrd Hx);
          discriminate
        | exact I | reflexivity].
Qed.

End Machine.

(** The probing mode under a row limit [k] on a text that starts with
    [k] well-formed rows: the rows come in one call, each as wide as
    [m] or as the number of its fields, whatever is larger. *)
Lemma p_parse_limit (cd rd : ascii) (rdt : jsstring) (schema : Schema)
  (rs : list (list Field)) (after : jsstring) (m fuel : nat) :
  delims_ok cd rd = true ->
  s_quote schema <> [] ->
  cols_delim schema = Some [cd] ->
  rows_delim schema = rd :: rdt ->
  1 <= m ->
  1 <= length rs <= CHUNK_SIZE ->
  forallb (probe_row_ok cd (rd :: rdt)) rs = true ->
  length (render cd (rd :: rdt) rs) < fuel ->
  parse fuel (render cd (rd :: rdt) rs ++ after) schema (Some (length rs)) (Some m) =
  Ok [map (values m) rs].
Proof.
  intros Hd Hq Hcd Hrd Hm Hk Hrs Hfuel.
  destruct (delims_ok_neq _ _ Hd) as (H1 & H2 & H3).
  unfold parse. rewrite Hcd, Hrd. destruct (s_quote schema); [congruence|].
  replace (or_default (Some m) (length (cols_names schema))) with m
    by (destruct m; [lia | reflexivity]).
  set (text := render cd (rd :: rdt) rs ++ after).
  pose proof (p_rows_limit_finish text cd rd rdt m (Some (length rs))
                (Z.of_nat (length (render cd (rd :: rdt) rs))) H1 H2 H3
                rs 0 [] after (length rs) eq_refl) as H.
  cbn [app length] in H. apply H; try assumption; try lia.
  - destruct rs; [simpl in Hk; lia | discriminate].
  - apply At_start.
  - unfold init. cbn [pos]. lia.
Qed.

End SrcProbe.

(** ** [schema] (src) on a well-formed text with quotes *)

Module SchemaQuoted.
Import JSFacts SplitFacts TextFacts SniffShape SchemaPlain SrcProbe.
Import Src Text.

Lemma sniffed_delims_ok (csvStr header rest : jsstring) (cd rd : ascii)
  (rdt : jsstring) :
  first_line csvStr header (rd :: rdt) rest -> first_delim header = Some [cd] ->
  delims_ok cd rd = true.
Proof.
  intros (_ & _ & Hrd) Hcd.
  assert (Hc : cd = "009"%char \/ cd = "|"%char \/ cd = ";"%char \/ cd = ","%char).
  { unfold first_delim in Hcd.
    repeat match type of Hcd with context [holds ?c header] => destruct (holds c header) end;
      inversion Hcd; auto. }
  assert (Hr : rd = lf \/ rd = cr).
  { destruct Hrd as [[E _] | [E | [E | [E _]]]]; inversion E; auto. }
  destruct Hc as [-> | [-> | [-> | ->]]], Hr as [-> | ->]; reflexivity.
Qed.

Lemma keys_from_values (m : nat) (r : list Field) (i : nat) :
  keys_from i (values m r) = map index_string (seq i (length r)).
Proof.
  unfold values. generalize (m - length r) as k. intros k. revert i.
  induction r as [|f r IH]; intros i; cbn [map app length seq keys_from].
  - induction k as [|k IHk] in i |- *; cbn [repeat keys_from]; [reflexivity | apply IHk].
  - now rewrite IH.
Qed.

(** A text with a quote character in it that starts with well-formed
    rows, as many as the sample limit: the first gives the column names,
    which are the indices of its fields; the others give the types.  The
    rows are parsed in the probing mode, [_maxCols] being one more than
    the pieces of the first line. *)
Theorem schema_quoted (csvStr header rest after : jsstring) (cd rd : ascii)
  (rdt : jsstring) (r0 : list Field) (rs : list (list Field)) (fuel : nat) :
  csvStr = render cd (rd :: rdt) (r0 :: rs) ++ after ->
  first_line csvStr header (rd :: rdt) rest ->
  first_delim header = Some [cd] ->
  holds dq csvStr = true ->
  length (r0 :: rs) <= CHUNK_SIZE ->
  forallb (probe_row_ok cd (rd :: rdt)) (r0 :: rs) = true ->
  length (render cd (rd :: rdt) (r0 :: rs)) < fuel ->
  let m := length (split header (Some [cd])) + 1 in
  Src.schema fuel csvStr (Some (length (r0 :: rs))) =
  Ok (mkSchema quote (Some [cd]) (map index_string (seq 0 (length r0)))
        (probe_types (length r0) (map (values m) rs)) (rd :: rdt)).
Proof.
  intros Etext Hfl Hcd Hq Hk Hrs Hf m.
  pose proof (sniffed_delims_ok _ _ _ _ _ _ Hfl Hcd) as Hd.
  unfold Src.schema, sniff.
  rewrite (first_line_firstRowMatch _ _ _ _ Hfl), has_quotes, Hq, find_COL_DELIMS, Hcd.
  fold m. rewrite Etext.
  rewrite (p_parse_limit cd rd rdt (mkSchema quote (Some [cd]) [] [] (rd :: rdt))
             (r0 :: rs) after m fuel Hd);
    [|discriminate | reflexivity | reflexivity | subst m; lia
     | cbn [length] in *; lia | exact Hrs | exact Hf].
  cbn [concat map app s_quote cols_delim rows_delim]. rewrite app_nil_r.
  unfold Object_keys. rewrite keys_from_values, length_map, length_seq. reflexivity.
Qed.

(** The scenario text, three rows sampled. *)
Lemma schema_quoted_witness :
  Src.schema 60 Samples.scenario (Some 3) =
  Ok (mkSchema quote (Some comma) [str "0"; str "1"; str "2"]
        [Some n_type; Some s_type; Some s_type] [lf]).
Proof.
  refine (schema_quoted Samples.scenario (str "id,name,active")
            (str "1,Alice,true" ++ [lf] ++ str "2," ++ quote ++ str "Bob, Jr." ++ quote
             ++ str ",false" ++ [lf])
            [] ","%char lf []
            [Plain (str "id"); Plain (str "name"); Plain (str "active")]
            [[Plain (str "1"); Plain (str "Alice"); Plain (str "true")];
             [Plain (str "2"); InQuotes (str "Bob, Jr."); Plain (str "false")]]
            60 eq_refl _ eq_refl eq_refl _ eq_refl _).
  - split; [reflexivity|]. split; [reflexivity|]. right. left. reflexivity.
  - vm_compute. lia.
  - vm_compute. lia.
Defined.

End SchemaQuoted.

(** ** The state machine of [parse] (dist) in the probing mode *)

Module DistProbe.
Import JSFacts SplitFacts ArrayFacts TextFacts.
Import Dist Text.
Import DistQuoted SrcProbe.

Section Machine.

Variables (text : jsstring) (cd rd : ascii) (rdt : jsstring).
Variables (numCols chunkSize : nat) (chunkLimit : option nat) (L : Z).
Hypothesis cd_dq : cd <> dq.
Hypothesis rd_dq : rd <> dq.
Hypothesis cd_rd : cd <> rd.

Local Abbreviation rowDelim := (rd :: rdt).
Local Abbreviation Run := (loop text [cd] rowDelim numCols chunkSize chunkLimit true).
Local Abbreviation Turn := (turn text [cd] rowDelim numCols chunkSize chunkLimit true).

(** The field is committed with the delimiter [c] under [pos]. *)
Definition dp_commit (c : ascii) (p : Z) (rws : list Row) (v0 : jsstring)
  (rw : Row) (i nc : nat) (o0 : Calls) : Step :=
  PUSH rowDelim numCols chunkSize chunkLimit (Some c)
       (mkState NoCol p rws v0 rw i nc o0).

(** From [st] on, the parse ends with [o], on any fuel that covers the
    distance to [L]. *)
Definition dp_finish (st : State) (o : result Calls) : Prop :=
  forall fuel, (Z.of_nat fuel > L - pos st)%Z -> Run fuel st = o.

Definition dp_finish_step (s : Step) (o : result Calls) : Prop :=
  match s with
  | Continue st1 => dp_finish st1 o
  | Return o1 => Ok o1 = o
  | Throw => TypeError = o
  | Spin => False
  end.

Lemma dp_At_endPos (p : Z) (c : ascii) (rest : jsstring) :
  At text p (c :: rest) -> (p <=? endPos text)%Z = true.
Proof.
  intros H. apply At_length in H. unfold endPos. cbn [length] in H.
  apply Z.leb_le. lia.
Qed.

Lemma dp_finish_exit (st : State) :
  At text (pos st) [] -> (pos st <= L)%Z -> dp_finish st (Ok (flush st)).
Proof.
  intros HA HL fuel Hf. destruct fuel as [|fuel]; [lia|].
  rewrite d_loop_S. apply At_length in HA. unfold endPos. cbn [length] in HA.
  destruct (Z.leb_spec (pos st) (Z.of_nat (length text) - 1)); [lia | reflexivity].
Qed.

Lemma dp_finish_turn (st : State) (s : Step) (o : result Calls) (c : ascii) (rest : jsstring) :
  At text (pos st) (c :: rest) -> (pos st <= L)%Z ->
  (forall f, (Z.of_nat f >= L - pos st)%Z -> Turn f st = s) ->
  match s with Continue st1 => (pos st < pos st1)%Z | _ => True end ->
  dp_finish_step s o -> dp_finish st o.
Proof.
  intros HA HL HT Hp Hs fuel Hf. destruct fuel as [|fuel]; [lia|].
  rewrite d_loop_S, (dp_At_endPos _ _ _ HA), HT by lia.
  destruct s as [st1|o1| |]; cbn [dp_finish_step] in Hs.
  - apply Hs. lia.
  - now subst.
  - now subst.
  - now subst.
Qed.

Lemma dp_commit_cd (p : Z) (rws : list Row) (v0 : jsstring) (rw : Row) (i nc : nat)
  (o0 : Calls) :
  dp_commit cd p rws v0 rw i nc o0 =
  Continue (mkState NoCol (p + 1) rws [] (array_set rw i v0) (S i) nc o0).
Proof.
  unfold dp_commit, PUSH. rewrite d_ceq_rd, (eqb_neq_false cd_rd). reflexivity.
Qed.

(** The end of a row: a full chunk goes to the callback, and the chunk
    limit is tested behind that call. *)
Definition dp_push_row (p : Z) (rws : list Row) (full : Row) (nc : nat) (o0 : Calls)
  : Step :=
  let rows1 := rws ++ [full] in
  if length rows1 =? chunkSize then
    if limit_hit chunkLimit (S nc) then Return (o0 ++ [(rows1, nc)])
    else Continue (mkState NoCol (p + Z.of_nat (length rowDelim)) [] []
                           (Array numCols) 0 (S nc) (o0 ++ [(rows1, nc)]))
  else
    Continue (mkState NoCol (p + Z.of_nat (length rowDelim)) rows1 []
                      (Array numCols) 0 nc o0).

Lemma dp_commit_rd (p : Z) (rws : list Row) (v0 : jsstring) (rw : Row) (i nc : nat)
  (o0 : Calls) :
  dp_commit rd p rws v0 rw i nc o0 = dp_push_row p rws (array_set rw i v0) nc o0.
Proof.
  unfold dp_commit, PUSH, dp_push_row. rewrite d_ceq_rd, Ascii.eqb_refl.
  cbn [pos rows row colIdx v out inCol numChunks]. unfold rowDelimLen.
  replace (p + 1 + (Z.of_nat (length rowDelim) - 1))%Z
    with (p + Z.of_nat (length rowDelim))%Z by lia.
  reflexivity.
Qed.

Lemma dp_commit_pos (c : ascii) (p : Z) (rws : list Row) (v0 : jsstring)
  (rw : Row) (i nc : nat) (o0 : Calls) :
  c = cd \/ c = rd ->
  match dp_commit c p rws v0 rw i nc o0 with
  | Continue st1 => (p < pos st1)%Z /\ inCol st1 = NoCol
  | _ => True
  end.
Proof.
  intros [-> | ->].
  - rewrite dp_commit_cd. cbn. split; [lia | reflexivity].
  - rewrite dp_commit_rd. unfold dp_push_row. cbv zeta.
    destruct (_ =? _); [destruct (limit_hit _ _); [exact I|]|];
      cbn [pos inCol length]; split; (lia || reflexivity).
Qed.

(** A delimiter met while no field is open: the field is committed. *)
Lemma dp_turn_NoCol_delim (f : nat) (c : ascii) (rest : jsstring) (p : Z)
  (rws : list Row) (v0 : jsstring) (rw : Row) (i nc : nat) (o0 : Calls) :
  At text p (c :: rest) -> c = cd \/ c = rd ->
  Turn f (mkState NoCol p rws v0 rw i nc o0) = dp_commit c p rws v0 rw i nc o0.
Proof.
  intros HA Hc. pose proof (dp_commit_pos c p rws v0 rw i nc o0 Hc) as HP.
  unfold turn, unstarted. cbn [inCol pos]. rewrite (charCodeAt_At HA).
  rewrite d_ceq_quote, d_ceq_cd, d_ceq_rd.
  replace (Ascii.eqb c dq) with false
    by (symmetry; apply eqb_neq_false; destruct Hc; congruence).
  replace (Ascii.eqb c cd || Ascii.eqb c rd) with true
    by (destruct Hc as [-> | ->]; rewrite Ascii.eqb_refl; now rewrite ?orb_true_r).
  fold (dp_commit c p rws v0 rw i nc o0).
  destruct (dp_commit c p rws v0 rw i nc o0) as [st1| | |]; try reflexivity.
  unfold in_column. now rewrite (proj2 HP).
Qed.

(** A delimiter met at the end of a plain field. *)
Lemma dp_turn_Unquoted_delim (f : nat) (c : ascii) (rest : jsstring) (p : Z)
  (rws : list Row) (v0 : jsstring) (rw : Row) (i nc : nat) (o0 : Calls) :
  At text p (c :: rest) -> c = cd \/ c = rd ->
  Turn f (mkState Unquoted p rws v0 rw i nc o0) = dp_commit c p rws v0 rw i nc o0.
Proof.
  intros HA Hc.
  unfold turn, unstarted, in_column. cbn [inCol pos]. rewrite (charCodeAt_At HA).
  rewrite d_ceq_cd, d_ceq_rd.
  replace (Ascii.eqb c cd || Ascii.eqb c rd) with true
    by (destruct Hc as [-> | ->]; rewrite Ascii.eqb_refl; now rewrite ?orb_true_r).
  unfold dp_commit, PUSH. cbn [inCol pos rows v row colIdx out numChunks].
  destruct (code_eq (Some c) (rowDelimChar rowDelim)); [|reflexivity].
  destruct (_ =? _); [|reflexivity].
  destruct (limit_hit _ _); reflexivity.
Qed.

(** The first turn on a plain field with text in it: the pattern takes
    the whole field. *)
Lemma dp_turn_plain (f : nat) (c : ascii) (u after : jsstring) (p : Z)
  (rws : list Row) (rw : Row) (i nc : nat) (o0 : Calls) :
  At text p ((c :: u) ++ after) ->
  c <> dq ->
  forallb (fun x => negb (excluded cd rowDelim x)) (c :: u) = true ->
  after = [] \/ (exists x r, after = x :: r /\ excluded cd rowDelim x = true) ->
  Turn f (mkState NoCol p rws [] rw i nc o0) =
  Continue (mkState Unquoted (p + Z.of_nat (length (c :: u))) rws (c :: u) rw i nc o0).
Proof.
  intros HA Hq Hu Hafter.
  assert (Hc : Ascii.eqb c cd = false /\ Ascii.eqb c rd = false).
  { cbn [forallb] in Hu. apply andb_true_iff in Hu as [Hc _].
    unfold excluded in Hc. cbn [existsb] in Hc.
    apply negb_true_iff in Hc. apply orb_false_iff in Hc as [H1 Hc].
    apply orb_false_iff in Hc as [H2 _]. auto. }
  destruct Hc as [Hcd Hrd].
  unfold turn, unstarted, in_column. cbn [inCol pos set_inCol].
  rewrite (charCodeAt_At (c := c) (rest := u ++ after) HA).
  rewrite d_ceq_quote, d_ceq_cd, d_ceq_rd, (eqb_neq_false Hq), Hcd, Hrd.
  cbn [orb inCol colIdx pos v set_pos set_v set_inCol rows row out numChunks app].
  rewrite d_ceq_cd, d_ceq_rd, Hcd, Hrd.
  cbn [orb inCol colIdx pos v set_pos set_v set_inCol rows row out numChunks app].
  unfold takeToCommaOrEOL. rewrite (skipn_At _ _ _ HA).
  assert (Hspan : Numeric.span
                    (fun c0 => negb (existsb (Ascii.eqb c0) ([cd] ++ rowDelim)))
                    ((c :: u) ++ after) = (c :: u, after)).
  { destruct Hafter as [-> | (x & r & -> & Hx)].
    - rewrite app_nil_r. now apply SingleLine.span_all.
    - apply SchemaPlain.span_stop; [exact Hu|]. unfold excluded in Hx.
      cbn [app]. now rewrite Hx. }
  cbn [app] in Hspan |- *. rewrite Hspan. cbn [fst]. reflexivity.
Qed.

(** No quote follows: [rest] is empty or starts with another character. *)
Definition dp_no_quote_ahead (rest : jsstring) : Prop :=
  match rest with
  | c :: _ => c <> dq
  | [] => True
  end.

Lemma dp_charCodeAt_no_quote (p : Z) (rest : jsstring) :
  At text p rest -> dp_no_quote_ahead rest ->
  code_eq (charCodeAt text p) quoteChar = false.
Proof.
  intros HA Hn. destruct rest as [|c rest].
  - now rewrite (charCodeAt_end HA).
  - rewrite (charCodeAt_At HA), d_ceq_quote. now apply eqb_neq_false.
Qed.

(** The inner loop on a quoted field, from behind its opening quote to
    behind its closing quote: every doubled quote has become one quote. *)
Lemma dp_quoted_loop_field (n : nat) :
  forall (q : jsstring) (p : Z) (v0 rest : jsstring) (rws : list Row) (rw : Row)
         (i nc : nat) (o0 : Calls) (f : nat),
  length q <= n ->
  At text p (escape q ++ dq :: rest) -> dp_no_quote_ahead rest ->
  length (escape q) < f ->
  quoted_loop text f (mkState Quoted p rws v0 rw i nc o0) (charCodeAt text p) =
  Some (mkState NoCol (p + Z.of_nat (length (escape q)) + 1) rws (v0 ++ q) rw i nc o0).
Proof.
  induction n as [|n IH]; intros q p v0 rest rws rw i nc o0 f Hn HA Hq Hf.
  - destruct q; [|simpl in Hn; lia]. cbn [escape flat_map app length] in *.
    destruct f as [|f]; [lia|]. rewrite quoted_loop_S.
    rewrite (charCodeAt_At HA), d_ceq_quote, Ascii.eqb_refl. cbn [pos].
    rewrite (dp_charCodeAt_no_quote _ _ (At_cons HA) Hq).
    unfold set_pos, set_inCol; cbn [inCol pos rows v row colIdx numChunks out].
    now rewrite app_nil_r, Z.add_0_r.
  - destruct (quote_free_prefix q) as (seg & q2 & -> & Hs & Hq2).
    destruct f as [|f]; [lia|]. rewrite quoted_loop_S.
    destruct seg as [|c seg].
    + destruct Hq2 as [-> | [q3 ->]].
      * cbn [escape flat_map app length] in *.
        rewrite (charCodeAt_At HA), d_ceq_quote, Ascii.eqb_refl. cbn [pos].
        rewrite (dp_charCodeAt_no_quote _ _ (At_cons HA) Hq).
        unfold set_pos, set_inCol; cbn [inCol pos rows v row colIdx numChunks out].
        now rewrite app_nil_r, Z.add_0_r.
      * cbn [app] in *. rewrite escape_quote in *. cbn [app length] in *.
        rewrite (charCodeAt_At HA), d_ceq_quote, Ascii.eqb_refl. cbn [pos].
        rewrite (charCodeAt_At (At_cons HA)), d_ceq_quote, Ascii.eqb_refl.
        cbv zeta. unfold set_pos, set_v; cbn [inCol pos rows v row colIdx numChunks out].
        rewrite (IH q3 (p + 2)%Z (v0 ++ quote) rest); try assumption; try lia.
        -- unfold quote. rewrite <- app_assoc. cbn [app]. do 2 f_equal. lia.
        -- exact (At_app [dq; dq] _ HA).
    + rewrite escape_app, (escape_quote_free Hs), <- app_assoc in HA.
      rewrite escape_app, (escape_quote_free Hs), length_app in Hf |- *.
      rewrite length_app in Hn.
      assert (exists r, escape q2 ++ dq :: rest = dq :: r) as [r Er]
        by (destruct Hq2 as [-> | [q3 ->]];
            [now exists rest | rewrite escape_quote; eexists; reflexivity]).
      rewrite (charCodeAt_At (c := c) (rest := seg ++ escape q2 ++ dq :: rest) HA).
      rewrite d_ceq_quote, (eqb_neq_false (Forall_inv Hs)). cbv zeta. cbn [pos v].
      pose proof HA as HA'. rewrite Er in HA'.
      unfold quote at 1 2. rewrite (indexOf_At [dq] HA'), (find_skip [] (dq :: r) Hs).
      pose proof (find_here [dq] r) as E. cbn [app] in E. rewrite E.
      cbn [option_map].
      replace (p + Z.of_nat (length (c :: seg) + 0))%Z
        with (p + Z.of_nat (length (c :: seg)))%Z by lia.
      rewrite (slice_At (c :: seg) (dq :: r) HA').
      unfold set_pos, set_v; cbn [inCol pos rows v row colIdx numChunks out].
      pose proof (At_app (c :: seg) _ HA) as HA2.
      replace quoteChar with (charCodeAt text (p + Z.of_nat (length (c :: seg))))
        by (rewrite Er in HA2; now rewrite (charCodeAt_At HA2)).
      rewrite (IH q2 _ (v0 ++ c :: seg) rest); try assumption.
      * rewrite <- app_assoc. do 2 f_equal. lia.
      * cbn [length] in Hn. lia.
      * cbn [length] in Hf. lia.
Qed.

(** The turn that opens a quoted field takes the whole field. *)
Lemma dp_turn_quoted (f : nat) (q rest : jsstring) (p : Z) (rws : list Row)
  (rw : Row) (i nc : nat) (o0 : Calls) :
  At text p (dq :: escape q ++ dq :: rest) -> dp_no_quote_ahead rest ->
  length (escape q) < f ->
  Turn f (mkState NoCol p rws [] rw i nc o0) =
  Continue (mkState NoCol (p + 1 + Z.of_nat (length (escape q)) + 1) rws q rw i nc o0).
Proof.
  intros HA Hq Hf. unfold turn, unstarted. cbn [inCol pos set_inCol set_pos].
  rewrite (charCodeAt_At HA), d_ceq_quote, Ascii.eqb_refl.
  unfold in_column.
  unfold set_pos, set_inCol; cbn [inCol pos rows v row colIdx numChunks out].
  now rewrite (dp_quoted_loop_field (length q) q (p + 1) [] rest rws rw i nc o0 f
             (le_n _) (At_cons HA) Hq Hf).
Qed.

Lemma dp_finish_commit (c : ascii) (after : jsstring) (st : State)
  (rws : list Row) (v0 : jsstring) (rw : Row) (i nc : nat) (o0 : Calls) (o : result Calls) :
  At text (pos st) (c :: after) -> c = cd \/ c = rd -> (pos st <= L)%Z ->
  (forall f, Turn f st = dp_commit c (pos st) rws v0 rw i nc o0) ->
  dp_finish_step (dp_commit c (pos st) rws v0 rw i nc o0) o ->
  dp_finish st o.
Proof.
  intros HA Hc HL HT Hf.
  eapply dp_finish_turn; [exact HA | exact HL | intros f _; apply HT | | exact Hf].
  pose proof (dp_commit_pos c (pos st) rws v0 rw i nc o0 Hc) as HP.
  destruct (dp_commit c (pos st) rws v0 rw i nc o0); [apply HP | exact I ..].
Qed.

(** One field and the delimiter behind it. *)
Lemma dp_field_finish (fd : Field) (c : ascii) (after : jsstring) (p : Z)
  (rws : list Row) (rw : Row) (i nc : nat) (o0 : Calls) (o : result Calls) :
  probe_field_ok cd rowDelim fd = true ->
  At text p (raw fd ++ c :: after) ->
  c = cd \/ c = rd ->
  (p + Z.of_nat (length (raw fd)) <= L)%Z ->
  dp_finish_step (dp_commit c (p + Z.of_nat (length (raw fd))) rws (value fd) rw i nc o0) o ->
  dp_finish (mkState NoCol p rws [] rw i nc o0) o.
Proof.
  intros Hok HA Hc HL Hf.
  assert (Hcq : c <> dq) by (destruct Hc; congruence).
  assert (Hex : excluded cd rowDelim c = true).
  { unfold excluded. cbn [existsb].
    destruct Hc as [-> | ->]; rewrite Ascii.eqb_refl; now rewrite ?orb_true_r. }
  destruct fd as [[|c0 u] | q]; cbn [raw value app length] in *.
  - rewrite Z.add_0_r in *.
    eapply (dp_finish_commit c after (mkState NoCol p rws [] rw i nc o0) _ _ _ _ _ _ _ HA Hc HL);
      [intros f; apply (dp_turn_NoCol_delim f c after p rws [] rw i nc o0 HA Hc) | exact Hf].
  - unfold probe_plain_ok in Hok. apply andb_true_iff in Hok as [Hq0 Hu].
    apply negb_true_iff, Ascii.eqb_neq in Hq0.
    eapply dp_finish_turn;
      [exact HA | cbn [pos]; lia
      | intros f _; eapply (dp_turn_plain f c0 u (c :: after)); try eassumption
      | cbn [pos length]; lia | cbn [dp_finish_step] ].
    + right. now exists c, after.
    + pose proof (At_app (c0 :: u) _ HA) as HA2.
      eapply (dp_finish_commit c after (mkState Unquoted _ rws (c0 :: u) rw i nc o0)
                _ _ _ _ _ _ _ HA2 Hc);
        [ cbn [pos length]; lia
        | intros f; apply (dp_turn_Unquoted_delim f c after _ rws (c0 :: u) rw i nc o0 HA2 Hc)
        | exact Hf].
  - rewrite <- app_assoc in HA. cbn [app] in HA.
    rewrite length_app in *. cbn [length] in *.
    eapply dp_finish_turn;
      [exact HA | cbn [pos]; lia
      | intros f Hfu; apply (dp_turn_quoted f q (c :: after) p rws rw i nc o0 HA Hcq);
        cbn [pos] in Hfu; lia
      | cbn [pos]; lia | cbn [dp_finish_step] ].
    assert (HA2 : At text (p + 1 + Z.of_nat (length (escape q)) + 1) (c :: after)).
    { apply (At_cons (c := dq)). apply (At_app (escape q)). exact (At_cons HA). }
    eapply (dp_finish_commit c after (mkState NoCol _ rws q rw i nc o0)
              _ _ _ _ _ _ _ HA2 Hc);
      [ cbn [pos length]; lia
      | intros f; apply (dp_turn_NoCol_delim f c after _ rws q rw i nc o0 HA2 Hc) | ].
    cbn [pos].
    replace (p + 1 + Z.of_nat (length (escape q)) + 1)%Z
      with (p + Z.of_nat (S (length (escape q) + 1)))%Z by lia.
    exact Hf.
Qed.

Lemma dp_raw_row_cons (f f2 : Field) (fs : list Field) :
  raw_row cd (f :: f2 :: fs) = raw f ++ cd :: raw_row cd (f2 :: fs).
Proof. reflexivity. Qed.

Lemma dp_raw_row_one (f : Field) : raw_row cd [f] = raw f.
Proof. reflexivity. Qed.

(** The fields of a row that ends with the row delimiter; [xs] are the
    values already stored in the row buffer, [k] the slots behind them. *)
Lemma dp_row_fields_finish (fs : list Field) :
  forall (xs : list jsstring) (k : nat) (p : Z) (rws : list Row) (nc : nat)
         (o0 : Calls) (o : result Calls) (after : jsstring),
  fs <> [] ->
  forallb (probe_field_ok cd rowDelim) fs = true ->
  At text p (raw_row cd fs ++ rowDelim ++ after) ->
  (p + Z.of_nat (length (raw_row cd fs)) <= L)%Z ->
  dp_finish_step (dp_push_row (p + Z.of_nat (length (raw_row cd fs))) rws
                    (map Some (xs ++ map value fs) ++ repeat None (k - length fs))
                    nc o0) o ->
  dp_finish (mkState NoCol p rws [] (map Some xs ++ repeat None k) (length xs) nc o0) o.
Proof.
  induction fs as [|f fs IH]; intros xs k p rws nc o0 o after Hne Hok HA HL Hf;
    [congruence|].
  cbn [forallb] in Hok. apply andb_true_iff in Hok as [Hokf Hok].
  destruct fs as [|f2 fs].
  - rewrite dp_raw_row_one in *.
    eapply (dp_field_finish f rd (rdt ++ after)); [exact Hokf | exact HA | now right | exact HL |].
    rewrite dp_commit_rd. cbn [length map] in *. now rewrite array_set_next.
  - rewrite dp_raw_row_cons in *. rewrite <- app_assoc in HA. cbn [app] in HA.
    rewrite length_app in *. cbn [length] in HL, Hf.
    eapply (dp_field_finish f cd (raw_row cd (f2 :: fs) ++ rowDelim ++ after));
      [exact Hokf | exact HA | now left | lia |].
    rewrite dp_commit_cd. cbn [dp_finish_step].
    rewrite array_set_next.
    replace (S (length xs)) with (length (xs ++ [value f]))
      by (rewrite length_app; cbn [length]; lia).
    eapply (IH (xs ++ [value f]) (k - 1) _ rws nc o0 o after);
      [discriminate | exact Hok | | | ].
    + apply (At_cons (c := cd)). exact (At_app (raw f) _ HA).
    + lia.
    + rewrite <- app_assoc. cbn [map app].
      replace (k - 1 - length (f2 :: fs)) with (k - length (f :: f2 :: fs))
        by (cbn [length]; lia).
      replace (p + Z.of_nat (length (raw f)) + 1 +
               Z.of_nat (length (raw_row cd (f2 :: fs))))%Z
        with (p + Z.of_nat (length (raw f) + S (length (raw_row cd (f2 :: fs)))))%Z
        by lia.
      exact Hf.
Qed.

Lemma dp_render_cons (r : list Field) (rs : list (list Field)) :
  render cd rowDelim (r :: rs) = (raw_row cd r ++ rowDelim) ++ render cd rowDelim rs.
Proof. reflexivity. Qed.

(** A whole row, from its first character to behind its delimiter. *)
Lemma dp_row_finish (r : list Field) (p : Z) (rws : list Row) (nc : nat)
  (o0 : Calls) (o : result Calls) (after : jsstring) :
  probe_row_ok cd rowDelim r = true ->
  At text p (raw_row cd r ++ rowDelim ++ after) ->
  (p + Z.of_nat (length (raw_row cd r)) <= L)%Z ->
  dp_finish_step (dp_push_row (p + Z.of_nat (length (raw_row cd r))) rws
                    (values numCols r) nc o0) o ->
  dp_finish (mkState NoCol p rws [] (Array numCols) 0 nc o0) o.
Proof.
  intros Hok HA HL Hf. unfold probe_row_ok in Hok.
  apply andb_true_iff in Hok as [Hlen Hok]. apply Nat.leb_le in Hlen.
  apply (dp_row_fields_finish r [] numCols p rws nc o0 o after); try assumption.
  - destruct r; [cbn [length] in Hlen; lia | discriminate].
  - cbn [app]. unfold values in Hf. now rewrite <- (map_map value Some) in Hf.
Qed.

(** Rows that fill the first chunk, under a chunk limit of one: the
    parse returns behind the call for that chunk. *)
Lemma dp_rows_chunk_finish (rs : list (list Field)) :
  forall (p : Z) (rws : list Row) (after : jsstring),
  chunkLimit = Some 1 ->
  rs <> [] -> length rws + length rs = chunkSize ->
  forallb (probe_row_ok cd rowDelim) rs = true ->
  At text p (render cd rowDelim rs ++ after) ->
  (p + Z.of_nat (length (render cd rowDelim rs)) <= L)%Z ->
  dp_finish (mkState NoCol p rws [] (Array numCols) 0 0 [])
            (Ok [(rws ++ map (values numCols) rs, 0)]).
Proof.
  induction rs as [|r rs IH]; intros p rws after Hlim Hne Hlen Hok HA HL;
    [congruence|].
  cbn [forallb] in Hok. apply andb_true_iff in Hok as [Hokr Hok].
  rewrite dp_render_cons in *. rewrite <- !app_assoc in HA.
  rewrite !length_app in HL.
  apply (dp_row_finish r p rws 0 [] _ (render cd rowDelim rs ++ after) Hokr HA); [lia|].
  unfold dp_push_row. rewrite Hlim. cbn [limit_hit map]. cbv zeta.
  rewrite length_app. cbn [length] in *.
  destruct rs as [|r2 rs]; cbn [length] in *.
  - replace (length rws + 1 =? chunkSize) with true by (symmetry; apply Nat.eqb_eq; lia).
    reflexivity.
  - replace (length rws + 1 =? chunkSize) with false
      by (symmetry; apply Nat.eqb_neq; lia).
    cbn [dp_finish_step].
    replace (rws ++ values numCols r :: map (values numCols) (r2 :: rs))
      with ((rws ++ [values numCols r]) ++ map (values numCols) (r2 :: rs))
      by (rewrite <- app_assoc; reflexivity).
    apply (IH _ _ after); try assumption; try discriminate.
    + rewrite length_app. cbn [length]. lia.
    + apply (At_app rowDelim). exact (At_app (raw_row cd r) _ HA).
    + lia.
Qed.

(** Rows that do not fill the chunk: the parse goes on behind them. *)
Lemma dp_rows_finish (rs : list (list Field)) :
  forall (p : Z) (rws : list Row) (after : jsstring) (o : result Calls),
  length rws + length rs < chunkSize ->
  forallb (probe_row_ok cd rowDelim) rs = true ->
  At text p (render cd rowDelim rs ++ after) ->
  (p + Z.of_nat (length (render cd rowDelim rs)) <= L)%Z ->
  dp_finish (mkState NoCol (p + Z.of_nat (length (render cd rowDelim rs)))
               (rws ++ map (values numCols) rs) [] (Array numCols) 0 0 []) o ->
  dp_finish (mkState NoCol p rws [] (Array numCols) 0 0 []) o.
Proof.
  induction rs as [|r rs IH]; intros p rws after o Hk Hok HA HL Hf.
  - cbn [render concat map length app] in Hf.
    now rewrite Z.add_0_r, app_nil_r in Hf.
  - cbn [forallb] in Hok. apply andb_true_iff in Hok as [Hokr Hok].
    rewrite dp_render_cons in *. rewrite <- !app_assoc in HA.
    rewrite !length_app in HL, Hf. cbn [length] in Hk.
    apply (dp_row_finish r p rws 0 [] _ (render cd rowDelim rs ++ after) Hokr HA); [lia|].
    unfold dp_push_row. cbv zeta.
    rewrite length_app. cbn [length].
    replace (length rws + 1 =? chunkSize) with false
      by (symmetry; apply Nat.eqb_neq; lia).
    cbn [dp_finish_step].
    apply (IH _ _ after o); try assumption.
    + rewrite length_app. cbn [length]. lia.
    + apply (At_app rowDelim). exact (At_app (raw_row cd r) _ HA).
    + cbn [length] in *. lia.
    + cbn [map] in Hf. rewrite <- app_assoc. cbn [app].
      replace (p + Z.of_nat (length (raw_row cd r)) + Z.of_nat (S (length rdt)) +
               Z.of_nat (length (render cd rowDelim rs)))%Z
        with (p + Z.of_nat (length (raw_row cd r) + length rowDelim +
                            length (render cd rowDelim rs)))%Z
        by (cbn [length]; lia).
      exact Hf.
Qed.

(** Fields that are each followed by the column delimiter: the parse
    goes on behind them, inside the row. *)
Lemma dp_cells_finish (fs : list Field) :
  forall (p : Z) (rws : list Row) (rw : Row) (i nc : nat) (o0 : Calls)
         (o : result Calls) (after : jsstring),
  forallb (probe_field_ok cd rowDelim) fs = true ->
  At text p (cells cd fs ++ after) ->
  (p + Z.of_nat (length (cells cd fs)) <= L)%Z ->
  (forall rw1 i1,
     dp_finish (mkState NoCol (p + Z.of_nat (length (cells cd fs))) rws [] rw1 i1 nc o0) o) ->
  dp_finish (mkState NoCol p rws [] rw i nc o0) o.
Proof.
  induction fs as [|f fs IH]; intros p rws rw i nc o0 o after Hok HA HL Hf.
  - cbn [cells flat_map length] in Hf. rewrite Z.add_0_r in Hf. apply Hf.
  - cbn [forallb] in Hok. apply andb_true_iff in Hok as [Hokf Hok].
    unfold cells in *. cbn [flat_map] in *. fold (cells cd fs) in *.
    rewrite <- !app_assoc in HA. cbn [app] in HA.
    rewrite !length_app in HL, Hf. cbn [length] in HL, Hf.
    eapply (dp_field_finish f cd (cells cd fs ++ after));
      [exact Hokf | exact HA | now left | lia |].
    rewrite dp_commit_cd. cbn [dp_finish_step].
    apply (IH _ rws _ _ nc o0 o after Hok).
    + apply (At_cons (c := cd)). exact (At_app (raw f) _ HA).
    + lia.
    + intros rw1 i1.
      replace (p + Z.of_nat (length (raw f)) + 1 + Z.of_nat (length (cells cd fs)))%Z
        with (p + Z.of_nat (length (raw f) + 1 + length (cells cd fs)))%Z by lia.
      apply Hf.
Qed.

(** A character of the row delimiter other than its first, met outside
    quotes: the pattern matches nothing there. *)
Lemma dp_turn_stray (f : nat) (x : ascii) (after : jsstring) (p : Z) (rws : list Row)
  (v0 : jsstring) (rw : Row) (i nc : nat) (o0 : Calls) (ic : InCol) :
  At text p (x :: after) ->
  x <> dq -> x <> cd -> x <> rd -> excluded cd rowDelim x = true ->
  ic <> Quoted ->
  Turn f (mkState ic p rws v0 rw i nc o0) = Throw.
Proof.
  intros HA Hq Hcd Hrd Hx Hic.
  unfold turn, unstarted, in_column.
  destruct ic; [ | |congruence]; cbn [inCol pos set_inCol];
    rewrite (charCodeAt_At HA);
    rewrite ?d_ceq_quote, ?d_ceq_cd, ?d_ceq_rd, ?(eqb_neq_false Hq),
            ?(eqb_neq_false Hcd), ?(eqb_neq_false Hrd);
    cbn [orb inCol colIdx pos v set_pos set_v set_inCol rows row out numChunks app];
    rewrite ?d_ceq_cd, ?d_ceq_rd, ?(eqb_neq_false Hcd), ?(eqb_neq_false Hrd);
    cbn [orb inCol colIdx pos v set_pos set_v set_inCol rows row out numChunks app];
    unfold takeToCommaOrEOL; rewrite (skipn_At _ _ _ HA);
    cbn [Numeric.span app]; unfold excluded in Hx; rewrite Hx; reflexivity.
Qed.

(** A plain run that ends in front of such a character: the parse
    throws. *)
Lemma dp_stray_throws (u : jsstring) (x : ascii) (after : jsstring) (p : Z)
  (rws : list Row) (rw : Row) (i nc : nat) (o0 : Calls) :
  probe_plain_ok cd rowDelim u = true ->
  At text p (u ++ x :: after) ->
  x <> dq -> x <> cd -> x <> rd -> excluded cd rowDelim x = true ->
  (p + Z.of_nat (length u) <= L)%Z ->
  dp_finish (mkState NoCol p rws [] rw i nc o0) TypeError.
Proof.
  intros Hok HA Hq Hcd Hrd Hx HL.
  destruct u as [|c u]; cbn [app length] in *.
  - eapply dp_finish_turn;
      [exact HA | cbn [pos]; lia
      | intros f _;
        apply (dp_turn_stray f x after p rws [] rw i nc o0 NoCol HA Hq Hcd Hrd Hx);
        discriminate
      | exact I | reflexivity].
  - unfold probe_plain_ok in Hok. apply andb_true_iff in Hok as [Hq0 Hu].
    apply negb_true_iff, Ascii.eqb_neq in Hq0.
    eapply dp_finish_turn;
      [exact HA | cbn [pos]; lia
      | intros f _; eapply (dp_turn_plain f c u (x :: after)); try eassumption
      | cbn [pos length]; lia | cbn [dp_finish_step] ].
    + right. now exists x, after.
    + pose proof (At_app (c :: u) _ HA) as HA2.
      eapply dp_finish_turn;
        [exact HA2 | cbn [pos length]; lia
        | intros f _;
          apply (dp_turn_stray f x after _ rws (c :: u) rw i nc o0 Unquoted HA2 Hq Hcd Hrd Hx);
          discriminate
        | exact I | reflexivity].
Qed.

End Machine.

End DistProbe.

(** ** [schema] (dist) on a well-formed text with quotes *)

Module DistSchemaQuoted.
Import JSFacts SplitFacts TextFacts SniffShape SchemaPlain SrcProbe DistProbe.
Import Dist Text.

(** The probing mode with a chunk size [k] and a chunk limit of one, on
    a text that starts with [k] well-formed rows: one call with these
    rows, each as wide as [m] or as the number of its fields, whatever
    is larger. *)
Lemma dp_parse_chunk (F : Type) (cd rd : ascii) (rdt : jsstring) (schema : Schema F)
  (rs : list (list Field)) (after : jsstring) (m fuel : nat) :
  delims_ok cd rd = true ->
  s_quote schema <> None ->
  cols_delim schema = Some [cd] ->
  rows_delim schema = rd :: rdt ->
  cols_names schema = [] ->
  1 <= length rs ->
  forallb (probe_row_ok cd (rd :: rdt)) rs = true ->
  length (render cd (rd :: rdt) rs) < fuel ->
  parse fuel (render cd (rd :: rdt) rs ++ after) schema (length rs) (Some 1) (Some m) =
  Ok [(map (values m) rs, 0)].
Proof.
  intros Hd Hq Hcd Hrd Hnames Hk Hrs Hfuel.
  destruct (delims_ok_neq _ _ Hd) as (H1 & H2 & H3).
  unfold parse. rewrite Hcd, Hrd, Hnames. destruct (s_quote schema); [|congruence].
  replace (or_default (Some m) (length (@nil jsstring))) with m
    by (destruct m; reflexivity).
  set (text := render cd (rd :: rdt) rs ++ after).
  pose proof (dp_rows_chunk_finish text cd rd rdt m (length rs) (Some 1)
                (Z.of_nat (length (render cd (rd :: rdt) rs))) H1 H2 H3
                rs 0 [] after eq_refl) as H.
  cbn [app length] in H. apply H; try assumption; try lia.
  - destruct rs; [simpl in Hk; lia | discriminate].
  - apply At_start.
  - unfold init. cbn [pos]. lia.
Qed.

Lemma Object_values_values (m : nat) (r : list Field) :
  Object_values (values m r) = map value r.
Proof.
  unfold values. generalize (m - length r) as k. intros k.
  induction r as [|f r IH]; cbn [map app Object_values].
  - induction k as [|k IHk]; cbn [repeat Object_values]; [reflexivity | exact IHk].
  - now rewrite IH.
Qed.

(** A text with a quote character in it that starts with [k] well-formed
    rows, [k] being the sample limit: the first row gives the column
    names, which are the values of its fields with the quoting undone;
    the others give the types and the converter.  The rows are parsed in
    the probing mode as one chunk of [k] rows, [_maxCols] being the
    number of pieces of the first line.  [schema] is taken in array mode
    ([typedObjs] false), where the compiled conversion holds the indices
    of the columns and not their names. *)
Theorem dist_schema_quoted (J : Type) (JSON_parse : jsstring -> option J)
  (csvStr header rest after : jsstring) (cd rd : ascii)
  (rdt : jsstring) (r0 : list Field) (rs : list (list Field)) (fuel : nat) :
  csvStr = render cd (rd :: rdt) (r0 :: rs) ++ after ->
  first_line csvStr header (rd :: rdt) rest ->
  first_delim header = Some [cd] ->
  holds dq csvStr = true ->
  forallb (probe_row_ok cd (rd :: rdt)) (r0 :: rs) = true ->
  length (render cd (rd :: rdt) (r0 :: rs)) < fuel ->
  let m := length (split header (Some [cd])) in
  let names := map value r0 in
  let sampled := map (values m) rs in
  Dist.schema JSON_parse fuel csvStr (length (r0 :: rs)) false =
  Ok (mkSchema (Some quote) (Some [cd]) names
        (probe_types (length names) sampled) (rd :: rdt)
        (Some (genToTypedFn JSON_parse names sampled false))).
Proof.
  intros Etext Hfl Hcd Hq Hrs Hf m names sampled.
  pose proof (SchemaQuoted.sniffed_delims_ok _ _ _ _ _ _ Hfl Hcd) as Hd.
  unfold Dist.schema, sniff.
  rewrite Dist_firstRowMatch, (first_line_firstRowMatch _ _ _ _ Hfl).
  rewrite has_quotes, Hq, find_COL_DELIMS, Hcd.
  fold m. rewrite Etext.
  rewrite (dp_parse_chunk _ cd rd rdt
             (mkSchema (Some quote) (Some [cd]) [] [] (rd :: rdt) (@None (TypedFn J)))
             (r0 :: rs) after m fuel Hd);
    [|discriminate | reflexivity | reflexivity | reflexivity
     | cbn [length]; lia | exact Hrs | exact Hf].
  cbn [concat map fst app s_quote cols_delim rows_delim]. rewrite app_nil_r.
  rewrite Object_values_values. reflexivity.
Qed.

(** The scenario text, three rows sampled. *)
Lemma dist_schema_quoted_witness :
  Dist.schema (fun _ => @None unit) 60 Samples.scenario 3 false =
  Ok (mkSchema (Some quote) (Some comma) [str "id"; str "name"; str "active"]
        [Some n_type; Some s_type; Some s_type] [lf]
        (Some (genToTypedFn (fun _ => @None unit)
                 [str "id"; str "name"; str "active"]
                 [Samples.row_of ["1"; "Alice"; "true"];
                  Samples.row_of ["2"; "Bob, Jr."; "false"]]%string false))).
Proof.
  refine (dist_schema_quoted unit (fun _ => None) Samples.scenario (str "id,name,active")
            (str "1,Alice,true" ++ [lf] ++ str "2," ++ quote ++ str "Bob, Jr." ++ quote
             ++ str ",false" ++ [lf])
            [] ","%char lf []
            [Plain (str "id"); Plain (str "name"); Plain (str "active")]
            [[Plain (str "1"); Plain (str "Alice"); Plain (str "true")];
             [Plain (str "2"); InQuotes (str "Bob, Jr."); Plain (str "false")]]
            60 eq_refl _ eq_refl eq_refl eq_refl _).
  - split; [reflexivity|]. split; [reflexivity|]. right. left. reflexivity.
  - vm_compute. lia.
Defined.

End DistSchemaQuoted.

(** ** [schema] on a text with quotes and a stray line feed *)

Module StrayLineFeed.
Import JSFacts SplitFacts TextFacts SniffShape SchemaPlain SrcProbe DistProbe.
Import Text.

(** The text in front of the stray character: whole rows, then fields of
    the row that holds it, then the plain run it ends. *)
Definition before (cd : ascii) (rowDelim : jsstring) (rs : list (list Field))
  (fs : list Field) (u : jsstring) : jsstring :=
  render cd rowDelim rs ++ cells cd fs ++ u.

Section Stray.

Variables (cd rd : ascii) (rdt : jsstring) (x : ascii).
Variables (rs : list (list Field)) (fs : list Field) (u after : jsstring).
Hypothesis delims : delims_ok cd rd = true.
Hypothesis x_dq : x <> dq.
Hypothesis x_cd : x <> cd.
Hypothesis x_rd : x <> rd.
Hypothesis x_in : excluded cd (rd :: rdt) x = true.
Hypothesis rs_ok : forallb (probe_row_ok cd (rd :: rdt)) rs = true.
Hypothesis fs_ok : forallb (probe_field_ok cd (rd :: rdt)) fs = true.
Hypothesis u_ok : probe_plain_ok cd (rd :: rdt) u = true.

Lemma src_parse_stray (schema : Src.Schema) (k m fuel : nat) :
  Src.s_quote schema <> [] ->
  Src.cols_delim schema = Some [cd] ->
  Src.rows_delim schema = rd :: rdt ->
  1 <= m ->
  length rs < k -> length rs < CHUNK_SIZE ->
  length (before cd (rd :: rdt) rs fs u) < fuel ->
  Src.parse fuel (before cd (rd :: rdt) rs fs u ++ x :: after) schema (Some k) (Some m)
  = TypeError.
Proof.
  intros Hq Hcd Hrd Hm Hk Hc Hfuel.
  destruct (delims_ok_neq _ _ delims) as (H1 & H2 & H3).
  unfold Src.parse. rewrite Hcd, Hrd. destruct (Src.s_quote schema); [congruence|].
  replace (Src.or_default (Some m) (length (Src.cols_names schema))) with m
    by (destruct m; [lia | reflexivity]).
  unfold before in *. rewrite !length_app in Hfuel. rewrite <- !app_assoc.
  set (text := render cd (rd :: rdt) rs ++ cells cd fs ++ u ++ x :: after).
  set (L := Z.of_nat (length (render cd (rd :: rdt) rs) + length (cells cd fs) + length u)).
  assert (HA : At text 0 text) by apply At_start.
  apply (p_rows_finish text cd rd rdt m (Some k) L H1 H2 H3 rs 0 []
           (cells cd fs ++ u ++ x :: after) k TypeError eq_refl);
    try assumption; try (cbn [length]; subst L; lia).
  - apply (p_cells_finish text cd rd rdt m (Some k) L H1 H2 H3 fs _ _ _ _ _ _
             (u ++ x :: after) fs_ok).
    + exact (At_app (render cd (rd :: rdt) rs) _ HA).
    + subst L. lia.
    + intros rw1 i1.
      apply (p_stray_throws text cd rd rdt m (Some k) L u x after);
        try assumption.
      * replace (0 + Z.of_nat (length (render cd (rd :: rdt) rs)) +
                 Z.of_nat (length (cells cd fs)))%Z
          with (0 + Z.of_nat (length (render cd (rd :: rdt) rs ++ cells cd fs)))%Z
          by (rewrite length_app; lia).
        apply At_app. now rewrite <- app_assoc.
      * subst L. lia.
  - unfold Src.init. cbn [Src.pos]. subst L. lia.
Qed.

Lemma dist_parse_stray (F : Type) (schema : Dist.Schema F) (k m fuel : nat) :
  Dist.s_quote schema <> None ->
  Dist.cols_delim schema = Some [cd] ->
  Dist.rows_delim schema = rd :: rdt ->
  Dist.cols_names schema = [] ->
  length rs < k ->
  length (before cd (rd :: rdt) rs fs u) < fuel ->
  Dist.parse fuel (before cd (rd :: rdt) rs fs u ++ x :: after) schema k (Some 1) (Some m)
  = TypeError.
Proof.
  intros Hq Hcd Hrd Hnames Hk Hfuel.
  destruct (delims_ok_neq _ _ delims) as (H1 & H2 & H3).
  unfold Dist.parse. rewrite Hcd, Hrd, Hnames. destruct (Dist.s_quote schema); [|congruence].
  replace (Dist.or_default (Some m) (length (@nil jsstring))) with m
    by (destruct m; reflexivity).
  unfold before in *. rewrite !length_app in Hfuel. rewrite <- !app_assoc.
  set (text := render cd (rd :: rdt) rs ++ cells cd fs ++ u ++ x :: after).
  set (L := Z.of_nat (length (render cd (rd :: rdt) rs) + length (cells cd fs) + length u)).
  assert (HA : At text 0 text) by apply At_start.
  apply (dp_rows_finish text cd rd rdt m k (Some 1) L H1 H2 H3 rs 0 []
           (cells cd fs ++ u ++ x :: after) TypeError);
    try assumption; try (cbn [length]; subst L; lia).
  - apply (dp_cells_finish text cd rd rdt m k (Some 1) L H1 H2 H3 fs _ _ _ _ _ _ _
             (u ++ x :: after) fs_ok).
    + exact (At_app (render cd (rd :: rdt) rs) _ HA).
    + subst L. lia.
    + intros rw1 i1.
      apply (dp_stray_throws text cd rd rdt m k (Some 1) L u x after);
        try assumption.
      * replace (0 + Z.of_nat (length (render cd (rd :: rdt) rs)) +
                 Z.of_nat (length (cells cd fs)))%Z
          with (0 + Z.of_nat (length (render cd (rd :: rdt) rs ++ cells cd fs)))%Z
          by (rewrite length_app; lia).
        apply At_app. now rewrite <- app_assoc.
      * subst L. lia.
  - unfold Dist.init. cbn [Dist.pos]. subst L. lia.
Qed.

End Stray.

(** A text with a quote character in it whose first line ends with a
    carriage return and a line feed, and in which a line feed stands
    alone outside quotes among the sampled rows, after whole well-formed
    rows [rs], fields [fs] of its row and a plain run [u]: [schema]
    throws, in the probing mode of [parse], where the pattern built from
    the delimiters matches nothing at the line feed. *)
Theorem schema_stray_line_feed (csvStr header rest after u : jsstring) (cd : ascii)
  (rs : list (list Field)) (fs : list Field) (k fuel : nat) :
  csvStr = before cd [cr; lf] rs fs u ++ lf :: after ->
  first_line csvStr header [cr; lf] rest ->
  first_delim header = Some [cd] ->
  holds dq csvStr = true ->
  forallb (probe_row_ok cd [cr; lf]) rs = true ->
  forallb (probe_field_ok cd [cr; lf]) fs = true ->
  probe_plain_ok cd [cr; lf] u = true ->
  length rs < k ->
  length csvStr <= fuel ->
  (length rs < CHUNK_SIZE -> Src.schema fuel csvStr (Some k) = TypeError) /\
  (forall (J : Type) (JSON_parse : jsstring -> option J) (typedObjs : bool),
   Dist.schema JSON_parse fuel csvStr k typedObjs = TypeError).
Proof.
  intros Etext Hfl Hcd Hq Hrs Hfs Hu Hk Hfuel.
  pose proof (SchemaQuoted.sniffed_delims_ok _ _ _ _ _ _ Hfl Hcd) as Hd.
  assert (Hlf : lf <> cd).
  { unfold first_delim in Hcd.
    repeat match type of Hcd with context [holds ?c header] => destruct (holds c header) end;
      inversion Hcd; discriminate. }
  assert (Hlen : length (before cd [cr; lf] rs fs u) < fuel).
  { rewrite Etext, length_app in Hfuel. cbn [length] in Hfuel. lia. }
  assert (Hx : excluded cd [cr; lf] lf = true).
  { unfold excluded. cbn [existsb]. rewrite Ascii.eqb_refl. now rewrite !orb_true_r. }
  split.
  - intros Hc. unfold Src.schema, Src.sniff.
    rewrite (first_line_firstRowMatch _ _ _ _ Hfl), has_quotes, Hq, find_COL_DELIMS, Hcd.
    rewrite Etext.
    rewrite (src_parse_stray cd cr [lf] lf rs fs u after Hd); try assumption;
      try reflexivity; try discriminate; lia.
  - intros J JSON_parse typedObjs. unfold Dist.schema, Dist.sniff.
    rewrite Dist_firstRowMatch, (first_line_firstRowMatch _ _ _ _ Hfl).
    rewrite has_quotes, Hq, find_COL_DELIMS, Hcd. rewrite Etext.
    rewrite (dist_parse_stray cd cr [lf] lf rs fs u after Hd); try assumption;
      try reflexivity; discriminate.
Qed.

(** A header with a quoted name, then a row whose second field is cut
    by a line feed. *)
Definition cut_row : jsstring :=
  str "a," ++ quote ++ str "b" ++ quote ++ [cr; lf]
  ++ str "1,x" ++ [lf] ++ str "2" ++ [cr; lf].

Lemma schema_stray_line_feed_witness :
  Src.schema 30 cut_row (Some 10) = TypeError /\
  Dist.schema (fun _ => @None unit) 30 cut_row 10 false = TypeError.
Proof.
  destruct (schema_stray_line_feed cut_row (str "a," ++ quote ++ str "b" ++ quote)
              (str "1,x" ++ [lf] ++ str "2" ++ [cr; lf])
              (str "2" ++ [cr; lf]) (str "x") ","%char
              [[Plain (str "a"); InQuotes (str "b")]] [Plain (str "1")] 10 30
              eq_refl) as [HS HD];
    try reflexivity.
  - split; [reflexivity|]. split; [reflexivity|]. right. right. left. reflexivity.
  - cbn [length]. lia.
  - vm_compute. lia.
  - split; [apply HS; vm_compute; lia | apply HD].
Defined.

End StrayLineFeed.

(** ** Plain fields as the tokenizer reads them

    Outside the probing mode, a plain field that is not in the last
    column is scanned for the column delimiter only, and one in the last
    column for the row delimiter only. *)

Module Loose.
Import Text.

(** [u] is empty or starts with none of [xs]. *)
Definition starts_free (xs : list ascii) (u : jsstring) : bool :=
  match u with
  | c :: _ => negb (existsb (Ascii.eqb c) xs)
  | [] => true
  end.

Definition free_of (x : ascii) (u : jsstring) : bool :=
  forallb (fun c => negb (Ascii.eqb c x)) u.

(** A field before the last column: a plain one holds no column
    delimiter and does not start with a quote or with the first character
    of the row delimiter; that character may stand further inside. *)
Definition inner_ok (cd rd : ascii) (f : Field) : bool :=
  match f with
  | Plain u => starts_free [dq; rd] u && free_of cd u
  | InQuotes _ => true
  end.

(** A field in the last column: a plain one holds no first character of
    the row delimiter and does not start with a quote or with the column
    delimiter; column delimiters may stand further inside. *)
Definition last_ok (cd rd : ascii) (f : Field) : bool :=
  match f with
  | Plain u => starts_free [dq; cd] u && free_of rd u
  | InQuotes _ => true
  end.

Fixpoint cells_ok (cd rd : ascii) (r : list Field) : bool :=
  match r with
  | [] => false
  | f :: r' =>
      match r' with
      | [] => last_ok cd rd f
      | _ :: _ => inner_ok cd rd f && cells_ok cd rd r'
      end
  end.

Definition loose_row_ok (cd rd : ascii) (numCols : nat) (r : list Field) : bool :=
  (length r =? numCols) && cells_ok cd rd r.

Lemma free_of_Forall (x : ascii) (u : jsstring) :
  free_of x u = true -> Forall (fun c => c <> x) u.
Proof.
  unfold free_of. rewrite forallb_forall. intros H. apply Forall_forall.
  intros c Hc. specialize (H c Hc). apply negb_true_iff in H.
  now apply Ascii.eqb_neq.
Qed.

Lemma starts_free_2 (a b c : ascii) (u : jsstring) :
  starts_free [a; b] (c :: u) = true -> c <> a /\ c <> b.
Proof.
  cbn [starts_free existsb]. rewrite negb_true_iff, !orb_false_iff.
  intros (H1 & H2 & _). split; now apply Ascii.eqb_neq.
Qed.

End Loose.

(** ** The state machine of [parse] (src) without a limit, turn by turn *)

Module SrcLoose.
Import JSFacts SplitFacts ArrayFacts TextFacts.
Import Src Text SrcQuoted Loose.

(** What the end of a row does to the rows kept and the calls made: a
    chunk that is full goes to the callback. *)
Definition keep (acc : list Row * Calls) (full : Row) : list Row * Calls :=
  let rows1 := fst acc ++ [full] in
  if length rows1 =? CHUNK_SIZE then ([], snd acc ++ [rows1]) else (rows1, snd acc).

Definition kept (rws : list Row) (o0 : Calls) (l : list Row) : list Row * Calls :=
  fold_left keep l (rws, o0).

Lemma kept_rows (l : list Row) :
  forall rws o0,
  concat (snd (kept rws o0 l)) ++ fst (kept rws o0 l) = concat o0 ++ rws ++ l.
Proof.
  unfold kept.
  induction l as [|x l IH]; intros rws o0; cbn [fold_left fst snd].
  - now rewrite app_nil_r.
  - destruct (keep (rws, o0) x) as [rws1 o1] eqn:E. rewrite IH.
    unfold keep in E. cbn [fst snd] in E.
    destruct (_ =? _); inversion E; subst;
      rewrite ?concat_app; cbn [concat app];
      rewrite ?app_nil_r, <- ?app_assoc; reflexivity.
Qed.

Section Machine.

Variables (text : jsstring) (cd rd : ascii) (rdt : jsstring) (numCols : nat).
Hypothesis cd_dq : cd <> dq.
Hypothesis rd_dq : rd <> dq.
Hypothesis cd_rd : cd <> rd.

Local Abbreviation rowDelim := (rd :: rdt).
Local Abbreviation Run := (loop text [cd] rowDelim numCols None false).
Local Abbreviation Turn := (turn text [cd] rowDelim numCols None false).

(** The state behind the end of a row. *)
Definition next_row (p : Z) (rws : list Row) (full : Row) (o0 : Calls) : State :=
  let K := keep (rws, o0) full in
  mkState NoCol (p + Z.of_nat (length rowDelim)) (fst K) [] (Array numCols) 0 (snd K).

Lemma push_row_next (p : Z) (rws : list Row) (full : Row) (o0 : Calls) :
  push_row rd rdt numCols None p rws full o0 = Continue (next_row p rws full o0).
Proof.
  unfold push_row, next_row, keep. cbn [limit_hit fst snd]. cbv zeta.
  destruct (_ =? _); reflexivity.
Qed.

Lemma pos_next_row (p : Z) (rws : list Row) (full : Row) (o0 : Calls) :
  pos (next_row p rws full o0) = (p + Z.of_nat (length rowDelim))%Z.
Proof. reflexivity. Qed.

(** A property of states that goes backwards over every turn that
    moves the position forwards. *)
Variable Q : State -> Prop.
Hypothesis Q_turn : forall st st1,
  (pos st <=? endPos text)%Z = true -> Turn st = Continue st1 ->
  (pos st < pos st1)%Z -> Q st1 -> Q st.

Lemma Q_cd (ic : InCol) (rest : jsstring) (p : Z) (rws : list Row)
  (v0 : jsstring) (rw : Row) (i : nat) (o0 : Calls) :
  At text p (cd :: rest) -> ic <> Quoted ->
  Q (mkState NoCol (p + 1) rws [] (array_set rw i v0) (S i) o0) ->
  Q (mkState ic p rws v0 rw i o0).
Proof.
  intros HA Hic HQ.
  apply (Q_turn (mkState ic p rws v0 rw i o0)
                (mkState NoCol (p + 1) rws [] (array_set rw i v0) (S i) o0));
    [exact (At_endPos text p cd rest HA) | | cbn [pos]; lia | exact HQ].
  destruct ic; [ | |congruence].
  - rewrite (turn_NoCol_delim text cd rd rdt numCols None cd_dq rd_dq cd_rd
               cd rest p rws v0 rw i o0 HA (or_introl eq_refl)).
    apply commit_cd. exact cd_rd.
  - rewrite (turn_Unquoted_delim text cd rd rdt numCols None
               cd rest p rws v0 rw i o0 HA (or_introl eq_refl)).
    apply commit_cd. exact cd_rd.
Qed.

Lemma Q_rd (ic : InCol) (rest : jsstring) (p : Z) (rws : list Row)
  (v0 : jsstring) (rw : Row) (i : nat) (o0 : Calls) :
  At text p (rd :: rest) -> ic <> Quoted ->
  Q (next_row p rws (array_set rw i v0) o0) ->
  Q (mkState ic p rws v0 rw i o0).
Proof.
  intros HA Hic HQ.
  apply (Q_turn (mkState ic p rws v0 rw i o0)
                (next_row p rws (array_set rw i v0) o0));
    [exact (At_endPos text p rd rest HA) | | rewrite pos_next_row; cbn [pos length]; lia
    | exact HQ].
  destruct ic; [ | |congruence].
  - rewrite (turn_NoCol_delim text cd rd rdt numCols None cd_dq rd_dq cd_rd
               rd rest p rws v0 rw i o0 HA (or_intror eq_refl)).
    rewrite commit_rd. apply push_row_next.
  - rewrite (turn_Unquoted_delim text cd rd rdt numCols None
               rd rest p rws v0 rw i o0 HA (or_intror eq_refl)).
    rewrite commit_rd. apply push_row_next.
Qed.

(** A quoted field, from behind its opening quote to behind its closing
    quote; [s0] is the state whose turn is the first quoted turn. *)
Lemma Q_quoted (n : nat) :
  forall (q : jsstring) (p : Z) (v0 rest : jsstring) (rws : list Row) (rw : Row)
         (i : nat) (o0 : Calls) (s0 : State),
  length q <= n ->
  At text p (escape q ++ dq :: rest) -> no_quote_ahead rest ->
  Turn s0 = Turn (mkState Quoted p rws v0 rw i o0) ->
  (pos s0 <= p)%Z -> (pos s0 <=? endPos text)%Z = true ->
  Q (mkState NoCol (p + Z.of_nat (length (escape q)) + 1) rws (v0 ++ q) rw i o0) ->
  Q s0.
Proof.
  induction n as [|n IH]; intros q p v0 rest rws rw i o0 s0 Hn HA Hq HT Hp He Hf.
  - destruct q; [|simpl in Hn; lia]. cbn [escape flat_map app length] in *.
    rewrite app_nil_r, Z.add_0_r in Hf.
    rewrite (turn_close text cd rd rdt numCols None rest p rws v0 rw i o0 HA Hq) in HT.
    apply (Q_turn s0 _ He HT); [cbn [pos]; lia | exact Hf].
  - destruct (quote_free_prefix q) as (seg & q2 & -> & Hs & Hq2).
    destruct seg as [|c seg].
    + destruct Hq2 as [-> | [q3 ->]].
      * cbn [escape flat_map app length] in *.
        rewrite app_nil_r, Z.add_0_r in Hf.
        rewrite (turn_close text cd rd rdt numCols None rest p rws v0 rw i o0 HA Hq) in HT.
        apply (Q_turn s0 _ He HT); [cbn [pos]; lia | exact Hf].
      * cbn [app] in *. rewrite escape_quote in *. cbn [app length] in *.
        rewrite (turn_escaped text cd rd rdt numCols None _ p rws v0 rw i o0 HA) in HT.
        apply (Q_turn s0 _ He HT); [cbn [pos]; lia|].
        pose proof (At_app [dq; dq] _ HA) as HA2. cbn [length] in HA2.
        apply (IH q3 (p + 2)%Z (v0 ++ quote) rest rws rw i o0); try assumption.
        -- lia.
        -- reflexivity.
        -- cbn [pos]. lia.
        -- cbn [pos].
           assert (exists c r, escape q3 ++ dq :: rest = c :: r) as (c & r & E)
             by (destruct (escape q3); eexists; eexists; reflexivity).
           rewrite E in HA2. exact (At_endPos text _ _ _ HA2).
        -- unfold quote. rewrite <- app_assoc. cbn [app].
           replace (p + 2 + Z.of_nat (length (escape q3)) + 1)%Z
             with (p + Z.of_nat (S (S (length (escape q3)))) + 1)%Z by lia.
           exact Hf.
    + rewrite escape_app, (escape_quote_free Hs), <- app_assoc in HA.
      rewrite escape_app, (escape_quote_free Hs), length_app in Hf.
      rewrite length_app in Hn.
      assert (exists r, escape q2 ++ dq :: rest = dq :: r) as [r Er]
        by (destruct Hq2 as [-> | [q3 ->]];
            [now exists rest | rewrite escape_quote; eexists; reflexivity]).
      pose proof HA as HA'. rewrite Er in HA'.
      rewrite (turn_segment text cd rd rdt numCols None c seg r p rws v0 rw i o0 HA' Hs)
        in HT.
      apply (Q_turn s0 _ He HT); [cbn [pos length]; lia|].
      pose proof (At_app (c :: seg) _ HA) as HA2.
      apply (IH q2 (p + Z.of_nat (length (c :: seg)))%Z (v0 ++ c :: seg) rest rws rw i o0);
        try assumption.
      * cbn [length] in Hn. lia.
      * reflexivity.
      * cbn [pos]. lia.
      * cbn [pos]. rewrite Er in HA2. exact (At_endPos text _ _ _ HA2).
      * rewrite <- app_assoc.
        replace (p + Z.of_nat (length (c :: seg)) + Z.of_nat (length (escape q2)) + 1)%Z
          with (p + Z.of_nat (length (c :: seg) + length (escape q2)) + 1)%Z by lia.
        exact Hf.
Qed.

(** A quoted field, from its opening quote on. *)
Lemma Q_in_quotes (q rest : jsstring) (p : Z) (rws : list Row) (rw : Row)
  (i : nat) (o0 : Calls) :
  At text p (dq :: escape q ++ dq :: rest) -> no_quote_ahead rest ->
  Q (mkState NoCol (p + Z.of_nat (length (raw (InQuotes q)))) rws q rw i o0) ->
  Q (mkState NoCol p rws [] rw i o0).
Proof.
  intros HA Hq HQ.
  apply (Q_quoted (length q) q (p + 1) [] rest rws rw i o0); try assumption.
  - apply le_n.
  - exact (At_cons HA).
  - apply (turn_open text cd rd rdt numCols None _ p rws [] rw i o0 HA).
  - cbn [pos]. lia.
  - exact (At_endPos text _ _ _ HA).
  - cbn [raw length app] in HQ. rewrite length_app in HQ. cbn [length app] in *.
    replace (p + 1 + Z.of_nat (length (escape q)) + 1)%Z
      with (p + Z.of_nat (S (length (escape q) + 1)))%Z by lia.
    exact HQ.
Qed.

(** The first turn on a plain field with text in it, before the last
    column: the scan goes to the next column delimiter. *)
Lemma turn_plain_inner (c : ascii) (u r : jsstring) (p : Z) (rws : list Row)
  (rw : Row) (i : nat) (o0 : Calls) :
  At text p ((c :: u) ++ cd :: r) ->
  c <> dq -> c <> rd -> Forall (fun x => x <> cd) (c :: u) ->
  (Z.of_nat i =? lastColIdx numCols)%Z = false ->
  Turn (mkState NoCol p rws [] rw i o0) =
  Continue (mkState Unquoted (p + Z.of_nat (length (c :: u))) rws (c :: u) rw i o0).
Proof.
  intros HA Hq Hrd Hcd Hi.
  unfold turn, unstarted, in_column. cbn [inCol pos set_inCol].
  rewrite (charCodeAt_At (c := c) (rest := u ++ cd :: r) HA).
  rewrite ceq_quote, ceq_cd, ceq_rd, (eqb_neq_false Hq).
  rewrite (eqb_neq_false (Forall_inv Hcd)), (eqb_neq_false Hrd).
  cbn [orb inCol colIdx pos v set_pos set_v set_inCol rows row out app].
  rewrite ceq_cd, ceq_rd.
  rewrite (eqb_neq_false (Forall_inv Hcd)), (eqb_neq_false Hrd).
  cbn [orb inCol colIdx pos v set_pos set_v set_inCol rows row out app].
  rewrite Hi.
  rewrite (scan_col text cd p (c :: u) r HA Hcd), (slice_At (c :: u) (cd :: r) HA).
  reflexivity.
Qed.

(** The same in the last column: the scan goes to the next row
    delimiter. *)
Lemma turn_plain_last (c : ascii) (u r : jsstring) (p : Z) (rws : list Row)
  (rw : Row) (i : nat) (o0 : Calls) :
  At text p ((c :: u) ++ rowDelim ++ r) ->
  c <> dq -> c <> cd -> Forall (fun x => x <> rd) (c :: u) ->
  (Z.of_nat i =? lastColIdx numCols)%Z = true ->
  Turn (mkState NoCol p rws [] rw i o0) =
  Continue (mkState Unquoted (p + Z.of_nat (length (c :: u))) rws (c :: u) rw i o0).
Proof.
  intros HA Hq Hcd Hrd Hi.
  unfold turn, unstarted, in_column. cbn [inCol pos set_inCol].
  rewrite (charCodeAt_At (c := c) (rest := u ++ rowDelim ++ r) HA).
  rewrite ceq_quote, ceq_cd, ceq_rd, (eqb_neq_false Hq).
  rewrite (eqb_neq_false Hcd), (eqb_neq_false (Forall_inv Hrd)).
  cbn [orb inCol colIdx pos v set_pos set_v set_inCol rows row out app].
  rewrite ceq_cd, ceq_rd.
  rewrite (eqb_neq_false Hcd), (eqb_neq_false (Forall_inv Hrd)).
  cbn [orb inCol colIdx pos v set_pos set_v set_inCol rows row out app].
  rewrite Hi.
  rewrite (scan_row text rd rdt p (c :: u) r HA Hrd).
  destruct (Z.eqb_spec (p + Z.of_nat (length (c :: u))) (-1)) as [E|_];
    [pose proof (At_nonneg HA); lia|].
  rewrite (slice_At (c :: u) (rowDelim ++ r) HA). reflexivity.
Qed.

(** One field before the last column, and the column delimiter behind
    it. *)
Lemma Q_inner (f : Field) (after : jsstring) (p : Z) (rws : list Row) (rw : Row)
  (i : nat) (o0 : Calls) :
  inner_ok cd rd f = true ->
  At text p (raw f ++ cd :: after) ->
  (Z.of_nat i =? lastColIdx numCols)%Z = false ->
  Q (mkState NoCol (p + Z.of_nat (length (raw f)) + 1) rws []
             (array_set rw i (value f)) (S i) o0) ->
  Q (mkState NoCol p rws [] rw i o0).
Proof.
  intros Hok HA Hi HQ.
  destruct f as [[|c u] | q]; cbn [raw value] in *.
  - cbn [app length] in *. rewrite Z.add_0_r in HQ.
    apply (Q_cd NoCol after p rws [] rw i o0 HA); [discriminate | exact HQ].
  - cbn [inner_ok] in Hok. apply andb_true_iff in Hok as [Hs Hf].
    apply starts_free_2 in Hs as [Hq Hrd]. apply free_of_Forall in Hf.
    pose proof (At_app (c :: u) _ HA) as HA2.
    apply (Q_turn (mkState NoCol p rws [] rw i o0) _
             (At_endPos text p c _ HA)
             (turn_plain_inner c u after p rws rw i o0 HA Hq Hrd Hf Hi));
      [cbn [pos length]; lia|].
    apply (Q_cd Unquoted after _ rws (c :: u) rw i o0 HA2); [discriminate | exact HQ].
  - pose proof HA as HA0. cbn [app] in HA. rewrite <- app_assoc in HA. cbn [app] in HA.
    apply (Q_in_quotes q (cd :: after) p rws rw i o0 HA cd_dq).
    assert (HA2 : At text (p + Z.of_nat (length (raw (InQuotes q)))) (cd :: after)).
    { exact (At_app (raw (InQuotes q)) _ HA0). }
    apply (Q_cd NoCol after _ rws q rw i o0 HA2); [discriminate | exact HQ].
Qed.

(** The field of the last column, and the row delimiter behind it. *)
Lemma Q_last (f : Field) (after : jsstring) (p : Z) (rws : list Row) (rw : Row)
  (i : nat) (o0 : Calls) :
  last_ok cd rd f = true ->
  At text p (raw f ++ rowDelim ++ after) ->
  (Z.of_nat i =? lastColIdx numCols)%Z = true ->
  Q (next_row (p + Z.of_nat (length (raw f))) rws (array_set rw i (value f)) o0) ->
  Q (mkState NoCol p rws [] rw i o0).
Proof.
  intros Hok HA Hi HQ.
  destruct f as [[|c u] | q]; cbn [raw value] in *.
  - cbn [app length] in *. rewrite Z.add_0_r in HQ.
    apply (Q_rd NoCol (rdt ++ after) p rws [] rw i o0 HA); [discriminate | exact HQ].
  - cbn [last_ok] in Hok. apply andb_true_iff in Hok as [Hs Hf].
    apply starts_free_2 in Hs as [Hq Hcd]. apply free_of_Forall in Hf.
    pose proof (At_app (c :: u) _ HA) as HA2.
    apply (Q_turn (mkState NoCol p rws [] rw i o0) _
             (At_endPos text p c _ HA)
             (turn_plain_last c u after p rws rw i o0 HA Hq Hcd Hf Hi));
      [cbn [pos length]; lia|].
    apply (Q_rd Unquoted (rdt ++ after) _ rws (c :: u) rw i o0 HA2);
      [discriminate | exact HQ].
  - pose proof HA as HA0. cbn [app] in HA. rewrite <- app_assoc in HA. cbn [app] in HA.
    apply (Q_in_quotes q (rowDelim ++ after) p rws rw i o0 HA rd_dq).
    assert (HA2 : At text (p + Z.of_nat (length (raw (InQuotes q))))
                     (rowDelim ++ after)).
    { exact (At_app (raw (InQuotes q)) _ HA0). }
    apply (Q_rd NoCol (rdt ++ after) _ rws q rw i o0 HA2); [discriminate | exact HQ].
Qed.

(** The fields of a row from some column on; [xs] are the values already
    stored in the row buffer. *)
Lemma Q_cells (fs : list Field) :
  forall (xs : list jsstring) (p : Z) (rws : list Row) (o0 : Calls)
         (after : jsstring),
  cells_ok cd rd fs = true ->
  length xs + length fs = numCols ->
  At text p (raw_row cd fs ++ rowDelim ++ after) ->
  Q (next_row (p + Z.of_nat (length (raw_row cd fs))) rws
              (map Some (xs ++ map value fs)) o0) ->
  Q (mkState NoCol p rws [] (map Some xs ++ repeat None (length fs)) (length xs) o0).
Proof.
  induction fs as [|f fs IH]; intros xs p rws o0 after Hok Hlen HA HQ;
    [discriminate|].
  destruct fs as [|f2 fs].
  - cbn [cells_ok] in Hok. rewrite raw_row_one in *. cbn [length] in Hlen.
    apply (Q_last f after p rws _ (length xs) o0 Hok HA).
    + unfold lastColIdx. apply Z.eqb_eq. lia.
    + cbn [length map] in *.
      rewrite (array_set_fill xs 0 (value f)). cbn [repeat]. now rewrite app_nil_r.
  - change (cells_ok cd rd (f :: f2 :: fs))
      with (inner_ok cd rd f && cells_ok cd rd (f2 :: fs)) in Hok.
    apply andb_true_iff in Hok as [Hokf Hok].
    rewrite raw_row_cons in *. rewrite <- app_assoc in HA. cbn [app] in HA.
    rewrite length_app in HQ. cbn [length] in HQ, Hlen.
    apply (Q_inner f (raw_row cd (f2 :: fs) ++ rowDelim ++ after) p rws _
             (length xs) o0 Hokf HA).
    + unfold lastColIdx. apply Z.eqb_neq. lia.
    + change (length (f :: f2 :: fs)) with (S (length (f2 :: fs))).
      rewrite (array_set_fill xs (length (f2 :: fs)) (value f)).
      replace (S (length xs)) with (length (xs ++ [value f]))
        by (rewrite length_app; cbn [length]; lia).
      apply (IH (xs ++ [value f]) _ rws o0 after Hok).
      * rewrite length_app. cbn [length] in *. lia.
      * apply (At_cons (c := cd)). exact (At_app (raw f) _ HA).
      * rewrite <- app_assoc. cbn [map app].
        replace (p + Z.of_nat (length (raw f)) + 1 +
                 Z.of_nat (length (raw_row cd (f2 :: fs))))%Z
          with (p + Z.of_nat (length (raw f) + S (length (raw_row cd (f2 :: fs)))))%Z
          by lia.
        exact HQ.
Qed.

(** A whole row, from its first character to behind its delimiter. *)
Lemma Q_row (r : list Field) (p : Z) (rws : list Row) (o0 : Calls)
  (after : jsstring) :
  loose_row_ok cd rd numCols r = true ->
  At text p (raw_row cd r ++ rowDelim ++ after) ->
  Q (next_row (p + Z.of_nat (length (raw_row cd r))) rws (values numCols r) o0) ->
  Q (mkState NoCol p rws [] (Array numCols) 0 o0).
Proof.
  intros Hok HA HQ. unfold loose_row_ok in Hok.
  apply andb_true_iff in Hok as [Hlen Hok]. apply Nat.eqb_eq in Hlen.
  pose proof (Q_cells r [] p rws o0 after Hok Hlen HA) as H.
  cbn [app length map] in H. rewrite Hlen in H. apply H.
  rewrite <- (values_full numCols r Hlen). exact HQ.
Qed.

(** Rows: the state behind them holds them, in the calls made or in the
    rows kept. *)
Lemma Q_rows (rs : list (list Field)) :
  forall (p : Z) (rws : list Row) (o0 : Calls) (after : jsstring),
  forallb (loose_row_ok cd rd numCols) rs = true ->
  At text p (render cd rowDelim rs ++ after) ->
  let K := kept rws o0 (map (values numCols) rs) in
  Q (mkState NoCol (p + Z.of_nat (length (render cd rowDelim rs)))
             (fst K) [] (Array numCols) 0 (snd K)) ->
  Q (mkState NoCol p rws [] (Array numCols) 0 o0).
Proof.
  induction rs as [|r rs IH]; intros p rws o0 after Hok HA K HQ.
  - subst K. cbn [render flat_map length map kept fold_left fst snd] in HQ.
    now rewrite Z.add_0_r in HQ.
  - cbn [forallb] in Hok. apply andb_true_iff in Hok as [Hokr Hok].
    rewrite render_cons in *. rewrite <- !app_assoc in HA.
    set (p1 := (p + Z.of_nat (length (raw_row cd r)))%Z) in *.
    assert (HA1 : At text (p1 + Z.of_nat (length rowDelim))
                     (render cd rowDelim rs ++ after)).
    { apply (At_app rowDelim). exact (At_app (raw_row cd r) _ HA). }
    apply (Q_row r p rws o0 (render cd rowDelim rs ++ after) Hokr HA).
    fold p1. unfold next_row.
    apply (IH _ _ _ after Hok HA1). cbv zeta.
    subst K. cbn [map kept fold_left] in HQ. unfold kept.
    rewrite !length_app in HQ.
    replace (p + Z.of_nat (length (raw_row cd r) + length rowDelim +
                           length (render cd rowDelim rs)))%Z
      with (p1 + Z.of_nat (length rowDelim) +
            Z.of_nat (length (render cd rowDelim rs)))%Z in HQ by lia.
    destruct (keep (rws, o0) (values numCols r)) as [rws1 o1]. exact HQ.
Qed.

End Machine.

(** From [st] on the parse returns with the calls [o], on any fuel that
    covers the rest of the text. *)
Definition ends (text : jsstring) (cd rd : ascii) (rdt : jsstring) (numCols : nat)
  (o : Calls) (st : State) : Prop :=
  forall fuel, (Z.of_nat fuel > Z.of_nat (length text) - pos st)%Z ->
  loop text [cd] (rd :: rdt) numCols None false fuel st = Ok o.

Lemma ends_turn (text : jsstring) (cd rd : ascii) (rdt : jsstring) (numCols : nat)
  (o : Calls) (st st1 : State) :
  (pos st <=? endPos text)%Z = true ->
  turn text [cd] (rd :: rdt) numCols None false st = Continue st1 ->
  (pos st < pos st1)%Z ->
  ends text cd rd rdt numCols o st1 -> ends text cd rd rdt numCols o st.
Proof.
  intros He HT Hp H1 fuel Hf.
  pose proof He as He'. apply Z.leb_le in He'. unfold endPos in He'.
  destruct fuel as [|fuel]; [lia|].
  rewrite loop_S, He, HT. apply H1. lia.
Qed.

Lemma ends_exit (text : jsstring) (cd rd : ascii) (rdt : jsstring) (numCols : nat)
  (st : State) :
  pos st = Z.of_nat (length text) ->
  ends text cd rd rdt numCols (flush st) st.
Proof.
  intros Hp fuel Hf. destruct fuel as [|fuel]; [lia|].
  rewrite loop_S. unfold endPos.
  destruct (Z.leb_spec (pos st) (Z.of_nat (length text) - 1)); [lia | reflexivity].
Qed.

(** The quoted path without a limit on rows of [numCols] fields each, as
    wide as the tokenizer reads them: the values of the fields come out,
    row by row, and one row more for the empty text behind the last row
    delimiter. *)
Lemma parse_loose (cd rd : ascii) (rdt : jsstring) (schema : Schema)
  (mc : option nat) (rs : list (list Field)) (fuel : nat) :
  let numCols := or_default mc (length (cols_names schema)) in
  let text := render cd (rd :: rdt) rs in
  delims_ok cd rd = true ->
  s_quote schema <> [] ->
  cols_delim schema = Some [cd] ->
  rows_delim schema = rd :: rdt ->
  forallb (loose_row_ok cd rd numCols) rs = true ->
  length text < fuel ->
  exists calls chunk,
    parse fuel text schema None mc = Ok (calls ++ [chunk ++ [values numCols [Plain []]]]) /\
    concat calls ++ chunk = map (values numCols) rs.
Proof.
  intros numCols text Hd Hq Hcd Hrd Hrs Hfuel.
  destruct (delims_ok_neq _ _ Hd) as (H1 & H2 & H3).
  unfold parse. rewrite Hcd, Hrd. destruct (s_quote schema); [congruence|].
  fold numCols.
  replace (match mc with Some _ => false | None => false end) with false
    by (destruct mc; reflexivity).
  set (K := kept [] [] (map (values numCols) rs)).
  exists (snd K), (fst K). split; [|exact (kept_rows (map (values numCols) rs) [] [])].
  set (o := snd K ++ [fst K ++ [values numCols [Plain []]]]).
  pose proof (Q_rows text cd rd rdt numCols H1 H2 H3 (ends text cd rd rdt numCols o)
                (ends_turn text cd rd rdt numCols o) rs 0 [] [] []) as H.
  rewrite app_nil_r in H. specialize (H Hrs (At_start text)). cbv zeta in H.
  apply H; [|unfold init; cbn [pos]; lia].
  fold K.
  replace o with (flush (mkState NoCol (0 + Z.of_nat (length text)) (fst K) []
                                 (Array numCols) 0 (snd K))).
  - apply ends_exit. cbn [pos]. subst text. lia.
  - unfold flush, o. cbn [out rows row colIdx v]. do 3 f_equal.
    unfold values. cbn [map value length app].
    destruct numCols as [|k]; cbn; rewrite ?Nat.sub_0_r; reflexivity.
Qed.

End SrcLoose.

(** ** A row that stops short, with no column delimiter behind it (src) *)

Module SrcShortRow.
Import JSFacts SplitFacts ArrayFacts TextFacts.
Import Src Text SrcQuoted Loose SrcLoose.

Lemma find_free (cd : ascii) (s : jsstring) :
  free_of cd s = true -> find [cd] s = None.
Proof.
  intros H. pose proof (find_skip [] [] (free_of_Forall cd s H)) as E.
  now rewrite app_nil_r in E.
Qed.

Lemma indexOf_before (text pat : jsstring) :
  indexOf text pat (-1) = indexOf text pat 0.
Proof. unfold indexOf, clamp. now replace (Z.to_nat _) with (Z.to_nat (Z.min (Z.max 0 0) (Z.of_nat (length text)))) by lia. Qed.

Lemma slice_back (text : jsstring) (p : Z) :
  (0 <= p < Z.of_nat (length text))%Z -> slice text (-1) p = [].
Proof.
  intros Hp. unfold slice, rel_index. cbn [Z.ltb Z.compare].
  replace (p <? 0)%Z with false by (symmetry; apply Z.ltb_ge; lia).
  replace (_ - _) with 0 by lia. reflexivity.
Qed.

Section Machine.

Variables (text : jsstring) (cd rd : ascii) (rdt : jsstring) (numCols : nat).
Hypothesis cd_dq : cd <> dq.
Hypothesis rd_dq : rd <> dq.
Hypothesis cd_rd : cd <> rd.

Local Abbreviation rowDelim := (rd :: rdt).
Local Abbreviation Run := (loop text [cd] rowDelim numCols None false).
Local Abbreviation Turn := (turn text [cd] rowDelim numCols None false).

(** On fuel up to [n] the parse does not return from [st]. *)
Definition stuck (n : nat) (st : State) : Prop :=
  forall fuel, fuel <= n -> Run fuel st = OutOfFuel.

Lemma stuck_0 (st : State) : stuck 0 st.
Proof. intros fuel Hf. replace fuel with 0 by lia. reflexivity. Qed.

Lemma stuck_step (n : nat) (st st1 : State) :
  (pos st <=? endPos text)%Z = true -> Turn st = Continue st1 ->
  stuck n st1 -> stuck (S n) st.
Proof.
  intros He HT H1 fuel Hf. destruct fuel as [|fuel]; [reflexivity|].
  rewrite loop_S, He, HT. apply H1. lia.
Qed.

Lemma stuck_turn (n : nat) (st st1 : State) :
  (pos st <=? endPos text)%Z = true -> Turn st = Continue st1 ->
  (pos st < pos st1)%Z -> stuck n st1 -> stuck n st.
Proof.
  intros He HT _ H1 fuel Hf. destruct fuel as [|fuel]; [reflexivity|].
  rewrite loop_S, He, HT. apply H1. lia.
Qed.

(** A plain field before the last column with no column delimiter
    behind it: the -1 of [indexOf] becomes the position. *)
Lemma turn_lost (c : ascii) (w : jsstring) (p : Z) (rws : list Row)
  (rw : Row) (i : nat) (o0 : Calls) :
  At text p (c :: w) ->
  c <> dq -> c <> rd -> free_of cd (c :: w) = true ->
  (Z.of_nat i =? lastColIdx numCols)%Z = false ->
  Turn (mkState NoCol p rws [] rw i o0) =
  Continue (mkState Unquoted (-1) rws (slice text p (-1)) rw i o0).
Proof.
  intros HA Hq Hrd Hfree Hi.
  assert (Hcd : c <> cd) by exact (Forall_inv (free_of_Forall cd _ Hfree)).
  unfold turn, unstarted, in_column. cbn [inCol pos set_inCol].
  rewrite (charCodeAt_At HA).
  rewrite ceq_quote, ceq_cd, ceq_rd, (eqb_neq_false Hq).
  rewrite (eqb_neq_false Hcd), (eqb_neq_false Hrd).
  cbn [orb inCol colIdx pos v set_pos set_v set_inCol rows row out app].
  rewrite ceq_cd, ceq_rd, (eqb_neq_false Hcd), (eqb_neq_false Hrd).
  cbn [orb inCol colIdx pos v set_pos set_v set_inCol rows row out app].
  rewrite Hi, (indexOf_At [cd] HA), (find_free cd _ Hfree). reflexivity.
Qed.

(** The turn at position -1: the scan for the column delimiter starts
    over at the head of the text. *)
Lemma turn_back (rws : list Row) (v0 : jsstring) (rw : Row) (i : nat) (o0 : Calls) :
  (Z.of_nat i =? lastColIdx numCols)%Z = false ->
  Turn (mkState Unquoted (-1) rws v0 rw i o0) =
  Continue (mkState Unquoted (indexOf text [cd] 0) rws
                    (v0 ++ slice text (-1) (indexOf text [cd] 0)) rw i o0).
Proof.
  intros Hi. unfold turn, unstarted, in_column. cbn [inCol pos].
  change (charCodeAt text (-1)) with (@None ascii). cbn [code_eq orb].
  cbn [orb inCol colIdx pos v set_pos set_v set_inCol rows row out].
  rewrite Hi, indexOf_before. reflexivity.
Qed.

Lemma endPos_back (c : ascii) (w : jsstring) (p : Z) :
  At text p (c :: w) -> (-1 <=? endPos text)%Z = true.
Proof.
  intros HA. apply At_length in HA. pose proof (At_nonneg (text := text)) as _.
  unfold endPos. apply Z.leb_le. cbn [length] in HA. lia.
Qed.

(** No column delimiter anywhere: the position stays at -1. *)
Lemma stuck_back (n : nat) :
  forall (rws : list Row) (v0 : jsstring) (rw : Row) (i : nat) (o0 : Calls),
  text <> [] -> free_of cd text = true ->
  (Z.of_nat i =? lastColIdx numCols)%Z = false ->
  stuck n (mkState Unquoted (-1) rws v0 rw i o0).
Proof.
  induction n as [|n IH]; intros rws v0 rw i o0 Hne Hfree Hi; [apply stuck_0|].
  apply (stuck_step n (mkState Unquoted (-1) rws v0 rw i o0)
           (mkState Unquoted (-1) rws (v0 ++ slice text (-1) (-1)) rw i o0)).
  - cbn [pos]. unfold endPos. apply Z.leb_le. destruct text; [congruence|].
    cbn [length]. lia.
  - rewrite (turn_back rws v0 rw i o0 Hi).
    rewrite (indexOf_At [cd] (At_start text)), (find_free cd _ Hfree). reflexivity.
  - apply IH; assumption.
Qed.

End Machine.

(** The first field of the text. *)
Definition first_field (rs : list (list Field)) : Field :=
  hd (Plain []) (hd [] rs).

(** From the head of what follows the rows, the parse does not return:
    by induction on the fuel, for every row kept and call made. *)
Lemma stuck_short (text : jsstring) (cd rd : ascii) (rdt : jsstring) (numCols : nat)
  (rs : list (list Field)) (c : ascii) (w : jsstring) :
  cd <> dq -> rd <> dq -> cd <> rd ->
  text = render cd (rd :: rdt) rs ++ c :: w ->
  2 <= numCols ->
  forallb (loose_row_ok cd rd numCols) rs = true ->
  free_of cd (raw (first_field rs)) = true ->
  c <> dq -> c <> rd -> free_of cd (c :: w) = true ->
  forall (n : nat) (rws : list Row) (o0 : Calls),
  stuck text cd rd rdt numCols n
        (mkState NoCol (Z.of_nat (length (render cd (rd :: rdt) rs))) rws []
                 (Array numCols) 0 o0).
Proof.
  intros H1 H2 H3 Etext Hn Hrs Hf1 Hq Hrd Hfree.
  assert (HA : At text (Z.of_nat (length (render cd (rd :: rdt) rs))) (c :: w)).
  { exists (render cd (rd :: rdt) rs). split; [exact Etext | reflexivity]. }
  assert (Hi : (Z.of_nat 0 =? lastColIdx numCols)%Z = false)
    by (unfold lastColIdx; apply Z.eqb_neq; lia).
  induction n as [|n IH]; intros rws o0; [apply stuck_0|].
  eapply (stuck_step text cd rd rdt numCols n);
    [exact (At_endPos text _ c w HA)
    | exact (turn_lost text cd rd rdt numCols c w _ rws _ 0 o0 HA Hq Hrd Hfree Hi) |].
  destruct rs as [|r1 rs].
  - (* no row at all: the text holds no column delimiter *)
    cbn [render flat_map app] in Etext.
    apply stuck_back; [rewrite Etext; discriminate | now rewrite Etext | exact Hi].
  - cbn [forallb] in Hrs. apply andb_true_iff in Hrs as [Hr1 Hrs].
    unfold loose_row_ok in Hr1. apply andb_true_iff in Hr1 as [Hlen Hc1].
    apply Nat.eqb_eq in Hlen.
    destruct r1 as [|f1 [|f2 fs]]; [discriminate | cbn [length] in Hlen; lia |].
    cbn [first_field hd] in Hf1.
    change (cells_ok cd rd (f1 :: f2 :: fs))
      with (inner_ok cd rd f1 && cells_ok cd rd (f2 :: fs)) in Hc1.
    apply andb_true_iff in Hc1 as [_ Hc1].
    set (after := c :: w) in *.
    assert (Et : text = raw f1 ++ cd :: raw_row cd (f2 :: fs) ++ (rd :: rdt)
                        ++ render cd (rd :: rdt) rs ++ after).
    { rewrite Etext, render_cons, raw_row_cons, <- ?app_assoc. cbn [app].
      now rewrite <- ?app_assoc. }
    assert (HA1 : At text 0 (raw f1 ++ cd :: raw_row cd (f2 :: fs) ++ (rd :: rdt)
                               ++ render cd (rd :: rdt) rs ++ after))
      by (rewrite <- Et; apply At_start).
    assert (Hp1 : indexOf text [cd] 0 = Z.of_nat (length (raw f1))).
    { rewrite (scan_col text cd 0 (raw f1) _ HA1 (free_of_Forall cd _ Hf1)). lia. }
    pose proof (At_app (raw f1) _ HA1) as HA2. cbn [Z.add] in HA2.
    eapply (stuck_turn text cd rd rdt numCols n);
      [exact (endPos_back text c w _ HA)
      | exact (turn_back text cd rd rdt numCols rws _ _ 0 o0 Hi)
      | rewrite Hp1; cbn [pos]; lia |].
    rewrite Hp1.
    set (vB := (_ ++ slice text (-1) _)).
    apply (Q_cd text cd rd rdt numCols H1 H2 H3 (stuck text cd rd rdt numCols n)
             (stuck_turn text cd rd rdt numCols n) Unquoted _ _ rws vB _ 0 o0 HA2);
      [discriminate|].
    pose proof (Q_cells text cd rd rdt numCols H1 H2 H3 (stuck text cd rd rdt numCols n)
                  (stuck_turn text cd rd rdt numCols n) (f2 :: fs) [vB]
                  (Z.of_nat (length (raw f1)) + 1) rws o0
                  (render cd (rd :: rdt) rs ++ after) Hc1) as HC.
    cbn [length map app] in HC. cbn [length] in Hlen.
    assert (Erow : array_set (@Array jsstring numCols) 0 vB =
                   Some vB :: repeat None (S (length fs)))
      by (rewrite <- Hlen; reflexivity).
    rewrite Erow.
    apply HC; [lia | exact (At_cons HA2) |].
    unfold next_row. cbv zeta.
    set (K := keep _ _).
    apply (Q_rows text cd rd rdt numCols H1 H2 H3 (stuck text cd rd rdt numCols n)
             (stuck_turn text cd rd rdt numCols n) rs _ (fst K) (snd K) after Hrs).
    + apply (At_app (rd :: rdt)).
      replace (Z.of_nat (length (raw f1)) + 1 +
               Z.of_nat (length (raw_row cd (f2 :: fs))))%Z
        with (0 + Z.of_nat (length (raw f1 ++ cd :: raw_row cd (f2 :: fs))))%Z
        by (rewrite length_app; cbn [length]; lia).
      apply At_app. rewrite <- app_assoc. exact HA1.
    + cbv zeta.
      replace (Z.of_nat (length (raw f1)) + 1 +
               Z.of_nat (length (raw_row cd (f2 :: fs))) +
               Z.of_nat (length (rd :: rdt)) +
               Z.of_nat (length (render cd (rd :: rdt) rs)))%Z
        with (Z.of_nat (length (render cd (rd :: rdt) ((f1 :: f2 :: fs) :: rs)))).
      * apply IH.
      * rewrite render_cons, raw_row_cons, ?length_app. cbn [length].
        rewrite ?length_app. cbn [length]. lia.
Qed.

(** With quoting on and no limit, on a text that goes on behind whole
    rows with a plain field, when no column delimiter stands in that
    field or behind it: [parse] of src with two columns or more does not
    return, on any fuel.  The scan for the column delimiter answers -1,
    which becomes the position; from there the scan starts over at the
    head of the text and the rows are read again, without end. *)
Lemma src_short_row (cd rd : ascii) (rdt : jsstring) (schema : Schema)
  (mc : option nat) (rs : list (list Field)) (c : ascii) (w : jsstring) :
  let numCols := or_default mc (length (cols_names schema)) in
  delims_ok cd rd = true ->
  s_quote schema <> [] ->
  cols_delim schema = Some [cd] ->
  rows_delim schema = rd :: rdt ->
  2 <= numCols ->
  forallb (loose_row_ok cd rd numCols) rs = true ->
  free_of cd (raw (first_field rs)) = true ->
  c <> dq -> c <> rd -> free_of cd (c :: w) = true ->
  forall fuel,
  parse fuel (render cd (rd :: rdt) rs ++ c :: w) schema None mc = OutOfFuel.
Proof.
  intros numCols Hd Hq Hcd Hrd Hn Hrs Hf1 Hcq Hcrd Hfree fuel.
  destruct (delims_ok_neq _ _ Hd) as (H1 & H2 & H3).
  unfold parse. rewrite Hcd, Hrd. destruct (s_quote schema); [congruence|].
  fold numCols.
  replace (match mc with Some _ => false | None => false end) with false
    by (destruct mc; reflexivity).
  set (text := render cd (rd :: rdt) rs ++ c :: w).
  assert (HS : stuck text cd rd rdt numCols fuel (init numCols)).
  { apply (Q_rows text cd rd rdt numCols H1 H2 H3 (stuck text cd rd rdt numCols fuel)
             (stuck_turn text cd rd rdt numCols fuel) rs 0 [] [] (c :: w) Hrs
             (At_start text)).
    cbv zeta. cbn [Z.add].
    apply (stuck_short text cd rd rdt numCols rs c w H1 H2 H3 eq_refl Hn Hrs Hf1
             Hcq Hcrd Hfree). }
  apply HS. apply le_n.
Qed.

End SrcShortRow.

(** ** The state machine of [parse] (dist) without a chunk limit, turn by turn *)

Module DistLoose.
Import JSFacts SplitFacts ArrayFacts TextFacts.
Import Dist Text DistQuoted Loose.

(** More fuel does not change what the inner loop of the quoted state
    answers. *)
Lemma quoted_loop_more (text : jsstring) (f : nat) :
  forall (st s : State) (c : option ascii),
  quoted_loop text f st c = Some s -> quoted_loop text (S f) st c = Some s.
Proof.
  induction f as [|f IH]; intros st s c H; [discriminate|].
  rewrite quoted_loop_S in H. rewrite quoted_loop_S.
  destruct (code_eq c quoteChar).
  - cbv zeta in *. destruct (code_eq (charCodeAt text (pos st + 1)) quoteChar).
    + apply IH. exact H.
    + exact H.
  - cbv zeta in *. apply IH. exact H.
Qed.

Lemma quoted_loop_le (text : jsstring) (f g : nat) (st s : State) (c : option ascii) :
  quoted_loop text f st c = Some s -> f <= g -> quoted_loop text g st c = Some s.
Proof.
  intros H Hle. induction Hle as [|g _ IH]; [exact H|].
  apply quoted_loop_more. exact IH.
Qed.

(** What the end of a row does to the rows kept, the number of the chunk
    and the calls made: a chunk that is full goes to the callback. *)
Definition d_keep (chunkSize : nat) (acc : list Row * nat * Calls) (full : Row)
  : list Row * nat * Calls :=
  let '(rws, nc, o0) := acc in
  let rows1 := rws ++ [full] in
  if length rows1 =? chunkSize then ([], S nc, o0 ++ [(rows1, nc)])
  else (rows1, nc, o0).

Definition d_kept (chunkSize : nat) (rws : list Row) (nc : nat) (o0 : Calls)
  (l : list Row) : list Row * nat * Calls :=
  fold_left (d_keep chunkSize) l (rws, nc, o0).

Lemma d_kept_rows (chunkSize : nat) (l : list Row) :
  forall rws nc o0,
  let K := d_kept chunkSize rws nc o0 l in
  concat (map fst (snd K)) ++ fst (fst K) = concat (map fst o0) ++ rws ++ l.
Proof.
  unfold d_kept.
  induction l as [|x l IH]; intros rws nc o0; cbn [fold_left fst snd].
  - now rewrite app_nil_r.
  - destruct (d_keep chunkSize (rws, nc, o0) x) as [[rws1 nc1] o1] eqn:E.
    cbv zeta in IH. rewrite IH.
    unfold d_keep in E.
    destruct (_ =? _); inversion E; subst;
      rewrite ?map_app, ?concat_app; cbn [map fst concat app];
      rewrite ?app_nil_r, <- ?app_assoc; reflexivity.
Qed.

Section Machine.

Variables (text : jsstring) (cd rd : ascii) (rdt : jsstring).
Variables (numCols chunkSize : nat).
Hypothesis cd_dq : cd <> dq.
Hypothesis rd_dq : rd <> dq.
Hypothesis cd_rd : cd <> rd.

Local Abbreviation rowDelim := (rd :: rdt).
Local Abbreviation Run := (loop text [cd] rowDelim numCols chunkSize None false).
Local Abbreviation Turn := (turn text [cd] rowDelim numCols chunkSize None false).

(** The state behind the end of a row. *)
Definition d_next_row (p : Z) (rws : list Row) (full : Row) (nc : nat) (o0 : Calls)
  : State :=
  let K := d_keep chunkSize (rws, nc, o0) full in
  mkState NoCol (p + Z.of_nat (length rowDelim)) (fst (fst K)) [] (Array numCols) 0
          (snd (fst K)) (snd K).

Lemma d_push_row_next (p : Z) (rws : list Row) (full : Row) (nc : nat) (o0 : Calls) :
  d_push_row rd rdt numCols chunkSize None p rws full nc o0 =
  Continue (d_next_row p rws full nc o0).
Proof.
  unfold d_push_row, d_next_row, d_keep. cbn [limit_hit]. cbv zeta.
  destruct (_ =? _); reflexivity.
Qed.

Lemma d_pos_next_row (p : Z) (rws : list Row) (full : Row) (nc : nat) (o0 : Calls) :
  pos (d_next_row p rws full nc o0) = (p + Z.of_nat (length rowDelim))%Z.
Proof. reflexivity. Qed.

(** A property of states that goes backwards over every turn that
    moves the position forwards; a turn may give out on little fuel, in
    its inner loop. *)
Variable Q : State -> Prop.
Hypothesis Q_turn : forall st st1,
  (pos st <=? endPos text)%Z = true ->
  (forall f, Turn f st = Continue st1 \/ Turn f st = Spin) ->
  (forall f, (Z.of_nat f >= Z.of_nat (length text) - pos st)%Z ->
             Turn f st = Continue st1) ->
  (pos st < pos st1)%Z -> Q st1 -> Q st.

Lemma Q_simple (st st1 : State) :
  (pos st <=? endPos text)%Z = true ->
  (forall f, Turn f st = Continue st1) ->
  (pos st < pos st1)%Z -> Q st1 -> Q st.
Proof.
  intros He HT Hp HQ. apply (Q_turn st st1 He); auto.
Qed.

Lemma d_Q_cd (ic : InCol) (rest : jsstring) (p : Z) (rws : list Row)
  (v0 : jsstring) (rw : Row) (i nc : nat) (o0 : Calls) :
  At text p (cd :: rest) -> ic <> Quoted ->
  Q (mkState NoCol (p + 1) rws [] (array_set rw i v0) (S i) nc o0) ->
  Q (mkState ic p rws v0 rw i nc o0).
Proof.
  intros HA Hic HQ.
  apply (Q_simple (mkState ic p rws v0 rw i nc o0)
                  (mkState NoCol (p + 1) rws [] (array_set rw i v0) (S i) nc o0));
    [exact (d_At_endPos text p cd rest HA) | | cbn [pos]; lia | exact HQ].
  intros f. destruct ic; [ | |congruence].
  - rewrite (d_turn_NoCol_delim text cd rd rdt numCols chunkSize None cd_dq rd_dq cd_rd
               f cd rest p rws v0 rw i nc o0 HA (or_introl eq_refl)).
    apply d_commit_cd. exact cd_rd.
  - rewrite (d_turn_Unquoted_delim text cd rd rdt numCols chunkSize None
               f cd rest p rws v0 rw i nc o0 HA (or_introl eq_refl)).
    apply d_commit_cd. exact cd_rd.
Qed.

Lemma d_Q_rd (ic : InCol) (rest : jsstring) (p : Z) (rws : list Row)
  (v0 : jsstring) (rw : Row) (i nc : nat) (o0 : Calls) :
  At text p (rd :: rest) -> ic <> Quoted ->
  Q (d_next_row p rws (array_set rw i v0) nc o0) ->
  Q (mkState ic p rws v0 rw i nc o0).
Proof.
  intros HA Hic HQ.
  apply (Q_simple (mkState ic p rws v0 rw i nc o0)
                  (d_next_row p rws (array_set rw i v0) nc o0));
    [exact (d_At_endPos text p rd rest HA) |
    | rewrite d_pos_next_row; cbn [pos length]; lia | exact HQ].
  intros f. destruct ic; [ | |congruence].
  - rewrite (d_turn_NoCol_delim text cd rd rdt numCols chunkSize None cd_dq rd_dq cd_rd
               f rd rest p rws v0 rw i nc o0 HA (or_intror eq_refl)).
    rewrite d_commit_rd. apply d_push_row_next.
  - rewrite (d_turn_Unquoted_delim text cd rd rdt numCols chunkSize None
               f rd rest p rws v0 rw i nc o0 HA (or_intror eq_refl)).
    rewrite d_commit_rd. apply d_push_row_next.
Qed.

(** The turn on an opening quote: its inner loop takes the whole field,
    or gives out. *)
Lemma turn_quoted_any (f : nat) (q rest : jsstring) (p : Z) (rws : list Row)
  (rw : Row) (i nc : nat) (o0 : Calls) :
  At text p (dq :: escape q ++ dq :: rest) -> d_no_quote_ahead rest ->
  Turn f (mkState NoCol p rws [] rw i nc o0) =
  Continue (mkState NoCol (p + 1 + Z.of_nat (length (escape q)) + 1) rws q rw i nc o0)
  \/ Turn f (mkState NoCol p rws [] rw i nc o0) = Spin.
Proof.
  intros HA Hq.
  pose proof (turn_quoted text cd rd rdt numCols chunkSize None
                (f + S (length (escape q))) q rest p rws rw i nc o0 HA Hq) as Hbig.
  specialize (Hbig ltac:(lia)).
  revert Hbig. unfold turn, unstarted. cbn [inCol pos set_inCol set_pos].
  rewrite (charCodeAt_At HA), d_ceq_quote, Ascii.eqb_refl.
  unfold in_column.
  unfold set_pos, set_inCol; cbn [inCol pos rows v row colIdx numChunks out].
  destruct (quoted_loop text f _ _) as [s|] eqn:E; [|now right].
  rewrite (quoted_loop_le text f (f + S (length (escape q))) _ s _ E) by lia.
  intros Hbig. now left.
Qed.

(** A quoted field, from its opening quote on. *)
Lemma d_Q_in_quotes (q rest : jsstring) (p : Z) (rws : list Row) (rw : Row)
  (i nc : nat) (o0 : Calls) :
  At text p (dq :: escape q ++ dq :: rest) -> d_no_quote_ahead rest ->
  Q (mkState NoCol (p + Z.of_nat (length (raw (InQuotes q)))) rws q rw i nc o0) ->
  Q (mkState NoCol p rws [] rw i nc o0).
Proof.
  intros HA Hq HQ.
  apply (Q_turn (mkState NoCol p rws [] rw i nc o0)
                (mkState NoCol (p + 1 + Z.of_nat (length (escape q)) + 1) rws q rw
                         i nc o0)).
  - exact (d_At_endPos text _ _ _ HA).
  - intros f. exact (turn_quoted_any f q rest p rws rw i nc o0 HA Hq).
  - intros f Hf.
    apply (turn_quoted text cd rd rdt numCols chunkSize None f q rest p rws rw i nc o0
             HA Hq).
    apply At_length in HA. cbn [length pos] in *. rewrite length_app in HA.
    cbn [length] in HA. lia.
  - cbn [pos]. lia.
  - cbn [raw length app] in HQ. rewrite length_app in HQ. cbn [length app] in *.
    replace (p + 1 + Z.of_nat (length (escape q)) + 1)%Z
      with (p + Z.of_nat (S (length (escape q) + 1)))%Z by lia.
    exact HQ.
Qed.

(** The first turn on a plain field with text in it, before the last
    column: the scan goes to the next column delimiter. *)
Lemma d_turn_plain_inner (f : nat) (c : ascii) (u r : jsstring) (p : Z)
  (rws : list Row) (rw : Row) (i nc : nat) (o0 : Calls) :
  At text p ((c :: u) ++ cd :: r) ->
  c <> dq -> c <> rd -> Forall (fun x => x <> cd) (c :: u) ->
  (Z.of_nat i =? lastColIdx numCols)%Z = false ->
  Turn f (mkState NoCol p rws [] rw i nc o0) =
  Continue (mkState Unquoted (p + Z.of_nat (length (c :: u))) rws (c :: u) rw i nc o0).
Proof.
  intros HA Hq Hrd Hcd Hi.
  unfold turn, unstarted, in_column. cbn [inCol pos set_inCol].
  rewrite (charCodeAt_At (c := c) (rest := u ++ cd :: r) HA).
  rewrite d_ceq_quote, d_ceq_cd, d_ceq_rd, (eqb_neq_false Hq).
  rewrite (eqb_neq_false (Forall_inv Hcd)), (eqb_neq_false Hrd).
  cbn [orb inCol colIdx pos v set_pos set_v set_inCol rows row out numChunks app].
  rewrite d_ceq_cd, d_ceq_rd.
  rewrite (eqb_neq_false (Forall_inv Hcd)), (eqb_neq_false Hrd).
  cbn [orb inCol colIdx pos v set_pos set_v set_inCol rows row out numChunks app].
  rewrite Hi.
  rewrite (d_scan_col text cd p (c :: u) r HA Hcd), (slice_At (c :: u) (cd :: r) HA).
  reflexivity.
Qed.

(** The same in the last column: the scan goes to the next row
    delimiter. *)
Lemma d_turn_plain_last (f : nat) (c : ascii) (u r : jsstring) (p : Z)
  (rws : list Row) (rw : Row) (i nc : nat) (o0 : Calls) :
  At text p ((c :: u) ++ rowDelim ++ r) ->
  c <> dq -> c <> cd -> Forall (fun x => x <> rd) (c :: u) ->
  (Z.of_nat i =? lastColIdx numCols)%Z = true ->
  Turn f (mkState NoCol p rws [] rw i nc o0) =
  Continue (mkState Unquoted (p + Z.of_nat (length (c :: u))) rws (c :: u) rw i nc o0).
Proof.
  intros HA Hq Hcd Hrd Hi.
  unfold turn, unstarted, in_column. cbn [inCol pos set_inCol].
  rewrite (charCodeAt_At (c := c) (rest := u ++ rowDelim ++ r) HA).
  rewrite d_ceq_quote, d_ceq_cd, d_ceq_rd, (eqb_neq_false Hq).
  rewrite (eqb_neq_false Hcd), (eqb_neq_false (Forall_inv Hrd)).
  cbn [orb inCol colIdx pos v set_pos set_v set_inCol rows row out numChunks app].
  rewrite d_ceq_cd, d_ceq_rd.
  rewrite (eqb_neq_false Hcd), (eqb_neq_false (Forall_inv Hrd)).
  cbn [orb inCol colIdx pos v set_pos set_v set_inCol rows row out numChunks app].
  rewrite Hi.
  rewrite (d_scan_row text rd rdt p (c :: u) r HA Hrd).
  destruct (Z.eqb_spec (p + Z.of_nat (length (c :: u))) (-1)) as [E|_];
    [pose proof (At_nonneg HA); lia|].
  rewrite (slice_At (c :: u) (rowDelim ++ r) HA). reflexivity.
Qed.

(** One field before the last column, and the column delimiter behind
    it. *)
Lemma d_Q_inner (fd : Field) (after : jsstring) (p : Z) (rws : list Row) (rw : Row)
  (i nc : nat) (o0 : Calls) :
  inner_ok cd rd fd = true ->
  At text p (raw fd ++ cd :: after) ->
  (Z.of_nat i =? lastColIdx numCols)%Z = false ->
  Q (mkState NoCol (p + Z.of_nat (length (raw fd)) + 1) rws []
             (array_set rw i (value fd)) (S i) nc o0) ->
  Q (mkState NoCol p rws [] rw i nc o0).
Proof.
  intros Hok HA Hi HQ.
  destruct fd as [[|c u] | q]; cbn [raw value] in *.
  - cbn [app length] in *. rewrite Z.add_0_r in HQ.
    apply (d_Q_cd NoCol after p rws [] rw i nc o0 HA); [discriminate | exact HQ].
  - cbn [inner_ok] in Hok. apply andb_true_iff in Hok as [Hs Hf].
    apply starts_free_2 in Hs as [Hq Hrd]. apply free_of_Forall in Hf.
    pose proof (At_app (c :: u) _ HA) as HA2.
    apply (Q_simple (mkState NoCol p rws [] rw i nc o0) _
             (d_At_endPos text p c _ HA)
             (fun f => d_turn_plain_inner f c u after p rws rw i nc o0 HA Hq Hrd Hf Hi));
      [cbn [pos length]; lia|].
    apply (d_Q_cd Unquoted after _ rws (c :: u) rw i nc o0 HA2); [discriminate | exact HQ].
  - pose proof HA as HA0. cbn [app] in HA. rewrite <- app_assoc in HA. cbn [app] in HA.
    apply (d_Q_in_quotes q (cd :: after) p rws rw i nc o0 HA cd_dq).
    assert (HA2 : At text (p + Z.of_nat (length (raw (InQuotes q)))) (cd :: after)).
    { exact (At_app (raw (InQuotes q)) _ HA0). }
    apply (d_Q_cd NoCol after _ rws q rw i nc o0 HA2); [discriminate | exact HQ].
Qed.

(** The field of the last column, and the row delimiter behind it. *)
Lemma d_Q_last (fd : Field) (after : jsstring) (p : Z) (rws : list Row) (rw : Row)
  (i nc : nat) (o0 : Calls) :
  last_ok cd rd fd = true ->
  At text p (raw fd ++ rowDelim ++ after) ->
  (Z.of_nat i =? lastColIdx numCols)%Z = true ->
  Q (d_next_row (p + Z.of_nat (length (raw fd))) rws (array_set rw i (value fd)) nc o0) ->
  Q (mkState NoCol p rws [] rw i nc o0).
Proof.
  intros Hok HA Hi HQ.
  destruct fd as [[|c u] | q]; cbn [raw value] in *.
  - cbn [app length] in *. rewrite Z.add_0_r in HQ.
    apply (d_Q_rd NoCol (rdt ++ after) p rws [] rw i nc o0 HA); [discriminate | exact HQ].
  - cbn [last_ok] in Hok. apply andb_true_iff in Hok as [Hs Hf].
    apply starts_free_2 in Hs as [Hq Hcd]. apply free_of_Forall in Hf.
    pose proof (At_app (c :: u) _ HA) as HA2.
    apply (Q_simple (mkState NoCol p rws [] rw i nc o0) _
             (d_At_endPos text p c _ HA)
             (fun f => d_turn_plain_last f c u after p rws rw i nc o0 HA Hq Hcd Hf Hi));
      [cbn [pos length]; lia|].
    apply (d_Q_rd Unquoted (rdt ++ after) _ rws (c :: u) rw i nc o0 HA2);
      [discriminate | exact HQ].
  - pose proof HA as HA0. cbn [app] in HA. rewrite <- app_assoc in HA. cbn [app] in HA.
    apply (d_Q_in_quotes q (rowDelim ++ after) p rws rw i nc o0 HA rd_dq).
    assert (HA2 : At text (p + Z.of_nat (length (raw (InQuotes q))))
                     (rowDelim ++ after)).
    { exact (At_app (raw (InQuotes q)) _ HA0). }
    apply (d_Q_rd NoCol (rdt ++ after) _ rws q rw i nc o0 HA2); [discriminate | exact HQ].
Qed.

(** The fields of a row from some column on; [xs] are the values already
    stored in the row buffer. *)
Lemma d_Q_cells (fs : list Field) :
  forall (xs : list jsstring) (p : Z) (rws : list Row) (nc : nat) (o0 : Calls)
         (after : jsstring),
  cells_ok cd rd fs = true ->
  length xs + length fs = numCols ->
  At text p (raw_row cd fs ++ rowDelim ++ after) ->
  Q (d_next_row (p + Z.of_nat (length (raw_row cd fs))) rws
              (map Some (xs ++ map value fs)) nc o0) ->
  Q (mkState NoCol p rws [] (map Some xs ++ repeat None (length fs)) (length xs)
             nc o0).
Proof.
  induction fs as [|f fs IH]; intros xs p rws nc o0 after Hok Hlen HA HQ;
    [discriminate|].
  destruct fs as [|f2 fs].
  - cbn [cells_ok] in Hok. rewrite d_raw_row_one in *. cbn [length] in Hlen.
    apply (d_Q_last f after p rws _ (length xs) nc o0 Hok HA).
    + unfold lastColIdx. apply Z.eqb_eq. lia.
    + cbn [length map] in *.
      rewrite (array_set_fill xs 0 (value f)). cbn [repeat]. now rewrite app_nil_r.
  - change (cells_ok cd rd (f :: f2 :: fs))
      with (inner_ok cd rd f && cells_ok cd rd (f2 :: fs)) in Hok.
    apply andb_true_iff in Hok as [Hokf Hok].
    rewrite d_raw_row_cons in *. rewrite <- app_assoc in HA. cbn [app] in HA.
    rewrite length_app in HQ. cbn [length] in HQ, Hlen.
    apply (d_Q_inner f (raw_row cd (f2 :: fs) ++ rowDelim ++ after) p rws _
             (length xs) nc o0 Hokf HA).
    + unfold lastColIdx. apply Z.eqb_neq. lia.
    + change (length (f :: f2 :: fs)) with (S (length (f2 :: fs))).
      rewrite (array_set_fill xs (length (f2 :: fs)) (value f)).
      replace (S (length xs)) with (length (xs ++ [value f]))
        by (rewrite length_app; cbn [length]; lia).
      apply (IH (xs ++ [value f]) _ rws nc o0 after Hok).
      * rewrite length_app. cbn [length] in *. lia.
      * apply (At_cons (c := cd)). exact (At_app (raw f) _ HA).
      * rewrite <- app_assoc. cbn [map app].
        replace (p + Z.of_nat (length (raw f)) + 1 +
                 Z.of_nat (length (raw_row cd (f2 :: fs))))%Z
          with (p + Z.of_nat (length (raw f) + S (length (raw_row cd (f2 :: fs)))))%Z
          by lia.
        exact HQ.
Qed.

(** A whole row, from its first character to behind its delimiter. *)
Lemma d_Q_row (r : list Field) (p : Z) (rws : list Row) (nc : nat) (o0 : Calls)
  (after : jsstring) :
  loose_row_ok cd rd numCols r = true ->
  At text p (raw_row cd r ++ rowDelim ++ after) ->
  Q (d_next_row (p + Z.of_nat (length (raw_row cd r))) rws (values numCols r) nc o0) ->
  Q (mkState NoCol p rws [] (Array numCols) 0 nc o0).
Proof.
  intros Hok HA HQ. unfold loose_row_ok in Hok.
  apply andb_true_iff in Hok as [Hlen Hok]. apply Nat.eqb_eq in Hlen.
  pose proof (d_Q_cells r [] p rws nc o0 after Hok Hlen HA) as H.
  cbn [app length map] in H. rewrite Hlen in H. apply H.
  rewrite <- (d_values_full numCols r Hlen). exact HQ.
Qed.

(** Rows: the state behind them holds them, in the calls made or in the
    rows kept. *)
Lemma d_Q_rows (rs : list (list Field)) :
  forall (p : Z) (rws : list Row) (nc : nat) (o0 : Calls) (after : jsstring),
  forallb (loose_row_ok cd rd numCols) rs = true ->
  At text p (render cd rowDelim rs ++ after) ->
  let K := d_kept chunkSize rws nc o0 (map (values numCols) rs) in
  Q (mkState NoCol (p + Z.of_nat (length (render cd rowDelim rs)))
             (fst (fst K)) [] (Array numCols) 0 (snd (fst K)) (snd K)) ->
  Q (mkState NoCol p rws [] (Array numCols) 0 nc o0).
Proof.
  induction rs as [|r rs IH]; intros p rws nc o0 after Hok HA K HQ.
  - subst K. cbn [render flat_map length map d_kept fold_left fst snd] in HQ.
    now rewrite Z.add_0_r in HQ.
  - cbn [forallb] in Hok. apply andb_true_iff in Hok as [Hokr Hok].
    rewrite d_render_cons in *. rewrite <- !app_assoc in HA.
    set (p1 := (p + Z.of_nat (length (raw_row cd r)))%Z) in *.
    assert (HA1 : At text (p1 + Z.of_nat (length rowDelim))
                     (render cd rowDelim rs ++ after)).
    { apply (At_app rowDelim). exact (At_app (raw_row cd r) _ HA). }
    apply (d_Q_row r p rws nc o0 (render cd rowDelim rs ++ after) Hokr HA).
    fold p1. unfold d_next_row.
    apply (IH _ _ _ _ after Hok HA1). cbv zeta.
    subst K. cbn [map d_kept fold_left] in HQ. unfold d_kept.
    rewrite !length_app in HQ.
    replace (p + Z.of_nat (length (raw_row cd r) + length rowDelim +
                           length (render cd rowDelim rs)))%Z
      with (p1 + Z.of_nat (length rowDelim) +
            Z.of_nat (length (render cd rowDelim rs)))%Z in HQ by lia.
    destruct (d_keep chunkSize (rws, nc, o0) (values numCols r)) as [[rws1 nc1] o1].
    exact HQ.
Qed.

End Machine.

(** From [st] on the parse returns with the calls [o], on any fuel that
    covers the rest of the text. *)
Definition d_ends (text : jsstring) (cd rd : ascii) (rdt : jsstring)
  (numCols chunkSize : nat) (o : Calls) (st : State) : Prop :=
  forall fuel, (Z.of_nat fuel > Z.of_nat (length text) - pos st)%Z ->
  loop text [cd] (rd :: rdt) numCols chunkSize None false fuel st = Ok o.

Lemma d_ends_turn (text : jsstring) (cd rd : ascii) (rdt : jsstring)
  (numCols chunkSize : nat) (o : Calls) (st st1 : State) :
  (pos st <=? endPos text)%Z = true ->
  (forall f, turn text [cd] (rd :: rdt) numCols chunkSize None false f st = Continue st1
             \/ turn text [cd] (rd :: rdt) numCols chunkSize None false f st = Spin) ->
  (forall f, (Z.of_nat f >= Z.of_nat (length text) - pos st)%Z ->
             turn text [cd] (rd :: rdt) numCols chunkSize None false f st = Continue st1) ->
  (pos st < pos st1)%Z ->
  d_ends text cd rd rdt numCols chunkSize o st1 -> d_ends text cd rd rdt numCols chunkSize o st.
Proof.
  intros He _ HT Hp H1 fuel Hf.
  pose proof He as He'. apply Z.leb_le in He'. unfold endPos in He'.
  destruct fuel as [|fuel]; [lia|].
  rewrite d_loop_S, He, HT by lia. apply H1. lia.
Qed.

Lemma d_ends_exit (text : jsstring) (cd rd : ascii) (rdt : jsstring)
  (numCols chunkSize : nat) (st : State) :
  pos st = Z.of_nat (length text) ->
  d_ends text cd rd rdt numCols chunkSize (flush st) st.
Proof.
  intros Hp fuel Hf. destruct fuel as [|fuel]; [lia|].
  rewrite d_loop_S. unfold endPos.
  destruct (Z.leb_spec (pos st) (Z.of_nat (length text) - 1)); [lia | reflexivity].
Qed.

(** The quoted path without a chunk limit on rows of [numCols] fields
    each, as wide as the tokenizer reads them, for every chunk size: the
    values of the fields come out, row by row, and one row more for the
    empty text behind the last row delimiter. *)
Lemma d_parse_loose (F : Type) (cd rd : ascii) (rdt : jsstring) (schema : Schema F)
  (chunkSize : nat) (mc : option nat) (rs : list (list Field)) (fuel : nat) :
  let numCols := or_default mc (length (cols_names schema)) in
  let text := render cd (rd :: rdt) rs in
  delims_ok cd rd = true ->
  s_quote schema <> None ->
  cols_delim schema = Some [cd] ->
  rows_delim schema = rd :: rdt ->
  forallb (loose_row_ok cd rd numCols) rs = true ->
  length text < fuel ->
  exists calls chunk nc,
    parse fuel text schema chunkSize None mc =
    Ok (calls ++ [(chunk ++ [values numCols [Plain []]], nc)]) /\
    concat (map fst calls) ++ chunk = map (values numCols) rs.
Proof.
  intros numCols text Hd Hq Hcd Hrd Hrs Hfuel.
  destruct (delims_ok_neq _ _ Hd) as (H1 & H2 & H3).
  unfold parse. rewrite Hcd, Hrd. destruct (s_quote schema); [|congruence].
  fold numCols.
  replace (match mc with Some _ => false | None => false end) with false
    by (destruct mc; reflexivity).
  set (K := d_kept chunkSize [] 0 [] (map (values numCols) rs)).
  exists (snd K), (fst (fst K)), (snd (fst K)).
  split; [|exact (d_kept_rows chunkSize (map (values numCols) rs) [] 0 [])].
  set (o := snd K ++ [(fst (fst K) ++ [values numCols [Plain []]], snd (fst K))]).
  pose proof (d_Q_rows text cd rd rdt numCols chunkSize H1 H2 H3
                (d_ends text cd rd rdt numCols chunkSize o)
                (d_ends_turn text cd rd rdt numCols chunkSize o) rs 0 [] 0 [] []) as H.
  rewrite app_nil_r in H. specialize (H Hrs (At_start text)). cbv zeta in H.
  apply H; [|unfold init; cbn [pos]; lia].
  fold K.
  replace o with (flush (mkState NoCol (0 + Z.of_nat (length text)) (fst (fst K)) []
                                 (Array numCols) 0 (snd (fst K)) (snd K))).
  - apply d_ends_exit. cbn [pos]. subst text. lia.
  - unfold flush, o. cbn [out rows row colIdx v numChunks]. do 4 f_equal.
    unfold values. cbn [map value length app].
    destruct numCols as [|k]; cbn; rewrite ?Nat.sub_0_r; reflexivity.
Qed.

End DistLoose.

(** ** A row that stops short, with no column delimiter behind it (dist) *)

Module DistShortRow.
Import JSFacts SplitFacts ArrayFacts TextFacts.
Import Dist Text DistQuoted Loose DistLoose.
Import SrcShortRow.

Section Machine.

Variables (text : jsstring) (cd rd : ascii) (rdt : jsstring).
Variables (numCols chunkSize : nat).
Hypothesis cd_dq : cd <> dq.
Hypothesis rd_dq : rd <> dq.
Hypothesis cd_rd : cd <> rd.

Local Abbreviation rowDelim := (rd :: rdt).
Local Abbreviation Run := (loop text [cd] rowDelim numCols chunkSize None false).
Local Abbreviation Turn := (turn text [cd] rowDelim numCols chunkSize None false).

(** On fuel up to [n] the parse does not return from [st]. *)
Definition d_stuck (n : nat) (st : State) : Prop :=
  forall fuel, fuel <= n -> Run fuel st = OutOfFuel.

Lemma d_stuck_0 (st : State) : d_stuck 0 st.
Proof. intros fuel Hf. replace fuel with 0 by lia. reflexivity. Qed.

Lemma d_stuck_step (n : nat) (st st1 : State) :
  (pos st <=? endPos text)%Z = true -> (forall f, Turn f st = Continue st1) ->
  d_stuck n st1 -> d_stuck (S n) st.
Proof.
  intros He HT H1 fuel Hf. destruct fuel as [|fuel]; [reflexivity|].
  rewrite d_loop_S, He, HT. apply H1. lia.
Qed.

Lemma d_stuck_turn (n : nat) (st st1 : State) :
  (pos st <=? endPos text)%Z = true ->
  (forall f, Turn f st = Continue st1 \/ Turn f st = Spin) ->
  (forall f, (Z.of_nat f >= Z.of_nat (length text) - pos st)%Z ->
             Turn f st = Continue st1) ->
  (pos st < pos st1)%Z -> d_stuck n st1 -> d_stuck n st.
Proof.
  intros He HT _ _ H1 fuel Hf. destruct fuel as [|fuel]; [reflexivity|].
  rewrite d_loop_S, He. destruct (HT fuel) as [-> | ->]; [|reflexivity].
  apply H1. lia.
Qed.

Lemma d_turn_lost (f : nat) (c : ascii) (w : jsstring) (p : Z) (rws : list Row)
  (rw : Row) (i nc : nat) (o0 : Calls) :
  At text p (c :: w) ->
  c <> dq -> c <> rd -> free_of cd (c :: w) = true ->
  (Z.of_nat i =? lastColIdx numCols)%Z = false ->
  Turn f (mkState NoCol p rws [] rw i nc o0) =
  Continue (mkState Unquoted (-1) rws (slice text p (-1)) rw i nc o0).
Proof.
  intros HA Hq Hrd Hfree Hi.
  assert (Hcd : c <> cd) by exact (Forall_inv (free_of_Forall cd _ Hfree)).
  unfold turn, unstarted, in_column. cbn [inCol pos set_inCol].
  rewrite (charCodeAt_At HA).
  rewrite d_ceq_quote, d_ceq_cd, d_ceq_rd, (eqb_neq_false Hq).
  rewrite (eqb_neq_false Hcd), (eqb_neq_false Hrd).
  cbn [orb inCol colIdx pos v set_pos set_v set_inCol rows row out numChunks app].
  rewrite d_ceq_cd, d_ceq_rd, (eqb_neq_false Hcd), (eqb_neq_false Hrd).
  cbn [orb inCol colIdx pos v set_pos set_v set_inCol rows row out numChunks app].
  rewrite Hi, (indexOf_At [cd] HA), (find_free cd _ Hfree). reflexivity.
Qed.

Lemma d_turn_back (f : nat) (rws : list Row) (v0 : jsstring) (rw : Row) (i nc : nat)
  (o0 : Calls) :
  (Z.of_nat i =? lastColIdx numCols)%Z = false ->
  Turn f (mkState Unquoted (-1) rws v0 rw i nc o0) =
  Continue (mkState Unquoted (indexOf text [cd] 0) rws
                    (v0 ++ slice text (-1) (indexOf text [cd] 0)) rw i nc o0).
Proof.
  intros Hi. unfold turn, unstarted, in_column. cbn [inCol pos].
  change (charCodeAt text (-1)) with (@None ascii). cbn [code_eq orb].
  cbn [orb inCol colIdx pos v set_pos set_v set_inCol rows row out numChunks].
  rewrite Hi, indexOf_before. reflexivity.
Qed.

Lemma d_endPos_back (c : ascii) (w : jsstring) (p : Z) :
  At text p (c :: w) -> (-1 <=? endPos text)%Z = true.
Proof.
  intros HA. apply At_length in HA.
  unfold endPos. apply Z.leb_le. cbn [length] in HA. lia.
Qed.

Lemma d_stuck_back (n : nat) :
  forall (rws : list Row) (v0 : jsstring) (rw : Row) (i nc : nat) (o0 : Calls),
  text <> [] -> free_of cd text = true ->
  (Z.of_nat i =? lastColIdx numCols)%Z = false ->
  d_stuck n (mkState Unquoted (-1) rws v0 rw i nc o0).
Proof.
  induction n as [|n IH]; intros rws v0 rw i nc o0 Hne Hfree Hi; [apply d_stuck_0|].
  apply (d_stuck_step n (mkState Unquoted (-1) rws v0 rw i nc o0)
           (mkState Unquoted (-1) rws (v0 ++ slice text (-1) (-1)) rw i nc o0)).
  - cbn [pos]. unfold endPos. apply Z.leb_le. destruct text; [congruence|].
    cbn [length]. lia.
  - intros f. rewrite (d_turn_back f rws v0 rw i nc o0 Hi).
    rewrite (indexOf_At [cd] (At_start text)), (find_free cd _ Hfree). reflexivity.
  - apply IH; assumption.
Qed.

End Machine.

Lemma d_stuck_short (text : jsstring) (cd rd : ascii) (rdt : jsstring)
  (numCols chunkSize : nat) (rs : list (list Field)) (c : ascii) (w : jsstring) :
  cd <> dq -> rd <> dq -> cd <> rd ->
  text = render cd (rd :: rdt) rs ++ c :: w ->
  2 <= numCols ->
  forallb (loose_row_ok cd rd numCols) rs = true ->
  free_of cd (raw (first_field rs)) = true ->
  c <> dq -> c <> rd -> free_of cd (c :: w) = true ->
  forall (n : nat) (rws : list Row) (nc : nat) (o0 : Calls),
  d_stuck text cd rd rdt numCols chunkSize n
          (mkState NoCol (Z.of_nat (length (render cd (rd :: rdt) rs))) rws []
                   (Array numCols) 0 nc o0).
Proof.
  intros H1 H2 H3 Etext Hn Hrs Hf1 Hq Hrd Hfree.
  assert (HA : At text (Z.of_nat (length (render cd (rd :: rdt) rs))) (c :: w)).
  { exists (render cd (rd :: rdt) rs). split; [exact Etext | reflexivity]. }
  assert (Hi : (Z.of_nat 0 =? lastColIdx numCols)%Z = false)
    by (unfold lastColIdx; apply Z.eqb_neq; lia).
  induction n as [|n IH]; intros rws nc o0; [apply d_stuck_0|].
  eapply (d_stuck_step text cd rd rdt numCols chunkSize n);
    [exact (d_At_endPos text _ c w HA)
    | intros f;
      exact (d_turn_lost text cd rd rdt numCols chunkSize f c w _ rws _ 0 nc o0
               HA Hq Hrd Hfree Hi) |].
  destruct rs as [|r1 rs].
  - cbn [render flat_map app] in Etext.
    apply d_stuck_back; [rewrite Etext; discriminate | now rewrite Etext | exact Hi].
  - cbn [forallb] in Hrs. apply andb_true_iff in Hrs as [Hr1 Hrs].
    unfold loose_row_ok in Hr1. apply andb_true_iff in Hr1 as [Hlen Hc1].
    apply Nat.eqb_eq in Hlen.
    destruct r1 as [|f1 [|f2 fs]]; [discriminate | cbn [length] in Hlen; lia |].
    cbn [first_field hd] in Hf1.
    change (cells_ok cd rd (f1 :: f2 :: fs))
      with (inner_ok cd rd f1 && cells_ok cd rd (f2 :: fs)) in Hc1.
    apply andb_true_iff in Hc1 as [_ Hc1].
    set (after := c :: w) in *.
    assert (Et : text = raw f1 ++ cd :: raw_row cd (f2 :: fs) ++ (rd :: rdt)
                        ++ render cd (rd :: rdt) rs ++ after).
    { rewrite Etext, d_render_cons, d_raw_row_cons, <- ?app_assoc. cbn [app].
      now rewrite <- ?app_assoc. }
    assert (HA1 : At text 0 (raw f1 ++ cd :: raw_row cd (f2 :: fs) ++ (rd :: rdt)
                               ++ render cd (rd :: rdt) rs ++ after))
      by (rewrite <- Et; apply At_start).
    assert (Hp1 : indexOf text [cd] 0 = Z.of_nat (length (raw f1))).
    { rewrite (d_scan_col text cd 0 (raw f1) _ HA1 (free_of_Forall cd _ Hf1)). lia. }
    pose proof (At_app (raw f1) _ HA1) as HA2. cbn [Z.add] in HA2.
    eapply (d_stuck_turn text cd rd rdt numCols chunkSize n);
      [exact (d_endPos_back text c w _ HA)
      | intros f; left;
        exact (d_turn_back text cd rd rdt numCols chunkSize f rws _ _ 0 nc o0 Hi)
      | intros f _;
        exact (d_turn_back text cd rd rdt numCols chunkSize f rws _ _ 0 nc o0 Hi)
      | rewrite Hp1; cbn [pos]; lia |].
    rewrite Hp1.
    set (vB := (_ ++ slice text (-1) _)).
    apply (DistLoose.d_Q_cd text cd rd rdt numCols chunkSize H1 H2 H3
             (d_stuck text cd rd rdt numCols chunkSize n)
             (d_stuck_turn text cd rd rdt numCols chunkSize n)
             Unquoted _ _ rws vB _ 0 nc o0 HA2);
      [discriminate|].
    pose proof (DistLoose.d_Q_cells text cd rd rdt numCols chunkSize H1 H2 H3
                  (d_stuck text cd rd rdt numCols chunkSize n)
                  (d_stuck_turn text cd rd rdt numCols chunkSize n) (f2 :: fs) [vB]
                  (Z.of_nat (length (raw f1)) + 1) rws nc o0
                  (render cd (rd :: rdt) rs ++ after) Hc1) as HC.
    cbn [length map app] in HC. cbn [length] in Hlen.
    assert (Erow : array_set (@Array jsstring numCols) 0 vB =
                   Some vB :: repeat None (S (length fs)))
      by (rewrite <- Hlen; reflexivity).
    rewrite Erow.
    apply HC; [lia | exact (At_cons HA2) |].
    unfold DistLoose.d_next_row. cbv zeta.
    set (K := DistLoose.d_keep _ _ _).
    apply (DistLoose.d_Q_rows text cd rd rdt numCols chunkSize H1 H2 H3
             (d_stuck text cd rd rdt numCols chunkSize n)
             (d_stuck_turn text cd rd rdt numCols chunkSize n) rs _
             (fst (fst K)) (snd (fst K)) (snd K) after Hrs).
    + apply (At_app (rd :: rdt)).
      replace (Z.of_nat (length (raw f1)) + 1 +
               Z.of_nat (length (raw_row cd (f2 :: fs))))%Z
        with (0 + Z.of_nat (length (raw f1 ++ cd :: raw_row cd (f2 :: fs))))%Z
        by (rewrite length_app; cbn [length]; lia).
      apply At_app. rewrite <- app_assoc. exact HA1.
    + cbv zeta.
      replace (Z.of_nat (length (raw f1)) + 1 +
               Z.of_nat (length (raw_row cd (f2 :: fs))) +
               Z.of_nat (length (rd :: rdt)) +
               Z.of_nat (length (render cd (rd :: rdt) rs)))%Z
        with (Z.of_nat (length (render cd (rd :: rdt) ((f1 :: f2 :: fs) :: rs)))).
      * apply IH.
      * rewrite d_render_cons, d_raw_row_cons, ?length_app. cbn [length].
        rewrite ?length_app. cbn [length]. lia.
Qed.

(** The same for [parse] of dist, for every chunk size. *)
Lemma dist_short_row (F : Type) (cd rd : ascii) (rdt : jsstring) (schema : Schema F)
  (chunkSize : nat) (mc : option nat) (rs : list (list Field)) (c : ascii)
  (w : jsstring) :
  let numCols := or_default mc (length (cols_names schema)) in
  delims_ok cd rd = true ->
  s_quote schema <> None ->
  cols_delim schema = Some [cd] ->
  rows_delim schema = rd :: rdt ->
  2 <= numCols ->
  forallb (loose_row_ok cd rd numCols) rs = true ->
  free_of cd (raw (first_field rs)) = true ->
  c <> dq -> c <> rd -> free_of cd (c :: w) = true ->
  forall fuel,
  parse fuel (render cd (rd :: rdt) rs ++ c :: w) schema chunkSize None mc = OutOfFuel.
Proof.
  intros numCols Hd Hq Hcd Hrd Hn Hrs Hf1 Hcq Hcrd Hfree fuel.
  destruct (delims_ok_neq _ _ Hd) as (H1 & H2 & H3).
  unfold parse. rewrite Hcd, Hrd. destruct (s_quote schema); [|congruence].
  fold numCols.
  replace (match mc with Some _ => false | None => false end) with false
    by (destruct mc; reflexivity).
  set (text := render cd (rd :: rdt) rs ++ c :: w).
  assert (HS : d_stuck text cd rd rdt numCols chunkSize fuel (init numCols)).
  { apply (DistLoose.d_Q_rows text cd rd rdt numCols chunkSize H1 H2 H3
             (d_stuck text cd rd rdt numCols chunkSize fuel)
             (d_stuck_turn text cd rd rdt numCols chunkSize fuel) rs 0 [] 0 [] (c :: w)
             Hrs (At_start text)).
    cbv zeta. cbn [Z.add].
    apply (d_stuck_short text cd rd rdt numCols chunkSize rs c w H1 H2 H3 eq_refl Hn
             Hrs Hf1 Hcq Hcrd Hfree). }
  apply HS. apply le_n.
Qed.

End DistShortRow.

(** ** Plain fields with delimiters in them, and rows that stop short *)

Module LooseRows.
Import Text Loose.

(** With quoting on and no limit, on rows of [n] fields each that end
    with the row delimiter: a plain field before the last column is
    taken up to the next column delimiter, line breaks included, and a
    plain field in the last column up to the next row delimiter, column
    delimiters included.  The values come out row by row, and one row
    more for the empty text behind the last row delimiter (src, and dist
    for every chunk size). *)
Theorem loose_rows (cd rd : ascii) (rdt : jsstring) (rs : list (list Field))
  (n fuel : nat) :
  delims_ok cd rd = true ->
  forallb (loose_row_ok cd rd n) rs = true ->
  length (render cd (rd :: rdt) rs) < fuel ->
  (forall (schema : Src.Schema) (mc : option nat),
     Src.s_quote schema <> [] ->
     Src.cols_delim schema = Some [cd] ->
     Src.rows_delim schema = rd :: rdt ->
     Src.or_default mc (length (Src.cols_names schema)) = n ->
     exists calls chunk,
       Src.parse fuel (render cd (rd :: rdt) rs) schema None mc =
       Ok (calls ++ [chunk ++ [values n [Plain []]]]) /\
       concat calls ++ chunk = map (values n) rs) /\
  (forall (F : Type) (schema : Dist.Schema F) (chunkSize : nat) (mc : option nat),
     Dist.s_quote schema <> None ->
     Dist.cols_delim schema = Some [cd] ->
     Dist.rows_delim schema = rd :: rdt ->
     Dist.or_default mc (length (Dist.cols_names schema)) = n ->
     exists calls chunk nc,
       Dist.parse fuel (render cd (rd :: rdt) rs) schema chunkSize None mc =
       Ok (calls ++ [(chunk ++ [values n [Plain []]], nc)]) /\
       concat (map fst calls) ++ chunk = map (values n) rs).
Proof.
  intros Hd Hrs Hfuel. split.
  - intros schema mc Hq Hcd Hrd Hn. subst n.
    exact (SrcLoose.parse_loose cd rd rdt schema mc rs fuel Hd Hq Hcd Hrd Hrs Hfuel).
  - intros F schema chunkSize mc Hq Hcd Hrd Hn. subst n.
    exact (DistLoose.d_parse_loose F cd rd rdt schema chunkSize mc rs fuel
             Hd Hq Hcd Hrd Hrs Hfuel).
Qed.

(** Two columns: a line of three fields, and a first field that holds a
    line feed. *)
Definition wide_and_broken : list (list Field) :=
  [[Plain (str "a"); Plain (str "b,c")];
   [Plain (str "d" ++ [lf] ++ str "e"); Plain (str "f")]].

Lemma loose_rows_witness :
  exists calls chunk,
    Src.parse 20 (str "a,b,c" ++ [lf] ++ str "d" ++ [lf] ++ str "e,f" ++ [lf])
              (Samples.src_quoted 2) None None =
    Ok (calls ++ [chunk ++ [[Some []; None]]]) /\
    concat calls ++ chunk =
    [[Some (str "a"); Some (str "b,c")];
     [Some (str "d" ++ [lf] ++ str "e"); Some (str "f")]].
Proof.
  exact (proj1 (loose_rows ","%char lf [] wide_and_broken 2 20 eq_refl eq_refl
                  ltac:(cbn; lia))
           (Samples.src_quoted 2) None ltac:(discriminate) eq_refl eq_refl eq_refl).
Defined.

(** With quoting on and no limit, on a text that goes on behind whole
    rows with a plain field, when that field is not in the last column
    and no column delimiter stands in it or behind it: [parse] does not
    return, on any fuel (src, and dist for every chunk size).  The scan
    for the column delimiter answers -1, which becomes the position;
    from there the scan starts over at the head of the text, and when
    the first field of the text holds no column delimiter the rows are
    read again, without end. *)
Theorem short_row_never_returns (cd rd : ascii) (rdt : jsstring)
  (rs : list (list Field)) (c : ascii) (w : jsstring) (n : nat) :
  delims_ok cd rd = true ->
  2 <= n ->
  forallb (loose_row_ok cd rd n) rs = true ->
  free_of cd (raw (SrcShortRow.first_field rs)) = true ->
  c <> dq -> c <> rd -> free_of cd (c :: w) = true ->
  (forall (schema : Src.Schema) (mc : option nat) (fuel : nat),
     Src.s_quote schema <> [] ->
     Src.cols_delim schema = Some [cd] ->
     Src.rows_delim schema = rd :: rdt ->
     Src.or_default mc (length (Src.cols_names schema)) = n ->
     Src.parse fuel (render cd (rd :: rdt) rs ++ c :: w) schema None mc = OutOfFuel) /\
  (forall (F : Type) (schema : Dist.Schema F) (chunkSize : nat) (mc : option nat)
          (fuel : nat),
     Dist.s_quote schema <> None ->
     Dist.cols_delim schema = Some [cd] ->
     Dist.rows_delim schema = rd :: rdt ->
     Dist.or_default mc (length (Dist.cols_names schema)) = n ->
     Dist.parse fuel (render cd (rd :: rdt) rs ++ c :: w) schema chunkSize None mc =
     OutOfFuel).
Proof.
  intros Hd Hn Hrs Hf1 Hq Hrd Hfree. split.
  - intros schema mc fuel Hsq Hcd Hrds Hnum. subst n.
    exact (SrcShortRow.src_short_row cd rd rdt schema mc rs c w Hd Hsq Hcd Hrds Hn Hrs
             Hf1 Hq Hrd Hfree fuel).
  - intros F schema chunkSize mc fuel Hsq Hcd Hrds Hnum. subst n.
    exact (DistShortRow.dist_short_row F cd rd rdt schema chunkSize mc rs c w Hd Hsq Hcd
             Hrds Hn Hrs Hf1 Hq Hrd Hfree fuel).
Qed.

(** Two columns, the row [a,b] and then a line that holds [c] only. *)
Lemma short_row_never_returns_witness :
  Src.parse 1000 (str "a,b" ++ [lf] ++ str "c" ++ [lf]) (Samples.src_quoted 2) None None
  = OutOfFuel /\
  Dist.parse 1000 (str "a,b" ++ [lf] ++ str "c" ++ [lf]) (Samples.dist_quoted 2) 5
             None None = OutOfFuel.
Proof.
  pose proof (short_row_never_returns ","%char lf []
                [[Plain (str "a"); Plain (str "b")]] "c"%char [lf] 2
                eq_refl (le_n 2) eq_refl eq_refl
                ltac:(discriminate) ltac:(discriminate) eq_refl) as [HS HD].
  split.
  - exact (HS (Samples.src_quoted 2) None 1000 ltac:(discriminate) eq_refl eq_refl eq_refl).
  - exact (HD unit (Samples.dist_quoted 2) 5 None 1000 ltac:(discriminate) eq_refl eq_refl
             eq_refl).
Defined.

End LooseRows.

(** ** A row limit above the chunk size (src) *)

Module RowLimit.
Import Text Lines Samples JSFacts SplitFacts.

(** The lines of [lines_of_a n]. *)
Lemma lines_lines_of_a (n : nat) : lines (lines_of_a n) [lf] = repeat (str "a") n.
Proof.
  unfold lines. rewrite split_nonempty_sep by discriminate.
  induction n as [|n IH]; [reflexivity|].
  change (lines_of_a (S n)) with ("a"%char :: lf :: lines_of_a n).
  cbn [length].
  assert (E : find [lf] ("a"%char :: lf :: lines_of_a n) = Some 1).
  { change ("a"%char :: lf :: lines_of_a n) with (str "a" ++ [lf] ++ lines_of_a n).
    rewrite (@find_skip lf [] (str "a") ([lf] ++ lines_of_a n))
      by (repeat constructor; discriminate).
    now rewrite find_here. }
  rewrite (@SrcFast.removelast_split_from (S (length (lines_of_a n))) [lf] _ 1 E).
  cbn [firstn skipn Nat.add length repeat]. f_equal.
  rewrite (@split_from_enough [lf] (S (length (lines_of_a n))) (length (lines_of_a n))
             (lines_of_a n)) by (discriminate || lia).
  exact IH.
Qed.

(** The same text as rows of one plain field. *)
Lemma render_lines_of_a (n : nat) :
  render ","%char [lf] (repeat [Plain (str "a")] n) = lines_of_a n.
Proof.
  induction n as [|n IH]; [reflexivity|].
  cbn [repeat]. unfold render in *. cbn [flat_map]. rewrite IH. reflexivity.
Qed.

Lemma rows_of_a_ok (n : nat) :
  forallb (row_ok ","%char lf 1) (repeat [Plain (str "a")] n) = true.
Proof. induction n as [|n IH]; [reflexivity|]. cbn [repeat forallb]. now rewrite IH. Qed.

(** C6, where the code departs from it.  The row limit is one more than
    the chunk size and the text holds one line more than the limit.  On
    the quote-free path and on the quoted path alike, [parse] of src
    hands over every row of the text, one more than the limit (and, on
    the quoted path, the trailing row behind them): the rows of a call
    are counted against the limit, and their list is emptied each time
    it has grown to the chunk size, so that its length never is the
    limit. *)
Theorem C6_limit_above_chunk :
  (exists calls,
     Src.parse (S (length (lines_of_a (S (S CHUNK_SIZE)))))
               (lines_of_a (S (S CHUNK_SIZE))) (src_plain 1)
               (Some (S CHUNK_SIZE)) None = Ok calls /\
     concat calls = repeat [Some (str "a")] (S (S CHUNK_SIZE))) /\
  (exists calls,
     Src.parse (S (length (lines_of_a (S (S CHUNK_SIZE)))))
               (lines_of_a (S (S CHUNK_SIZE))) (src_quoted 1)
               (Some (S CHUNK_SIZE)) None = Ok calls /\
     concat calls = repeat [Some (str "a")] (S (S CHUNK_SIZE)) ++ [[Some []]]).
Proof.
  assert (Hoff : S CHUNK_SIZE = 0 \/ CHUNK_SIZE < S CHUNK_SIZE) by (right; lia).
  set (n := S (S CHUNK_SIZE)). split.
  - destruct (@SrcFast.parse_fast (lines_of_a n) (src_plain 1) None
                (S (length (lines_of_a n))) eq_refl)
      as (calls & E & Hc); [discriminate | lia |].
    exists calls. split.
    + etransitivity; [|exact E]. unfold Src.parse. cbn [Src.s_quote src_plain].
      apply Limits.src_fast_limit_off; [exact Hoff | cbn [length]; unfold CHUNK_SIZE; lia].
    + rewrite Hc. cbn [Src.cols_delim Src.rows_delim src_plain].
      rewrite lines_lines_of_a, map_repeat. reflexivity.
  - pose proof (@SrcQuoted.parse_text ","%char lf [] (src_quoted 1) None
                  (repeat [Plain (str "a")] n) [Plain []]
                  (S (length (lines_of_a n))) eq_refl) as H.
    cbv zeta in H. cbn [raw_row map raw join] in H.
    rewrite app_nil_r, render_lines_of_a in H.
    destruct H as (calls & chunk & E & Hc);
      [discriminate | reflexivity | reflexivity | apply rows_of_a_ok | reflexivity | lia |].
    cbn [Src.or_default src_quoted Src.cols_names repeat length] in E, Hc.
    exists (calls ++ [chunk ++ [values 1 [Plain []]]]). split.
    + etransitivity; [|exact E]. unfold Src.parse.
      cbn [Src.s_quote Src.cols_delim src_quoted quote].
      apply Limits.loop_limit_off;
        [exact Hoff | cbn [Src.rows Src.init length]; unfold CHUNK_SIZE; lia].
    + rewrite concat_app. cbn [concat]. rewrite app_nil_r, app_assoc, Hc, map_repeat.
      reflexivity.
Qed.

End RowLimit.

(** ** Texts that end with the row delimiter and have no trailing row *)

Module TrailingRow.
Import Text Samples Loose.

(** C10 as it is written fails on texts whose rows are not well formed.
    In [short_second_row] the second line holds one field where there
    are two columns: the text ends with the row delimiter, and [parse]
    (src and dist) does not return, on any fuel.  With a row delimiter of
    two characters, of which [parse] looks at the first only, and one
    column, the text of a carriage return and a row delimiter ends with
    the row delimiter, and the last row of the parse holds the line
    feed, not the empty string. *)
Lemma C10_counterexample :
  (forall fuel,
     Src.parse fuel short_second_row (src_quoted 2) None None = OutOfFuel) /\
  (forall fuel,
     Dist.parse fuel short_second_row (dist_quoted 2) CHUNK_SIZE None None = OutOfFuel) /\
  Src.parse 4 [cr; cr; lf] src_quoted_crlf None None = Ok [[[Some []]; [Some [lf]]]] /\
  Dist.parse 4 [cr; cr; lf] dist_quoted_crlf CHUNK_SIZE None None =
  Ok [([[Some []]; [Some [lf]]], 0)].
Proof.
  split; [|split; [|split]].
  - exact (SrcShortRow.src_short_row ","%char lf [] (src_quoted 2) None
             [[Plain (str "a"); Plain (str "b")]] "c"%char [lf]
             eq_refl ltac:(discriminate) eq_refl eq_refl (le_n 2) eq_refl eq_refl
             ltac:(discriminate) ltac:(discriminate) eq_refl).
  - exact (DistShortRow.dist_short_row unit ","%char lf [] (dist_quoted 2) CHUNK_SIZE None
             [[Plain (str "a"); Plain (str "b")]] "c"%char [lf]
             eq_refl ltac:(discriminate) eq_refl eq_refl (le_n 2) eq_refl eq_refl
             ltac:(discriminate) ltac:(discriminate) eq_refl).
  - vm_compute. reflexivity.
  - vm_compute. reflexivity.
Qed.

End TrailingRow.
